(** * perfme: the measurement scheduling and statistics engine

    A shallow embedding of [src/src/MeasurementEngine.ts]: the path matcher,
    the plan builder, the sampler, the statistics reducer and the run loop of
    [MeasurementEngine.runMeasurements], with the theorems that relate the
    code to its specification.

    Modelling conventions.
    - A JavaScript [number] that takes part in arithmetic is a value of an
      abstract number type [num] with the operations of the class [NumOps];
      the instance [Float64] interprets it as IEEE 754 binary64 with Rocq's
      primitive floats, which is what a JavaScript engine computes. The
      laws of arithmetic that the progress values rest on are the class
      [NumLaws]; the instance [Rational.binary64] interprets a number as a
      rational, an infinity or NaN and rounds the result of every operation
      to 53 significant bits, to nearest and ties to even (the rounding of
      binary64, with an exponent that is not bounded).
    - Counts that only bound a [for] loop ([dataUnitsCount], [seriesCount],
      [seriesSize], [memoryMeasurementsCount]) are natural numbers [N].
    - Functions registered by the caller are opaque: a function is an
      identity (an [FnId] or a [GenId], compared like [===] compares function
      objects) and each call is an interaction with the environment, which is
      an [Oracle]: it decides what the call returns, whether it throws, and
      which calls of [stop()] and [skipPathKey()] reach the engine while the
      call (or the [await]) is pending.
    - The registry read through [getRegisteredFunctions], [getCustomEvaluations],
      [getSettings] and [getTestHierarchy] is an argument of the run.
    - The registration API of [index.ts] ([describe], [measure],
      [measureAsync], [evaluate], [createCustomChart], [aggregateMeasure],
      [aggregateEvaluate]) works on the state [RegistryState] of the module
      variables; the calls of a test file are a list of [Decl]; [registryOf]
      is the registry that a run reads from such a state. The two counters
      are natural numbers (a JavaScript number counts exactly up to 2^53).
    - A [Map] or a [Set] whose iteration order matters ([getGroups]) is a
      list in insertion order. *)

From Stdlib Require Import ZArith NArith Floats Lia QArith Qcanon Qround Qpower.
From stdpp Require Import base option list strings gmap pretty.

Close Scope Qc_scope.
Close Scope Q_scope.

Local Open Scope string_scope.
Local Open Scope list_scope.

(** ** Numbers *)

(** The arithmetic of JavaScript numbers that the engine uses. *)
Class NumOps (num : Type) := {
  n_of_N : N -> num;              (* a non-negative integer literal or length *)
  n_add : num -> num -> num;      (* a + b *)
  n_sub : num -> num -> num;      (* a - b *)
  n_mul : num -> num -> num;      (* a * b *)
  n_div : num -> num -> num;      (* a / b *)
  n_leb : num -> num -> bool;     (* a <= b *)
  n_min2 : num -> num -> num;     (* Math.min(a, b) *)
  n_max2 : num -> num -> num;     (* Math.max(a, b) *)
  n_pinf : num;                   (* Infinity *)
  n_ninf : num;                   (* -Infinity *)
  n_round : num -> num            (* Math.round(a) *)
}.

(** The laws of arithmetic that the progress values rest on: the integers
    up to [2^53] are numbers, sums and products of them are exact while they
    stay below [2^53], and division, the multiplication by 100 and
    [Math.round] are monotone. *)
Class NumLaws (num : Type) `{NumOps num} : Prop := {
  add_exact : ∀ a b : N, (a + b ≤ 2 ^ 53)%N →
    n_add (n_of_N a) (n_of_N b) = n_of_N (a + b);
  mul_exact : ∀ a b : N, (a ≤ 2 ^ 53)%N → (b ≤ 2 ^ 53)%N → (a * b ≤ 2 ^ 53)%N →
    n_mul (n_of_N a) (n_of_N b) = n_of_N (a * b);
  div_self : ∀ t : N, (0 < t)%N → (t ≤ 2 ^ 53)%N →
    n_div (n_of_N t) (n_of_N t) = n_of_N 1;
  round_exact : ∀ n : N, (n ≤ 2 ^ 53)%N → n_round (n_of_N n) = n_of_N n;
  div_mono : ∀ a b t : N, (a ≤ b)%N → (b ≤ 2 ^ 53)%N → (0 < t)%N → (t ≤ 2 ^ 53)%N →
    n_leb (n_div (n_of_N a) (n_of_N t)) (n_div (n_of_N b) (n_of_N t)) = true;
  mul_mono : ∀ x y : num, n_leb x y = true →
    n_leb (n_mul x (n_of_N 100)) (n_mul y (n_of_N 100)) = true;
  round_mono : ∀ x y : num, n_leb x y = true → n_leb (n_round x) (n_round y) = true
}.

Module Float64.
Import PrimFloat.
Local Open Scope float_scope.

(** [Math.min(a, b)]: NaN if either is NaN, and -0 is below +0. *)
Definition min2 (a b : float) : float :=
  if is_nan a || is_nan b then nan
  else if a <? b then a
  else if b <? a then b
  else if get_sign a then a else b.

(** [Math.max(a, b)]: NaN if either is NaN, and +0 is above -0. *)
Definition max2 (a b : float) : float :=
  if is_nan a || is_nan b then nan
  else if a <? b then b
  else if b <? a then a
  else if get_sign a then b else a.

Definition two52 : float := 4503599627370496.

(** The largest integer that is not above [x], for 0 <= x < 2^52. *)
Definition floor_pos (x : float) : float :=
  let r := (x + two52) - two52 in
  if x <? r then r - 1 else r.

(** [Math.round(x)]: the integer nearest to [x], ties towards +Infinity. *)
Definition round (x : float) : float :=
  if is_nan x then x
  else if two52 <=? abs x then x
  else if 0 <=? x then
    let f := floor_pos x in
    if 0.5 <=? x - f then f + 1 else f
  else
    (* x < 0: round(x) = -(floor(-x + 1/2)) except that a tie goes up *)
    let a := - x in
    let f := floor_pos a in
    let d := a - f in
    if d <=? 0.5 then (if f =? 0 then neg_zero else - f) else - (f + 1).

(** Correctly rounded conversion of a non-negative integer. *)
Definition of_N (n : N) : float :=
  SF2Prim (binary_normalize prec emax (Z.of_N n) 0 false).

#[global] Instance ops : NumOps float := {|
  n_of_N := of_N;
  n_add := add; n_sub := sub; n_mul := mul; n_div := div;
  n_leb := leb;
  n_min2 := min2; n_max2 := max2;
  n_pinf := infinity; n_ninf := neg_infinity;
  n_round := round
|}.
End Float64.

(** ** Rounding to binary64 *)

(** The rounding of a rational to 53 significant bits, to nearest and ties
    to even. *)
Module Binary64.
Local Open Scope Q_scope.

Definition pow2 (z : Z) : Q := 2 ^ z.

(** The exponent of a positive rational: the [e] with [2^e <= x < 2^(e+1)]. *)
Definition lg (x : Q) : Z :=
  let e0 := (Z.log2 (Qnum x) - Z.log2 (Zpos (Qden x)))%Z in
  if Qle_bool (pow2 e0) x then e0 else (e0 - 1)%Z.

(** The integer nearest to [x], ties to even. *)
Definition rne (x : Q) : Z :=
  let f := Qfloor x in
  match Qcompare (x - inject_Z f) (1 # 2) with
  | Lt => f
  | Gt => (f + 1)%Z
  | Eq => if Z.even f then f else (f + 1)%Z
  end.

(** A positive rational rounded to 53 significant bits. *)
Definition rnd_pos (x : Q) : Q :=
  inject_Z (rne (x * pow2 (52 - lg x))) * pow2 (lg x - 52).

Definition rndQ (x : Q) : Q :=
  match Qcompare x 0 with
  | Gt => rnd_pos x
  | Eq => 0
  | Lt => - rnd_pos (- x)
  end.

Definition rnd (q : Qc) : Qc := Q2Qc (rndQ q).

End Binary64.

(** ** Rational numbers with rounding *)

(** JavaScript numbers as rationals: every operation computes the exact
    result and rounds it with [rnd]. *)
Module Rational.

(** A rational, an infinity or "not a number". *)
Inductive xnum :=
  | XFin (q : Qc)
  | XInf (negative : bool)
  | XNaN.

Section Ops.
(** The rounding of the result of every operation. *)
Variable rnd : Qc -> Qc.

Definition isNeg (q : Qc) : bool := bool_decide (q < 0)%Qc.
Definition isZero (q : Qc) : bool := bool_decide (q = 0%Qc).

Definition of_N (n : N) : xnum := XFin (rnd (Qc_of_Z (Z.of_N n))).

Definition add (a b : xnum) : xnum :=
  match a, b with
  | XNaN, _ | _, XNaN => XNaN
  | XFin p, XFin q => XFin (rnd (p + q))
  | XInf s, XFin _ | XFin _, XInf s => XInf s
  | XInf s, XInf t => if Bool.eqb s t then XInf s else XNaN
  end.

Definition opp (a : xnum) : xnum :=
  match a with
  | XFin q => XFin (- q)
  | XInf s => XInf (negb s)
  | XNaN => XNaN
  end.

Definition sub (a b : xnum) : xnum := add a (opp b).

Definition mul (a b : xnum) : xnum :=
  match a, b with
  | XNaN, _ | _, XNaN => XNaN
  | XFin p, XFin q => XFin (rnd (p * q))
  | XInf s, XFin q | XFin q, XInf s => if isZero q then XNaN else XInf (xorb s (isNeg q))
  | XInf s, XInf t => XInf (xorb s t)
  end.

Definition div (a b : xnum) : xnum :=
  match a, b with
  | XNaN, _ | _, XNaN => XNaN
  | XFin p, XFin q =>
      if isZero q then (if isZero p then XNaN else XInf (isNeg p))
      else XFin (rnd (p / q))
  | XFin _, XInf _ => XFin 0
  | XInf s, XFin q => XInf (xorb s (isNeg q))
  | XInf _, XInf _ => XNaN
  end.

Definition leb (a b : xnum) : bool :=
  match a, b with
  | XNaN, _ | _, XNaN => false
  | XFin p, XFin q => bool_decide (p ≤ q)%Qc
  | XInf true, _ => true
  | _, XInf false => true
  | _, _ => false
  end.

Definition min2 (a b : xnum) : xnum :=
  match a, b with
  | XNaN, _ | _, XNaN => XNaN
  | _, _ => if leb a b then a else b
  end.

Definition max2 (a b : xnum) : xnum :=
  match a, b with
  | XNaN, _ | _, XNaN => XNaN
  | _, _ => if leb a b then b else a
  end.

(** [Math.round]: the integer nearest to [q], ties towards +Infinity. *)
Definition round (a : xnum) : xnum :=
  match a with
  | XFin q => XFin (Qc_of_Z (Qfloor (q + Q2Qc (1 # 2))%Qc))
  | _ => a
  end.

Definition ops : NumOps xnum := {|
  n_of_N := of_N;
  n_add := add; n_sub := sub; n_mul := mul; n_div := div;
  n_leb := leb;
  n_min2 := min2; n_max2 := max2;
  n_pinf := XInf false; n_ninf := XInf true;
  n_round := round
|}.

End Ops.

(** The numbers rounded like binary64. *)
Definition binary64 : NumOps xnum := ops Binary64.rnd.

(** The rational that a finite number is. *)
Definition value (a : xnum) : option Q :=
  match a with
  | XFin q => Some (this q)
  | _ => None
  end.

End Rational.

(** ** Data model ([types.ts]) *)

(** The identity of a registered target function and of a data generator. *)
Definition FnId := nat.
Definition GenId := nat.

(** One level of a selection pattern: [undefined | string | string[]]. *)
Inductive Filter :=
  | FAny
  | FExact (s : string)
  | FSet (l : list string).

Record CustomChart := { chart_id : string }.

(** [TestNode = DescribeNode | MeasureNode | EvaluateNode]. *)
Inductive TestNode :=
  | DescribeNode (title : string) (path : list string) (children : list TestNode)
  | MeasureNode (title : string) (path : list string)
      (fn : FnId) (dataGenerator : GenId) (isAsync : bool)
  | EvaluateNode (title : string) (path : list string) (customChart : CustomChart)
      (fn : FnId) (dataGenerator : GenId).

Record RegisteredFunction := {
  rf_group : string;
  rf_subGroup : string;
  rf_title : string;
  rf_fn : FnId;
  rf_dataGenerator : GenId;
  rf_isAsync : option bool;
  rf_path : option (list string)
}.

Record CustomEvaluation := {
  ce_customChart : CustomChart;
  ce_group : string;
  ce_subGroup : string;
  ce_title : string;
  ce_fn : FnId;
  ce_dataGenerator : GenId;
  ce_path : option (list string)
}.

#[global] Instance Filter_eq_dec : EqDecision Filter.
Proof. solve_decision. Defined.
#[global] Instance CustomChart_eq_dec : EqDecision CustomChart.
Proof. solve_decision. Defined.
#[global] Instance RegisteredFunction_eq_dec : EqDecision RegisteredFunction.
Proof. solve_decision. Defined.
#[global] Instance CustomEvaluation_eq_dec : EqDecision CustomEvaluation.
Proof. solve_decision. Defined.

(** ** Path matcher *)

(** The body of the [for] loop of [matchesPathPattern], from index [i] on;
    [rest] is what is left of the pattern. [path !! i] is [path[i]]. *)
Fixpoint matchesFrom (path : list string) (i : nat) (rest : list Filter) : bool :=
  match rest with
  | [] => true
  | patternSegment :: rest' =>
      match patternSegment with
      | FAny => matchesFrom path (S i) rest'
      | FExact s =>
          if bool_decide (path !! i = Some s) then matchesFrom path (S i) rest'
          else false
      | FSet l =>
          match path !! i with
          | Some pathSegment =>
              if bool_decide (pathSegment ∈ l) then matchesFrom path (S i) rest'
              else false
          | None => false
          end
      end
  end.

Definition matchesPathPattern (path : list string) (pattern : list Filter) : bool :=
  if bool_decide (length path < length pattern)%nat then false
  else matchesFrom path 0 pattern.

(** What one filter accepts, in the words of the specification: "match
    any" always succeeds, exact match requires string equality, set match
    requires membership. [segment] is [path[i]]. *)
Definition filter_accepts (f : Filter) (segment : option string) : Prop :=
  match f with
  | FAny => True
  | FExact s => segment = Some s
  | FSet l => ∃ seg, segment = Some seg ∧ seg ∈ l
  end.

(** ** Plan builder *)

(** [Array.prototype.join] on an array of strings. *)
Fixpoint join (sep : string) (l : list string) : string :=
  match l with
  | [] => ""
  | [x] => x
  | x :: rest => x ++ sep ++ join sep rest
  end.

Definition pathSep : string := " > ".

(** The filter applied to the registered functions and evaluations. *)
Definition selected (selectedPaths : list (list Filter)) (path : option (list string)) : bool :=
  match path with
  | None => false
  | Some p => existsb (fun patternPath => matchesPathPattern p patternPath) selectedPaths
  end.

Definition applySelection {A} (get_path : A -> option (list string))
    (selectedPaths : option (list (list Filter))) (l : list A) : list A :=
  match selectedPaths with
  | Some (pat :: pats) => List.filter (fun f => selected (pat :: pats) (get_path f)) l
  | _ => l
  end.

Inductive NodeType := TMeasure | TEvaluate.

Record OrderedNode := {
  on_type : NodeType;
  on_path : list string;
  on_title : string
}.

(** [traverseNode]: the leaves in depth-first order, children in declaration order. *)
Fixpoint traverseNode (node : TestNode) : list OrderedNode :=
  match node with
  | MeasureNode title path _ _ _ =>
      [ {| on_type := TMeasure; on_path := path; on_title := title |} ]
  | EvaluateNode title path _ _ _ =>
      [ {| on_type := TEvaluate; on_path := path; on_title := title |} ]
  | DescribeNode _ _ children =>
      (fix traverseChildren (l : list TestNode) : list OrderedNode :=
         match l with
         | [] => []
         | child :: l' => traverseNode child ++ traverseChildren l'
         end) children
  end.

(** [functionByPath] and [evalByPath]: a later entry replaces an earlier one
    with the same key; entries without a path or with an empty path are left out. *)
Definition byPath {A} (get_path : A -> option (list string)) (l : list A) : gmap string A :=
  fold_left (fun m f =>
    match get_path f with
    | Some (seg :: segs) => <[ join pathSep (seg :: segs) := f ]> m
    | _ => m
    end) l ∅.

Inductive ItemBody :=
  | IMeasure (measure : RegisteredFunction)
  | IEvaluate (evaluate : CustomEvaluation).

Record UnifiedItem := {
  ui_registrationIndex : nat;
  ui_pathKey : option string;   (* [undefined] for a leaf whose path is empty *)
  ui_title : string;
  ui_body : ItemBody
}.

Definition ui_type (it : UnifiedItem) : NodeType :=
  match ui_body it with IMeasure _ => TMeasure | IEvaluate _ => TEvaluate end.

(** [node.path.length > 1 ? node.path.slice(0, -1).join(' > ') : node.path[0]] *)
Definition keyPath (path : list string) : option string :=
  if bool_decide (1 < length path)%nat then Some (join pathSep (removelast path))
  else head path.

(** The body that the plan attaches to a node of the hierarchy. *)
Definition found (functionByPath : gmap string RegisteredFunction)
    (evalByPath : gmap string CustomEvaluation)
    (node : OrderedNode) : option ItemBody :=
  match on_type node with
  | TMeasure => IMeasure <$> functionByPath !! join pathSep (on_path node)
  | TEvaluate => IEvaluate <$> evalByPath !! join pathSep (on_path node)
  end.

(** The loop that fills [unifiedItems]. *)
Fixpoint unify (functionByPath : gmap string RegisteredFunction)
    (evalByPath : gmap string CustomEvaluation)
    (nodes : list OrderedNode) (registrationIndex : nat) : list UnifiedItem :=
  match nodes with
  | [] => []
  | node :: nodes' =>
      match found functionByPath evalByPath node with
      | Some body =>
          {| ui_registrationIndex := registrationIndex;
             ui_pathKey := keyPath (on_path node);
             ui_title := on_title node;
             ui_body := body |}
          :: unify functionByPath evalByPath nodes' (S registrationIndex)
      | None => unify functionByPath evalByPath nodes' registrationIndex
      end
  end.

(** One turn of the loop that fills [itemsByPathKey]. *)
Definition groupStep (m : gmap (option string) (list UnifiedItem)) (item : UnifiedItem)
    : gmap (option string) (list UnifiedItem) :=
  let m1 := match m !! ui_pathKey item with
            | None => <[ ui_pathKey item := [] ]> m
            | Some _ => m
            end in
  <[ ui_pathKey item := default [] (m1 !! ui_pathKey item) ++ [item] ]> m1.

(** [itemsByPathKey]: the items of each path key, in the order they were pushed. *)
Definition groupByPathKey (unifiedItems : list UnifiedItem)
    : gmap (option string) (list UnifiedItem) :=
  fold_left groupStep unifiedItems ∅.

(** [items.sort((a, b) => a.registrationIndex - b.registrationIndex)]: a stable sort. *)
Fixpoint insertByIndex (x : UnifiedItem) (l : list UnifiedItem) : list UnifiedItem :=
  match l with
  | [] => [x]
  | y :: l' =>
      if bool_decide (ui_registrationIndex y ≤ ui_registrationIndex x)%nat
      then y :: insertByIndex x l'
      else x :: y :: l'
  end.

Definition sortByIndex (l : list UnifiedItem) : list UnifiedItem :=
  fold_left (fun acc x => insertByIndex x acc) l [].

(** The registration indices of a list of items do not decrease. *)
Definition indexSorted (l : list UnifiedItem) : Prop :=
  ∀ i j x y, (i < j)%nat → l !! i = Some x → l !! j = Some y →
    (ui_registrationIndex x ≤ ui_registrationIndex y)%nat.

(** [allPathKeys]: the path keys in order of first appearance. *)
Fixpoint collectPathKeys (unifiedItems : list UnifiedItem)
    (seenPathKeys : gset (option string)) : list (option string) :=
  match unifiedItems with
  | [] => []
  | item :: rest =>
      if bool_decide (ui_pathKey item ∈ seenPathKeys)
      then collectPathKeys rest seenPathKeys
      else ui_pathKey item :: collectPathKeys rest ({[ ui_pathKey item ]} ∪ seenPathKeys)
  end.

Record Plan := {
  plan_unifiedItems : list UnifiedItem;
  plan_itemsByPathKey : gmap (option string) (list UnifiedItem);
  plan_allPathKeys : list (option string)
}.

(** Lines 385-511 of [runMeasurements]. *)
Definition buildPlan (selectedPaths : option (list (list Filter)))
    (functions : list RegisteredFunction) (customEvals : list CustomEvaluation)
    (hierarchy : TestNode) : Plan :=
  let filteredFunctions := applySelection rf_path selectedPaths functions in
  let filteredEvals := applySelection ce_path selectedPaths customEvals in
  let orderedNodes := traverseNode hierarchy in
  let functionByPath := byPath rf_path filteredFunctions in
  let evalByPath := byPath ce_path filteredEvals in
  let unifiedItems := unify functionByPath evalByPath orderedNodes 0 in
  {| plan_unifiedItems := unifiedItems;
     plan_itemsByPathKey := sortByIndex <$> groupByPathKey unifiedItems;
     plan_allPathKeys := collectPathKeys unifiedItems ∅ |}.

(** [itemsByPathKey.get(pathKey) || []] *)
Definition itemsOf (p : Plan) (pathKey : option string) : list UnifiedItem :=
  default [] (plan_itemsByPathKey p !! pathKey).

(** ** Configuration *)

Record MeasureSettings (num : Type) := {
  set_dataUnitSizes : option (list num);
  set_dataUnitsCount : option N;
  set_seriesSize : option N;
  set_seriesCount : option N;
  set_delay : option num;
  set_forceGC : option bool;
  set_memoryMeasurementsCount : option N
}.

Record MeasurementConfig (num : Type) := {
  selectedPaths : option (list (list Filter));
  dataUnitSizes : option (list num);
  dataUnitsCount : option N;
  seriesSize : option N;
  seriesCount : option N;
  delay : option num;
  forceGC : option bool;
  memoryMeasurementsCount : option N
}.

Arguments set_dataUnitSizes {num}. Arguments set_dataUnitsCount {num}.
Arguments set_seriesSize {num}. Arguments set_seriesCount {num}.
Arguments set_delay {num}. Arguments set_forceGC {num}.
Arguments set_memoryMeasurementsCount {num}.
Arguments selectedPaths {num}. Arguments dataUnitSizes {num}.
Arguments dataUnitsCount {num}. Arguments seriesSize {num}.
Arguments seriesCount {num}. Arguments delay {num}. Arguments forceGC {num}.
Arguments memoryMeasurementsCount {num}.

(** [a ?? b] *)
Definition orElse {A} (a b : option A) : option A :=
  match a with Some _ => a | None => b end.

(** The registry that the run reads through the imports of [./index]. *)
Record Registry (num : Type) := {
  reg_functions : list RegisteredFunction;     (* getRegisteredFunctions() *)
  reg_customEvals : list CustomEvaluation;     (* getCustomEvaluations() *)
  reg_settings : MeasureSettings num;          (* getSettings() *)
  reg_hierarchy : TestNode                     (* getTestHierarchy() *)
}.
Arguments reg_functions {num}. Arguments reg_customEvals {num}.
Arguments reg_settings {num}. Arguments reg_hierarchy {num}.

(** ** Results and progress events *)

Record MeasurementResult (num : Type) := {
  mr_path : option (list string);
  mr_title : string;
  mr_dataSize : num;
  mr_series : list num;
  mr_avg : num;
  mr_min : num;
  mr_max : num;
  mr_opsPerSecond : num;
  mr_duration : num;
  mr_durationMin : num;
  mr_durationMax : num;
  mr_memory : option (list num);
  mr_memoryAvg : option num;
  mr_memoryMin : option num;
  mr_memoryMax : option num
}.

Record CustomMeasurementResult (num : Type) := {
  cr_path : option (list string);
  cr_title : string;
  cr_dataSize : num;
  cr_values : list num;
  cr_avg : num;
  cr_min : num;
  cr_max : num;
  cr_customChartId : string
}.

Record ProgressEvent (num : Type) := {
  ev_path : option (list string);
  ev_title : string;
  ev_dataSize : num;
  ev_progress : num;
  ev_result : option (MeasurementResult num);
  ev_customResult : option (CustomMeasurementResult num)
}.

Arguments mr_path {num}. Arguments mr_title {num}. Arguments mr_dataSize {num}.
Arguments mr_series {num}. Arguments mr_avg {num}. Arguments mr_min {num}.
Arguments mr_max {num}. Arguments mr_opsPerSecond {num}.
Arguments mr_duration {num}. Arguments mr_durationMin {num}.
Arguments mr_durationMax {num}. Arguments mr_memory {num}.
Arguments mr_memoryAvg {num}. Arguments mr_memoryMin {num}.
Arguments mr_memoryMax {num}.
Arguments cr_path {num}. Arguments cr_title {num}. Arguments cr_dataSize {num}.
Arguments cr_values {num}. Arguments cr_avg {num}. Arguments cr_min {num}.
Arguments cr_max {num}. Arguments cr_customChartId {num}.
Arguments ev_path {num}. Arguments ev_title {num}. Arguments ev_dataSize {num}.
Arguments ev_progress {num}. Arguments ev_result {num}.
Arguments ev_customResult {num}.

(** ** The engine object and its environment *)

Record EngineState := {
  stopRequested : bool;
  skippedSubGroups : gset string
}.

(** [stop()] *)
Definition stop (e : EngineState) : EngineState :=
  {| stopRequested := true; skippedSubGroups := skippedSubGroups e |}.

(** [skipPathKey(pathKey)] *)
Definition skipPathKey (pathKey : string) (e : EngineState) : EngineState :=
  {| stopRequested := stopRequested e;
     skippedSubGroups := {[ pathKey ]} ∪ skippedSubGroups e |}.

(** [skipSubGroup(group, subGroup)] *)
Definition skipSubGroup (group subGroup : string) (e : EngineState) : EngineState :=
  skipPathKey (group ++ "-" ++ subGroup) e.

(** [this.skippedSubGroups.has(pathKey)]; the set holds strings only. *)
Definition isSkipped (pathKey : option string) (e : EngineState) : bool :=
  match pathKey with
  | Some k => bool_decide (k ∈ skippedSubGroups e)
  | None => false
  end.

(** A call of the control surface that reaches the engine while it runs. *)
Inductive Cmd :=
  | CStop
  | CSkip (pathKey : string).

Definition applyCmd (e : EngineState) (c : Cmd) : EngineState :=
  match c with
  | CStop => stop e
  | CSkip k => skipPathKey k e
  end.

Definition applyCmds (e : EngineState) (cs : list Cmd) : EngineState :=
  fold_left applyCmd cs e.

Definition Exn := string.

(** What the engine does to its environment, one entry per interaction. *)
Inductive Act (num D : Type) :=
  | AGen (g : GenId) (dataSize : num)      (* dataGenerator(dataSize) *)
  | AFn (f : FnId) (datum : option D)      (* fn(datum), awaited if the leaf is async *)
  | AAwait                                 (* await of measureSeries[Memory]Async *)
  | ADelay (ms : num)                      (* await of setTimeout(resolve, delay) *)
  | ATime                                  (* getTime() *)
  | AMem                                   (* getMemoryUsage() *)
  | AGC                                    (* runGC() *)
  | AEmit (ev : ProgressEvent num).        (* onProgress(ev) *)
Arguments AGen {num D}. Arguments AFn {num D}. Arguments AAwait {num D}.
Arguments ADelay {num D}. Arguments ATime {num D}. Arguments AMem {num D}.
Arguments AGC {num D}. Arguments AEmit {num D}.

(** The answer of the environment to one interaction: the calls of the
    control surface made meanwhile, an exception if the call throws, and the
    value returned (a datum from a generator, a number from an evaluated
    function, a clock or a memory probe). *)
Record Reply (num D : Type) := {
  r_cmds : list Cmd;
  r_throw : option Exn;
  r_datum : D;
  r_num : num
}.
Arguments r_cmds {num D}. Arguments r_throw {num D}.
Arguments r_datum {num D}. Arguments r_num {num D}.

(** The environment: the reply to the [i]-th interaction of the run. *)
Definition Oracle (num D : Type) := nat -> Act num D -> Reply num D.

Record St (num D : Type) := {
  eng : EngineState;
  trace : list (Act num D)
}.
Arguments eng {num D}. Arguments trace {num D}.

Inductive Res (A : Type) :=
  | Ok (a : A)
  | Throw (e : Exn).
Arguments Ok {A}. Arguments Throw {A}.

(** Computations of the engine: state passing with exceptions. *)
Definition M (num D A : Type) := St num D -> Res A * St num D.

Definition ret {num D A} (a : A) : M num D A := fun s => (Ok a, s).

Definition bind {num D A B} (m : M num D A) (k : A -> M num D B) : M num D B :=
  fun s => match m s with
           | (Ok a, s') => k a s'
           | (Throw e, s') => (Throw e, s')
           end.

Notation "'let!' x ':=' m 'in' k" := (bind m (fun x => k))
  (at level 10, x name, m at level 100, k at level 200).
Notation "'do!' m 'in' k" := (bind m (fun _ => k))
  (at level 10, m at level 100, k at level 200).

(** [x >>> 0] on a non-negative integer. *)
Definition uint32 (n : N) : N := (n mod 4294967296)%N.

Section Engine.
Context {num : Type} {NO : NumOps num} {D : Type}.
Variable oracle : Oracle num D.

Abbreviation Mc := (M num D).

(** A call of a registered function, of a generator or of the observer:
    control calls made during it take effect, and it may throw. *)
Definition call (a : Act num D) : Mc (Reply num D) := fun s =>
  let r := oracle (length (trace s)) a in
  let s' := {| eng := applyCmds (eng s) (r_cmds r); trace := trace s ++ [a] |} in
  match r_throw r with
  | Some e => (Throw e, s')
  | None => (Ok r, s')
  end.

(** [dataGenerator(dataSize)] *)
Definition callGenerator (g : GenId) (dataSize : num) : Mc D :=
  let! r := call (AGen g dataSize) in ret (r_datum r).

(** [fn(datum)], or [await fn(datum)] for an async leaf; the value returned
    matters for an evaluate leaf only, where it is a number. *)
Definition callFn (f : FnId) (datum : option D) : Mc num :=
  let! r := call (AFn f datum) in ret (r_num r).

(** [onProgress(ev)] *)
Definition onProgress (ev : ProgressEvent num) : Mc unit :=
  do! call (AEmit ev) in ret tt.

(** A suspension ([await] of a timer or of an async series): control calls
    made while the run is suspended take effect; nothing is thrown. *)
Definition suspend (a : Act num D) : Mc unit := fun s =>
  let r := oracle (length (trace s)) a in
  (Ok tt, {| eng := applyCmds (eng s) (r_cmds r); trace := trace s ++ [a] |}).

(** [if (cond(this)) m1 else m2]: a test of the fields of the engine. *)
Definition ifState {A} (cond : EngineState -> bool) (m1 m2 : Mc A) : Mc A := fun s =>
  if cond (eng s) then m1 s else m2 s.

(** A probe of the platform ([getTime], [getMemoryUsage], [runGC]): it
    returns a reading and runs no code of the caller. *)
Definition probe (a : Act num D) : Mc num := fun s =>
  let r := oracle (length (trace s)) a in
  (Ok (r_num r), {| eng := eng s; trace := trace s ++ [a] |}).

Definition getTime : Mc num := probe ATime.
Definition getMemoryUsage : Mc num := probe AMem.
Definition runGC : Mc unit := do! probe AGC in ret tt.

(** [for (let i = i0; i < i0 + n; i++) acc.push(body(i))] *)
Fixpoint forPush {A} (body : N -> Mc A) (i : N) (n : nat) : Mc (list A) :=
  match n with
  | O => ret []
  | S n' =>
      let! x := body i in
      let! xs := forPush body (N.succ i) n' in
      ret (x :: xs)
  end.

(** [for (const x of l) acc.push(body(x))] *)
Fixpoint forEachPush {A B} (body : A -> Mc B) (l : list A) : Mc (list B) :=
  match l with
  | [] => ret []
  | x :: l' =>
      let! y := body x in
      let! ys := forEachPush body l' in
      ret (y :: ys)
  end.

(** [data[i % count]]: [undefined] when [count] is 0. *)
Definition cyclicDatum (data : list D) (count i : N) : option D :=
  if (count =? 0)%N then None else data !! N.to_nat (i mod count)%N.

(** [measureSeries] *)
Definition measureSeries (seriesSize : N) (data : list D) (fn : FnId) : Mc num :=
  let count := uint32 (N.of_nat (length data)) in
  let! startTime := getTime in
  do! forPush (fun i => callFn fn (cyclicDatum data count i)) 0
        (N.to_nat (uint32 seriesSize)) in
  let! endTime := getTime in
  ret (n_sub endTime startTime).

(** [await measureSeriesAsync(...)]: every call is awaited, then the result is. *)
Definition measureSeriesAsync (seriesSize : N) (data : list D) (fn : FnId) : Mc num :=
  let! duration := measureSeries seriesSize data fn in
  do! suspend AAwait in
  ret duration.

(** [measureSeriesMemory] *)
Definition measureSeriesMemory (memoryMeasurementsCount : N) (data : list D) (fn : FnId)
    : Mc (list num) :=
  let count := uint32 (N.of_nat (length data)) in
  forPush (fun i =>
    do! runGC in
    let! startMemory := getMemoryUsage in
    do! callFn fn (cyclicDatum data count i) in
    let! endMemory := getMemoryUsage in
    ret (n_max2 (n_of_N 0) (n_sub endMemory startMemory)))
  0 (N.to_nat (uint32 memoryMeasurementsCount)).

(** [await measureSeriesMemoryAsync(...)] *)
Definition measureSeriesMemoryAsync (memoryMeasurementsCount : N) (data : list D) (fn : FnId)
    : Mc (list num) :=
  let! memories := measureSeriesMemory memoryMeasurementsCount data fn in
  do! suspend AAwait in
  ret memories.

(** ** Statistics reducer *)

(** [l.reduce((a, b) => a + b, 0)] *)
Definition sumOf (l : list num) : num := fold_left n_add l (n_of_N 0).
(** [Math.min(...l)] and [Math.max(...l)] *)
Definition minOf (l : list num) : num := fold_left n_min2 l n_pinf.
Definition maxOf (l : list num) : num := fold_left n_max2 l n_ninf.
(** [l.reduce((a, b) => a + b, 0) / l.length] *)
Definition avgOf (l : list num) : num := n_div (sumOf l) (n_of_N (N.of_nat (length l))).

(** Lines 664-690: the result record of a measure leaf. *)
Definition measureResult (func : RegisteredFunction) (title : string) (dataSize : num)
    (seriesSize : N) (durations : list num) (memoryUsages : option (list num))
    : MeasurementResult num :=
  let durationAvg := n_div (avgOf durations) (n_of_N seriesSize) in
  let durationMin := n_div (minOf durations) (n_of_N seriesSize) in
  let durationMax := n_div (maxOf durations) (n_of_N seriesSize) in
  let opsAvg := n_div (n_of_N 1000) durationAvg in
  let opsMin := n_div (n_of_N 1000) durationMax in
  let opsMax := n_div (n_of_N 1000) durationMin in
  {| mr_path := rf_path func;
     mr_title := title;
     mr_dataSize := dataSize;
     mr_series := map (fun duration => n_div (n_of_N 1000) duration) durations;
     mr_avg := opsAvg;
     mr_min := opsMin;
     mr_max := opsMax;
     mr_opsPerSecond := opsAvg;
     mr_duration := durationAvg;
     mr_durationMin := durationMin;
     mr_durationMax := durationMax;
     mr_memory := memoryUsages;
     mr_memoryAvg := avgOf <$> memoryUsages;
     mr_memoryMin := minOf <$> memoryUsages;
     mr_memoryMax := maxOf <$> memoryUsages |}.

(** Lines 593-607: the result record of an evaluate leaf. *)
Definition customResult (customEval : CustomEvaluation) (title : string) (dataSize : num)
    (values : list num) : CustomMeasurementResult num :=
  {| cr_path := ce_path customEval;
     cr_title := title;
     cr_dataSize := dataSize;
     cr_values := values;
     cr_avg := avgOf values;
     cr_min := minOf values;
     cr_max := maxOf values;
     cr_customChartId := chart_id (ce_customChart customEval) |}.

(** [Math.round((currentStep / totalSteps) * 100)] *)
Definition progressOf (currentStep totalSteps : num) : num :=
  n_round (n_mul (n_div currentStep totalSteps) (n_of_N 100)).

(** ** The run loop *)

Definition item_dataGenerator (item : UnifiedItem) : GenId :=
  match ui_body item with
  | IMeasure measure => rf_dataGenerator measure
  | IEvaluate evaluate => ce_dataGenerator evaluate
  end.

Section Run.
(** [sharing] is [true] in the code. With [false] the run never builds a
    shared data array: this is the run "with sharing disabled" that the
    specification compares the code with. *)
Variable sharing : bool.
Variable dataUnitsCountV seriesSizeV seriesCountV : N.
Variable delayV : num.
Variable forceGCV : bool.
Variable memoryMeasurementsCountV : option N.
Variable totalSteps : num.

(** [for (let i = 0; i < dataUnitsCount; i++) array.push(dataGenerator(dataSize))] *)
Definition generateData (g : GenId) (dataSize : num) : Mc (list D) :=
  forPush (fun _ => callGenerator g dataSize)
    0 (N.to_nat dataUnitsCountV).

(** Lines 573-618: one evaluate leaf at one data size. *)
Definition runEvaluate (item : UnifiedItem) (customEval : CustomEvaluation)
    (dataSize : num) (sharedDataArray : option (list D)) (currentStep : num) : Mc num :=
  let! values :=
    match sharedDataArray with
    | Some shared =>
        forEachPush (fun d => callFn (ce_fn customEval) (Some d)) shared
    | None =>
        forPush (fun _ =>
          let! data := callGenerator (ce_dataGenerator customEval) dataSize in
          callFn (ce_fn customEval) (Some data)) 0 (N.to_nat dataUnitsCountV)
    end in
  let currentStep' := n_add currentStep dataSize in
  let progress := progressOf currentStep' totalSteps in
  do! onProgress {| ev_path := ce_path customEval;
                     ev_title := ui_title item;
                     ev_dataSize := dataSize;
                     ev_progress := progress;
                     ev_result := None;
                     ev_customResult :=
                       Some (customResult customEval (ui_title item) dataSize values) |} in
  ret currentStep'.

(** Lines 631-645: the series loop; [n] series are left to run. *)
Fixpoint seriesLoop (func : RegisteredFunction) (dataArray : list D)
    (n : nat) (durations : list num) : Mc (list num) :=
  match n with
  | O => ret durations
  | S n' =>
      ifState stopRequested (ret durations)
        (do! (if forceGCV then runGC else ret tt) in
         let! duration :=
           (if default false (rf_isAsync func)
            then measureSeriesAsync seriesSizeV dataArray (rf_fn func)
            else measureSeries seriesSizeV dataArray (rf_fn func)) in
         do! suspend (ADelay delayV) in
         seriesLoop func dataArray n' (durations ++ [duration]))
  end.

(** Lines 619-701: one measure leaf at one data size. *)
Definition runMeasure (item : UnifiedItem) (func : RegisteredFunction)
    (dataSize : num) (sharedDataArray : option (list D)) (currentStep : num) : Mc num :=
  let! dataArray :=
    match sharedDataArray with
    | Some shared => ret shared
    | None => generateData (rf_dataGenerator func) dataSize
    end in
  let! durations := seriesLoop func dataArray (N.to_nat seriesCountV) [] in
  let! memoryUsages :=
    match memoryMeasurementsCountV with
    | Some count =>
        if (0 <? count)%N then
          let! m := (if default false (rf_isAsync func)
                     then measureSeriesMemoryAsync count dataArray (rf_fn func)
                     else measureSeriesMemory count dataArray (rf_fn func)) in
          ret (Some m)
        else ret None
    | None => ret None
    end in
  let result := measureResult func (ui_title item) dataSize seriesSizeV durations memoryUsages in
  let currentStep' := n_add currentStep dataSize in
  let progress := progressOf currentStep' totalSteps in
  do! onProgress {| ev_path := rf_path func;
                     ev_title := ui_title item;
                     ev_dataSize := dataSize;
                     ev_progress := progress;
                     ev_result := Some result;
                     ev_customResult := None |} in
  ret currentStep'.

Definition runItem (item : UnifiedItem) (dataSize : num)
    (sharedDataArray : option (list D)) (currentStep : num) : Mc num :=
  match ui_body item with
  | IEvaluate customEval => runEvaluate item customEval dataSize sharedDataArray currentStep
  | IMeasure func => runMeasure item func dataSize sharedDataArray currentStep
  end.

(** Lines 565-703: [for (const item of items)]. *)
Fixpoint runItems (pathKey : option string) (dataSize : num)
    (sharedDataArray : option (list D)) (items : list UnifiedItem)
    (currentStep : num) : Mc num :=
  match items with
  | [] => ret currentStep
  | item :: rest =>
      ifState stopRequested (ret currentStep)
        (ifState (isSkipped pathKey) (ret currentStep)
           (let! currentStep' := runItem item dataSize sharedDataArray currentStep in
            runItems pathKey dataSize sharedDataArray rest currentStep'))
  end.

(** Lines 536-545 *)
Definition allUseSameGenerator (items : list UnifiedItem) : bool :=
  match items with
  | [] => true
  | firstItem :: _ =>
      forallb (fun item =>
        bool_decide (item_dataGenerator item = item_dataGenerator firstItem)) items
  end.

(** Lines 547-704: [for (const dataSize of dataUnitSizes)]. *)
Fixpoint runSizes (pathKey : option string) (items : list UnifiedItem)
    (sizes : list num) (currentStep : num) : Mc num :=
  match sizes with
  | [] => ret currentStep
  | dataSize :: rest =>
      ifState stopRequested (ret currentStep)
        (ifState (isSkipped pathKey) (ret currentStep)
           (let! sharedDataArray :=
              match items with
              | firstItem :: _ =>
                  if sharing && allUseSameGenerator items then
                    let! shared := generateData (item_dataGenerator firstItem) dataSize in
                    ret (Some shared)
                  else ret None
              | [] => ret None
              end in
            let! currentStep' := runItems pathKey dataSize sharedDataArray items currentStep in
            runSizes pathKey items rest currentStep'))
  end.

(** Lines 524-705: [for (const pathKey of allPathKeys)]. *)
Fixpoint runGroups (plan : Plan) (sizes : list num)
    (pathKeys : list (option string)) (currentStep : num) : Mc num :=
  match pathKeys with
  | [] => ret currentStep
  | pathKey :: rest =>
      ifState stopRequested (ret currentStep)
        (let items := itemsOf plan pathKey in
         if bool_decide (length items = 0%nat) then runGroups plan sizes rest currentStep
         else
           ifState (isSkipped pathKey) (runGroups plan sizes rest currentStep)
             (let! currentStep' := runSizes pathKey items sizes currentStep in
              runGroups plan sizes rest currentStep'))
  end.

End Run.

(** Lines 513-519 *)
Definition totalStepsOf (plan : Plan) (sizes : list num) : num :=
  let dataUnitSizesSum := sumOf sizes in
  fold_left (fun totalSteps pathKey =>
    n_add totalSteps (n_mul dataUnitSizesSum (n_of_N (N.of_nat (length (itemsOf plan pathKey))))))
    (plan_allPathKeys plan) (n_of_N 0).

(** Lines 376-383: the configuration merged over the settings and the defaults. *)
Definition sizesOf (registry : Registry num) (config : MeasurementConfig num) : list num :=
  default [] (orElse (dataUnitSizes config) (set_dataUnitSizes (reg_settings registry))).
Definition dataUnitsCountOf (registry : Registry num) (config : MeasurementConfig num) : N :=
  default 100%N (orElse (dataUnitsCount config) (set_dataUnitsCount (reg_settings registry))).
Definition seriesSizeOf (registry : Registry num) (config : MeasurementConfig num) : N :=
  default 1000%N (orElse (seriesSize config) (set_seriesSize (reg_settings registry))).
Definition seriesCountOf (registry : Registry num) (config : MeasurementConfig num) : N :=
  default 10%N (orElse (seriesCount config) (set_seriesCount (reg_settings registry))).
Definition delayOf (registry : Registry num) (config : MeasurementConfig num) : num :=
  default (n_of_N 1) (orElse (delay config) (set_delay (reg_settings registry))).
Definition forceGCOf (registry : Registry num) (config : MeasurementConfig num) : bool :=
  default false (orElse (forceGC config) (set_forceGC (reg_settings registry))).
Definition memoryMeasurementsCountOf (registry : Registry num)
    (config : MeasurementConfig num) : option N :=
  orElse (memoryMeasurementsCount config)
    (set_memoryMeasurementsCount (reg_settings registry)).

(** The plan of a run. *)
Definition planOf (registry : Registry num) (config : MeasurementConfig num) : Plan :=
  buildPlan (selectedPaths config) (reg_functions registry)
    (reg_customEvals registry) (reg_hierarchy registry).

(** [this.stopRequested = false; this.skippedSubGroups.clear();] *)
Definition resetEngine (s : St num D) : St num D :=
  {| eng := {| stopRequested := false; skippedSubGroups := ∅ |}; trace := trace s |}.

(** The run, with or without the sharing of generated data. *)
Definition runWith (sharing : bool) (registry : Registry num) (config : MeasurementConfig num)
    : Mc unit := fun s0 =>
  let s := resetEngine s0 in
  let sizes := sizesOf registry config in
  let plan := planOf registry config in
  let totalSteps := totalStepsOf plan sizes in
  (do! runGroups sharing (dataUnitsCountOf registry config) (seriesSizeOf registry config)
         (seriesCountOf registry config) (delayOf registry config)
         (forceGCOf registry config) (memoryMeasurementsCountOf registry config)
         totalSteps plan sizes (plan_allPathKeys plan) (n_of_N 0) in
   ret tt) s.

(** [MeasurementEngine.runMeasurements(config, onProgress)] *)
Definition runMeasurements : Registry num -> MeasurementConfig num -> Mc unit :=
  runWith true.

(** The run that generates the data of every leaf separately. *)
Definition runMeasurements_unshared : Registry num -> MeasurementConfig num -> Mc unit :=
  runWith false.

End Engine.

(** ** Observations and the words of the specification *)

(** The path that an item reports in its events ([func.path] or [customEval.path]). *)
Definition item_path (item : UnifiedItem) : option (list string) :=
  match ui_body item with
  | IMeasure measure => rf_path measure
  | IEvaluate evaluate => ce_path evaluate
  end.

(** The calls of generators for one group at one data size: with sharing,
    a group whose leaves all have the same generator calls it
    [dataUnitsCount] times; otherwise every leaf calls its own generator
    [dataUnitsCount] times. *)
Definition groupGenerations (sharing : bool) (dataUnitsCount : N)
    (items : list UnifiedItem) : nat :=
  match items with
  | [] => 0
  | _ => if sharing && allUseSameGenerator items then N.to_nat dataUnitsCount
         else length items * N.to_nat dataUnitsCount
  end.

(** The leaf is selected by the patterns of the configuration, in the words
    of the specification. *)
Definition satisfiesSelection (selectedPaths : option (list (list Filter)))
    (path : option (list string)) : Prop :=
  match selectedPaths with
  | Some (pattern :: patterns) =>
      ∃ p pat, path = Some p ∧ pat ∈ pattern :: patterns ∧ matchesPathPattern p pat = true
  | _ => True
  end.

(** The leaf runs: the plan has an item for it. *)
Definition included (plan : Plan) (body : ItemBody) : Prop :=
  ∃ item, item ∈ plan_unifiedItems plan ∧ ui_body item = body.

(** The first occurrence of every key, in order. *)
Fixpoint firstAppearance (keys : list (option string)) : list (option string) :=
  match keys with
  | [] => []
  | k :: rest => k :: List.filter (fun k' => negb (bool_decide (k' = k))) (firstAppearance rest)
  end.

(** The leaves of an owner-path-key group, in registration order. *)
Definition leavesOf (unifiedItems : list UnifiedItem) (pathKey : option string)
    : list UnifiedItem :=
  List.filter (fun item => bool_decide (ui_pathKey item = pathKey)) unifiedItems.

(** The order of the specification: group, then data size, then leaf. *)
Definition expectedUnits {num} (unifiedItems : list UnifiedItem) (sizes : list num)
    : list (UnifiedItem * num) :=
  flat_map (fun pathKey =>
    flat_map (fun dataSize => map (fun item => (item, dataSize)) (leavesOf unifiedItems pathKey))
      sizes)
    (firstAppearance (map ui_pathKey unifiedItems)).

(** The sum of natural-number data sizes, and the running sums that start
    with the counter at [c]. *)
Fixpoint sumN (zs : list N) : N :=
  match zs with
  | [] => 0%N
  | z :: zs' => (z + sumN zs')%N
  end.

Fixpoint cumulative (c : N) (zs : list N) : list N :=
  match zs with
  | [] => []
  | z :: zs' => (c + z)%N :: cumulative (c + z) zs'
  end.

Section Observations.
Context {num D : Type}.

(** The progress events of a trace, in the order they were delivered. *)
Definition events (tr : list (Act num D)) : list (ProgressEvent num) :=
  omap (fun a => match a with AEmit ev => Some ev | _ => None end) tr.

Definition isGen (a : Act num D) : bool :=
  match a with AGen _ _ => true | _ => false end.

(** The number of calls of data generators in a trace. *)
Definition generatorCalls (tr : list (Act num D)) : nat :=
  length (List.filter isGen tr).

(** An event is the event of a unit of work (leaf, data size). *)
Definition reports (ev : ProgressEvent num) (unit : UnifiedItem * num) : Prop :=
  ev_path ev = item_path unit.1 ∧
  ev_title ev = ui_title unit.1 ∧
  ev_dataSize ev = unit.2 ∧
  match ui_body unit.1 with
  | IMeasure _ => is_Some (ev_result ev) ∧ ev_customResult ev = None
  | IEvaluate _ => ev_result ev = None ∧ is_Some (ev_customResult ev)
  end.

(** The environment neither calls the control surface nor throws. *)
Definition quiet (o : Oracle num D) : Prop :=
  ∀ i a, r_cmds (o i a) = [] ∧ r_throw (o i a) = None.

(** The state after the interactions [acts] of a quiet environment. *)
Definition ext (s : St num D) (acts : list (Act num D)) : St num D :=
  {| eng := eng s; trace := trace s ++ acts |}.

(** A computation that ends normally after [g] calls of generators. *)
Definition counts {A} (m : M num D A) (g : nat) : Prop :=
  ∀ s, ∃ a acts, m s = (Ok a, ext s acts) ∧ generatorCalls acts = g.

(** The engine as [runMeasurements] leaves it before the plan is built,
    for as long as the control surface is not called. *)
Definition fresh (e : EngineState) : Prop :=
  stopRequested e = false ∧ skippedSubGroups e = ∅.

(** The calls of the generator that one unit of work makes. *)
Definition unitGenerations (dataUnitsCount : N) (shared : option (list D)) : nat :=
  match shared with Some _ => 0 | None => N.to_nat dataUnitsCount end.

(** The interactions that run code of the caller, which may throw. *)
Definition canThrow (a : Act num D) : bool :=
  match a with AGen _ _ | AFn _ _ | AEmit _ => true | _ => false end.

(** The interactions during which calls of the control surface take effect. *)
Definition affects (a : Act num D) : bool :=
  match a with ATime | AMem | AGC => false | _ => true end.

(** The state after one more interaction. *)
Definition stepState (o : Oracle num D) (s : St num D) (a : Act num D) : St num D :=
  {| eng := if affects a then applyCmds (eng s) (r_cmds (o (length (trace s)) a)) else eng s;
     trace := trace s ++ [a] |}.

(** The state after a sequence of interactions. *)
Definition replay (o : Oracle num D) (s : St num D) (acts : list (Act num D)) : St num D :=
  fold_left (stepState o) acts s.

(** The exception with which the [i]-th interaction ends, if any. *)
Definition thrown (o : Oracle num D) (i : nat) (a : Act num D) : option Exn :=
  if canThrow a then r_throw (o i a) else None.

(** No interaction of [acts], performed from index [base] on, throws. *)
Definition noThrowIn (o : Oracle num D) (base : nat) (acts : list (Act num D)) : Prop :=
  ∀ i a, acts !! i = Some a → thrown o (base + i) a = None.

(** How a computation that performed [acts] ended: normally, and then no
    interaction threw, or with the exception [e], and then the last
    interaction threw [e] and none before it threw. *)
Definition throwsLast (o : Oracle num D) (base : nat) (acts : list (Act num D))
    (x : option Exn) : Prop :=
  match x with
  | None => noThrowIn o base acts
  | Some e => ∃ pre a, acts = pre ++ [a] ∧ noThrowIn o base pre ∧
                       thrown o (base + length pre) a = Some e
  end.

(** The number of events of [acts] delivered while the stop flag was set. *)
Fixpoint emitsAfterStop (o : Oracle num D) (s : St num D) (acts : list (Act num D)) : nat :=
  match acts with
  | [] => 0
  | a :: acts' =>
      (match a with
       | AEmit _ => if stopRequested (eng s) then 1 else 0
       | _ => 0
       end + emitsAfterStop o (stepState o s a) acts')%nat
  end.

(** The events of [acts], each with the value that the stop flag had when
    the event was delivered. *)
Fixpoint flaggedEvents (o : Oracle num D) (s : St num D) (acts : list (Act num D))
    : list (bool * ProgressEvent num) :=
  match acts with
  | [] => []
  | a :: acts' =>
      match a with
      | AEmit ev => [(stopRequested (eng s), ev)]
      | _ => []
      end ++ flaggedEvents o (stepState o s a) acts'
  end.

Definition outcome {A} (r : Res A) : option Exn :=
  match r with Ok _ => None | Throw e => Some e end.

(** What a computation that ended with [x] after the interactions [acts]
    guarantees when it is a part of the sampling of a leaf: it delivers no
    event, and it ends at the first interaction that throws. *)
Definition sampled (o : Oracle num D) (s : St num D) (x : option Exn)
    (acts : list (Act num D)) : Prop :=
  events acts = [] ∧ throwsLast o (length (trace s)) acts x.

(** A computation performs interactions and nothing else: its final state
    is the replay of the interactions [acts] that it performed, and [Q]
    holds of its result and of [acts]. *)
Definition post (o : Oracle num D) {A} (m : M num D A) (s : St num D)
    (Q : Res A → list (Act num D) → Prop) : Prop :=
  ∃ acts, (m s).2 = replay o s acts ∧ Q (m s).1 acts.

(** The interactions and the events of a computation started in state [s]. *)
Definition actsOf {A} (m : M num D A) (s : St num D) : list (Act num D) :=
  drop (length (trace s)) (trace (m s).2).

Definition eventsOf {A} (m : M num D A) (s : St num D) : list (ProgressEvent num) :=
  events (actsOf m s).

(** The events of [acts] are those of some of the units of [expected], in
    the order of [expected]. *)
Definition subPost (expected : list (UnifiedItem * num)) (acts : list (Act num D)) : Prop :=
  ∃ units, sublist units expected ∧ Forall2 reports (events acts) units.

(** What identifies the unit of work of an event: the leaf and the data size. *)
Definition eventKey (ev : ProgressEvent num) : option (list string) * num :=
  (ev_path ev, ev_dataSize ev).

(** The shape of an event: what it reports, without the measured values. *)
Definition eventShape (ev : ProgressEvent num)
    : option (list string) * string * num * num * bool * bool :=
  (ev_path ev, ev_title ev, ev_dataSize ev, ev_progress ev,
   bool_decide (is_Some (ev_result ev)), bool_decide (is_Some (ev_customResult ev))).

Section Statistics.
Context {NO : NumOps num}.

(** The statistics of the specification: the mean, the minimum and the
    maximum of the raw durations, divided by the series size, and the
    throughput as the reciprocal with minimum and maximum exchanged. *)
Definition mean (l : list num) : num :=
  n_div (fold_left n_add l (n_of_N 0)) (n_of_N (N.of_nat (length l))).
Definition minimum (l : list num) : num := fold_left n_min2 l n_pinf.
Definition maximum (l : list num) : num := fold_left n_max2 l n_ninf.

Definition statsOf (seriesSize : N) (durations : list num) (r : MeasurementResult num)
    : Prop :=
  mr_series r = map (fun d => n_div (n_of_N 1000) d) durations ∧
  mr_duration r = n_div (mean durations) (n_of_N seriesSize) ∧
  mr_durationMin r = n_div (minimum durations) (n_of_N seriesSize) ∧
  mr_durationMax r = n_div (maximum durations) (n_of_N seriesSize) ∧
  mr_avg r = n_div (n_of_N 1000) (mr_duration r) ∧
  mr_min r = n_div (n_of_N 1000) (mr_durationMax r) ∧
  mr_max r = n_div (n_of_N 1000) (mr_durationMin r) ∧
  mr_opsPerSecond r = mr_avg r.

(** What the event of one unit of work carries. [flag] is the stop flag at
    the time of the event: all [seriesCount] series were measured unless the
    run was being stopped. *)
Definition unitEvent (totalSteps currentStep : num) (seriesSize seriesCount : N)
    (item : UnifiedItem) (dataSize : num) (flag : bool) (ev : ProgressEvent num) : Prop :=
  reports ev (item, dataSize) ∧
  ev_progress ev = progressOf (n_add currentStep dataSize) totalSteps ∧
  ∀ r, ev_result ev = Some r →
    ∃ durations, statsOf seriesSize durations r ∧
      (length durations ≤ N.to_nat seriesCount)%nat ∧
      (flag = false → length durations = N.to_nat seriesCount).

(** The progress values of a sequence of events that starts with the
    counter at [currentStep]. *)
Fixpoint progressChain (totalSteps currentStep : num) (evs : list (ProgressEvent num)) : Prop :=
  match evs with
  | [] => True
  | ev :: evs' =>
      ev_progress ev = progressOf (n_add currentStep (ev_dataSize ev)) totalSteps ∧
      progressChain totalSteps (n_add currentStep (ev_dataSize ev)) evs'
  end.

(** The counter after a sequence of events. *)
Definition stepsAfter (currentStep : num) (evs : list (ProgressEvent num)) : num :=
  fold_left (fun c ev => n_add c (ev_dataSize ev)) evs currentStep.

(** The progress value in the words of the specification:
    [round(100 * cumulativeDataSizeUnitsProcessed / totalDataSizeUnits)]. *)
Definition specifiedProgress (cumulativeDataSizeUnitsProcessed totalDataSizeUnits : num)
    : num :=
  n_round (n_div (n_mul (n_of_N 100) cumulativeDataSizeUnitsProcessed) totalDataSizeUnits).

(** A sequence of numbers never decreases, under the comparison [<=] of the
    numbers of the run. *)
Definition nonDecreasing (l : list num) : Prop :=
  ∀ i j x y, (i ≤ j)%nat → l !! i = Some x → l !! j = Some y → n_leb x y = true.

(** The durations that the series loop returns: those it was given and at
    most [n] more, exactly [n] more unless the run is being stopped. *)
Definition lengthPost (o : Oracle num D) (ds : list num) (n : nat) (s : St num D)
    (r : Res (list num)) (acts : list (Act num D)) : Prop :=
  ∀ ds', r = Ok ds' →
    ∃ more, ds' = ds ++ more ∧ (length more ≤ n)%nat ∧
      (stopRequested (eng (replay o s acts)) = false → length more = n).

(** What the run of one unit of work (leaf, data size) guarantees: it ends
    at the first interaction that throws, and it delivers at most one event,
    as its last interaction. *)
Definition unitPost (o : Oracle num D) (totalSteps cur : num) (seriesSize seriesCount : N)
    (item : UnifiedItem) (size : num) (s : St num D) (r : Res num)
    (acts : list (Act num D)) : Prop :=
  throwsLast o (length (trace s)) acts (outcome r) ∧
  (∀ c, r = Ok c → c = n_add cur size) ∧
  ((flaggedEvents o s acts = [] ∧ outcome r ≠ None) ∨
   ∃ flag ev, flaggedEvents o s acts = [(flag, ev)] ∧ last acts = Some (AEmit ev) ∧
     unitEvent totalSteps cur seriesSize seriesCount item size flag ev).

(** What a part of the run loop guarantees. *)
Definition segPost (o : Oracle num D) (totalSteps : num) (seriesSize seriesCount : N) (cur : num)
    s (r : Res num) (acts : list (Act num D)) : Prop :=
  throwsLast o (length (trace s)) acts (outcome r) ∧
  (∀ c, r = Ok c → c = stepsAfter cur (events acts)) ∧
  progressChain totalSteps cur (events acts) ∧
  Forall (fun fe => ∃ cur0 item size,
            unitEvent totalSteps cur0 seriesSize seriesCount item size fe.1 fe.2)
    (flaggedEvents o s acts) ∧
  (emitsAfterStop o s acts ≤ 1)%nat.

(** A part of the run loop that starts at a check of the stop flag. *)
Definition loopPost (o : Oracle num D) (totalSteps : num) (seriesSize seriesCount : N) (cur : num)
    s (r : Res num) (acts : list (Act num D)) : Prop :=
  segPost o totalSteps seriesSize seriesCount cur s r acts ∧
  (stopRequested (eng s) = true → acts = [] ∧ r = Ok cur).

End Statistics.

(** A computation that only samples, from every state. *)
Definition samples (o : Oracle num D) {A} (m : M num D A) : Prop :=
  ∀ s, post o m s (fun r acts => sampled o s (outcome r) acts).

End Observations.

(** A registered function with the path [p] that the hierarchy declares as
    a measure leaf. *)
Definition registeredMeasure {num} (registry : Registry num) (f : RegisteredFunction)
    (p : list string) : Prop :=
  f ∈ reg_functions registry ∧ rf_path f = Some p ∧ p ≠ [] ∧
  ∃ node, node ∈ traverseNode (reg_hierarchy registry) ∧
          on_type node = TMeasure ∧ on_path node = p.

Definition registeredEvaluate {num} (registry : Registry num) (e : CustomEvaluation)
    (p : list string) : Prop :=
  e ∈ reg_customEvals registry ∧ ce_path e = Some p ∧ p ≠ [] ∧
  ∃ node, node ∈ traverseNode (reg_hierarchy registry) ∧
          on_type node = TEvaluate ∧ on_path node = p.

(** ** Skips *)

(** A call of [stop()], as opposed to a call of [skipPathKey()]. *)
Definition isStop (c : Cmd) : bool := match c with CStop => true | CSkip _ => false end.

(** The environment [o] with its calls of [skipPathKey] left out. *)
Definition withoutSkips {num D} (o : Oracle num D) : Oracle num D := fun i a =>
  {| r_cmds := List.filter isStop (r_cmds (o i a));
     r_throw := r_throw (o i a);
     r_datum := r_datum (o i a);
     r_num := r_num (o i a) |}.

(** Two states that differ in the skip set at most. *)
Definition sameButSkips {num D} (s s' : St num D) : Prop :=
  trace s = trace s' ∧ stopRequested (eng s) = stopRequested (eng s').

(** Two computations that proceed alike from states that differ in the
    skip set at most. *)
Definition alike {num D A} (m m' : M num D A) : Prop :=
  ∀ s s', sameButSkips s s' → (m s).1 = (m' s').1 ∧ sameButSkips (m s).2 (m' s').2.

(** ** Scenarios *)

(** Concrete registries, configurations and environments, with binary64
    numbers and numbers as data. *)
Module Scenarios.
Import PrimFloat.

Definition plainReply : Reply float float :=
  {| r_cmds := []; r_throw := None; r_datum := 0%float; r_num := 0%float |}.

(** A quiet environment: [dataGenerator(size) = size], [fn(x) = x * 2], and
    a clock that advances by one millisecond per interaction. *)
Definition quietEnv : Oracle float float := fun i a =>
  match a with
  | AGen _ size => {| r_cmds := []; r_throw := None; r_datum := size; r_num := 0%float |}
  | AFn _ (Some d) =>
      {| r_cmds := []; r_throw := None; r_datum := 0%float; r_num := (d * 2)%float |}
  | ATime =>
      {| r_cmds := []; r_throw := None; r_datum := 0%float;
         r_num := Float64.of_N (N.of_nat i) |}
  | _ => plainReply
  end.

Definition noSettings : MeasureSettings float :=
  {| set_dataUnitSizes := None; set_dataUnitsCount := None; set_seriesSize := None;
     set_seriesCount := None; set_delay := None; set_forceGC := None;
     set_memoryMeasurementsCount := None |}.

Definition measureFn (fn : FnId) (g : GenId) (path : list string) : RegisteredFunction :=
  {| rf_group := ""; rf_subGroup := ""; rf_title := default "" (last path);
     rf_fn := fn; rf_dataGenerator := g; rf_isAsync := Some false; rf_path := Some path |}.

Definition measureNode (fn : FnId) (g : GenId) (path : list string) : TestNode :=
  MeasureNode (default "" (last path)) path fn g false.

Definition config (sizes : list float) (count series size : N) : MeasurementConfig float :=
  {| selectedPaths := None; dataUnitSizes := Some sizes; dataUnitsCount := Some count;
     seriesSize := Some size; seriesCount := Some series; delay := None;
     forceGC := None; memoryMeasurementsCount := None |}.

Definition idle : St float float :=
  {| eng := {| stopRequested := false; skippedSubGroups := ∅ |}; trace := [] |}.

(** Scenario A: one group with two measure leaves that share a generator. *)
Definition registryA : Registry float :=
  {| reg_functions := [measureFn 1 7 ["G"; "a"]; measureFn 2 7 ["G"; "b"]];
     reg_customEvals := [];
     reg_settings := noSettings;
     reg_hierarchy :=
       DescribeNode "" []
         [DescribeNode "G" ["G"]
            [measureNode 1 7 ["G"; "a"]; measureNode 2 7 ["G"; "b"]]] |}.

Definition configA : MeasurementConfig float := config [10%float] 5 1 1.

(** One leaf, and a data size that is configured twice. *)
Definition registryOne : Registry float :=
  {| reg_functions := [measureFn 1 7 ["G"; "a"]];
     reg_customEvals := [];
     reg_settings := noSettings;
     reg_hierarchy := DescribeNode "" [] [DescribeNode "G" ["G"] [measureNode 1 7 ["G"; "a"]]] |}.

Definition configTwice : MeasurementConfig float := config [10%float; 10%float] 1 1 1.

(** Scenario B: two leaves and the selection pattern [[undefined, "Binary"]]. *)
Definition registryB : Registry float :=
  {| reg_functions := [measureFn 1 7 ["Encoding"; "JSON"; "x"];
                       measureFn 2 7 ["Encoding"; "Binary"; "y"]];
     reg_customEvals := [];
     reg_settings := noSettings;
     reg_hierarchy :=
       DescribeNode "" []
         [DescribeNode "Encoding" ["Encoding"]
            [DescribeNode "JSON" ["Encoding"; "JSON"]
               [measureNode 1 7 ["Encoding"; "JSON"; "x"]];
             DescribeNode "Binary" ["Encoding"; "Binary"]
               [measureNode 2 7 ["Encoding"; "Binary"; "y"]]]] |}.

Definition configB : MeasurementConfig float :=
  {| selectedPaths := Some [[FAny; FExact "Binary"]]; dataUnitSizes := Some [10%float];
     dataUnitsCount := Some 1%N; seriesSize := Some 1%N; seriesCount := Some 1%N;
     delay := None; forceGC := None; memoryMeasurementsCount := None |}.

(** An environment that behaves like [quietEnv], calls the control surface
    as [cmds] says and throws as [throws] says. *)
Definition scripted (cmds : nat -> list Cmd) (throws : nat -> option Exn)
    : Oracle float float := fun i a =>
  {| r_cmds := cmds i; r_throw := throws i;
     r_datum := r_datum (quietEnv i a); r_num := r_num (quietEnv i a) |}.

(** Scenario C: three groups of one leaf each; [skipPathKey("G2")] arrives
    during the delay after the series of the first group, before the loop
    of [G2] starts. *)
Definition registryC : Registry float :=
  {| reg_functions := [measureFn 1 7 ["G1"; "a"]; measureFn 2 7 ["G2"; "b"];
                       measureFn 3 7 ["G3"; "c"]];
     reg_customEvals := [];
     reg_settings := noSettings;
     reg_hierarchy :=
       DescribeNode "" []
         [DescribeNode "G1" ["G1"] [measureNode 1 7 ["G1"; "a"]];
          DescribeNode "G2" ["G2"] [measureNode 2 7 ["G2"; "b"]];
          DescribeNode "G3" ["G3"] [measureNode 3 7 ["G3"; "c"]]] |}.

Definition configC : MeasurementConfig float := config [10%float; 20%float] 1 1 1.

Definition skipEnvC : Oracle float float :=
  scripted (fun i => if (i =? 4)%nat then [CSkip "G2"] else []) (fun _ => None).

Definition skippedG2 : St float float :=
  {| eng := {| stopRequested := false; skippedSubGroups := {[ "G2" ]} |}; trace := [] |}.

(** The engine after [stop()] and [skipPathKey("G2")], before any run. *)
Definition stoppedAndSkippedG2 : St float float :=
  {| eng := stop (skipPathKey "G2" (eng idle)); trace := [] |}.

(** Scenario E: the target function throws on its third invocation. The
    interactions are the generation of one datum, the clock, and the calls
    of the function: the third call is interaction number 4. *)
Definition configE : MeasurementConfig float := config [10%float] 1 1 5.

Definition throwEnvE : Oracle float float :=
  scripted (fun _ => []) (fun i => if (i =? 4)%nat then Some "boom" else None).

(** A stop that arrives while the first series of the first leaf of
    scenario A is in flight (interaction number 6 is the call of its
    function), with two series per leaf. *)
Definition configStop : MeasurementConfig float := config [10%float] 5 2 1.

Definition stopEnv : Oracle float float :=
  scripted (fun i => if (i =? 6)%nat then [CStop] else []) (fun _ => None).

(** A clock that reads the square of the number of the interaction, so that
    the series of a leaf have different durations. *)
Definition unevenEnv : Oracle float float := fun i a =>
  match a with
  | ATime =>
      {| r_cmds := []; r_throw := None; r_datum := 0%float;
         r_num := Float64.of_N (N.of_nat (i * i)) |}
  | _ => quietEnv i a
  end.

Definition configUneven : MeasurementConfig float := config [10%float] 1 2 1.

(** One leaf and the data sizes 29 and 171: the total is 200. *)
Definition configProgress : MeasurementConfig float :=
  config [29%float; 171%float] 1 1 1.

(** The stop of scenario A with two series per leaf, and two memory
    samples per leaf. *)
Definition configStopMemory : MeasurementConfig float :=
  {| selectedPaths := None; dataUnitSizes := Some [10%float]; dataUnitsCount := Some 5%N;
     seriesSize := Some 1%N; seriesCount := Some 2%N; delay := None;
     forceGC := None; memoryMeasurementsCount := Some 2%N |}.

(** A heap whose size at interaction [i] is [i * i mod 50]: between the
    interactions 6 and 8 it shrinks from 36 to 14, between 10 and 12 it
    grows from 0 to 44. *)
Definition memoryEnv : Oracle float float := fun i a =>
  match a with
  | AMem =>
      {| r_cmds := []; r_throw := None; r_datum := 0%float;
         r_num := Float64.of_N (N.of_nat ((i * i) mod 50)) |}
  | _ => quietEnv i a
  end.

(** One datum, one series of one call, and two memory samples. *)
Definition configMemory : MeasurementConfig float :=
  {| selectedPaths := None; dataUnitSizes := Some [10%float]; dataUnitsCount := Some 1%N;
     seriesSize := Some 1%N; seriesCount := Some 1%N; delay := None;
     forceGC := None; memoryMeasurementsCount := Some 2%N |}.

End Scenarios.

(** The scenario of one leaf and the data sizes 29 and 171, with numbers
    that are rationals rounded like binary64. *)
Module RationalScenarios.
Import Rational.

#[local] Existing Instance binary64.

Definition plainReply : Reply xnum xnum :=
  {| r_cmds := []; r_throw := None; r_datum := n_of_N 0; r_num := n_of_N 0 |}.

(** The quiet environment: [dataGenerator(size) = size], [fn(x) = x * 2],
    and a clock that advances by one millisecond per interaction. *)
Definition quietEnv : Oracle xnum xnum := fun i a =>
  match a with
  | AGen _ size => {| r_cmds := []; r_throw := None; r_datum := size; r_num := n_of_N 0 |}
  | AFn _ (Some d) =>
      {| r_cmds := []; r_throw := None; r_datum := n_of_N 0;
         r_num := n_mul d (n_of_N 2) |}
  | ATime =>
      {| r_cmds := []; r_throw := None; r_datum := n_of_N 0;
         r_num := n_of_N (N.of_nat i) |}
  | _ => plainReply
  end.

Definition noSettings : MeasureSettings xnum :=
  {| set_dataUnitSizes := None; set_dataUnitsCount := None; set_seriesSize := None;
     set_seriesCount := None; set_delay := None; set_forceGC := None;
     set_memoryMeasurementsCount := None |}.

Definition registryOne : Registry xnum :=
  {| reg_functions := [Scenarios.measureFn 1 7 ["G"; "a"]];
     reg_customEvals := [];
     reg_settings := noSettings;
     reg_hierarchy :=
       DescribeNode "" [] [DescribeNode "G" ["G"] [Scenarios.measureNode 1 7 ["G"; "a"]]] |}.

Definition dataSizes : list N := [29%N; 171%N].

Definition configProgress : MeasurementConfig xnum :=
  {| selectedPaths := None; dataUnitSizes := Some (map n_of_N dataSizes);
     dataUnitsCount := Some 1%N; seriesSize := Some 1%N; seriesCount := Some 1%N;
     delay := None; forceGC := None; memoryMeasurementsCount := None |}.

Definition idle : St xnum xnum :=
  {| eng := {| stopRequested := false; skippedSubGroups := ∅ |}; trace := [] |}.

End RationalScenarios.

(** ** The registry ([index.ts]) *)

Definition nodeTitle (node : TestNode) : string :=
  match node with
  | DescribeNode title _ _ | MeasureNode title _ _ _ _ | EvaluateNode title _ _ _ _ => title
  end.

Definition nodePath (node : TestNode) : list string :=
  match node with
  | DescribeNode _ path _ | MeasureNode _ path _ _ _ | EvaluateNode _ path _ _ _ => path
  end.

(** [c.type === 'measure'] and [c.type === 'evaluate'] *)
Definition isMeasure (node : TestNode) : bool :=
  match node with MeasureNode _ _ _ _ _ => true | _ => false end.
Definition isEvaluate (node : TestNode) : bool :=
  match node with EvaluateNode _ _ _ _ _ => true | _ => false end.

(** The options of an aggregate chart. *)
Inductive Metric := MetricAvg | MetricMin | MetricMax.
Inductive XAxis := AxisCategory | AxisLinear.
Inductive Mode := ModeOps | ModeDuration | ModeMemory.

Record AggregateChartOptions := {
  ao_metrics : option (list Metric);
  ao_xAxis : option (list XAxis);
  ao_mode : option (list Mode)
}.

Record AggregateMeasureChart := {
  amc_id : string;
  amc_title : string;
  amc_path : list Filter;
  amc_options : AggregateChartOptions;
  amc_order : nat
}.

Record AggregateEvaluateChart := {
  aec_id : string;
  aec_customChart : CustomChart;
  aec_title : string;
  aec_path : list Filter;
  aec_options : AggregateChartOptions;
  aec_order : nat
}.

(** A describe node on [describeContextStack]: its title, its path and the
    children pushed to it so far, the node of the frame above excepted. *)
Record Frame := {
  fr_title : string;
  fr_path : list string;
  fr_children : list TestNode
}.

(** The module state of [index.ts]. The context stack is kept with the
    current context first and the root last. The object of a frame is the
    last child of the object of the frame below it: [describe] pushes the
    new node to the children of the current context and to the stack in one
    go, and children are only ever pushed to the current context. The
    hierarchy below [rootNode] is therefore the frames plugged into each
    other, [getTestHierarchy]. *)
Record RegistryState := {
  registeredFunctions : list RegisteredFunction;
  customCharts : list CustomChart;
  customEvaluations : list CustomEvaluation;
  aggregateMeasureCharts : list AggregateMeasureChart;
  aggregateEvaluateCharts : list AggregateEvaluateChart;
  customChartIdCounter : nat;
  aggregateChartOrderCounter : nat;
  describeContextStack : list Frame
}.

Definition rootFrame : Frame :=
  {| fr_title := "__root__"; fr_path := []; fr_children := [] |}.

Definition initialRegistry : RegistryState :=
  {| registeredFunctions := []; customCharts := []; customEvaluations := [];
     aggregateMeasureCharts := []; aggregateEvaluateCharts := [];
     customChartIdCounter := 0; aggregateChartOrderCounter := 0;
     describeContextStack := [rootFrame] |}.

Definition frameNode (f : Frame) : TestNode :=
  DescribeNode (fr_title f) (fr_path f) (fr_children f).

(** [node] as the last child of the frame below, and so on down to the root. *)
Fixpoint plug (node : TestNode) (below : list Frame) : TestNode :=
  match below with
  | [] => node
  | f :: rest =>
      plug (DescribeNode (fr_title f) (fr_path f) (fr_children f ++ [node])) rest
  end.

(** [getTestHierarchy()]: the root node. *)
Definition getTestHierarchy (r : RegistryState) : TestNode :=
  match describeContextStack r with
  | [] => frameNode rootFrame
  | f :: below => plug (frameNode f) below
  end.

(** [getRegisteredFunctions()] and [getCustomEvaluations()] *)
Definition getRegisteredFunctions (r : RegistryState) : list RegisteredFunction :=
  registeredFunctions r.
Definition getCustomEvaluations (r : RegistryState) : list CustomEvaluation :=
  customEvaluations r.
Definition getCustomCharts (r : RegistryState) : list CustomChart := customCharts r.

(** What [runMeasurements] reads through the getters. *)
Definition registryOf {num} (settings : MeasureSettings num) (r : RegistryState)
    : Registry num :=
  {| reg_functions := getRegisteredFunctions r;
     reg_customEvals := getCustomEvaluations r;
     reg_settings := settings;
     reg_hierarchy := getTestHierarchy r |}.

Definition quote : string := String (Ascii.ascii_of_nat 34) EmptyString.

(** [path.slice(0, -1).join(' > ') || 'root'] *)
Definition pathLabel (parent : list string) : string :=
  let s := join pathSep parent in
  if bool_decide (s = "") then "root" else s.

Definition duplicateTitleError (title : string) (parent : list string) : Exn :=
  ("Duplicate title " ++ quote ++ title ++ quote ++ " at path " ++ pathLabel parent ++
   ". All titles at the same level must be unique.")%string.

Definition mixError (parent : list string) : Exn :=
  ("Cannot mix measure and evaluate in the same describe block at path " ++
   pathLabel parent ++ ".")%string.

Definition contextError : Exn :=
  "TypeError: Cannot read properties of undefined (reading 'path')".

(** [path.length > 0 ? path[0] : 'default'] *)
Definition legacyGroup (path : list string) : string :=
  match path with
  | first :: _ => first
  | [] => "default"
  end.

(** [path.length > 1 ? path[path.length - 2] : path[0] || 'default'] *)
Definition legacySubGroup (path : list string) : string :=
  if bool_decide (1 < length path)%nat
  then default "" (path !! (length path - 2)%nat)
  else match path with
       | first :: _ => if bool_decide (first = "") then "default" else first
       | [] => "default"
       end.

Definition pushChild (node : TestNode) (f : Frame) : Frame :=
  {| fr_title := fr_title f; fr_path := fr_path f; fr_children := fr_children f ++ [node] |}.

Definition setStack (stack : list Frame) (r : RegistryState) : RegistryState :=
  {| registeredFunctions := registeredFunctions r; customCharts := customCharts r;
     customEvaluations := customEvaluations r;
     aggregateMeasureCharts := aggregateMeasureCharts r;
     aggregateEvaluateCharts := aggregateEvaluateCharts r;
     customChartIdCounter := customChartIdCounter r;
     aggregateChartOrderCounter := aggregateChartOrderCounter r;
     describeContextStack := stack |}.

(** [measure(title, fn, dataGenerator)] and [measureAsync(...)], which differ
    in the name in the message and in [isAsync]. *)
Definition registerMeasure (api : string) (isAsync : bool)
    (title : string) (fn : FnId) (dataGenerator : GenId) (r : RegistryState)
    : Res unit * RegistryState :=
  if bool_decide (title = "") then (Throw (api ++ ": title must be a non-empty string")%string, r)
  else match describeContextStack r with
  | [] => (Throw contextError, r)
  | currentContext :: below =>
      let path := fr_path currentContext ++ [title] in
      if existsb (fun child => bool_decide (nodeTitle child = title))
           (fr_children currentContext)
      then (Throw (duplicateTitleError title (fr_path currentContext)), r)
      else if existsb isEvaluate (fr_children currentContext)
      then (Throw (mixError (fr_path currentContext)), r)
      else
        let measureNode := MeasureNode title path fn dataGenerator isAsync in
        (Ok tt,
         {| registeredFunctions :=
              registeredFunctions r ++
              [ {| rf_group := legacyGroup path; rf_subGroup := legacySubGroup path;
                   rf_title := title; rf_fn := fn; rf_dataGenerator := dataGenerator;
                   rf_isAsync := Some isAsync; rf_path := Some path |} ];
            customCharts := customCharts r;
            customEvaluations := customEvaluations r;
            aggregateMeasureCharts := aggregateMeasureCharts r;
            aggregateEvaluateCharts := aggregateEvaluateCharts r;
            customChartIdCounter := customChartIdCounter r;
            aggregateChartOrderCounter := aggregateChartOrderCounter r;
            describeContextStack := pushChild measureNode currentContext :: below |})
  end.

Definition measure := registerMeasure "measure" false.
Definition measureAsync := registerMeasure "measureAsync" true.

(** [evaluate(customChart, title, fn, dataGenerator)] *)
Definition evaluate (customChart : CustomChart) (title : string) (fn : FnId)
    (dataGenerator : GenId) (r : RegistryState) : Res unit * RegistryState :=
  if bool_decide (title = "") then (Throw "evaluate: title must be a non-empty string", r)
  else match describeContextStack r with
  | [] => (Throw contextError, r)
  | currentContext :: below =>
      let path := fr_path currentContext ++ [title] in
      if existsb (fun child => bool_decide (nodeTitle child = title))
           (fr_children currentContext)
      then (Throw (duplicateTitleError title (fr_path currentContext)), r)
      else if existsb isMeasure (fr_children currentContext)
      then (Throw (mixError (fr_path currentContext)), r)
      else
        let evaluateNode := EvaluateNode title path customChart fn dataGenerator in
        (Ok tt,
         {| registeredFunctions := registeredFunctions r;
            customCharts := customCharts r;
            customEvaluations :=
              customEvaluations r ++
              [ {| ce_customChart := customChart;
                   ce_group := legacyGroup path; ce_subGroup := legacySubGroup path;
                   ce_title := title; ce_fn := fn; ce_dataGenerator := dataGenerator;
                   ce_path := Some path |} ];
            aggregateMeasureCharts := aggregateMeasureCharts r;
            aggregateEvaluateCharts := aggregateEvaluateCharts r;
            customChartIdCounter := customChartIdCounter r;
            aggregateChartOrderCounter := aggregateChartOrderCounter r;
            describeContextStack := pushChild evaluateNode currentContext :: below |})
  end.

(** The part of [describe(title, runner)] before [runner()]: the checks and
    the two pushes. *)
Definition describeEnter (title : string) (r : RegistryState) : Res unit * RegistryState :=
  if bool_decide (title = "") then (Throw "describe: title must be a non-empty string", r)
  else match describeContextStack r with
  | [] => (Throw contextError, r)
  | currentContext :: below =>
      if existsb (fun child => bool_decide (nodeTitle child = title))
           (fr_children currentContext)
      then (Throw (duplicateTitleError title (fr_path currentContext)), r)
      else if existsb isMeasure (fr_children currentContext) &&
              existsb isEvaluate (fr_children currentContext)
      then (Throw (mixError (fr_path currentContext)), r)
      else
        (Ok tt,
         setStack ({| fr_title := title; fr_path := fr_path currentContext ++ [title];
                      fr_children := [] |} :: currentContext :: below) r)
  end.

(** [describeContextStack.pop()] in the [finally] of [describe]: the node
    that leaves the stack stays the last child of the context below. *)
Definition describeExit (r : RegistryState) : RegistryState :=
  match describeContextStack r with
  | f :: parent :: below => setStack (pushChild (frameNode f) parent :: below) r
  | _ => setStack [] r
  end.

(** [createCustomChart(options)]: the chart gets the next id. The options
    are not a part of [CustomChart] here, which has the id only. *)
Definition createCustomChart (r : RegistryState) : CustomChart * RegistryState :=
  let chart := {| chart_id := ("custom_" ++ pretty (customChartIdCounter r))%string |} in
  (chart,
   {| registeredFunctions := registeredFunctions r;
      customCharts := customCharts r ++ [chart];
      customEvaluations := customEvaluations r;
      aggregateMeasureCharts := aggregateMeasureCharts r;
      aggregateEvaluateCharts := aggregateEvaluateCharts r;
      customChartIdCounter := S (customChartIdCounter r);
      aggregateChartOrderCounter := aggregateChartOrderCounter r;
      describeContextStack := describeContextStack r |}).

(** [options?.metrics || ['avg', 'min', 'max']] and the like: an array is
    truthy, also when it is empty. *)
Definition orDefault {A} (given : option A) (dflt : A) : option A :=
  match given with
  | Some x => Some x
  | None => Some dflt
  end.

(** [aggregateMeasure(title, path, options)] *)
Definition aggregateMeasure (title : string) (path : list Filter)
    (options : option AggregateChartOptions) (r : RegistryState)
    : Res unit * RegistryState :=
  if bool_decide (title = "")
  then (Throw "aggregateMeasure: title must be a non-empty string", r)
  else
    let chart :=
      {| amc_id := ("aggregate_measure_" ++ pretty (aggregateChartOrderCounter r))%string;
         amc_title := title;
         amc_path := path;
         amc_options :=
           {| ao_metrics := orDefault (options ≫= ao_metrics)
                              [MetricAvg; MetricMin; MetricMax];
              ao_xAxis := orDefault (options ≫= ao_xAxis) [AxisCategory; AxisLinear];
              ao_mode := orDefault (options ≫= ao_mode)
                           [ModeOps; ModeDuration; ModeMemory] |};
         amc_order := S (aggregateChartOrderCounter r) - 1 |} in
    (Ok tt,
     {| registeredFunctions := registeredFunctions r;
        customCharts := customCharts r;
        customEvaluations := customEvaluations r;
        aggregateMeasureCharts := aggregateMeasureCharts r ++ [chart];
        aggregateEvaluateCharts := aggregateEvaluateCharts r;
        customChartIdCounter := customChartIdCounter r;
        aggregateChartOrderCounter := S (aggregateChartOrderCounter r);
        describeContextStack := describeContextStack r |}).

(** [aggregateEvaluate(customChart, title, path, options)] *)
Definition aggregateEvaluate (customChart : CustomChart) (title : string)
    (path : list Filter) (options : option AggregateChartOptions) (r : RegistryState)
    : Res unit * RegistryState :=
  if bool_decide (title = "")
  then (Throw "aggregateEvaluate: title must be a non-empty string", r)
  else
    let chart :=
      {| aec_id := ("aggregate_evaluate_" ++ pretty (aggregateChartOrderCounter r))%string;
         aec_customChart := customChart;
         aec_title := title;
         aec_path := path;
         aec_options :=
           {| ao_metrics := orDefault (options ≫= ao_metrics)
                              [MetricAvg; MetricMin; MetricMax];
              ao_xAxis := orDefault (options ≫= ao_xAxis) [AxisCategory; AxisLinear];
              ao_mode := None |};
         aec_order := S (aggregateChartOrderCounter r) - 1 |} in
    (Ok tt,
     {| registeredFunctions := registeredFunctions r;
        customCharts := customCharts r;
        customEvaluations := customEvaluations r;
        aggregateMeasureCharts := aggregateMeasureCharts r;
        aggregateEvaluateCharts := aggregateEvaluateCharts r ++ [chart];
        customChartIdCounter := customChartIdCounter r;
        aggregateChartOrderCounter := S (aggregateChartOrderCounter r);
        describeContextStack := describeContextStack r |}).

(** What a test file does with the registration API: a call of [describe]
    with the calls that its runner makes, a call of [measure],
    [measureAsync], [evaluate], [createCustomChart], [aggregateMeasure] or
    [aggregateEvaluate], a [try] block of its own that swallows the exception
    of its body, and a [throw] of its own. *)
Inductive Decl :=
  | DDescribe (title : string) (runner : list Decl)
  | DMeasure (title : string) (fn : FnId) (dataGenerator : GenId)
  | DMeasureAsync (title : string) (fn : FnId) (dataGenerator : GenId)
  | DEvaluate (customChart : CustomChart) (title : string) (fn : FnId)
      (dataGenerator : GenId)
  | DCreateCustomChart
  | DAggregateMeasure (title : string) (path : list Filter)
      (options : option AggregateChartOptions)
  | DAggregateEvaluate (customChart : CustomChart) (title : string) (path : list Filter)
      (options : option AggregateChartOptions)
  | DTry (body : list Decl)
  | DThrow (e : Exn).

(** The calls of a block in order, up to the first that throws. *)
Fixpoint register (d : Decl) (r : RegistryState) : Res unit * RegistryState :=
  let block :=
    fix block (l : list Decl) (r : RegistryState) : Res unit * RegistryState :=
      match l with
      | [] => (Ok tt, r)
      | d :: l' =>
          match register d r with
          | (Ok _, r') => block l' r'
          | (Throw e, r') => (Throw e, r')
          end
      end in
  match d with
  | DDescribe title runner =>
      match describeEnter title r with
      | (Ok _, r1) =>
          (* try { runner(); } finally { describeContextStack.pop(); } *)
          let (res, r2) := block runner r1 in (res, describeExit r2)
      | (Throw e, r') => (Throw e, r')
      end
  | DMeasure title fn dataGenerator => measure title fn dataGenerator r
  | DMeasureAsync title fn dataGenerator => measureAsync title fn dataGenerator r
  | DEvaluate customChart title fn dataGenerator =>
      evaluate customChart title fn dataGenerator r
  | DCreateCustomChart => (Ok tt, (createCustomChart r).2)
  | DAggregateMeasure title path options => aggregateMeasure title path options r
  | DAggregateEvaluate customChart title path options =>
      aggregateEvaluate customChart title path options r
  | DTry body => let (_, r') := block body r in (Ok tt, r')
  | DThrow e => (Throw e, r)
  end.

Fixpoint registerAll (l : list Decl) (r : RegistryState) : Res unit * RegistryState :=
  match l with
  | [] => (Ok tt, r)
  | d :: l' =>
      match register d r with
      | (Ok _, r') => registerAll l' r'
      | (Throw e, r') => (Throw e, r')
      end
  end.

(** ** Observations of the registry *)

(** All nodes of a hierarchy, a node before its children. *)
Fixpoint subnodes (node : TestNode) : list TestNode :=
  node ::
  match node with
  | DescribeNode _ _ children =>
      (fix subnodesOf (l : list TestNode) : list TestNode :=
         match l with
         | [] => []
         | child :: l' => subnodes child ++ subnodesOf l'
         end) children
  | _ => []
  end.

(** The entry of the legacy list that [measure] pushes for a leaf. *)
Definition legacyFunction (title : string) (path : list string) (fn : FnId)
    (dataGenerator : GenId) (isAsync : bool) : RegisteredFunction :=
  {| rf_group := legacyGroup path; rf_subGroup := legacySubGroup path;
     rf_title := title; rf_fn := fn; rf_dataGenerator := dataGenerator;
     rf_isAsync := Some isAsync; rf_path := Some path |}.

Definition legacyEvaluation (title : string) (path : list string) (customChart : CustomChart)
    (fn : FnId) (dataGenerator : GenId) : CustomEvaluation :=
  {| ce_customChart := customChart;
     ce_group := legacyGroup path; ce_subGroup := legacySubGroup path;
     ce_title := title; ce_fn := fn; ce_dataGenerator := dataGenerator;
     ce_path := Some path |}.

(** The measure leaves and the evaluate leaves of a hierarchy in depth-first
    order, as entries of the legacy lists. *)
Definition measureLeaf (node : TestNode) : option RegisteredFunction :=
  match node with
  | MeasureNode title path fn dataGenerator isAsync =>
      Some (legacyFunction title path fn dataGenerator isAsync)
  | _ => None
  end.

Definition evaluateLeaf (node : TestNode) : option CustomEvaluation :=
  match node with
  | EvaluateNode title path customChart fn dataGenerator =>
      Some (legacyEvaluation title path customChart fn dataGenerator)
  | _ => None
  end.

(** The hierarchy is well formed below [node]. *)
Fixpoint wfNode (node : TestNode) : Prop :=
  match node with
  | DescribeNode _ path children =>
      NoDup (map nodeTitle children) ∧
      (existsb isMeasure children && existsb isEvaluate children = false) ∧
      (fix wfChildren (l : list TestNode) : Prop :=
         match l with
         | [] => True
         | child :: l' =>
             (nodePath child = path ++ [nodeTitle child] ∧ nodeTitle child ≠ "" ∧
              wfNode child) ∧ wfChildren l'
         end) children
  | _ => True
  end.

(** The children of a describe node with the path [path] are well formed. *)
Definition wfChildren (path : list string) (children : list TestNode) : Prop :=
  NoDup (map nodeTitle children) ∧
  (existsb isMeasure children && existsb isEvaluate children = false) ∧
  Forall (fun child => nodePath child = path ++ [nodeTitle child] ∧ nodeTitle child ≠ "" ∧
                       wfNode child) children.

(** The node of a frame may become a child of the frame below. *)
Definition fits (title : string) (path : list string) (below : list Frame) : Prop :=
  match below with
  | [] => True
  | parent :: _ =>
      (title ∉ map nodeTitle (fr_children parent)) ∧ title ≠ "" ∧
      path = fr_path parent ++ [title]
  end.

Fixpoint wfStack (stack : list Frame) : Prop :=
  match stack with
  | [] => True
  | f :: below =>
      wfChildren (fr_path f) (fr_children f) ∧ fits (fr_title f) (fr_path f) below ∧
      wfStack below
  end.

(** The leaves that [runMeasurements] collects are the leaves among all nodes. *)
Definition orderedLeaf (node : TestNode) : option OrderedNode :=
  match node with
  | MeasureNode title path _ _ _ =>
      Some {| on_type := TMeasure; on_path := path; on_title := title |}
  | EvaluateNode title path _ _ _ =>
      Some {| on_type := TEvaluate; on_path := path; on_title := title |}
  | DescribeNode _ _ _ => None
  end.

(** The leaves of the frames below the current context, in depth-first order. *)
Fixpoint subnodesBelow (below : list Frame) : list TestNode :=
  match below with
  | [] => []
  | f :: rest => subnodesBelow rest ++ flat_map subnodes (fr_children f)
  end.

(** The leaves of the hierarchy, read off the context stack. *)
Definition leavesOfStack {A} (leaf : TestNode → option A) (stack : list Frame) : list A :=
  match stack with
  | [] => []
  | f :: below =>
      omap leaf (subnodesBelow below) ++ omap leaf (flat_map subnodes (fr_children f))
  end.

(** The lists of the registry are the leaves of the hierarchy, in order. *)
Definition inOrder (r : RegistryState) : Prop :=
  registeredFunctions r = leavesOfStack measureLeaf (describeContextStack r) ∧
  customEvaluations r = leavesOfStack evaluateLeaf (describeContextStack r).

(** The frame [f'] is the frame [f] with more children. *)
Definition extends (f f' : Frame) : Prop :=
  fr_title f' = fr_title f ∧ fr_path f' = fr_path f ∧
  ∃ more, fr_children f' = fr_children f ++ more.

(** What the stack is after a call: the current context with more children,
    on the same contexts below. *)
Definition keepsContext (r r' : RegistryState) : Prop :=
  ∀ f below, describeContextStack r = f :: below →
    ∃ f', describeContextStack r' = f' :: below ∧ extends f f'.

(** What the hierarchy guarantees at a describe node: the titles of its
    children are pairwise distinct, it does not have both a measure and an
    evaluate child, and the path of every child is its own path followed by
    the title of the child, which is not empty. *)
Definition describeOk (node : TestNode) : Prop :=
  match node with
  | DescribeNode _ path children =>
      NoDup (map nodeTitle children) ∧
      (existsb isMeasure children && existsb isEvaluate children = false) ∧
      Forall (fun child => nodePath child = path ++ [nodeTitle child] ∧ nodeTitle child ≠ "")
        children
  | _ => True
  end.

(** The body that the plan attaches to a leaf registered through the API. *)
Definition leafBody (node : TestNode) : option ItemBody :=
  match node with
  | MeasureNode title path fn dataGenerator isAsync =>
      Some (IMeasure (legacyFunction title path fn dataGenerator isAsync))
  | EvaluateNode title path customChart fn dataGenerator =>
      Some (IEvaluate (legacyEvaluation title path customChart fn dataGenerator))
  | DescribeNode _ _ _ => None
  end.

(** The ids of the charts are numbered by the counters. *)
Definition customChartId (k : nat) : string := ("custom_" ++ pretty k)%string.
Definition aggregateMeasureId (k : nat) : string := ("aggregate_measure_" ++ pretty k)%string.
Definition aggregateEvaluateId (k : nat) : string :=
  ("aggregate_evaluate_" ++ pretty k)%string.

Definition chartsNumbered (r : RegistryState) : Prop :=
  map chart_id (customCharts r) = map customChartId (seq 0 (customChartIdCounter r)) ∧
  Forall (fun c => amc_id c = aggregateMeasureId (amc_order c)) (aggregateMeasureCharts r) ∧
  Forall (fun c => aec_id c = aggregateEvaluateId (aec_order c)) (aggregateEvaluateCharts r) ∧
  map amc_order (aggregateMeasureCharts r) ++ map aec_order (aggregateEvaluateCharts r)
    ≡ₚ seq 0 (aggregateChartOrderCounter r).

(** The kinds of the leaves that [runMeasurements] collects. *)
Definition isTMeasure (node : OrderedNode) : bool :=
  match on_type node with TMeasure => true | TEvaluate => false end.
Definition isTEvaluate (node : OrderedNode) : bool :=
  match on_type node with TMeasure => false | TEvaluate => true end.

(** ** The hierarchy and the groups for the client *)

(** [HierarchicalNode]: [children] for a describe node, [customChartId] for
    an evaluate node. *)
Inductive HierarchicalNode :=
  | HDescribe (title : string) (path : list string) (children : list HierarchicalNode)
  | HMeasure (title : string) (path : list string)
  | HEvaluate (title : string) (path : list string) (customChartId : string).

(** [convertNodeToHierarchicalInfo(node)] *)
Fixpoint convertNodeToHierarchicalInfo (node : TestNode) : HierarchicalNode :=
  match node with
  | DescribeNode title path children =>
      HDescribe title path
        ((fix convertAll (l : list TestNode) : list HierarchicalNode :=
            match l with
            | [] => []
            | child :: l' => convertNodeToHierarchicalInfo child :: convertAll l'
            end) children)
  | MeasureNode title path _ _ _ => HMeasure title path
  | EvaluateNode title path customChart _ _ => HEvaluate title path (chart_id customChart)
  end.

(** [getHierarchy()], for the root that [getTestHierarchy()] returns. *)
Definition getHierarchy (root : TestNode) : HierarchicalNode :=
  convertNodeToHierarchicalInfo root.

(** The leaves of the hierarchy sent to the client, depth first. *)
Fixpoint hierarchicalLeaves (node : HierarchicalNode) : list OrderedNode :=
  match node with
  | HMeasure title path => [ {| on_type := TMeasure; on_path := path; on_title := title |} ]
  | HEvaluate title path _ =>
      [ {| on_type := TEvaluate; on_path := path; on_title := title |} ]
  | HDescribe _ _ children =>
      (fix leavesOfAll (l : list HierarchicalNode) : list OrderedNode :=
         match l with
         | [] => []
         | child :: l' => hierarchicalLeaves child ++ leavesOfAll l'
         end) children
  end.

(** The chart ids of the evaluate leaves of either hierarchy, depth first. *)
Fixpoint chartIdsOf (node : TestNode) : list string :=
  match node with
  | MeasureNode _ _ _ _ _ => []
  | EvaluateNode _ _ customChart _ _ => [chart_id customChart]
  | DescribeNode _ _ children =>
      (fix idsOfAll (l : list TestNode) : list string :=
         match l with
         | [] => []
         | child :: l' => chartIdsOf child ++ idsOfAll l'
         end) children
  end.

Fixpoint hierarchicalChartIds (node : HierarchicalNode) : list string :=
  match node with
  | HMeasure _ _ => []
  | HEvaluate _ _ customChartId => [customChartId]
  | HDescribe _ _ children =>
      (fix idsOfAll (l : list HierarchicalNode) : list string :=
         match l with
         | [] => []
         | child :: l' => hierarchicalChartIds child ++ idsOfAll l'
         end) children
  end.

(** The number of nodes. *)
Fixpoint nodeCount (node : TestNode) : nat :=
  match node with
  | DescribeNode _ _ children =>
      S ((fix countAll (l : list TestNode) : nat :=
            match l with
            | [] => 0
            | child :: l' => nodeCount child + countAll l'
            end) children)
  | _ => 1
  end.

Fixpoint hierarchicalCount (node : HierarchicalNode) : nat :=
  match node with
  | HDescribe _ _ children =>
      S ((fix countAll (l : list HierarchicalNode) : nat :=
            match l with
            | [] => 0
            | child :: l' => hierarchicalCount child + countAll l'
            end) children)
  | _ => 1
  end.

(** [SubGroupInfo] and [GroupInfo] of [types.ts] *)
Record SubGroupInfo := { sg_name : string; sg_titles : list string }.
Record GroupInfo := { gi_name : string; gi_subGroups : list SubGroupInfo }.

(** A [Set<string>] in insertion order: [set.add(x)]. *)
Definition setAdd (x : string) (set : list string) : list string :=
  if bool_decide (x ∈ set) then set else set ++ [x].

(** A [Map<string, V>] in insertion order: [map.get(key)]. *)
Fixpoint mapGet {V} (key : string) (m : list (string * V)) : option V :=
  match m with
  | [] => None
  | (k, v) :: m' => if bool_decide (k = key) then Some v else mapGet key m'
  end.

(** [if (!map.has(key)) map.set(key, empty); update(map.get(key))]: the
    entry keeps its place, a new entry goes to the end. *)
Fixpoint mapUpdate {V} (key : string) (empty : V) (update : V → V) (m : list (string * V))
    : list (string * V) :=
  match m with
  | [] => [(key, update empty)]
  | (k, v) :: m' =>
      if bool_decide (k = key) then (k, update v) :: m'
      else (k, v) :: mapUpdate key empty update m'
  end.

(** One turn of the two loops that fill [groupsMap]. *)
Definition addTitle (group subGroup title : string)
    (groupsMap : list (string * list (string * list string)))
    : list (string * list (string * list string)) :=
  mapUpdate group [] (mapUpdate subGroup [] (setAdd title)) groupsMap.

Definition fillGroupsMap (functions : list RegisteredFunction)
    (customEvals : list CustomEvaluation) : list (string * list (string * list string)) :=
  fold_left (fun m customEval =>
               addTitle (ce_group customEval) (ce_subGroup customEval) (ce_title customEval) m)
    customEvals
    (fold_left (fun m func => addTitle (rf_group func) (rf_subGroup func) (rf_title func) m)
       functions []).

(** [customEvals.some(e => e.group === groupName && e.subGroup === subGroupName)] *)
Definition hasCustom (customEvals : list CustomEvaluation) (groupName subGroupName : string)
    : bool :=
  existsb (fun customEval => bool_decide (ce_group customEval = groupName) &&
                             bool_decide (ce_subGroup customEval = subGroupName)) customEvals.

(** [getGroups()], for the lists that the getters of the registry return. *)
Definition getGroups (functions : list RegisteredFunction)
    (customEvals : list CustomEvaluation) : list GroupInfo :=
  map (fun entry : string * list (string * list string) =>
         let groupName := entry.1 in
         let infos := map (fun sub : string * list string =>
                             {| sg_name := sub.1; sg_titles := sub.2 |}) entry.2 in
         let customSubGroups :=
           List.filter (fun info => hasCustom customEvals groupName (sg_name info)) infos in
         let standardSubGroups :=
           List.filter (fun info => negb (hasCustom customEvals groupName (sg_name info)))
             infos in
         {| gi_name := groupName; gi_subGroups := customSubGroups ++ standardSubGroups |})
    (fillGroupsMap functions customEvals).

(** The title is listed under the subgroup of the group. *)
Definition listed (groups : list GroupInfo) (group subGroup title : string) : Prop :=
  ∃ g sg, g ∈ groups ∧ gi_name g = group ∧ sg ∈ gi_subGroups g ∧ sg_name sg = subGroup ∧
          title ∈ sg_titles sg.

(** The title was registered under the subgroup of the group. *)
Definition registeredTitle (functions : list RegisteredFunction)
    (customEvals : list CustomEvaluation) (group subGroup title : string) : Prop :=
  (∃ f, f ∈ functions ∧ rf_group f = group ∧ rf_subGroup f = subGroup ∧ rf_title f = title) ∨
  (∃ e, e ∈ customEvals ∧ ce_group e = group ∧ ce_subGroup e = subGroup ∧ ce_title e = title).

(** The names of [l] that are not in [seen], each at its first occurrence. *)
Fixpoint firstOccurrences (seen l : list string) : list string :=
  match l with
  | [] => []
  | x :: l' =>
      if bool_decide (x ∈ seen) then firstOccurrences seen l'
      else x :: firstOccurrences (seen ++ [x]) l'
  end.

(** The maps under construction: keys and titles without duplicates. *)
Definition groupsMapOk (m : list (string * list (string * list string))) : Prop :=
  NoDup (map fst m) ∧
  Forall (fun entry => NoDup (map fst entry.2) ∧
                       Forall (fun sub => NoDup sub.2) entry.2) m.

Definition inGroupsMap (m : list (string * list (string * list string)))
    (group subGroup title : string) : Prop :=
  ∃ subs titles, mapGet group m = Some subs ∧ mapGet subGroup subs = Some titles ∧
                 title ∈ titles.

(** No entry of the maps under construction is empty. *)
Definition groupsMapFull (m : list (string * list (string * list string))) : Prop :=
  Forall (fun entry => entry.2 ≠ [] ∧ Forall (fun sub => sub.2 ≠ []) entry.2) m.

(** ** The interactions of a series *)

Section SamplerDefs.
Context {num D : Type}.

(** The calls of the target function that a series of [n] iterations makes. *)
Definition seriesCalls (fn : FnId) (data : list D) (i0 : N) (n : nat) : list (Act num D) :=
  map (fun i => AFn fn (cyclicDatum data (uint32 (N.of_nat (length data)))
                          (i0 + N.of_nat i)%N)) (seq 0 n).

(** The interactions of [measureSeries]: the clock, the calls, the clock. *)
Definition seriesTranscript (seriesSize : N) (data : list D) (fn : FnId)
    : list (Act num D) :=
  ATime :: seriesCalls fn data 0 (N.to_nat (uint32 seriesSize)) ++ [ATime].

(** The interactions of one turn of the series loop of a measure leaf: the
    garbage collection when it is forced, the series, the [await] of an
    async series, and the delay. *)
Definition seriesBlock (seriesSize : N) (delay : num) (forceGC : bool)
    (func : RegisteredFunction) (dataArray : list D) : list (Act num D) :=
  (if forceGC then [AGC] else []) ++
  seriesTranscript seriesSize dataArray (rf_fn func) ++
  (if default false (rf_isAsync func) then [AAwait] else []) ++
  [ADelay delay].

End SamplerDefs.

(** ** What the events of a run carry *)

Section Payload.
Context {num : Type} {NO : NumOps num}.

(** The result of an evaluate leaf: it is labelled like its event, it has
    one value per data unit, and its statistics are those of its values. *)
Definition customStats (dataUnitsCount : N) (ev : ProgressEvent num)
    (c : CustomMeasurementResult num) : Prop :=
  cr_path c = ev_path ev ∧ cr_title c = ev_title ev ∧ cr_dataSize c = ev_dataSize ev ∧
  length (cr_values c) = N.to_nat dataUnitsCount ∧
  cr_avg c = mean (cr_values c) ∧
  cr_min c = minimum (cr_values c) ∧
  cr_max c = maximum (cr_values c).

(** The memory fields of the result of a measure leaf: all of them are
    there or none is; they are there when [memoryMeasurementsCount] is
    given and positive, with one sample [Math.max(0, end - start)] per
    measurement and the statistics of the samples. *)
Definition memoryStats (memoryMeasurementsCount : option N) (r : MeasurementResult num)
    : Prop :=
  match mr_memory r with
  | Some memories =>
      (∃ count, memoryMeasurementsCount = Some count ∧ (0 < count)%N ∧
                length memories = N.to_nat (count mod 2 ^ 32)%N) ∧
      Forall (fun m => ∃ d, m = n_max2 (n_of_N 0) d) memories ∧
      mr_memoryAvg r = Some (mean memories) ∧
      mr_memoryMin r = Some (minimum memories) ∧
      mr_memoryMax r = Some (maximum memories)
  | None =>
      (memoryMeasurementsCount = None ∨ memoryMeasurementsCount = Some 0%N) ∧
      mr_memoryAvg r = None ∧ mr_memoryMin r = None ∧ mr_memoryMax r = None
  end.

(** An event carries the result of a measure leaf or the result of an
    evaluate leaf, never both and never none. *)
Definition payload (dataUnitsCount : N) (memoryMeasurementsCount : option N)
    (ev : ProgressEvent num) : Prop :=
  match ev_result ev, ev_customResult ev with
  | Some r, None =>
      mr_path r = ev_path ev ∧ mr_title r = ev_title ev ∧ mr_dataSize r = ev_dataSize ev ∧
      memoryStats memoryMeasurementsCount r
  | None, Some c => customStats dataUnitsCount ev c
  | _, _ => False
  end.

End Payload.

(** ** What the run measured, and the interactions of a unit *)

Section Measured.
Context {num : Type} {NO : NumOps num} {D : Type}.

(** An event with what the run observed since the event before it: the
    value of the stop flag when the event was delivered, the replies of the
    clock and the replies of [getMemoryUsage], each in the order of the
    readings. *)
Record Measured := {
  mu_flag : bool;
  mu_event : ProgressEvent num;
  mu_times : list num;
  mu_memory : list num
}.

(** The events of [acts], performed from the state [s] on; [times] and
    [mems] are the readings since the last event. *)
Fixpoint measuredUnits (o : Oracle num D) (s : St num D) (acts : list (Act num D))
    (times mems : list num) : list Measured :=
  match acts with
  | [] => []
  | a :: acts' =>
      let reading := r_num (o (length (trace s)) a) in
      match a with
      | AEmit ev =>
          {| mu_flag := stopRequested (eng s); mu_event := ev;
             mu_times := times; mu_memory := mems |}
          :: measuredUnits o (stepState o s a) acts' [] []
      | ATime => measuredUnits o (stepState o s a) acts' (times ++ [reading]) mems
      | AMem => measuredUnits o (stepState o s a) acts' times (mems ++ [reading])
      | _ => measuredUnits o (stepState o s a) acts' times mems
      end
  end.

(** The readings that are pending after [acts]. *)
Fixpoint pendingReadings (o : Oracle num D) (s : St num D) (acts : list (Act num D))
    (times mems : list num) : list num * list num :=
  match acts with
  | [] => (times, mems)
  | a :: acts' =>
      let reading := r_num (o (length (trace s)) a) in
      match a with
      | AEmit ev => pendingReadings o (stepState o s a) acts' [] []
      | ATime => pendingReadings o (stepState o s a) acts' (times ++ [reading]) mems
      | AMem => pendingReadings o (stepState o s a) acts' times (mems ++ [reading])
      | _ => pendingReadings o (stepState o s a) acts' times mems
      end
  end.

(** The readings come in pairs, before and after: the differences
    [after - before]. *)
Fixpoint differences (readings : list num) : list num :=
  match readings with
  | before :: after :: rest => n_sub after before :: differences rest
  | _ => []
  end.

(** The raw durations of the series of a unit: [endTime - startTime] of
    every series, from the replies of the clock. *)
Definition mu_durations (u : Measured) : list num := differences (mu_times u).

(** The memory samples of a unit: [Math.max(0, endMemory - startMemory)]
    of every measurement, from the replies of [getMemoryUsage]. *)
Definition mu_samples (u : Measured) : list num :=
  map (n_max2 (n_of_N 0)) (differences (mu_memory u)).

(** An interaction that is no reading and no event. *)
Definition isSilent (a : Act num D) : bool :=
  match a with ATime | AMem | AEmit _ => false | _ => true end.

(** What the event of a unit reports of what was measured: the statistics
    of the durations of its series, all [seriesCount] of them unless the run
    was being stopped, and the memory samples. *)
Definition reportsMeasured (seriesSize seriesCount : N) (u : Measured) : Prop :=
  ∀ r, ev_result (mu_event u) = Some r →
    statsOf seriesSize (mu_durations u) r ∧
    (length (mu_durations u) ≤ N.to_nat seriesCount)%nat ∧
    (mu_flag u = false → length (mu_durations u) = N.to_nat seriesCount) ∧
    (∀ memories, mr_memory r = Some memories → memories = mu_samples u).

End Measured.

Section Transcripts.
Context {num : Type} {NO : NumOps num} {D : Type}.

(** The interactions of one memory measurement: the garbage collection, the
    memory reading, the call, the memory reading. *)
Definition memoryBlock (fn : FnId) (dataArray : list D) (i : N) : list (Act num D) :=
  [AGC; AMem;
   AFn fn (cyclicDatum dataArray (uint32 (N.of_nat (length dataArray))) i);
   AMem].

(** The interactions of the memory sampling of a measure leaf (lines
    647-662): nothing unless [memoryMeasurementsCount] is given and
    positive. *)
Definition memorySampling (memoryMeasurementsCount : option N) (func : RegisteredFunction)
    (dataArray : list D) : list (Act num D) :=
  match memoryMeasurementsCount with
  | Some count =>
      if (0 <? count)%N
      then flat_map (fun i => memoryBlock (rf_fn func) dataArray (N.of_nat i))
             (seq 0 (N.to_nat (uint32 count))) ++
           (if default false (rf_isAsync func) then [AAwait] else [])
      else []
  | None => []
  end.

(** The generator calls of a unit that does not use shared data. *)
Definition ownGeneration (dataUnitsCount : N) (g : GenId) (dataSize : num)
    (shared : option (list D)) : list (Act num D) :=
  match shared with
  | Some _ => []
  | None => replicate (N.to_nat dataUnitsCount) (AGen g dataSize)
  end.

Variable o : Oracle num D.

(** A computation without readings and events. *)
Definition silently {A} (m : M num D A) : Prop :=
  ∀ s, post o m s (fun _ acts => forallb isSilent acts = true).

(** What a part of the sampling of a unit adds to the pending readings:
    no event, and the readings [T] and [M] when it returns [a] with [R a T M]. *)
Definition reads {A} (m : M num D A) (R : St num D → A → list num → list num → Prop) : Prop :=
  ∀ s times mems,
    post o m s (fun r acts =>
      measuredUnits o s acts times mems = [] ∧
      ∀ a, r = Ok a →
        ∃ T M, pendingReadings o s acts times mems = (times ++ T, mems ++ M) ∧
               R (replay o s acts) a T M).

(** The events of a part of the run report what was measured, and the
    part leaves no reading behind when it returns. *)
Definition measuredPost (seriesSizeV seriesCountV : N) (s : St num D) (times mems : list num) (r : Res num)
    (acts : list (Act num D)) : Prop :=
  Forall (reportsMeasured seriesSizeV seriesCountV) (measuredUnits o s acts times mems) ∧
  (∀ c, r = Ok c → pendingReadings o s acts times mems = ([], [])).

(** What a computation that returns has performed. *)
Definition performs {A} (m : M num D A) (P : St num D → A → list (Act num D) → Prop) : Prop :=
  ∀ s, post o m s (fun r acts => ∀ a, r = Ok a → P s a acts).

(** The series loop from the state [s]: one block for every duration that
    it adds, every block started while the stop flag was not set, and fewer
    than [n] blocks only when the flag was set in the end. *)
Definition loopTranscript (seriesSizeV : N) (delayV : num) (forceGCV : bool)
    (func : RegisteredFunction) (dataArray : list D) (n : nat) (ds : list num)
    (s : St num D) (ds' : list num) (acts : list (Act num D)) : Prop :=
  let block := seriesBlock seriesSizeV delayV forceGCV func dataArray in
  ∃ more, ds' = ds ++ more ∧ acts = concat (replicate (length more) block) ∧
    (length more ≤ n)%nat ∧
    (∀ j, (j < length more)%nat →
          stopRequested (eng (replay o s (concat (replicate j block)))) = false) ∧
    ((length more < n)%nat → stopRequested (eng (replay o s acts)) = true).

End Transcripts.

(** An event after whose delivery the stop flag is set is the last
    interaction of [acts]. *)
Definition emitsLast {num D} (o : Oracle num D) (s : St num D) (acts : list (Act num D))
    : Prop :=
  ∀ pre ev rest, acts = pre ++ AEmit ev :: rest →
    stopRequested (eng (replay o s (pre ++ [AEmit ev]))) = true → rest = [].

(** A part of the run loop that starts at a check of the stop flag. *)
Definition endsPost {num D} (o : Oracle num D) (s : St num D) (acts : list (Act num D))
    : Prop :=
  emitsLast o s acts ∧ (stopRequested (eng s) = true → acts = []).

(** ** A registry whose joined paths collide *)

Module Collision.
Import PrimFloat.

(** [describe('G', () => { measure('a > b', fn1, gen);
                           describe('a', () => measure('b', fn2, gen)) })] *)
Definition declarations : list Decl :=
  [DDescribe "G" [DMeasure "a > b" 1 7; DDescribe "a" [DMeasure "b" 2 7]]].

Definition registry : Registry float :=
  registryOf Scenarios.noSettings (registerAll declarations initialRegistry).2.

Definition first : RegisteredFunction :=
  {| rf_group := "G"; rf_subGroup := "G"; rf_title := "a > b"; rf_fn := 1;
     rf_dataGenerator := 7; rf_isAsync := Some false; rf_path := Some ["G"; "a > b"] |}.

Definition second : RegisteredFunction :=
  {| rf_group := "G"; rf_subGroup := "a"; rf_title := "b"; rf_fn := 2;
     rf_dataGenerator := 7; rf_isAsync := Some false; rf_path := Some ["G"; "a"; "b"] |}.

Definition configAll : MeasurementConfig float := Scenarios.config [10%float] 1 1 1.

(** The selection of the path [G > a > b] alone. *)
Definition configOne : MeasurementConfig float :=
  {| selectedPaths := Some [[FExact "G"; FExact "a"; FExact "b"]];
     dataUnitSizes := Some [10%float]; dataUnitsCount := Some 1%N;
     seriesSize := Some 1%N; seriesCount := Some 1%N;
     delay := None; forceGC := None; memoryMeasurementsCount := None |}.

End Collision.

(** The functions that a sequence of interactions calls. *)
Definition calledFunctions {num D} (acts : list (Act num D)) : list FnId :=
  omap (fun a => match a with AFn f _ => Some f | _ => None end) acts.

(** * Theorems *)

(** ** Path matcher *)

Lemma forall_nat_split (P : nat → Prop) : (∀ j, P j) ↔ P 0%nat ∧ ∀ j, P (S j).
Proof.
  split; [intros H; split; intros; apply H|].
  intros [H0 HS] [|j]; auto.
Qed.

Lemma matchesFrom_spec (path : list string) (rest : list Filter) (i : nat) :
  matchesFrom path i rest = true ↔
  ∀ j f, rest !! j = Some f → filter_accepts f (path !! (i + j)%nat).
Proof.
  revert i. induction rest as [|f rest IH]; intros i; simpl.
  - split; [intros _ j f Hj; rewrite lookup_nil in Hj; discriminate | done].
  - rewrite (forall_nat_split (fun j => ∀ g, (f :: rest) !! j = Some g → _)).
    simpl. replace (i + 0)%nat with i by lia.
    assert (Hrest : matchesFrom path (S i) rest = true ↔
              ∀ j g, rest !! j = Some g → filter_accepts g (path !! (i + S j)%nat)).
    { rewrite IH. split; intros H j g Hj; specialize (H j g Hj);
        replace (i + S j)%nat with (S i + j)%nat in * by lia; exact H. }
    rewrite <- Hrest. clear Hrest IH.
    assert (Hhead : ∀ P : Prop, (∀ g, Some f = Some g → filter_accepts g (path !! i)) ∧ P
                      ↔ filter_accepts f (path !! i) ∧ P).
    { intros P. split; intros [H HP]; split; auto. intros g [= <-]. exact H. }
    rewrite Hhead. clear Hhead.
    destruct f as [|s|l]; simpl.
    + tauto.
    + case_bool_decide; [tauto|]. split; [discriminate|tauto].
    + destruct (path !! i) as [seg|]; [|split; [discriminate|intros [[? [? _]] _]; discriminate]].
      case_bool_decide as Hin.
      * split; [intros H; split; [eauto|exact H]|tauto].
      * split; [discriminate|]. intros [[seg' [[= <-] Hin']] _]. contradiction.
Qed.

(** C4. [matchesPathPattern(X, P)] is false whenever [P] has more entries
    than [X], true when [P] is empty, and otherwise true exactly when every
    filter [P[i]] accepts the segment [X[i]]: it is undefined, or a string
    equal to [X[i]], or an array that contains [X[i]]. A pattern shorter
    than the path constrains a prefix of the path only. *)
Theorem matchesPathPattern_spec (path : list string) (pattern : list Filter) :
  (matchesPathPattern path pattern = true ↔
     (length pattern ≤ length path)%nat ∧
     ∀ i f, pattern !! i = Some f → filter_accepts f (path !! i))
  ∧ ((length path < length pattern)%nat → matchesPathPattern path pattern = false)
  ∧ matchesPathPattern path [] = true.
Proof.
  unfold matchesPathPattern. split; [|split].
  - case_bool_decide as Hlen.
    + split; [discriminate|]. intros [Hle _]. lia.
    + rewrite matchesFrom_spec. simpl. split; [intros H; split; [lia|exact H]|tauto].
  - intros Hlen. rewrite bool_decide_eq_true_2; [reflexivity|exact Hlen].
  - rewrite bool_decide_eq_false_2; [reflexivity|simpl; lia].
Qed.

(** ** Plan builder *)

Lemma filter_filter_comm {A} (f g : A → bool) (l : list A) :
  List.filter f (List.filter g l) = List.filter (fun x => g x && f x) l.
Proof.
  induction l as [|x l IH]; simpl; [reflexivity|].
  destruct (g x); simpl; [destruct (f x)|]; rewrite ?IH; reflexivity.
Qed.

Lemma filter_ext_in' {A} (f g : A → bool) (l : list A) :
  (∀ x, x ∈ l → f x = g x) → List.filter f l = List.filter g l.
Proof.
  intros H. apply List.filter_ext_in. intros x Hx. apply H, list_elem_of_In, Hx.
Qed.

Lemma collectPathKeys_spec (unifiedItems : list UnifiedItem) (seen : gset (option string)) :
  collectPathKeys unifiedItems seen =
  List.filter (fun k => negb (bool_decide (k ∈ seen)))
    (firstAppearance (map ui_pathKey unifiedItems)).
Proof.
  revert seen. induction unifiedItems as [|item rest IH]; intros seen; simpl; [reflexivity|].
  case_bool_decide as Hseen; simpl.
  - rewrite IH, filter_filter_comm. apply filter_ext_in'. intros k _.
    repeat case_bool_decide; subst; simpl; try reflexivity; contradiction.
  - f_equal. rewrite IH, filter_filter_comm. apply filter_ext_in'. intros k _.
    repeat case_bool_decide; subst; simpl; try reflexivity; set_solver.
Qed.

Lemma allPathKeys_firstAppearance (unifiedItems : list UnifiedItem) :
  collectPathKeys unifiedItems ∅ = firstAppearance (map ui_pathKey unifiedItems).
Proof.
  rewrite collectPathKeys_spec.
  rewrite (filter_ext_in' _ (fun _ => true)).
  - induction (firstAppearance _) as [|k l IH]; simpl; [reflexivity|]. by rewrite IH.
  - intros k _. rewrite bool_decide_eq_false_2; [reflexivity|set_solver].
Qed.

Lemma firstAppearance_elem (keys : list (option string)) (k : option string) :
  k ∈ firstAppearance keys ↔ k ∈ keys.
Proof.
  induction keys as [|k0 rest IH]; simpl; [reflexivity|].
  rewrite !elem_of_cons, <- IH, list_elem_of_In, List.filter_In, <- list_elem_of_In.
  destruct (decide (k = k0)) as [->|Hne]; [tauto|].
  rewrite bool_decide_eq_false_2 by exact Hne. simpl. tauto.
Qed.

Lemma firstAppearance_NoDup (keys : list (option string)) : NoDup (firstAppearance keys).
Proof.
  induction keys as [|k0 rest IH]; simpl; [constructor|].
  constructor.
  - rewrite list_elem_of_In, List.filter_In. intros [_ H].
    rewrite bool_decide_eq_true_2 in H by reflexivity. discriminate.
  - apply NoDup_ListNoDup, List.NoDup_filter, NoDup_ListNoDup, IH.
Qed.

Lemma groupStep_lookup m item k :
  groupStep m item !! k =
  if decide (ui_pathKey item = k) then Some (default [] (m !! k) ++ [item]) else m !! k.
Proof.
  unfold groupStep. destruct (decide (ui_pathKey item = k)) as [<-|Hne].
  - rewrite lookup_insert_eq. destruct (m !! ui_pathKey item) eqn:E.
    + by rewrite E.
    + by rewrite lookup_insert_eq.
  - rewrite lookup_insert_ne by exact Hne.
    destruct (m !! ui_pathKey item); [reflexivity|]. by rewrite lookup_insert_ne.
Qed.

Lemma groupFold_lookup (l : list UnifiedItem) m k :
  fold_left groupStep l m !! k =
  match leavesOf l k with
  | [] => m !! k
  | _ => Some (default [] (m !! k) ++ leavesOf l k)
  end.
Proof.
  revert m. induction l as [|item l IH]; intros m; simpl; [reflexivity|].
  rewrite IH, groupStep_lookup. unfold leavesOf. simpl.
  destruct (decide (ui_pathKey item = k)) as [Heq|Hne].
  - rewrite bool_decide_eq_true_2 by exact Heq. simpl.
    fold (leavesOf l k). destruct (leavesOf l k); simpl.
    + reflexivity.
    + by rewrite <- app_assoc.
  - rewrite bool_decide_eq_false_2 by exact Hne. reflexivity.
Qed.

Lemma groupByPathKey_lookup (l : list UnifiedItem) k :
  default [] (groupByPathKey l !! k) = leavesOf l k.
Proof.
  unfold groupByPathKey. rewrite groupFold_lookup, lookup_empty.
  destruct (leavesOf l k); reflexivity.
Qed.

Lemma insertByIndex_last (x : UnifiedItem) (l : list UnifiedItem) :
  (∀ y, y ∈ l → (ui_registrationIndex y ≤ ui_registrationIndex x)%nat) →
  insertByIndex x l = l ++ [x].
Proof.
  induction l as [|y l IH]; intros H; simpl; [reflexivity|].
  rewrite bool_decide_eq_true_2 by (apply H; left).
  rewrite IH; [reflexivity|]. intros z Hz. apply H. by right.
Qed.

Lemma sortFold_sorted (l acc : list UnifiedItem) :
  indexSorted (acc ++ l) → fold_left (fun a x => insertByIndex x a) l acc = acc ++ l.
Proof.
  revert acc. induction l as [|x l IH]; intros acc Hs; simpl.
  - by rewrite app_nil_r.
  - rewrite insertByIndex_last.
    + rewrite IH; rewrite <- app_assoc; [reflexivity|exact Hs].
    + intros y Hy. apply list_elem_of_lookup in Hy as [i Hi].
      apply (Hs i (length acc)).
      * apply lookup_lt_Some in Hi. exact Hi.
      * by rewrite lookup_app_l by (by apply lookup_lt_Some in Hi).
      * rewrite lookup_app_r by lia. by rewrite Nat.sub_diag.
Qed.

Lemma sortByIndex_sorted (l : list UnifiedItem) : indexSorted l → sortByIndex l = l.
Proof. intros H. unfold sortByIndex. by rewrite sortFold_sorted. Qed.

Lemma unify_index_ge fbp ebp nodes idx item :
  item ∈ unify fbp ebp nodes idx → (idx ≤ ui_registrationIndex item)%nat.
Proof.
  revert idx. induction nodes as [|node nodes IH]; intros idx; simpl.
  - intros H. by apply elem_of_nil in H.
  - destruct (found fbp ebp node) as [body|].
    + rewrite elem_of_cons. intros [->|H]; simpl; [lia|]. apply IH in H. lia.
    + apply IH.
Qed.

Lemma unify_indexSorted fbp ebp nodes idx : indexSorted (unify fbp ebp nodes idx).
Proof.
  revert idx. induction nodes as [|node nodes IH]; intros idx; simpl.
  - intros i j x y _ Hi. by rewrite lookup_nil in Hi.
  - destruct (found fbp ebp node) as [body|]; [|apply IH].
    intros [|i] [|j] x y Hij Hi Hj; simpl in *; try lia.
    + injection Hi as <-. simpl.
      assert (y ∈ unify fbp ebp nodes (S idx)) as Hy by (eapply list_elem_of_lookup_2; eauto).
      apply unify_index_ge in Hy. lia.
    + apply (IH (S idx) i j); [lia|done..].
Qed.

Lemma indexSorted_filter (f : UnifiedItem → bool) (l : list UnifiedItem) :
  indexSorted l → indexSorted (List.filter f l).
Proof.
  intros Hs.
  assert (Hsub : sublist (List.filter f l) l).
  { clear Hs. induction l as [|x l IH]; simpl; [constructor|].
    destruct (f x); by constructor. }
  revert Hsub Hs. generalize (List.filter f l) as l'. clear f.
  intros l' Hsub. induction Hsub as [|x l1 l2 Hsub IH|x l1 l2 Hsub IH]; intros Hs.
  - intros i j x y _ Hi. by rewrite lookup_nil in Hi.
  - assert (Hs2 : indexSorted l2).
    { intros i j a b Hij Hi Hj. apply (Hs (S i) (S j)); [lia|done..]. }
    specialize (IH Hs2).
    intros [|i] [|j] a b Hij Hi Hj; simpl in *; try lia.
    + injection Hi as <-.
      assert (b ∈ l2) as Hb.
      { apply list_elem_of_lookup_2 in Hj.
        eapply elem_of_submseteq; [exact Hj|]. by apply sublist_submseteq. }
      apply list_elem_of_lookup in Hb as [k Hk].
      apply (Hs 0%nat (S k)); [lia|done..].
    + apply (IH i j); [lia|done..].
  - apply IH. intros i j a b Hij Hi Hj. apply (Hs (S i) (S j)); [lia|done..].
Qed.

(** The plan groups the leaves by owner path key in registration order,
    and lists the keys in order of first appearance. *)
Lemma buildPlan_itemsOf selectedPaths functions customEvals hierarchy pathKey :
  let plan := buildPlan selectedPaths functions customEvals hierarchy in
  itemsOf plan pathKey = leavesOf (plan_unifiedItems plan) pathKey.
Proof.
  simpl. unfold itemsOf, buildPlan. simpl. rewrite lookup_fmap.
  set (u := unify _ _ _ _).
  pose proof (groupByPathKey_lookup u pathKey) as Hg.
  destruct (groupByPathKey u !! pathKey) as [items|] eqn:E; simpl in *.
  - subst items. apply sortByIndex_sorted, indexSorted_filter, unify_indexSorted.
  - exact Hg.
Qed.

Lemma buildPlan_allPathKeys selectedPaths functions customEvals hierarchy :
  let plan := buildPlan selectedPaths functions customEvals hierarchy in
  plan_allPathKeys plan = firstAppearance (map ui_pathKey (plan_unifiedItems plan)).
Proof. simpl. apply allPathKeys_firstAppearance. Qed.

(** ** Interactions and traces *)

Section Traces.
Context {num : Type} {NO : NumOps num} {D : Type}.
Variable o : Oracle num D.

Implicit Types (s : St num D) (acts : list (Act num D)).

Lemma replay_app s acts1 acts2 :
  replay o s (acts1 ++ acts2) = replay o (replay o s acts1) acts2.
Proof. apply fold_left_app. Qed.

Lemma replay_trace s acts : trace (replay o s acts) = trace s ++ acts.
Proof.
  revert s. induction acts as [|a acts IH]; intros s; simpl.
  - by rewrite app_nil_r.
  - rewrite IH. simpl. by rewrite <- app_assoc.
Qed.

Lemma replay_length s acts :
  length (trace (replay o s acts)) = (length (trace s) + length acts)%nat.
Proof. by rewrite replay_trace, length_app. Qed.

Lemma events_app acts1 acts2 :
  events (acts1 ++ acts2) = events acts1 ++ events acts2.
Proof. apply omap_app. Qed.

Lemma generatorCalls_app acts1 acts2 :
  generatorCalls (acts1 ++ acts2) = (generatorCalls acts1 + generatorCalls acts2)%nat.
Proof. unfold generatorCalls. by rewrite List.filter_app, length_app. Qed.

Lemma applyCmds_stop e cs :
  stopRequested e = true → stopRequested (applyCmds e cs) = true.
Proof.
  revert e. induction cs as [|c cs IH]; intros e H; simpl; [exact H|].
  apply IH. by destruct c.
Qed.

Lemma applyCmds_skipped e cs k :
  k ∈ skippedSubGroups e → k ∈ skippedSubGroups (applyCmds e cs).
Proof.
  revert e. induction cs as [|c cs IH]; intros e H; simpl; [exact H|].
  apply IH. destruct c; simpl; [exact H|set_solver].
Qed.

(** The flags only ever go up during a run. *)
Lemma replay_stop s acts :
  stopRequested (eng s) = true → stopRequested (eng (replay o s acts)) = true.
Proof.
  revert s. induction acts as [|a acts IH]; intros s H; simpl; [exact H|].
  apply IH. simpl. destruct (affects a); [by apply applyCmds_stop|exact H].
Qed.

Lemma replay_skipped s acts k :
  isSkipped k (eng s) = true → isSkipped k (eng (replay o s acts)) = true.
Proof.
  revert s. induction acts as [|a acts IH]; intros s H; simpl; [exact H|].
  apply IH. simpl. destruct (affects a); [|exact H].
  destruct k as [k|]; simpl in *; [|discriminate].
  apply bool_decide_eq_true in H. apply bool_decide_eq_true.
  by apply applyCmds_skipped.
Qed.

Lemma noThrowIn_nil base : noThrowIn o base [].
Proof. intros i a H. by rewrite lookup_nil in H. Qed.

Lemma noThrowIn_app base acts1 acts2 :
  noThrowIn o base (acts1 ++ acts2) ↔
  noThrowIn o base acts1 ∧ noThrowIn o (base + length acts1) acts2.
Proof.
  split.
  - intros H. split.
    + intros i a Hi. apply H. rewrite lookup_app_l; [exact Hi|]. by apply lookup_lt_Some in Hi.
    + intros i a Hi. rewrite <- Nat.add_assoc. apply H.
      rewrite lookup_app_r by lia. by replace (length acts1 + i - length acts1)%nat with i by lia.
  - intros [H1 H2] i a Hi. destruct (decide (i < length acts1)%nat) as [Hlt|Hge].
    + apply H1. by rewrite lookup_app_l in Hi.
    + rewrite lookup_app_r in Hi by lia.
      specialize (H2 _ _ Hi).
      by replace (base + length acts1 + (i - length acts1))%nat with (base + i)%nat in H2 by lia.
Qed.

Lemma noThrowIn_one base a : noThrowIn o base [a] ↔ thrown o base a = None.
Proof.
  split.
  - intros H. specialize (H 0%nat a eq_refl). by rewrite Nat.add_0_r in H.
  - intros H [|i] b Hi; simpl in Hi; [|by rewrite lookup_nil in Hi].
    injection Hi as <-. by rewrite Nat.add_0_r.
Qed.

Lemma throwsLast_nil base : throwsLast o base [] None.
Proof. apply noThrowIn_nil. Qed.

(** Sequencing: a computation that ended normally, followed by another one. *)
Lemma throwsLast_seq base acts1 acts2 x :
  throwsLast o base acts1 None →
  throwsLast o (base + length acts1) acts2 x →
  throwsLast o base (acts1 ++ acts2) x.
Proof.
  intros H1 H2. destruct x as [e|]; simpl in *.
  - destruct H2 as (pre & a & -> & Hpre & Ha).
    exists (acts1 ++ pre), a. rewrite app_assoc. split; [reflexivity|]. split.
    + by apply noThrowIn_app.
    + rewrite length_app, Nat.add_assoc. exact Ha.
  - by apply noThrowIn_app.
Qed.

Lemma emitsAfterStop_app s acts1 acts2 :
  emitsAfterStop o s (acts1 ++ acts2) =
  (emitsAfterStop o s acts1 + emitsAfterStop o (replay o s acts1) acts2)%nat.
Proof.
  revert s. induction acts1 as [|a acts1 IH]; intros s; simpl; [reflexivity|].
  rewrite IH. lia.
Qed.

Lemma emitsAfterStop_noEmit s acts : events acts = [] → emitsAfterStop o s acts = 0%nat.
Proof.
  revert s. induction acts as [|a acts IH]; intros s H; simpl; [reflexivity|].
  destruct a; simpl in H; try discriminate; rewrite IH; auto.
Qed.

(** Events delivered after the stop flag was set leave the flag set. *)
Lemma emitsAfterStop_pos s acts :
  stopRequested (eng (replay o s acts)) = false → emitsAfterStop o s acts = 0%nat.
Proof.
  revert s. induction acts as [|a acts IH]; intros s H; simpl; [reflexivity|].
  simpl in H. rewrite (IH _ H).
  destruct a; try reflexivity.
  destruct (stopRequested (eng s)) eqn:E; [|reflexivity].
  rewrite replay_stop in H; [discriminate|]. simpl. by apply applyCmds_stop.
Qed.

(** *** The rules of [post] *)

Lemma post_ret {A} (a : A) s (Q : Res A → list (Act num D) → Prop) :
  Q (Ok a) [] → post o (ret a) s Q.
Proof. intros H. by exists []. Qed.

Lemma post_bind {A B} (m : M num D A) (k : A → M num D B) s
    (Q : Res B → list (Act num D) → Prop) :
  post o m s (fun r acts1 =>
    match r with
    | Ok a => post o (k a) (replay o s acts1) (fun r2 acts2 => Q r2 (acts1 ++ acts2))
    | Throw e => Q (Throw e) acts1
    end) →
  post o (bind m k) s Q.
Proof.
  intros (acts1 & Hs & H). unfold post, bind in *. destruct (m s) as [[a|e] s1]; simpl in *.
  - subst s1. destruct H as (acts2 & Hs2 & H). exists (acts1 ++ acts2).
    split; [|exact H]. rewrite replay_app. exact Hs2.
  - by exists acts1.
Qed.

Lemma post_mono {A} (m : M num D A) s (Q Q' : Res A → list (Act num D) → Prop) :
  post o m s Q → (∀ r acts, Q r acts → Q' r acts) → post o m s Q'.
Proof. intros (acts & Hs & H) HQ. exists acts. auto. Qed.

Lemma post_call (a : Act num D) s (Q : Res (Reply num D) → list (Act num D) → Prop) :
  affects a = true →
  Q (match r_throw (o (length (trace s)) a) with
     | Some e => Throw e
     | None => Ok (o (length (trace s)) a)
     end) [a] →
  post o (call o a) s Q.
Proof.
  intros Ha H. exists [a]. unfold call, replay, stepState. simpl. rewrite Ha.
  destruct (r_throw _); simpl; auto.
Qed.

Lemma post_suspend (a : Act num D) s (Q : Res unit → list (Act num D) → Prop) :
  affects a = true → Q (Ok tt) [a] → post o (suspend o a) s Q.
Proof. intros Ha H. exists [a]. unfold suspend, replay, stepState. simpl. by rewrite Ha. Qed.

Lemma post_probe (a : Act num D) s (Q : Res num → list (Act num D) → Prop) :
  affects a = false → Q (Ok (r_num (o (length (trace s)) a))) [a] → post o (probe o a) s Q.
Proof. intros Ha H. exists [a]. unfold probe, replay, stepState. simpl. by rewrite Ha. Qed.

(** *** Sampling computations *)

Lemma sampled_seq s acts1 acts2 x :
  sampled o s None acts1 → sampled o (replay o s acts1) x acts2 →
  sampled o s x (acts1 ++ acts2).
Proof.
  intros [He1 Ht1] [He2 Ht2]. split.
  - by rewrite events_app, He1, He2.
  - apply throwsLast_seq; [exact Ht1|]. by rewrite replay_length in Ht2.
Qed.

Lemma samples_ret {A} (a : A) : samples o (ret a).
Proof. intros s. apply post_ret. split; [reflexivity|apply throwsLast_nil]. Qed.

Lemma samples_bind {A B} (m : M num D A) (k : A → M num D B) :
  samples o m → (∀ a, samples o (k a)) → samples o (bind m k).
Proof.
  intros Hm Hk s. apply post_bind. eapply post_mono; [apply Hm|].
  intros [a|e] acts1 H1; simpl in *; [|exact H1].
  eapply post_mono; [apply Hk|]. intros r acts2 H2. simpl in H2.
  by apply sampled_seq.
Qed.

Lemma samples_call (a : Act num D) :
  canThrow a = true → events [a] = [] → samples o (call o a).
Proof.
  intros Hc He s. apply post_call; [by destruct a|].
  split; [exact He|].
  destruct (r_throw _) as [e|] eqn:E; simpl.
  - exists [], a. split; [reflexivity|]. split; [apply noThrowIn_nil|].
    unfold thrown. simpl. by rewrite Hc, Nat.add_0_r.
  - apply noThrowIn_one. unfold thrown. by rewrite Hc.
Qed.

Lemma samples_suspend (a : Act num D) :
  canThrow a = false → affects a = true → samples o (suspend o a).
Proof.
  intros Hc Ha s. apply post_suspend; [exact Ha|].
  split; [by destruct a|]. apply noThrowIn_one. unfold thrown. by rewrite Hc.
Qed.

Lemma samples_probe (a : Act num D) : affects a = false → samples o (probe o a).
Proof.
  intros Ha s. apply post_probe; [exact Ha|].
  split; [by destruct a|]. apply noThrowIn_one. unfold thrown. by destruct a.
Qed.

Lemma samples_forPush {A} (body : N → M num D A) i n :
  (∀ j, samples o (body j)) → samples o (forPush body i n).
Proof.
  intros Hb. revert i. induction n as [|n IH]; intros i; simpl.
  - apply samples_ret.
  - apply samples_bind; [apply Hb|]. intros x.
    apply samples_bind; [apply IH|]. intros xs. apply samples_ret.
Qed.

Lemma samples_forEachPush {A B} (body : A → M num D B) l :
  (∀ x, samples o (body x)) → samples o (forEachPush body l).
Proof.
  intros Hb. induction l as [|x l IH]; simpl.
  - apply samples_ret.
  - apply samples_bind; [apply Hb|]. intros y.
    apply samples_bind; [apply IH|]. intros ys. apply samples_ret.
Qed.

Lemma post_ifState {A} (cond : EngineState → bool) (m1 m2 : M num D A) s
    (Q : Res A → list (Act num D) → Prop) :
  (if cond (eng s) then post o m1 s Q else post o m2 s Q) →
  post o (ifState cond m1 m2) s Q.
Proof. unfold post, ifState. by destruct (cond (eng s)). Qed.

Lemma samples_ifState {A} (cond : EngineState → bool) (m1 m2 : M num D A) :
  samples o m1 → samples o m2 → samples o (ifState cond m1 m2).
Proof. intros H1 H2 s. apply post_ifState. destruct (cond (eng s)); auto. Qed.

Lemma samples_if {A} (b : bool) (m1 m2 : M num D A) :
  samples o m1 → samples o m2 → samples o (if b then m1 else m2).
Proof. by destruct b. Qed.

End Traces.

Create HintDb samples.
#[global] Hint Resolve samples_ret samples_bind samples_forPush samples_forEachPush
  samples_if samples_ifState : samples.
#[global] Hint Extern 1 (samples _ (call _ _)) =>
  apply samples_call; reflexivity : samples.
#[global] Hint Extern 1 (samples _ (callGenerator _ _ _)) =>
  unfold callGenerator : samples.
#[global] Hint Extern 1 (samples _ (callFn _ _ _)) =>
  unfold callFn : samples.
#[global] Hint Extern 1 (samples _ (suspend _ _)) =>
  apply samples_suspend; reflexivity : samples.
#[global] Hint Extern 1 (samples _ (probe _ _)) =>
  apply samples_probe; reflexivity : samples.

Section Sampling.
Context {num : Type} {NO : NumOps num} {D : Type}.
Variable o : Oracle num D.

Lemma samples_getTime : samples o (getTime o).
Proof. unfold getTime. auto with samples. Qed.

Lemma samples_getMemoryUsage : samples o (getMemoryUsage o).
Proof. unfold getMemoryUsage. auto with samples. Qed.

Lemma samples_runGC : samples o (runGC o).
Proof. unfold runGC. auto with samples. Qed.

Hint Resolve samples_getTime samples_getMemoryUsage samples_runGC : samples.

Lemma samples_measureSeries seriesSize (data : list D) fn :
  samples o (measureSeries o seriesSize data fn).
Proof. unfold measureSeries. auto 10 with samples. Qed.

Lemma samples_measureSeriesAsync seriesSize (data : list D) fn :
  samples o (measureSeriesAsync o seriesSize data fn).
Proof. unfold measureSeriesAsync. auto using samples_measureSeries with samples. Qed.

Lemma samples_measureSeriesMemory count (data : list D) fn :
  samples o (measureSeriesMemory o count data fn).
Proof. unfold measureSeriesMemory. auto 10 with samples. Qed.

Lemma samples_measureSeriesMemoryAsync count (data : list D) fn :
  samples o (measureSeriesMemoryAsync o count data fn).
Proof.
  unfold measureSeriesMemoryAsync. auto using samples_measureSeriesMemory with samples.
Qed.

Lemma samples_generateData cnt g (dataSize : num) :
  samples o (generateData o cnt g dataSize).
Proof. unfold generateData. auto 10 with samples. Qed.

Lemma samples_seriesLoop seriesSizeV delayV forceGCV func (dataArray : list D) n durations :
  samples o (seriesLoop o seriesSizeV delayV forceGCV func dataArray n durations).
Proof.
  revert durations. induction n as [|n IH]; intros durations; simpl.
  - apply samples_ret.
  - auto 10 using samples_measureSeries, samples_measureSeriesAsync with samples.
Qed.

End Sampling.

#[global] Hint Resolve samples_getTime samples_getMemoryUsage samples_runGC
  samples_measureSeries samples_measureSeriesAsync samples_measureSeriesMemory
  samples_measureSeriesMemoryAsync samples_generateData samples_seriesLoop : samples.

(** ** Units of work and the run loop, for every environment *)

Section Units.
Context {num : Type} {NO : NumOps num} {D : Type}.
Variable o : Oracle num D.
Implicit Types (s : St num D) (acts : list (Act num D)).

Lemma flaggedEvents_app s acts1 acts2 :
  flaggedEvents o s (acts1 ++ acts2) =
  flaggedEvents o s acts1 ++ flaggedEvents o (replay o s acts1) acts2.
Proof.
  revert s. induction acts1 as [|a acts1 IH]; intros s; simpl; [reflexivity|].
  by rewrite IH, app_assoc.
Qed.

Lemma flaggedEvents_events s acts : (flaggedEvents o s acts).*2 = events acts.
Proof.
  revert s. induction acts as [|a acts IH]; intros s; simpl; [reflexivity|].
  rewrite fmap_app, IH. by destruct a.
Qed.

Lemma flaggedEvents_noEmit s acts : events acts = [] → flaggedEvents o s acts = [].
Proof.
  intros H. rewrite <- flaggedEvents_events with (s := s) in H.
  by apply fmap_nil_inv in H.
Qed.

Lemma emitsAfterStop_flagged s acts :
  emitsAfterStop o s acts = length (List.filter fst (flaggedEvents o s acts)).
Proof.
  revert s. induction acts as [|a acts IH]; intros s; simpl; [reflexivity|].
  rewrite List.filter_app, length_app, IH. destruct a; simpl; try reflexivity.
  by destruct (stopRequested (eng s)).
Qed.

Lemma post_and {A} (m : M num D A) s (Q1 Q2 : Res A → list (Act num D) → Prop) :
  post o m s Q1 → post o m s Q2 → post o m s (fun r acts => Q1 r acts ∧ Q2 r acts).
Proof.
  intros (acts1 & Hs1 & H1) (acts2 & Hs2 & H2). exists acts1. split; [exact Hs1|].
  split; [exact H1|]. rewrite Hs1 in Hs2.
  apply (f_equal trace) in Hs2. rewrite !replay_trace in Hs2.
  apply app_inv_head in Hs2. by subst.
Qed.

(** A property of the part of a computation that follows some sampling. *)
Lemma post_bind_after {A B} (m : M num D A) (k : A → M num D B)
    (Φ : St num D → Res B → list (Act num D) → Prop) :
  samples o m →
  (∀ s acts1 acts2 r, Φ (replay o s acts1) r acts2 → Φ s r (acts1 ++ acts2)) →
  (∀ s e acts, Φ s (Throw e) acts) →
  (∀ a s, post o (k a) s (Φ s)) →
  ∀ s, post o (bind m k) s (Φ s).
Proof.
  intros Hm Hpre Hthrow Hk s. apply post_bind. eapply post_mono; [apply Hm|].
  intros [a|e] acts1 _; [|apply Hthrow].
  eapply post_mono; [apply Hk|]. intros r acts2. apply Hpre.
Qed.

Lemma lengthPost_prefix ds n s acts1 acts2 r :
  lengthPost o ds n (replay o s acts1) r acts2 → lengthPost o ds n s r (acts1 ++ acts2).
Proof. intros H ds' Hr. rewrite replay_app. by apply H. Qed.

Lemma seriesLoop_length seriesSizeV delayV forceGCV func (dataArray : list D) n ds s :
  post o (seriesLoop o seriesSizeV delayV forceGCV func dataArray n ds) s (lengthPost o ds n s).
Proof.
  revert ds s. induction n as [|n IH]; intros ds s; simpl.
  - apply post_ret. intros ds' [= <-]. exists []. rewrite app_nil_r. auto.
  - apply post_ifState. destruct (stopRequested (eng s)) eqn:Hstop.
    + apply post_ret. intros ds' [= <-]. exists []. rewrite app_nil_r.
      split; [done|]. split; [simpl; lia|]. simpl. congruence.
    + clear Hstop. revert s.
      apply post_bind_after; [auto with samples|apply lengthPost_prefix|done|]. intros ?.
      apply post_bind_after;
        [auto using samples_measureSeries, samples_measureSeriesAsync with samples
        |apply lengthPost_prefix|done|].
      intros duration.
      apply post_bind_after; [auto with samples|apply lengthPost_prefix|done|]. intros ? s.
      eapply post_mono; [apply IH|]. intros r acts H ds' Hr.
      destruct (H ds' Hr) as (more & -> & Hle & Hfull).
      exists (duration :: more). rewrite <- app_assoc. simpl.
      split; [done|]. split; [lia|]. intros Hs. f_equal. auto.
Qed.


Lemma unitPost_prefix totalSteps cur seriesSize seriesCount item size s acts1 acts2 r :
  sampled o s None acts1 →
  unitPost o totalSteps cur seriesSize seriesCount item size (replay o s acts1) r acts2 →
  unitPost o totalSteps cur seriesSize seriesCount item size s r (acts1 ++ acts2).
Proof.
  intros [He Ht] (Ht2 & Hc & H). split; [|split; [exact Hc|]].
  - apply throwsLast_seq; [exact Ht|]. by rewrite replay_length in Ht2.
  - rewrite flaggedEvents_app, (flaggedEvents_noEmit _ _ He). simpl.
    destruct H as [H|(flag & ev & Hf & Hl & Hu)]; [by left|right].
    exists flag, ev. split; [exact Hf|]. split; [|exact Hu].
    destruct acts2 as [|a acts2 _] using rev_ind; [discriminate|].
    rewrite app_assoc, last_snoc. by rewrite last_snoc in Hl.
Qed.

Lemma unitPost_throw totalSteps cur seriesSize seriesCount item size s acts e :
  sampled o s (Some e) acts →
  unitPost o totalSteps cur seriesSize seriesCount item size s (Throw e) acts.
Proof.
  intros [He Ht]. split; [exact Ht|]. split; [discriminate|].
  left. split; [by apply flaggedEvents_noEmit|discriminate].
Qed.

(** Sampling, then the rest of the unit. *)
Lemma post_bind_unit {A} (m : M num D A) (k : A → M num D num)
    (R : St num D → A → Prop) totalSteps cur seriesSize seriesCount item size s :
  post o m s (fun r acts => sampled o s (outcome r) acts ∧
                            ∀ a, r = Ok a → R (replay o s acts) a) →
  (∀ a s', R s' a →
     post o (k a) s' (unitPost o totalSteps cur seriesSize seriesCount item size s')) →
  post o (bind m k) s (unitPost o totalSteps cur seriesSize seriesCount item size s).
Proof.
  intros Hm Hk. apply post_bind. eapply post_mono; [exact Hm|].
  intros [a|e] acts1 [Hs HR]; simpl in *.
  - eapply post_mono; [apply Hk, HR; reflexivity|].
    intros r acts2. by apply unitPost_prefix.
  - by apply unitPost_throw.
Qed.

Lemma emit_unit totalSteps cur seriesSize seriesCount item size s ev :
  unitEvent totalSteps cur seriesSize seriesCount item size (stopRequested (eng s)) ev →
  post o (do! onProgress o ev in ret (n_add cur size)) s
    (unitPost o totalSteps cur seriesSize seriesCount item size s).
Proof.
  intros Hev. unfold onProgress. apply post_bind, post_bind, post_call; [reflexivity|].
  assert (Hfl : ∀ acts, flaggedEvents o s ([AEmit ev] ++ acts) =
                        (stopRequested (eng s), ev) :: flaggedEvents o (stepState o s (AEmit ev)) acts)
    by reflexivity.
  destruct (r_throw _) as [e|] eqn:E.
  - split; [|split; [discriminate|]].
    + exists [], (AEmit ev). split; [reflexivity|]. split; [apply noThrowIn_nil|].
      unfold thrown. simpl. by rewrite Nat.add_0_r.
    + right. exists (stopRequested (eng s)), ev. auto.
  - apply post_ret, post_ret. rewrite !app_nil_r. split; [|split].
    + apply noThrowIn_one. exact E.
    + by intros c [= <-].
    + right. exists (stopRequested (eng s)), ev. auto.
Qed.

Lemma runMeasure_unit cnt seriesSizeV seriesCountV delayV forceGCV memV totalSteps
    item func size shared cur s :
  ui_body item = IMeasure func →
  post o (runMeasure o cnt seriesSizeV seriesCountV delayV forceGCV memV totalSteps
            item func size shared cur) s
    (unitPost o totalSteps cur seriesSizeV seriesCountV item size s).
Proof.
  intros Hbody. unfold runMeasure.
  apply (post_bind_unit _ _ (fun _ _ => True)).
  { eapply post_mono; [|intros r acts H; split; [exact H|done]].
    destruct shared; [apply samples_ret|apply samples_generateData]. }
  intros dataArray s1 _.
  apply (post_bind_unit _ _ (fun s' durations =>
    (length durations ≤ N.to_nat seriesCountV)%nat ∧
    (stopRequested (eng s') = false → length durations = N.to_nat seriesCountV))).
  { eapply post_mono; [apply post_and; [apply samples_seriesLoop|apply seriesLoop_length]|].
    intros r acts [Hs Hl]. split; [exact Hs|]. intros ds ->.
    destruct (Hl ds eq_refl) as (more & -> & Hle & Hfull). simpl. auto. }
  intros durations s2 [Hle Hfull].
  apply (post_bind_unit _ _ (fun s' _ =>
    stopRequested (eng s') = false → length durations = N.to_nat seriesCountV)).
  { assert (Hmem : samples o
      match memV with
      | Some count =>
          if (0 <? count)%N
          then let! m := (if default false (rf_isAsync func)
                          then measureSeriesMemoryAsync o count dataArray (rf_fn func)
                          else measureSeriesMemory o count dataArray (rf_fn func)) in
               ret (Some m)
          else ret None
      | None => ret None
      end).
    { destruct memV; auto with samples. }
    eapply post_mono; [apply Hmem|]. intros r acts Hs. split; [exact Hs|].
    intros _ _ Hstop. apply Hfull.
    destruct (stopRequested (eng s2)) eqn:E; [|reflexivity].
    by rewrite (replay_stop o s2 acts E) in Hstop. }
  intros memoryUsages s3 Hfull3.
  apply emit_unit. split; [|split; [reflexivity|]].
  - unfold reports. simpl. unfold item_path. rewrite Hbody. eauto.
  - simpl. intros r [= <-]. exists durations. split; [|auto].
    repeat split.
Qed.

Lemma runEvaluate_unit cnt seriesSizeV seriesCountV totalSteps
    item customEval size shared cur s :
  ui_body item = IEvaluate customEval →
  post o (runEvaluate o cnt totalSteps item customEval size shared cur) s
    (unitPost o totalSteps cur seriesSizeV seriesCountV item size s).
Proof.
  intros Hbody. unfold runEvaluate.
  apply (post_bind_unit _ _ (fun _ _ => True)).
  { eapply post_mono; [|intros r acts H; split; [exact H|done]].
    destruct shared; [apply samples_forEachPush|apply samples_forPush];
      intros; auto 10 with samples. }
  intros values s1 _.
  apply emit_unit. split; [|split; [reflexivity|]].
  - unfold reports. simpl. unfold item_path. rewrite Hbody. eauto.
  - simpl. discriminate.
Qed.

Lemma runItem_unit cnt seriesSizeV seriesCountV delayV forceGCV memV totalSteps
    item size shared cur s :
  post o (runItem o cnt seriesSizeV seriesCountV delayV forceGCV memV totalSteps
            item size shared cur) s
    (unitPost o totalSteps cur seriesSizeV seriesCountV item size s).
Proof.
  unfold runItem. destruct (ui_body item) eqn:Hbody.
  - by apply runMeasure_unit.
  - by apply runEvaluate_unit.
Qed.

Lemma progressChain_app totalSteps cur evs1 evs2 :
  progressChain totalSteps cur (evs1 ++ evs2) ↔
  progressChain totalSteps cur evs1 ∧ progressChain totalSteps (stepsAfter cur evs1) evs2.
Proof.
  revert cur. induction evs1 as [|ev evs1 IH]; intros cur; simpl; [tauto|].
  rewrite IH. unfold stepsAfter. simpl. tauto.
Qed.

Lemma stepsAfter_app cur (evs1 evs2 : list (ProgressEvent num)) :
  stepsAfter cur (evs1 ++ evs2) = stepsAfter (stepsAfter cur evs1) evs2.
Proof. apply fold_left_app. Qed.

Lemma segPost_nil totalSteps seriesSize seriesCount cur s :
  segPost o totalSteps seriesSize seriesCount cur s (Ok cur) [].
Proof.
  split; [apply noThrowIn_nil|]. split; [by intros c [= <-]|].
  split; [done|]. split; [constructor|simpl; lia].
Qed.

Lemma loopPost_nil totalSteps seriesSize seriesCount cur s :
  loopPost o totalSteps seriesSize seriesCount cur s (Ok cur) [].
Proof. split; [apply segPost_nil|done]. Qed.

Lemma segPost_seq totalSteps seriesSize seriesCount cur c1 s acts1 acts2 r :
  segPost o totalSteps seriesSize seriesCount cur s (Ok c1) acts1 →
  loopPost o totalSteps seriesSize seriesCount c1 (replay o s acts1) r acts2 →
  segPost o totalSteps seriesSize seriesCount cur s r (acts1 ++ acts2).
Proof.
  intros (Ht1 & Hc1 & Hp1 & Hf1 & He1) [(Ht2 & Hc2 & Hp2 & Hf2 & He2) Hstop].
  specialize (Hc1 c1 eq_refl). subst c1.
  split; [|split; [|split; [|split]]].
  - apply throwsLast_seq; [exact Ht1|]. by rewrite replay_length in Ht2.
  - intros c Hr. rewrite events_app, stepsAfter_app. by apply Hc2.
  - rewrite events_app. by apply progressChain_app.
  - rewrite flaggedEvents_app. by apply Forall_app.
  - rewrite emitsAfterStop_app.
    destruct (stopRequested (eng (replay o s acts1))) eqn:E.
    + destruct (Hstop eq_refl) as [-> _]. simpl. lia.
    + rewrite (emitsAfterStop_pos o s acts1 E). lia.
Qed.

Lemma segPost_after_sampled totalSteps seriesSize seriesCount cur s acts1 acts2 r :
  sampled o s None acts1 →
  segPost o totalSteps seriesSize seriesCount cur (replay o s acts1) r acts2 →
  segPost o totalSteps seriesSize seriesCount cur s r (acts1 ++ acts2).
Proof.
  intros [He Ht] (Ht2 & Hc2 & Hp2 & Hf2 & He2).
  split; [|split; [|split; [|split]]].
  - apply throwsLast_seq; [exact Ht|]. by rewrite replay_length in Ht2.
  - intros c Hr. rewrite events_app, He. by apply Hc2.
  - by rewrite events_app, He.
  - by rewrite flaggedEvents_app, (flaggedEvents_noEmit _ _ He).
  - rewrite emitsAfterStop_app, (emitsAfterStop_noEmit o s acts1 He). lia.
Qed.

Lemma segPost_sampled_throw totalSteps seriesSize seriesCount cur s acts e :
  sampled o s (Some e) acts →
  segPost o totalSteps seriesSize seriesCount cur s (Throw e) acts.
Proof.
  intros [He Ht]. split; [exact Ht|]. split; [discriminate|].
  rewrite He, (flaggedEvents_noEmit _ _ He), (emitsAfterStop_noEmit o s acts He).
  split; [done|]. split; [constructor|lia].
Qed.

Lemma unitPost_segPost totalSteps seriesSize seriesCount cur item size s r acts :
  unitPost o totalSteps cur seriesSize seriesCount item size s r acts →
  segPost o totalSteps seriesSize seriesCount cur s r acts.
Proof.
  intros (Ht & Hc & H). split; [exact Ht|].
  rewrite emitsAfterStop_flagged, <- (flaggedEvents_events s acts).
  destruct H as [[Hf Hne]|(flag & ev & Hf & Hl & Hu)]; rewrite Hf; simpl.
  - split; [|split; [done|split; [constructor|lia]]].
    intros c ->. by destruct Hne.
  - destruct Hu as (Hrep & Hprog & Hstats).
    pose proof Hrep as (_ & _ & Hsize & _). simpl in Hsize.
    split; [|split; [|split]].
    + intros c Hr. unfold stepsAfter. simpl. rewrite Hsize. by apply Hc.
    + by rewrite Hsize.
    + constructor; [|constructor]. exists cur, item, size. simpl.
      split; [exact Hrep|split; [exact Hprog|exact Hstats]].
    + destruct flag; simpl; lia.
Qed.

Section Loops.
Variable sharing : bool.
Variable cnt seriesSizeV seriesCountV : N.
Variable delayV : num.
Variable forceGCV : bool.
Variable memV : option N.
Variable totalSteps : num.

Abbreviation loopP := (loopPost o totalSteps seriesSizeV seriesCountV).
Abbreviation segP := (segPost o totalSteps seriesSizeV seriesCountV).

(** A check of the stop flag in front of a part of the loop. *)
Lemma post_stop_check (m : M num D num) cur s :
  (stopRequested (eng s) = false → post o m s (segP cur s)) →
  post o (ifState stopRequested (ret cur) m) s (loopP cur s).
Proof.
  intros H. apply post_ifState. destruct (stopRequested (eng s)) eqn:E.
  - apply post_ret. split; [apply segPost_nil|done].
  - eapply post_mono; [by apply H|]. intros r acts Hseg. split; [exact Hseg|congruence].
Qed.

Lemma post_skip_check cond (m1 m2 : M num D num) cur s :
  post o m1 s (segP cur s) → post o m2 s (segP cur s) →
  post o (ifState cond m1 m2) s (segP cur s).
Proof. intros H1 H2. apply post_ifState. by destruct (cond (eng s)). Qed.

Lemma post_bind_seg (m : M num D num) (k : num → M num D num) cur s :
  post o m s (segP cur s) →
  (∀ c s', post o (k c) s' (loopP c s')) →
  post o (bind m k) s (segP cur s).
Proof.
  intros Hm Hk. apply post_bind. eapply post_mono; [exact Hm|].
  intros [c|e] acts1 Hseg; [|exact Hseg].
  eapply post_mono; [apply Hk|]. intros r acts2 Hloop.
  by eapply segPost_seq.
Qed.

Lemma post_weaken_loop (m : M num D num) cur s :
  post o m s (loopP cur s) → post o m s (segP cur s).
Proof. intros H. eapply post_mono; [exact H|]. by intros r acts [Hseg _]. Qed.

Lemma runItems_loop pathKey size shared items cur s :
  post o (runItems o cnt seriesSizeV seriesCountV delayV forceGCV memV totalSteps
            pathKey size shared items cur) s (loopP cur s).
Proof.
  revert cur s. induction items as [|item rest IH]; intros cur s; simpl.
  - apply post_ret, loopPost_nil.
  - apply post_stop_check. intros _.
    apply post_skip_check; [apply post_ret, segPost_nil|].
    apply post_bind_seg; [|apply IH].
    eapply post_mono; [apply runItem_unit|]. intros r acts. apply unitPost_segPost.
Qed.

Lemma runSizes_loop pathKey items sizes cur s :
  post o (runSizes o sharing cnt seriesSizeV seriesCountV delayV forceGCV memV totalSteps
            pathKey items sizes cur) s (loopP cur s).
Proof.
  revert cur s. induction sizes as [|size rest IH]; intros cur s; simpl.
  - apply post_ret, loopPost_nil.
  - apply post_stop_check. intros _.
    apply post_skip_check; [apply post_ret, segPost_nil|].
    apply post_bind.
    assert (Hgen : samples o
      (match items with
       | firstItem :: _ =>
           if sharing && allUseSameGenerator items
           then let! shared := generateData o cnt (item_dataGenerator firstItem) size in
                ret (Some shared)
           else ret None
       | [] => ret None
       end)).
    { destruct items; auto with samples. }
    eapply post_mono; [apply Hgen|]. clear Hgen.
    intros [shared|e] acts1 Hs; simpl in Hs; [|by apply segPost_sampled_throw].
    eapply post_mono; [|intros r acts2 H; apply segPost_after_sampled; [exact Hs|exact H]].
    apply post_bind_seg; [|apply IH].
    apply post_weaken_loop, runItems_loop.
Qed.

Lemma runGroups_loop plan sizes pathKeys cur s :
  post o (runGroups o sharing cnt seriesSizeV seriesCountV delayV forceGCV memV totalSteps
            plan sizes pathKeys cur) s (loopP cur s).
Proof.
  revert cur s. induction pathKeys as [|pathKey rest IH]; intros cur s; simpl.
  - apply post_ret, loopPost_nil.
  - apply post_stop_check. intros _.
    case_bool_decide; [apply post_weaken_loop, IH|].
    apply post_skip_check; [apply post_weaken_loop, IH|].
    apply post_bind_seg; [|apply IH].
    apply post_weaken_loop, runSizes_loop.
Qed.

End Loops.
End Units.

(** ** The run in a quiet environment *)

Section Quiet.
Context {num : Type} {NO : NumOps num} {D : Type}.
Variable o : Oracle num D.
Hypothesis Hquiet : quiet o.
Implicit Types (s : St num D) (acts : list (Act num D)).

Lemma replay_quiet s acts : replay o s acts = ext s acts.
Proof.
  revert s. induction acts as [|a acts IH]; intros s; simpl.
  - unfold ext. rewrite app_nil_r. by destruct s.
  - rewrite IH. unfold ext, stepState. simpl.
    destruct (Hquiet (length (trace s)) a) as [-> _]. simpl.
    rewrite <- app_assoc. by destruct (affects a).
Qed.

Lemma ext_ext s acts1 acts2 : ext (ext s acts1) acts2 = ext s (acts1 ++ acts2).
Proof. unfold ext. simpl. by rewrite app_assoc. Qed.

Lemma counts_ret {A} (a : A) : counts (ret a : M num D A) 0.
Proof. intros s. exists a, []. unfold ext. rewrite app_nil_r. by destruct s. Qed.

Lemma counts_bind {A B} (m : M num D A) (k : A → M num D B) g1 g2 :
  counts m g1 → (∀ a, counts (k a) g2) → counts (bind m k) (g1 + g2).
Proof.
  intros Hm Hk s. destruct (Hm s) as (a & acts1 & Hms & Hg1).
  destruct (Hk a (ext s acts1)) as (b & acts2 & Hks & Hg2).
  exists b, (acts1 ++ acts2). unfold bind. rewrite Hms, Hks, ext_ext.
  split; [reflexivity|]. rewrite generatorCalls_app. lia.
Qed.

Lemma counts_eq {A} (m : M num D A) g g' : counts m g → g = g' → counts m g'.
Proof. by intros H <-. Qed.

Lemma counts_call (a : Act num D) :
  counts (call o a) (if isGen a then 1 else 0).
Proof.
  intros s. exists (o (length (trace s)) a), [a]. unfold call.
  destruct (Hquiet (length (trace s)) a) as [-> ->]. split; [reflexivity|].
  unfold generatorCalls. simpl. by destruct (isGen a).
Qed.

Lemma counts_call_gen g (dataSize : num) : counts (call o (AGen g dataSize)) 1.
Proof. apply (counts_call (AGen g dataSize)). Qed.

Lemma counts_call_other (a : Act num D) : isGen a = false → counts (call o a) 0.
Proof. intros Ha. pose proof (counts_call a) as H. by rewrite Ha in H. Qed.

Lemma counts_callGenerator g (dataSize : num) : counts (callGenerator o g dataSize) 1.
Proof.
  unfold callGenerator. eapply counts_eq.
  - eapply counts_bind; [apply counts_call_gen|intros r; apply counts_ret].
  - reflexivity.
Qed.

Lemma counts_callFn f (datum : option D) : counts (callFn o f datum) 0.
Proof.
  unfold callFn. eapply counts_eq.
  - eapply counts_bind; [by apply counts_call_other|intros r; apply counts_ret].
  - reflexivity.
Qed.

Lemma counts_onProgress (ev : ProgressEvent num) : counts (onProgress o ev) 0.
Proof.
  unfold onProgress. eapply counts_eq.
  - eapply counts_bind; [by apply counts_call_other|intros r; apply counts_ret].
  - reflexivity.
Qed.

Lemma counts_suspend (a : Act num D) : isGen a = false → counts (suspend o a) 0.
Proof.
  intros Ha s. exists tt, [a]. unfold suspend.
  destruct (Hquiet (length (trace s)) a) as [-> _]. split; [reflexivity|].
  unfold generatorCalls. simpl. by rewrite Ha.
Qed.

Lemma counts_probe (a : Act num D) : isGen a = false → counts (probe o a) 0.
Proof.
  intros Ha s. exists (r_num (o (length (trace s)) a)), [a]. unfold probe.
  split; [reflexivity|]. unfold generatorCalls. simpl. by rewrite Ha.
Qed.

Lemma counts_forPush {A} (body : N → M num D A) g i n :
  (∀ j, counts (body j) g) → counts (forPush body i n) (n * g).
Proof.
  intros Hb. revert i. induction n as [|n IH]; intros i; simpl.
  - apply counts_ret.
  - eapply counts_eq; [eapply counts_bind; [apply Hb|]|].
    + intros x. eapply counts_bind; [apply IH|]. intros xs. apply counts_ret.
    + lia.
Qed.

Lemma counts_forEachPush {A B} (body : A → M num D B) g l :
  (∀ x, counts (body x) g) → counts (forEachPush body l) (length l * g).
Proof.
  intros Hb. induction l as [|x l IH]; simpl.
  - apply counts_ret.
  - eapply counts_eq; [eapply counts_bind; [apply Hb|]|].
    + intros y. eapply counts_bind; [apply IH|]. intros ys. apply counts_ret.
    + lia.
Qed.

Lemma counts_if {A} (b : bool) (m1 m2 : M num D A) g :
  counts m1 g → counts m2 g → counts (if b then m1 else m2) g.
Proof. by destruct b. Qed.

Lemma counts_ifState {A} cond (m1 m2 : M num D A) g :
  counts m1 g → counts m2 g → counts (ifState cond m1 m2) g.
Proof. intros H1 H2 s. unfold ifState. destruct (cond (eng s)); auto. Qed.

Ltac counts_step :=
  first
    [ apply counts_ret
    | apply counts_suspend; reflexivity
    | apply counts_probe; reflexivity
    | apply counts_call_gen
    | apply counts_call_other; reflexivity
    | apply counts_callGenerator
    | apply counts_callFn
    | apply counts_onProgress
    | eapply counts_bind; [|intros ?]
    | apply counts_forPush; intros ?
    | apply counts_forEachPush; intros ?
    | apply counts_if
    | apply counts_ifState ].

Ltac counts_auto := eapply counts_eq; [repeat counts_step|lia].

Lemma counts_runGC : counts (runGC o) 0.
Proof. unfold runGC. counts_auto. Qed.

Lemma counts_measureSeries seriesSize (data : list D) fn :
  counts (measureSeries o seriesSize data fn) 0.
Proof. unfold measureSeries, getTime. counts_auto. Qed.

Lemma counts_measureSeriesAsync seriesSize (data : list D) fn :
  counts (measureSeriesAsync o seriesSize data fn) 0.
Proof.
  unfold measureSeriesAsync.
  eapply counts_eq;
    [eapply counts_bind; [apply counts_measureSeries|intros ?]; repeat counts_step|lia].
Qed.

Lemma counts_measureSeriesMemory count (data : list D) fn :
  counts (measureSeriesMemory o count data fn) 0.
Proof.
  unfold measureSeriesMemory, getMemoryUsage.
  eapply counts_eq; [apply counts_forPush; intros ?|].
  - eapply counts_bind; [apply counts_runGC|intros ?]. repeat counts_step.
  - lia.
Qed.

Lemma counts_measureSeriesMemoryAsync count (data : list D) fn :
  counts (measureSeriesMemoryAsync o count data fn) 0.
Proof.
  unfold measureSeriesMemoryAsync.
  eapply counts_eq;
    [eapply counts_bind; [apply counts_measureSeriesMemory|intros ?]; repeat counts_step|lia].
Qed.

Lemma counts_generateData cnt g (dataSize : num) :
  counts (generateData o cnt g dataSize) (N.to_nat cnt).
Proof. unfold generateData. counts_auto. Qed.

Lemma counts_seriesLoop seriesSizeV delayV forceGCV func (dataArray : list D) n durations :
  counts (seriesLoop o seriesSizeV delayV forceGCV func dataArray n durations) 0.
Proof.
  revert durations. induction n as [|n IH]; intros durations; simpl.
  - apply counts_ret.
  - apply counts_ifState; [apply counts_ret|].
    eapply counts_eq.
    + eapply counts_bind; [apply counts_if; [apply counts_runGC|apply counts_ret]|intros ?].
      eapply counts_bind;
        [apply counts_if; [apply counts_measureSeriesAsync|apply counts_measureSeries]|intros ?].
      eapply counts_bind; [apply counts_suspend; reflexivity|intros ?]. apply IH.
    + lia.
Qed.


Section QuietLoops.
Variable sharing : bool.
Variable cnt seriesSizeV seriesCountV : N.
Variable delayV : num.
Variable forceGCV : bool.
Variable memV : option N.
Variable totalSteps : num.

Lemma counts_runItem item size shared cur :
  counts (runItem o cnt seriesSizeV seriesCountV delayV forceGCV memV totalSteps
            item size shared cur) (unitGenerations cnt shared).
Proof.
  unfold runItem. destruct (ui_body item) as [func|customEval].
  - unfold runMeasure. eapply counts_eq.
    + eapply counts_bind; [|intros dataArray].
      { instantiate (1 := unitGenerations cnt shared).
        destruct shared; [apply counts_ret|apply counts_generateData]. }
      eapply counts_bind; [apply counts_seriesLoop|intros durations].
      eapply counts_bind; [|intros memoryUsages; repeat counts_step].
      instantiate (1 := 0%nat).
      destruct memV as [count|]; [|apply counts_ret].
      destruct (0 <? count)%N; [|apply counts_ret].
      eapply counts_eq; [eapply counts_bind; [|intros ?; apply counts_ret]|].
      * apply counts_if; [apply counts_measureSeriesMemoryAsync|apply counts_measureSeriesMemory].
      * lia.
    + lia.
  - unfold runEvaluate. eapply counts_eq.
    + eapply counts_bind; [|intros values; repeat counts_step].
      instantiate (1 := unitGenerations cnt shared).
      destruct shared as [shared|]; simpl.
      * eapply counts_eq; [apply counts_forEachPush; intros ?; repeat counts_step|lia].
      * eapply counts_eq; [apply counts_forPush; intros ?; repeat counts_step|lia].
    + lia.
Qed.

Lemma runItem_quiet item size shared cur s :
  ∃ ev acts,
    runItem o cnt seriesSizeV seriesCountV delayV forceGCV memV totalSteps
      item size shared cur s = (Ok (n_add cur size), ext s acts) ∧
    events acts = [ev] ∧ reports ev (item, size) ∧
    generatorCalls acts = unitGenerations cnt shared.
Proof.
  destruct (counts_runItem item size shared cur s) as (c & acts & Hrun & Hg).
  destruct (runItem_unit o cnt seriesSizeV seriesCountV delayV forceGCV memV totalSteps
              item size shared cur s) as (acts' & Hs & Ht & Hc & Hev).
  rewrite Hrun in Hs, Ht, Hc, Hev. simpl in *.
  rewrite replay_quiet in Hs. apply (f_equal trace) in Hs. simpl in Hs.
  apply app_inv_head in Hs. subst acts'.
  rewrite (Hc c eq_refl) in Hrun.
  destruct Hev as [[_ Hne]|(flag & ev & Hf & _ & Hrep & _)]; [done|].
  exists ev, acts. split; [exact Hrun|]. split; [|split; [exact Hrep|exact Hg]].
  by rewrite <- (flaggedEvents_events o s acts), Hf.
Qed.

Lemma fresh_not_skipped e k : fresh e → isSkipped k e = false.
Proof.
  intros [_ He]. destruct k as [k|]; simpl; [|reflexivity].
  rewrite He. apply bool_decide_eq_false_2. set_solver.
Qed.

Lemma runItems_quiet pathKey size shared items cur s :
  fresh (eng s) →
  ∃ c acts,
    runItems o cnt seriesSizeV seriesCountV delayV forceGCV memV totalSteps
      pathKey size shared items cur s = (Ok c, ext s acts) ∧
    Forall2 reports (events acts) (map (fun item => (item, size)) items) ∧
    generatorCalls acts = (length items * unitGenerations cnt shared)%nat.
Proof.
  revert cur s. induction items as [|item rest IH]; intros cur s Hfresh; simpl.
  - exists cur, []. unfold ret, ext. rewrite app_nil_r. destruct s. by repeat split.
  - unfold ifState at 1. rewrite (proj1 Hfresh).
    unfold ifState at 1. rewrite (fresh_not_skipped _ pathKey Hfresh).
    destruct (runItem_quiet item size shared cur s) as (ev & acts1 & Hrun & Hev & Hrep & Hg).
    destruct (IH (n_add cur size) (ext s acts1) Hfresh) as (c & acts2 & Hrest & Hall & Hg2).
    exists c, (acts1 ++ acts2). unfold bind. rewrite Hrun, Hrest, ext_ext.
    split; [reflexivity|]. rewrite events_app, Hev, generatorCalls_app. simpl.
    split; [by constructor|lia].
Qed.

Lemma runSizes_quiet pathKey items sizes cur s :
  fresh (eng s) →
  ∃ c acts,
    runSizes o sharing cnt seriesSizeV seriesCountV delayV forceGCV memV totalSteps
      pathKey items sizes cur s = (Ok c, ext s acts) ∧
    Forall2 reports (events acts)
      (flat_map (fun size => map (fun item => (item, size)) items) sizes) ∧
    generatorCalls acts = (length sizes * groupGenerations sharing cnt items)%nat.
Proof.
  revert cur s. induction sizes as [|size rest IH]; intros cur s Hfresh; simpl.
  - exists cur, []. unfold ret, ext. rewrite app_nil_r. destruct s. by repeat split.
  - unfold ifState at 1. rewrite (proj1 Hfresh).
    unfold ifState at 1. rewrite (fresh_not_skipped _ pathKey Hfresh).
    assert (Hgen : ∃ shared acts0,
      (match items with
       | firstItem :: _ =>
           if sharing && allUseSameGenerator items
           then let! shared := generateData o cnt (item_dataGenerator firstItem) size in
                ret (Some shared)
           else ret None
       | [] => ret None
       end) s = (Ok shared, ext s acts0) ∧ events acts0 = [] ∧
      (generatorCalls acts0 + length items * unitGenerations cnt shared)%nat
        = groupGenerations sharing cnt items).
    { destruct items as [|firstItem items'].
      - exists None, []. unfold ret, ext. rewrite app_nil_r. destruct s. by repeat split.
      - unfold groupGenerations.
        destruct (sharing && allUseSameGenerator (firstItem :: items')).
        + destruct (counts_generateData cnt (item_dataGenerator firstItem) size s)
            as (data & acts0 & Hrun & Hg).
          destruct (samples_generateData o cnt (item_dataGenerator firstItem) size s)
            as (acts0' & Hs & He & _).
          rewrite Hrun in Hs. simpl in *.
          rewrite replay_quiet in Hs. apply (f_equal trace) in Hs. simpl in Hs.
          apply app_inv_head in Hs. subst acts0'.
          exists (Some data), acts0. unfold bind. rewrite Hrun. simpl.
          split; [reflexivity|]. split; [exact He|]. lia.
        + exists None, []. unfold ret, ext. rewrite app_nil_r. destruct s.
          split; [reflexivity|]. split; [reflexivity|]. unfold generatorCalls. simpl. lia. }
    destruct Hgen as (shared & acts0 & Hrun0 & Hev0 & Hg0).
    destruct (runItems_quiet pathKey size shared items cur (ext s acts0) Hfresh)
      as (c1 & acts1 & Hrun1 & Hall1 & Hg1).
    destruct (IH c1 (ext (ext s acts0) acts1) Hfresh) as (c & acts2 & Hrun2 & Hall2 & Hg2).
    exists c, (acts0 ++ acts1 ++ acts2). unfold bind at 1. rewrite Hrun0.
    unfold bind. rewrite Hrun1, Hrun2, !ext_ext.
    split; [reflexivity|].
    rewrite !events_app, Hev0, !generatorCalls_app. simpl.
    split; [by apply Forall2_app|lia].
Qed.

Lemma runGroups_quiet plan sizes pathKeys cur s :
  fresh (eng s) →
  ∃ c acts,
    runGroups o sharing cnt seriesSizeV seriesCountV delayV forceGCV memV totalSteps
      plan sizes pathKeys cur s = (Ok c, ext s acts) ∧
    Forall2 reports (events acts)
      (flat_map (fun pathKey =>
         flat_map (fun size => map (fun item => (item, size)) (itemsOf plan pathKey)) sizes)
         pathKeys) ∧
    generatorCalls acts =
      (length sizes * sum_list (map (fun pathKey => groupGenerations sharing cnt (itemsOf plan pathKey))
                                  pathKeys))%nat.
Proof.
  revert cur s. induction pathKeys as [|pathKey rest IH]; intros cur s Hfresh; simpl.
  - exists cur, []. unfold ret, ext. rewrite app_nil_r. destruct s.
    split; [reflexivity|]. split; [constructor|]. unfold generatorCalls. simpl. lia.
  - unfold ifState at 1. rewrite (proj1 Hfresh).
    case_bool_decide as Hempty.
    + destruct (itemsOf plan pathKey); [|discriminate]. simpl.
      assert (Hnil : flat_map (fun _ : num => @nil (UnifiedItem * num)) sizes = []).
      { clear. induction sizes; simpl; auto. }
      rewrite Hnil. simpl. apply IH, Hfresh.
    + unfold ifState at 1. rewrite (fresh_not_skipped _ pathKey Hfresh).
      destruct (runSizes_quiet pathKey (itemsOf plan pathKey) sizes cur s Hfresh)
        as (c1 & acts1 & Hrun1 & Hall1 & Hg1).
      destruct (IH c1 (ext s acts1) Hfresh) as (c & acts2 & Hrun2 & Hall2 & Hg2).
      exists c, (acts1 ++ acts2). unfold bind. rewrite Hrun1, Hrun2, ext_ext.
      split; [reflexivity|]. rewrite events_app, generatorCalls_app.
      split; [by apply Forall2_app|]. rewrite Hg1, Hg2. lia.
Qed.

End QuietLoops.
End Quiet.

(** ** The whole run *)

Section WholeRun.
Context {num : Type} {NO : NumOps num} {D : Type}.
Variable o : Oracle num D.
Implicit Types (s : St num D) (acts : list (Act num D)).

(** Every run, whatever the environment does: the interactions of the run,
    how it ended, and what its events carry. *)
Lemma runWith_general sharing (registry : Registry num) config s0 :
  let total := totalStepsOf (planOf registry config) (sizesOf registry config) in
  ∃ acts,
    (runWith o sharing registry config s0).2 = replay o (resetEngine s0) acts ∧
    throwsLast o (length (trace s0)) acts (outcome (runWith o sharing registry config s0).1) ∧
    progressChain total (n_of_N 0) (events acts) ∧
    Forall (fun fe => ∃ cur0 item size,
              unitEvent total cur0 (seriesSizeOf registry config)
                (seriesCountOf registry config) item size fe.1 fe.2)
      (flaggedEvents o (resetEngine s0) acts) ∧
    (emitsAfterStop o (resetEngine s0) acts ≤ 1)%nat.
Proof.
  intros total. unfold runWith.
  destruct (runGroups_loop o sharing (dataUnitsCountOf registry config)
              (seriesSizeOf registry config) (seriesCountOf registry config)
              (delayOf registry config) (forceGCOf registry config)
              (memoryMeasurementsCountOf registry config) total
              (planOf registry config) (sizesOf registry config)
              (plan_allPathKeys (planOf registry config)) (n_of_N 0) (resetEngine s0))
    as (acts & Hs & [(Ht & _ & Hp & Hf & He) _]).
  exists acts. unfold bind, total in *.
  destruct (runGroups _ _ _ _ _ _ _ _ _ _ _ _ _) as [[c|e] s1]; simpl in *; auto.
Qed.

Lemma sum_list_ext {A} (f g : A → nat) (l : list A) :
  (∀ x, f x = g x) → sum_list (map f l) = sum_list (map g l).
Proof. intros H. induction l as [|x l IH]; simpl; [reflexivity|]. by rewrite H, IH. Qed.

Lemma flat_map_ext' {A B} (f g : A → list B) (l : list A) :
  (∀ x, f x = g x) → flat_map f l = flat_map g l.
Proof. intros H. induction l as [|x l IH]; simpl; [reflexivity|]. by rewrite H, IH. Qed.

(** A run in a quiet environment: it ends normally, its events are those of
    the units of work in the order group, data size, leaf, and the
    generators are called once per group or once per leaf. *)
Lemma runWith_quiet sharing (registry : Registry num) config s0 :
  quiet o →
  let unified := plan_unifiedItems (planOf registry config) in
  ∃ acts,
    runWith o sharing registry config s0 = (Ok tt, ext (resetEngine s0) acts) ∧
    Forall2 reports (events acts) (expectedUnits unified (sizesOf registry config)) ∧
    generatorCalls acts =
      (length (sizesOf registry config) *
       sum_list (map (fun pathKey =>
                   groupGenerations sharing (dataUnitsCountOf registry config)
                     (leavesOf unified pathKey))
                 (firstAppearance (map ui_pathKey unified))))%nat.
Proof.
  intros Hquiet unified. unfold runWith.
  destruct (runGroups_quiet o Hquiet sharing (dataUnitsCountOf registry config)
              (seriesSizeOf registry config) (seriesCountOf registry config)
              (delayOf registry config) (forceGCOf registry config)
              (memoryMeasurementsCountOf registry config)
              (totalStepsOf (planOf registry config) (sizesOf registry config))
              (planOf registry config) (sizesOf registry config)
              (plan_allPathKeys (planOf registry config)) (n_of_N 0) (resetEngine s0))
    as (c & acts & Hrun & Hall & Hg); [by split|].
  exists acts. unfold bind. rewrite Hrun. split; [reflexivity|].
  unfold planOf in *. rewrite buildPlan_allPathKeys in Hall, Hg.
  split.
  - unfold expectedUnits. erewrite flat_map_ext'; [exact Hall|].
    intros k. simpl. by rewrite buildPlan_itemsOf.
  - rewrite Hg. f_equal. apply sum_list_ext. intros k. by rewrite buildPlan_itemsOf.
Qed.

End WholeRun.

(** ** The order of the events *)

Lemma byPath_fold_lookup {A} (get_path : A → option (list string)) (l : list A)
    (m : gmap string A) k f :
  (∀ k' f', m !! k' = Some f' → join pathSep <$> get_path f' = Some k') →
  fold_left (fun m f =>
    match get_path f with
    | Some (seg :: segs) => <[ join pathSep (seg :: segs) := f ]> m
    | _ => m
    end) l m !! k = Some f →
  join pathSep <$> get_path f = Some k.
Proof.
  revert m. induction l as [|x l IH]; intros m Hm; simpl; [apply Hm|].
  apply IH. destruct (get_path x) as [[|seg segs]|] eqn:E; try exact Hm.
  intros k' f'. destruct (decide (join pathSep (seg :: segs) = k')) as [<-|Hne].
  - rewrite lookup_insert_eq. intros [= <-]. by rewrite E.
  - rewrite lookup_insert_ne by exact Hne. apply Hm.
Qed.

Lemma byPath_lookup {A} (get_path : A → option (list string)) (l : list A) k f :
  byPath get_path l !! k = Some f → join pathSep <$> get_path f = Some k.
Proof. apply byPath_fold_lookup. intros k' f'. by rewrite lookup_empty. Qed.

(** The joined path of every item of the plan is the joined path of its node. *)
Lemma unify_paths functions customEvals nodes idx :
  sublist
    (map (fun item => join pathSep <$> item_path item)
       (unify (byPath rf_path functions) (byPath ce_path customEvals) nodes idx))
    (map (fun node => Some (join pathSep (on_path node))) nodes).
Proof.
  revert idx. induction nodes as [|node nodes IH]; intros idx; simpl; [constructor|].
  unfold found. destruct (on_type node).
  - destruct (byPath rf_path functions !! _) as [f|] eqn:E; simpl.
    + unfold item_path at 1. simpl. rewrite (byPath_lookup _ _ _ _ E).
      apply sublist_skip, IH.
    + apply sublist_cons, IH.
  - destruct (byPath ce_path customEvals !! _) as [f|] eqn:E; simpl.
    + unfold item_path at 1. simpl. rewrite (byPath_lookup _ _ _ _ E).
      apply sublist_skip, IH.
    + apply sublist_cons, IH.
Qed.

Lemma NoDup_map_inj_on {A B} (f : A → B) (l : list A) x y :
  NoDup (map f l) → x ∈ l → y ∈ l → f x = f y → x = y.
Proof.
  induction l as [|z l IH]; simpl; intros Hnd Hx Hy Hf; [by apply elem_of_nil in Hx|].
  apply NoDup_cons in Hnd as [Hz Hnd].
  apply elem_of_cons in Hx as [->|Hx]; apply elem_of_cons in Hy as [->|Hy]; auto.
  - destruct Hz. rewrite Hf. apply list_elem_of_fmap. eauto.
  - destruct Hz. rewrite <- Hf. apply list_elem_of_fmap. eauto.
Qed.

Lemma NoDup_flat_map {A B} (f : A → list B) (l : list A) :
  NoDup l →
  (∀ x, x ∈ l → NoDup (f x)) →
  (∀ x1 x2 y, x1 ∈ l → x2 ∈ l → y ∈ f x1 → y ∈ f x2 → x1 = x2) →
  NoDup (flat_map f l).
Proof.
  induction l as [|x l IH]; simpl; intros Hnd Hf Hdisj; [constructor|].
  apply NoDup_cons in Hnd as [Hx Hnd].
  apply NoDup_app. split; [apply Hf; left|]. split.
  - intros y Hy Hy'. apply list_elem_of_In, in_flat_map in Hy' as (x' & Hx' & Hy').
    apply list_elem_of_In in Hx', Hy'.
    assert (x = x') as <-; [|done].
    apply (Hdisj x x' y); [left|by right|done..].
  - apply IH; [exact Hnd| |].
    + intros x' Hx'. apply Hf. by right.
    + intros x1 x2 y H1 H2. apply Hdisj; by right.
Qed.

Lemma NoDup_filter' {A} (f : A → bool) (l : list A) : NoDup l → NoDup (List.filter f l).
Proof. intros H. apply NoDup_ListNoDup, List.NoDup_filter, NoDup_ListNoDup, H. Qed.

Lemma elem_of_leavesOf unified k item :
  item ∈ leavesOf unified k ↔ item ∈ unified ∧ ui_pathKey item = k.
Proof.
  unfold leavesOf. rewrite list_elem_of_In, List.filter_In, <- list_elem_of_In.
  by rewrite bool_decide_eq_true.
Qed.

Lemma map_flat_map {A B C} (g : B → C) (f : A → list B) (l : list A) :
  map g (flat_map f l) = flat_map (fun x => map g (f x)) l.
Proof.
  induction l as [|x l IH]; simpl; [reflexivity|]. by rewrite map_app, IH.
Qed.

Lemma leavesOf_sublist unified k : sublist (leavesOf unified k) unified.
Proof.
  unfold leavesOf. induction unified as [|x l IH]; simpl; [constructor|].
  destruct (bool_decide _); by constructor.
Qed.

(** No unit of work occurs twice in the order of the specification when
    the data sizes are pairwise distinct and so are the paths of the leaves. *)
Lemma expectedUnits_NoDup {num} (unified : list UnifiedItem) (sizes : list num) :
  NoDup sizes → NoDup (map item_path unified) →
  NoDup (map (fun unit : UnifiedItem * num => (item_path unit.1, unit.2))
           (expectedUnits unified sizes)).
Proof.
  intros Hsizes Hpaths. unfold expectedUnits.
  rewrite map_flat_map.
  apply NoDup_flat_map.
  - apply firstAppearance_NoDup.
  - intros k _. rewrite map_flat_map.
    apply NoDup_flat_map; [exact Hsizes| |].
    + intros size _. rewrite List.map_map. simpl.
      rewrite <- (List.map_map item_path (fun p => (p, size))).
      apply NoDup_fmap_2; [by intros ?? [= ->]|].
      eapply sublist_NoDup; [exact Hpaths|].
      apply (fmap_sublist item_path), leavesOf_sublist.
    + intros s1 s2 [p s]. rewrite !List.map_map. simpl.
      intros _ _ H1 H2.
      apply list_elem_of_fmap in H1 as (? & [= _ ->] & _).
      by apply list_elem_of_fmap in H2 as (? & [= _ ->] & _).
  - intros k1 k2 [p s] _ _ H1 H2.
    rewrite map_flat_map in H1, H2.
    apply list_elem_of_In, in_flat_map in H1 as (s1 & _ & H1).
    apply list_elem_of_In, in_flat_map in H2 as (s2 & _ & H2).
    rewrite List.map_map in H1, H2. simpl in H1, H2.
    apply in_map_iff in H1 as (i1 & [= Hp1 _] & H1).
    apply in_map_iff in H2 as (i2 & [= Hp2 _] & H2).
    apply list_elem_of_In, elem_of_leavesOf in H1 as [H1 <-].
    apply list_elem_of_In, elem_of_leavesOf in H2 as [H2 <-].
    f_equal. apply (NoDup_map_inj_on item_path unified); auto. congruence.
Qed.

Lemma plan_paths_NoDup selectedPaths functions customEvals hierarchy :
  NoDup (map (fun node => join pathSep (on_path node)) (traverseNode hierarchy)) →
  NoDup (map item_path
           (plan_unifiedItems (buildPlan selectedPaths functions customEvals hierarchy))).
Proof.
  intros Hnodes. unfold buildPlan. simpl.
  apply (NoDup_fmap_1 (fmap (join pathSep))). rewrite <- list_fmap_compose.
  eapply sublist_NoDup; [|apply unify_paths].
  rewrite (list_fmap_compose (fun node => join pathSep (on_path node)) Some).
  apply NoDup_fmap_2; [by intros ?? [= ->]|exact Hnodes].
Qed.

Section Order.
Context {num : Type} {NO : NumOps num} {D : Type}.
Variable o : Oracle num D.

Lemma actsOf_replay {A} (m : M num D A) (s0 s : St num D) acts :
  trace s = trace s0 → (m s0).2 = replay o s acts → actsOf m s0 = acts.
Proof.
  intros Htr Hs. unfold actsOf. rewrite Hs, replay_trace, Htr.
  by rewrite drop_app_length.
Qed.

Lemma actsOf_ext {A} (m : M num D A) (s0 s : St num D) a acts :
  trace s = trace s0 → m s0 = (Ok a, ext s acts) → actsOf m s0 = acts.
Proof.
  intros Htr Hs. unfold actsOf. rewrite Hs. simpl. rewrite Htr.
  by rewrite drop_app_length.
Qed.

Lemma Forall2_reports_keys (evs : list (ProgressEvent num)) units :
  Forall2 reports evs units →
  map eventKey evs = map (fun unit : UnifiedItem * num => (item_path unit.1, unit.2)) units.
Proof.
  induction 1 as [|ev unit evs units (Hp & _ & Hs & _) _ IH]; simpl; [reflexivity|].
  unfold eventKey at 1. by rewrite Hp, Hs, IH.
Qed.

(** C1, as amended. In a run in which nothing is stopped, skipped or thrown,
    the events are those of the units of work (leaf, data size) in this
    order: the owner-path-key groups in order of first appearance in the
    depth-first traversal, then the configured data sizes in configured
    order, then the leaves of the group in registration order; one event
    per leaf and per entry of the list of data sizes. No (leaf, data size)
    pair is reported twice when the configured sizes are pairwise distinct
    and the joined paths of the leaves of the hierarchy are. *)
Theorem events_in_plan_order (registry : Registry num) (config : MeasurementConfig num)
    (s0 : St num D) :
  quiet o →
  let unified := plan_unifiedItems (planOf registry config) in
  let evs := eventsOf (runMeasurements o registry config) s0 in
  (runMeasurements o registry config s0).1 = Ok tt ∧
  Forall2 reports evs (expectedUnits unified (sizesOf registry config)) ∧
  (NoDup (sizesOf registry config) →
   NoDup (map (fun node => join pathSep (on_path node))
            (traverseNode (reg_hierarchy registry))) →
   NoDup (map eventKey evs)).
Proof.
  intros Hquiet unified evs.
  destruct (runWith_quiet o true registry config s0 Hquiet) as (acts & Hrun & Hall & _).
  assert (Hevs : evs = events acts).
  { unfold evs, eventsOf, runMeasurements.
    by rewrite (actsOf_ext _ s0 (resetEngine s0) tt acts eq_refl Hrun). }
  rewrite Hevs. unfold runMeasurements. rewrite Hrun.
  split; [reflexivity|]. split; [exact Hall|].
  intros Hsizes Hnodes. rewrite (Forall2_reports_keys _ _ Hall).
  apply expectedUnits_NoDup; [exact Hsizes|].
  by apply plan_paths_NoDup.
Qed.

End Order.

Lemma quietEnv_quiet : quiet Scenarios.quietEnv.
Proof. intros i a. destruct a as [g size|f [d|]| | | | | |ev]; split; reflexivity. Qed.

Lemma events_in_plan_order_witness :
  quiet Scenarios.quietEnv ∧
  let unified := plan_unifiedItems (planOf Scenarios.registryA Scenarios.configA) in
  let evs := eventsOf (runMeasurements Scenarios.quietEnv Scenarios.registryA
                         Scenarios.configA) Scenarios.idle in
  (runMeasurements Scenarios.quietEnv Scenarios.registryA Scenarios.configA
     Scenarios.idle).1 = Ok tt ∧
  Forall2 reports evs (expectedUnits unified (sizesOf Scenarios.registryA Scenarios.configA)) ∧
  (NoDup (sizesOf Scenarios.registryA Scenarios.configA) →
   NoDup (map (fun node => join pathSep (on_path node))
            (traverseNode (reg_hierarchy Scenarios.registryA))) →
   NoDup (map eventKey evs)).
Proof.
  split; [exact quietEnv_quiet|].
  exact (events_in_plan_order Scenarios.quietEnv Scenarios.registryA Scenarios.configA
           Scenarios.idle quietEnv_quiet).
Defined.

(** C1, as stated, fails when a data size is configured twice: the run is
    neither stopped nor skipped, and the pair of the leaf [G > a] and the
    data size 10 is reported twice. *)
Lemma size_configured_twice_reported_twice :
  quiet Scenarios.quietEnv ∧
  map eventKey (eventsOf (runMeasurements Scenarios.quietEnv Scenarios.registryOne
                            Scenarios.configTwice) Scenarios.idle)
  = [(Some ["G"; "a"], 10%float); (Some ["G"; "a"], 10%float)] ∧
  ¬ NoDup (map eventKey (eventsOf (runMeasurements Scenarios.quietEnv Scenarios.registryOne
                                     Scenarios.configTwice) Scenarios.idle)).
Proof.
  split; [exact quietEnv_quiet|].
  assert (H : map eventKey (eventsOf (runMeasurements Scenarios.quietEnv Scenarios.registryOne
                            Scenarios.configTwice) Scenarios.idle)
              = [(Some ["G"; "a"], 10%float); (Some ["G"; "a"], 10%float)])
    by (vm_compute; reflexivity).
  split; [exact H|]. rewrite H. intros Hnd.
  apply NoDup_cons in Hnd as [Hin _]. apply Hin. left.
Qed.

(** ** Selection *)

Lemma applySelection_elem {A} (get_path : A → option (list string)) selectedPaths
    (l : list A) (x : A) :
  x ∈ applySelection get_path selectedPaths l ↔
  x ∈ l ∧ satisfiesSelection selectedPaths (get_path x).
Proof.
  unfold applySelection, satisfiesSelection.
  destruct selectedPaths as [[|pattern patterns]|]; try tauto.
  rewrite list_elem_of_In, List.filter_In, <- list_elem_of_In.
  unfold selected. destruct (get_path x) as [p|].
  - rewrite List.existsb_exists. split; intros [Hx H]; (split; [exact Hx|]).
    + destruct H as (pat & Hpat & Hm). exists p, pat. by rewrite list_elem_of_In.
    + destruct H as (p' & pat & [= <-] & Hpat & Hm). exists pat. by rewrite <- list_elem_of_In.
  - split; intros [Hx H]; [discriminate|]. by destruct H as (p & pat & [=] & _).
Qed.

Lemma byPath_fold_last {A} (get_path : A → option (list string)) (l : list A)
    (m : gmap string A) x k :
  NoDup (omap (fun y => join pathSep <$> get_path y) l) →
  join pathSep <$> get_path x = Some k →
  (∃ seg segs, get_path x = Some (seg :: segs)) →
  (x ∈ l ∨ (m !! k = Some x ∧ k ∉ omap (fun y => join pathSep <$> get_path y) l)) →
  fold_left (fun m f =>
    match get_path f with
    | Some (seg :: segs) => <[ join pathSep (seg :: segs) := f ]> m
    | _ => m
    end) l m !! k = Some x.
Proof.
  intros Hnd Hk Hne. revert m Hnd.
  induction l as [|y l IH]; intros m Hnd H.
  - destruct H as [H|[H _]]; [by apply elem_of_nil in H|exact H].
  - cbn [fold_left]. cbn [omap list_omap] in Hnd, H.
    fold (omap (fun y => join pathSep <$> get_path y) l) in Hnd, H.
    destruct (get_path y) as [py|] eqn:Ey; cbn [fmap option_fmap option_map] in Hnd, H.
    + apply NoDup_cons in Hnd as [Hy Hnd].
      destruct H as [H|[Hm Hnot]].
      * apply elem_of_cons in H as [->|H].
        -- destruct Hne as (seg & segs & Hx). rewrite Hx in Ey. injection Ey as <-.
           rewrite Hx in Hk. injection Hk as <-.
           apply IH; [exact Hnd|]. right. rewrite lookup_insert_eq. by split.
        -- destruct py as [|seg' segs']; (apply IH; [exact Hnd|by left]).
      * apply not_elem_of_cons in Hnot as [Hneq Hnot].
        destruct py as [|seg' segs']; (apply IH; [exact Hnd|right; split; [|exact Hnot]]).
        -- exact Hm.
        -- rewrite lookup_insert_ne; [exact Hm|]. congruence.
    + destruct H as [H|[Hm Hnot]].
      * apply elem_of_cons in H as [->|H].
        -- destruct Hne as (seg & segs & Hx). congruence.
        -- apply IH; [exact Hnd|by left].
      * apply IH; [exact Hnd|by right].
Qed.

Lemma byPath_lookup_unique {A} (get_path : A → option (list string)) (l : list A) x seg segs :
  NoDup (omap (fun y => join pathSep <$> get_path y) l) →
  x ∈ l → get_path x = Some (seg :: segs) →
  byPath get_path l !! join pathSep (seg :: segs) = Some x.
Proof.
  intros Hnd Hin Hx. apply byPath_fold_last; eauto. by rewrite Hx.
Qed.

Lemma byPath_fold_elem {A} (get_path : A → option (list string)) (l : list A)
    (m : gmap string A) k x :
  fold_left (fun m f =>
    match get_path f with
    | Some (seg :: segs) => <[ join pathSep (seg :: segs) := f ]> m
    | _ => m
    end) l m !! k = Some x →
  x ∈ l ∨ m !! k = Some x.
Proof.
  revert m. induction l as [|y l IH]; intros m; simpl; [by right|].
  intros H. apply IH in H as [H|H]; [left; by right|].
  destruct (get_path y) as [[|seg segs]|]; try by right.
  destruct (decide (join pathSep (seg :: segs) = k)) as [<-|Hne].
  - rewrite lookup_insert_eq in H. injection H as <-. left. by left.
  - rewrite lookup_insert_ne in H by exact Hne. by right.
Qed.

Lemma byPath_lookup_elem {A} (get_path : A → option (list string)) (l : list A) k x :
  byPath get_path l !! k = Some x → x ∈ l.
Proof.
  intros H. apply byPath_fold_elem in H as [H|H]; [exact H|].
  by rewrite lookup_empty in H.
Qed.

Lemma unify_elem fbp ebp nodes idx item :
  item ∈ unify fbp ebp nodes idx →
  ∃ node, node ∈ nodes ∧ found fbp ebp node = Some (ui_body item).
Proof.
  revert idx. induction nodes as [|node nodes IH]; intros idx; simpl.
  - intros H. by apply elem_of_nil in H.
  - destruct (found fbp ebp node) as [body|] eqn:E.
    + rewrite elem_of_cons. intros [->|H].
      * exists node. split; [left|exact E].
      * apply IH in H as (n & Hn & Hf). exists n. split; [by right|exact Hf].
    + intros H. apply IH in H as (n & Hn & Hf). exists n. split; [by right|exact Hf].
Qed.

Lemma unify_found fbp ebp nodes idx node body :
  node ∈ nodes → found fbp ebp node = Some body →
  ∃ item, item ∈ unify fbp ebp nodes idx ∧ ui_body item = body.
Proof.
  revert idx. induction nodes as [|n nodes IH]; intros idx Hin Hf; simpl.
  - by apply elem_of_nil in Hin.
  - apply elem_of_cons in Hin as [<-|Hin].
    + rewrite Hf. eexists. split; [left|reflexivity].
    + destruct (found fbp ebp n).
      * destruct (IH (S idx) Hin Hf) as (item & Hitem & Hb).
        exists item. split; [by right|exact Hb].
      * apply IH; auto.
Qed.

Lemma omap_filter_sublist {A B} (f : A → option B) (g : A → bool) (l : list A) :
  sublist (omap f (List.filter g l)) (omap f l).
Proof.
  induction l as [|x l IH]; simpl; [constructor|].
  destruct (g x); simpl; destruct (f x); first [exact IH|by constructor].
Qed.

Lemma applySelection_keys_NoDup {A} (get_path : A → option (list string)) sel (l : list A) :
  NoDup (omap (fun y => join pathSep <$> get_path y) l) →
  NoDup (omap (fun y => join pathSep <$> get_path y) (applySelection get_path sel l)).
Proof.
  intros H. unfold applySelection. destruct sel as [[|pat pats]|]; try exact H.
  eapply sublist_NoDup; [exact H|apply omap_filter_sublist].
Qed.

Lemma included_measure {num} (registry : Registry num) config f p :
  NoDup (omap (fun y => join pathSep <$> rf_path y) (reg_functions registry)) →
  registeredMeasure registry f p →
  included (planOf registry config) (IMeasure f) ↔
  satisfiesSelection (selectedPaths config) (Some p).
Proof.
  intros Hnd (Hin & Hp & Hne & node & Hnode & Htype & Hpath).
  unfold included, planOf, buildPlan. simpl. split.
  - intros (item & Hitem & Hb). apply unify_elem in Hitem as (n & _ & Hf).
    rewrite Hb in Hf. unfold found in Hf. destruct (on_type n); [|by destruct (_ !! _)].
    destruct (byPath rf_path _ !! _) as [f'|] eqn:E; [|discriminate].
    injection Hf as ->. apply byPath_lookup_elem, applySelection_elem in E as [_ E].
    by rewrite Hp in E.
  - intros Hsel. apply unify_found with (node := node); [exact Hnode|].
    unfold found. rewrite Htype, Hpath. destruct p as [|seg segs]; [done|].
    rewrite (byPath_lookup_unique rf_path _ f seg segs); [reflexivity| |  |exact Hp].
    + by apply applySelection_keys_NoDup.
    + apply applySelection_elem. split; [exact Hin|]. by rewrite Hp.
Qed.

Lemma included_evaluate {num} (registry : Registry num) config e p :
  NoDup (omap (fun y => join pathSep <$> ce_path y) (reg_customEvals registry)) →
  registeredEvaluate registry e p →
  included (planOf registry config) (IEvaluate e) ↔
  satisfiesSelection (selectedPaths config) (Some p).
Proof.
  intros Hnd (Hin & Hp & Hne & node & Hnode & Htype & Hpath).
  unfold included, planOf, buildPlan. simpl. split.
  - intros (item & Hitem & Hb). apply unify_elem in Hitem as (n & _ & Hf).
    rewrite Hb in Hf. unfold found in Hf. destruct (on_type n); [by destruct (_ !! _)|].
    destruct (byPath ce_path _ !! _) as [e'|] eqn:E; [|discriminate].
    injection Hf as ->. apply byPath_lookup_elem, applySelection_elem in E as [_ E].
    by rewrite Hp in E.
  - intros Hsel. apply unify_found with (node := node); [exact Hnode|].
    unfold found. rewrite Htype, Hpath. destruct p as [|seg segs]; [done|].
    rewrite (byPath_lookup_unique ce_path _ e seg segs); [reflexivity| |  |exact Hp].
    + by apply applySelection_keys_NoDup.
    + apply applySelection_elem. split; [exact Hin|]. by rewrite Hp.
Qed.

(** X21. With one or more selection patterns, a registered function or
    evaluation is kept by the filter exactly when its path satisfies at
    least one pattern, and without patterns all are kept; when no two
    registered functions, and no two registered evaluations, have the same
    path joined with [" > "], a registered leaf of the hierarchy is in the
    plan exactly when its path satisfies the selection. The pattern
    [[undefined, "Binary"]] includes the leaf [Encoding > Binary > y] and
    excludes the leaf [Encoding > JSON > x]. *)
Theorem selection_includes {num} (registry : Registry num) (config : MeasurementConfig num) :
  (∀ f, f ∈ applySelection rf_path (selectedPaths config) (reg_functions registry) ↔
        f ∈ reg_functions registry ∧ satisfiesSelection (selectedPaths config) (rf_path f))
  ∧ (∀ e, e ∈ applySelection ce_path (selectedPaths config) (reg_customEvals registry) ↔
          e ∈ reg_customEvals registry ∧
          satisfiesSelection (selectedPaths config) (ce_path e))
  ∧ (NoDup (omap (fun y => join pathSep <$> rf_path y) (reg_functions registry)) →
     ∀ f p, registeredMeasure registry f p →
       (included (planOf registry config) (IMeasure f) ↔
        satisfiesSelection (selectedPaths config) (Some p)))
  ∧ (NoDup (omap (fun y => join pathSep <$> ce_path y) (reg_customEvals registry)) →
     ∀ e p, registeredEvaluate registry e p →
       (included (planOf registry config) (IEvaluate e) ↔
        satisfiesSelection (selectedPaths config) (Some p)))
  ∧ satisfiesSelection (Some [[FAny; FExact "Binary"]]) (Some ["Encoding"; "Binary"; "y"])
  ∧ ¬ satisfiesSelection (Some [[FAny; FExact "Binary"]]) (Some ["Encoding"; "JSON"; "x"])
  ∧ map ev_path (eventsOf (runMeasurements Scenarios.quietEnv Scenarios.registryB
                             Scenarios.configB) Scenarios.idle)
    = [Some ["Encoding"; "Binary"; "y"]].
Proof.
  split; [intros f; apply applySelection_elem|].
  split; [intros e; apply applySelection_elem|].
  split; [intros Hnd f p; by apply included_measure|].
  split; [intros Hnd e p; by apply included_evaluate|].
  split; [|split].
  - exists ["Encoding"; "Binary"; "y"], [FAny; FExact "Binary"].
    split; [reflexivity|]. split; [left|reflexivity].
  - intros (p & pat & [= <-] & Hpat & Hm).
    apply list_elem_of_singleton in Hpat as ->. discriminate.
  - vm_compute. reflexivity.
Qed.

(** C5 fails on a registry that the registration interface accepts: the
    plan looks the leaves up by their paths joined with [" > "], and the
    leaves [G > "a > b"] and [G > a > b] have the same joined path. The
    second registration replaces the first in the lookup table: without
    patterns the first function is registered, satisfies the selection and
    is not in the plan, both items of the plan carry the second function and
    the run calls no other; with the pattern [["G", "a", "b"]] the leaf
    [G > "a > b"] does not satisfy the selection, the plan still has an item
    with its title in its group, and the run delivers an event with that
    title. *)
Lemma selection_collides :
  let registry := Collision.registry in
  let runAll := runMeasurements Scenarios.quietEnv registry Collision.configAll in
  let runOne := runMeasurements Scenarios.quietEnv registry Collision.configOne in
  (registerAll Collision.declarations initialRegistry).1 = Ok tt ∧
  reg_functions registry = [Collision.first; Collision.second] ∧
  map (fun f => join pathSep <$> rf_path f) (reg_functions registry)
    = [Some "G > a > b"; Some "G > a > b"] ∧
  (registeredMeasure registry Collision.first ["G"; "a > b"] ∧
   satisfiesSelection (selectedPaths Collision.configAll) (rf_path Collision.first) ∧
   ¬ included (planOf registry Collision.configAll) (IMeasure Collision.first)) ∧
  map (fun it => (ui_title it, ui_body it))
    (plan_unifiedItems (planOf registry Collision.configAll))
    = [("a > b", IMeasure Collision.second); ("b", IMeasure Collision.second)] ∧
  calledFunctions (actsOf runAll Scenarios.idle) = [2%nat; 2%nat] ∧
  (registeredMeasure registry Collision.first ["G"; "a > b"] ∧
   ¬ satisfiesSelection (selectedPaths Collision.configOne) (Some ["G"; "a > b"])) ∧
  map (fun it => (ui_title it, ui_pathKey it, ui_body it))
    (plan_unifiedItems (planOf registry Collision.configOne))
    = [("a > b", Some "G", IMeasure Collision.second);
       ("b", Some "G > a", IMeasure Collision.second)] ∧
  map (fun ev => (ev_title ev, ev_path ev)) (eventsOf runOne Scenarios.idle)
    = [("a > b", Some ["G"; "a"; "b"]); ("b", Some ["G"; "a"; "b"])].
Proof.
  intros registry runAll runOne.
  assert (Hfirst : registeredMeasure registry Collision.first ["G"; "a > b"]).
  { split; [|split; [reflexivity|split; [discriminate|]]].
    - apply (bool_decide_unpack _). vm_compute. exact I.
    - exists {| on_type := TMeasure; on_path := ["G"; "a > b"]; on_title := "a > b" |}.
      split; [|split; reflexivity].
      replace (traverseNode (reg_hierarchy registry))
        with [{| on_type := TMeasure; on_path := ["G"; "a > b"]; on_title := "a > b" |};
              {| on_type := TMeasure; on_path := ["G"; "a"; "b"]; on_title := "b" |}]
        by (vm_compute; reflexivity).
      constructor. }
  assert (Hitems : map (fun it => (ui_title it, ui_body it))
                     (plan_unifiedItems (planOf registry Collision.configAll))
                   = [("a > b", IMeasure Collision.second);
                      ("b", IMeasure Collision.second)])
    by (vm_compute; reflexivity).
  split; [vm_compute; reflexivity|]. split; [vm_compute; reflexivity|].
  split; [vm_compute; reflexivity|]. split; [|split; [|split; [|split; [|split]]]].
  - split; [exact Hfirst|]. split; [exact I|].
    intros (item & Hin & Hb).
    assert (Hpair : (ui_title item, ui_body item) ∈
                    map (fun it => (ui_title it, ui_body it))
                      (plan_unifiedItems (planOf registry Collision.configAll))).
    { apply list_elem_of_fmap. by exists item. }
    rewrite Hitems, Hb in Hpair.
    unfold Collision.first, Collision.second in Hpair.
    repeat (apply elem_of_cons in Hpair as [Hpair|Hpair]; [congruence|]).
    inversion Hpair.
  - exact Hitems.
  - vm_compute. reflexivity.
  - split; [exact Hfirst|].
    intros (p & pat & [= <-] & Hpat & Hm).
    apply list_elem_of_singleton in Hpat as ->. discriminate.
  - vm_compute. reflexivity.
  - vm_compute. reflexivity.
Qed.

(** ** Skipping a group *)

Section Skips.
Context {num : Type} {NO : NumOps num} {D : Type}.
Variable o : Oracle num D.

Lemma applyCmds_stopRequested e cs :
  stopRequested (applyCmds e cs) = stopRequested e || existsb isStop cs.
Proof.
  revert e. induction cs as [|c cs IH]; intros e; simpl; [by rewrite orb_false_r|].
  rewrite IH. destruct c; simpl; [by rewrite orb_true_r|reflexivity].
Qed.

Lemma existsb_filter_isStop cs : existsb isStop (List.filter isStop cs) = existsb isStop cs.
Proof. induction cs as [|[|k] cs IH]; simpl; auto. Qed.

Lemma alike_ret {A} (a : A) : alike (ret a : M num D A) (ret a).
Proof. intros s s' H. by split. Qed.

Lemma alike_bind {A B} (m m' : M num D A) (k k' : A → M num D B) :
  alike m m' → (∀ a, alike (k a) (k' a)) → alike (bind m k) (bind m' k').
Proof.
  intros Hm Hk s s' H. unfold bind. destruct (Hm s s' H) as [Hr Hs].
  destruct (m s) as [[a|e] s1], (m' s') as [[a'|e'] s1']; simpl in *; try discriminate.
  - injection Hr as <-. by apply Hk.
  - injection Hr as <-. by split.
Qed.

Lemma alike_step (a : Act num D) s s' :
  sameButSkips s s' →
  sameButSkips (stepState o s a) (stepState (withoutSkips o) s' a).
Proof.
  intros [Ht Hs]. split; simpl; [by rewrite Ht|].
  destruct (affects a); [|exact Hs].
  rewrite !applyCmds_stopRequested, Hs, Ht. simpl. by rewrite existsb_filter_isStop.
Qed.

Lemma call_alike {A} (a : Act num D) (sel : Reply num D → A) s s' :
  affects a = true →
  (∀ r r', r_throw r = r_throw r' → r_datum r = r_datum r' → r_num r = r_num r' →
           sel r = sel r') →
  sameButSkips s s' →
  ((let! r := call o a in ret (sel r)) s).1
    = ((let! r := call (withoutSkips o) a in ret (sel r)) s').1 ∧
  sameButSkips ((let! r := call o a in ret (sel r)) s).2
    ((let! r := call (withoutSkips o) a in ret (sel r)) s').2.
Proof.
  intros Ha Hsel H. pose proof (alike_step a s s' H) as Hstep.
  unfold stepState in Hstep. rewrite Ha in Hstep.
  unfold bind, call, ret. destruct H as [Ht Hs]. rewrite <- Ht.
  simpl. destruct (r_throw (o (length (trace s)) a)) eqn:E; simpl.
  - split; [reflexivity|]. rewrite <- Ht in Hstep. exact Hstep.
  - split; [|rewrite <- Ht in Hstep; exact Hstep].
    f_equal. apply Hsel; simpl; auto.
Qed.

Lemma alike_callGenerator g (dataSize : num) :
  alike (callGenerator o g dataSize) (callGenerator (withoutSkips o) g dataSize).
Proof. intros s s' H. by apply (call_alike (AGen g dataSize) r_datum). Qed.

Lemma alike_callFn f (datum : option D) :
  alike (callFn o f datum) (callFn (withoutSkips o) f datum).
Proof. intros s s' H. by apply (call_alike (AFn f datum) r_num). Qed.

Lemma alike_onProgress (ev : ProgressEvent num) :
  alike (onProgress o ev) (onProgress (withoutSkips o) ev).
Proof. intros s s' H. by apply (call_alike (AEmit ev) (fun _ => tt)). Qed.

Lemma alike_suspend (a : Act num D) :
  affects a = true → alike (suspend o a) (suspend (withoutSkips o) a).
Proof.
  intros Ha s s' H. pose proof (alike_step a s s' H) as Hstep.
  unfold stepState in Hstep. rewrite Ha in Hstep.
  unfold suspend. simpl. destruct H as [Ht Hs]. rewrite <- Ht in *. by split.
Qed.

Lemma alike_probe (a : Act num D) :
  affects a = false → alike (probe o a) (probe (withoutSkips o) a).
Proof.
  intros Ha s s' H. pose proof (alike_step a s s' H) as Hstep.
  unfold stepState in Hstep. rewrite Ha in Hstep.
  unfold probe. simpl. destruct H as [Ht Hs]. rewrite <- Ht in *. by split.
Qed.

Lemma alike_forPush {A} (body body' : N → M num D A) i n :
  (∀ j, alike (body j) (body' j)) → alike (forPush body i n) (forPush body' i n).
Proof.
  intros Hb. revert i. induction n as [|n IH]; intros i; simpl.
  - apply alike_ret.
  - apply alike_bind; [apply Hb|]. intros x.
    apply alike_bind; [apply IH|]. intros xs. apply alike_ret.
Qed.

Lemma alike_forEachPush {A B} (body body' : A → M num D B) l :
  (∀ x, alike (body x) (body' x)) → alike (forEachPush body l) (forEachPush body' l).
Proof.
  intros Hb. induction l as [|x l IH]; simpl.
  - apply alike_ret.
  - apply alike_bind; [apply Hb|]. intros y.
    apply alike_bind; [apply IH|]. intros ys. apply alike_ret.
Qed.

Lemma alike_if {A} (b : bool) (m1 m1' m2 m2' : M num D A) :
  alike m1 m1' → alike m2 m2' → alike (if b then m1 else m2) (if b then m1' else m2').
Proof. by destruct b. Qed.

(** A check of the stop flag does not look at the skip set. *)
Lemma alike_ifStop {A} (m1 m1' m2 m2' : M num D A) :
  alike m1 m1' → alike m2 m2' →
  alike (ifState stopRequested m1 m2) (ifState stopRequested m1' m2').
Proof.
  intros H1 H2 s s' H. unfold ifState. rewrite <- (proj2 H).
  destruct (stopRequested (eng s)); [by apply H1|by apply H2].
Qed.

Ltac alike_step :=
  first
    [ apply alike_ret
    | apply alike_callGenerator
    | apply alike_callFn
    | apply alike_onProgress
    | apply alike_suspend; reflexivity
    | apply alike_probe; reflexivity
    | apply alike_bind; [|intros ?]
    | apply alike_forPush; intros ?
    | apply alike_forEachPush; intros ?
    | apply alike_if
    | apply alike_ifStop ].

Lemma alike_measureSeries seriesSize (data : list D) fn :
  alike (measureSeries o seriesSize data fn) (measureSeries (withoutSkips o) seriesSize data fn).
Proof. unfold measureSeries, getTime. repeat alike_step. Qed.

Lemma alike_measureSeriesAsync seriesSize (data : list D) fn :
  alike (measureSeriesAsync o seriesSize data fn)
    (measureSeriesAsync (withoutSkips o) seriesSize data fn).
Proof.
  unfold measureSeriesAsync. apply alike_bind; [apply alike_measureSeries|intros ?].
  repeat alike_step.
Qed.

Lemma alike_measureSeriesMemory count (data : list D) fn :
  alike (measureSeriesMemory o count data fn)
    (measureSeriesMemory (withoutSkips o) count data fn).
Proof. unfold measureSeriesMemory, runGC, getMemoryUsage. repeat alike_step. Qed.

Lemma alike_measureSeriesMemoryAsync count (data : list D) fn :
  alike (measureSeriesMemoryAsync o count data fn)
    (measureSeriesMemoryAsync (withoutSkips o) count data fn).
Proof.
  unfold measureSeriesMemoryAsync.
  apply alike_bind; [apply alike_measureSeriesMemory|intros ?]. repeat alike_step.
Qed.

Lemma alike_generateData cnt g (dataSize : num) :
  alike (generateData o cnt g dataSize) (generateData (withoutSkips o) cnt g dataSize).
Proof. unfold generateData. repeat alike_step. Qed.

Lemma alike_seriesLoop seriesSizeV delayV forceGCV func (dataArray : list D) n durations :
  alike (seriesLoop o seriesSizeV delayV forceGCV func dataArray n durations)
    (seriesLoop (withoutSkips o) seriesSizeV delayV forceGCV func dataArray n durations).
Proof.
  revert durations. induction n as [|n IH]; intros durations; simpl.
  - apply alike_ret.
  - apply alike_ifStop; [apply alike_ret|].
    apply alike_bind; [apply alike_if; [unfold runGC; repeat alike_step|apply alike_ret]|intros ?].
    apply alike_bind;
      [apply alike_if; [apply alike_measureSeriesAsync|apply alike_measureSeries]|intros ?].
    apply alike_bind; [by apply alike_suspend|intros ?]. apply IH.
Qed.

(** A call of [skipPathKey] that arrives while a unit of work is in flight
    changes nothing in its sampling and its event. *)
Lemma alike_runItem cnt seriesSizeV seriesCountV delayV forceGCV memV totalSteps
    item size (shared : option (list D)) (cur : num) :
  alike (runItem o cnt seriesSizeV seriesCountV delayV forceGCV memV totalSteps
           item size shared cur)
    (runItem (withoutSkips o) cnt seriesSizeV seriesCountV delayV forceGCV memV totalSteps
           item size shared cur).
Proof.
  unfold runItem. destruct (ui_body item) as [func|customEval].
  - unfold runMeasure.
    apply alike_bind; [destruct shared; [apply alike_ret|apply alike_generateData]|].
    intros dataArray. apply alike_bind; [apply alike_seriesLoop|intros durations].
    apply alike_bind; [|intros memoryUsages; repeat alike_step].
    destruct memV as [count|]; [|apply alike_ret].
    destruct (0 <? count)%N; [|apply alike_ret].
    apply alike_bind; [|intros ?; apply alike_ret].
    apply alike_if; [apply alike_measureSeriesMemoryAsync|apply alike_measureSeriesMemory].
  - unfold runEvaluate.
    apply alike_bind; [|intros values; repeat alike_step].
    destruct shared; repeat alike_step.
Qed.

End Skips.

Section SkipAndReset.
Context {num : Type} {NO : NumOps num} {D : Type}.
Variable o : Oracle num D.

(** C10. Every call of [runMeasurements] first sets the stop flag to false
    and clears the skip set: the run does not depend on the flags that it
    finds, so calls of [stop()] and [skipPathKey()] made before the run have
    no effect on it, and no skip is carried over from the run before. A run
    of scenario C that starts with the stop flag set and [G2] skipped
    delivers the events of all three groups, and so does the run that
    follows a run in which [G2] was skipped. *)
Theorem run_resets_flags (registry : Registry num) (config : MeasurementConfig num)
    (s : St num D) :
  (∀ e, runMeasurements o registry config {| eng := e; trace := trace s |}
        = runMeasurements o registry config s)
  ∧ runMeasurements o registry config s
    = (do! runGroups o true (dataUnitsCountOf registry config) (seriesSizeOf registry config)
             (seriesCountOf registry config) (delayOf registry config)
             (forceGCOf registry config) (memoryMeasurementsCountOf registry config)
             (totalStepsOf (planOf registry config) (sizesOf registry config))
             (planOf registry config) (sizesOf registry config)
             (plan_allPathKeys (planOf registry config)) (n_of_N 0) in
       ret tt)
      {| eng := {| stopRequested := false; skippedSubGroups := ∅ |}; trace := trace s |}
  ∧ (∀ pathKey, runMeasurements o registry config
                  {| eng := stop (skipPathKey pathKey (eng s)); trace := trace s |}
                = runMeasurements o registry config s)
  ∧ (∀ registry' config' s',
       runMeasurements o registry config (runMeasurements o registry' config' s').2
       = runMeasurements o registry config
           (resetEngine (runMeasurements o registry' config' s').2))
  ∧ map eventKey (eventsOf (runMeasurements Scenarios.quietEnv Scenarios.registryC
                              Scenarios.configC) Scenarios.stoppedAndSkippedG2)
    = [(Some ["G1"; "a"], 10%float); (Some ["G1"; "a"], 20%float);
       (Some ["G2"; "b"], 10%float); (Some ["G2"; "b"], 20%float);
       (Some ["G3"; "c"], 10%float); (Some ["G3"; "c"], 20%float)]
  ∧ (let first := runMeasurements Scenarios.skipEnvC Scenarios.registryC Scenarios.configC
                    Scenarios.idle in
     skippedSubGroups (eng first.2) = {[ "G2" ]} ∧
     map eventKey (eventsOf (runMeasurements Scenarios.skipEnvC Scenarios.registryC
                               Scenarios.configC) first.2)
     = [(Some ["G1"; "a"], 10%float); (Some ["G1"; "a"], 20%float);
        (Some ["G2"; "b"], 10%float); (Some ["G2"; "b"], 20%float);
        (Some ["G3"; "c"], 10%float); (Some ["G3"; "c"], 20%float)]).
Proof.
  do 4 (split; [intros; reflexivity|]). split.
  - vm_compute. reflexivity.
  - intros first. split.
    + vm_compute. reflexivity.
    + vm_compute. reflexivity.
Qed.

(** C9. When the path key of a group is in the skip set, the run goes on
    with the groups after it as if the group were not in the plan, so no
    event of the group is delivered; the skip set is looked at again at the
    start of every data size and before every leaf; a skip stays in the set
    for the rest of the run; a call of [skipPathKey] that arrives while a
    leaf is in flight leaves the sampling and the event of that leaf as
    they are. In scenario C the skip of [G2] arrives during the first
    group: the events are those of [G1] and [G3]. *)
Theorem skip_group sharing cnt seriesSizeV seriesCountV (delayV : num) forceGCV memV
    (totalSteps : num) plan sizes pathKey rest items size (shared : option (list D))
    (cur : num) (s : St num D) :
  isSkipped pathKey (eng s) = true →
  runGroups o sharing cnt seriesSizeV seriesCountV delayV forceGCV memV totalSteps
    plan sizes (pathKey :: rest) cur s
  = runGroups o sharing cnt seriesSizeV seriesCountV delayV forceGCV memV totalSteps
      plan sizes rest cur s
  ∧ runSizes o sharing cnt seriesSizeV seriesCountV delayV forceGCV memV totalSteps
      pathKey items sizes cur s = (Ok cur, s)
  ∧ runItems o cnt seriesSizeV seriesCountV delayV forceGCV memV totalSteps
      pathKey size shared items cur s = (Ok cur, s)
  ∧ (∀ acts, isSkipped pathKey (eng (replay o s acts)) = true)
  ∧ (∀ item, alike
       (runItem o cnt seriesSizeV seriesCountV delayV forceGCV memV totalSteps
          item size shared cur)
       (runItem (withoutSkips o) cnt seriesSizeV seriesCountV delayV forceGCV memV totalSteps
          item size shared cur))
  ∧ map eventKey (eventsOf (runMeasurements Scenarios.skipEnvC Scenarios.registryC
                              Scenarios.configC) Scenarios.idle)
    = [(Some ["G1"; "a"], 10%float); (Some ["G1"; "a"], 20%float);
       (Some ["G3"; "c"], 10%float); (Some ["G3"; "c"], 20%float)].
Proof.
  intros Hskip. split; [|split; [|split; [|split; [|split]]]].
  - simpl. unfold ifState at 1. destruct (stopRequested (eng s)) eqn:Hstop.
    + destruct rest; simpl; [reflexivity|]. unfold ifState at 1. by rewrite Hstop.
    + case_bool_decide; [reflexivity|]. unfold ifState at 1. by rewrite Hskip.
  - destruct sizes; simpl; [reflexivity|]. unfold ifState.
    rewrite Hskip. by destruct (stopRequested (eng s)).
  - destruct items; simpl; [reflexivity|]. unfold ifState.
    rewrite Hskip. by destruct (stopRequested (eng s)).
  - intros acts. by apply replay_skipped.
  - intros item. apply alike_runItem.
  - vm_compute. reflexivity.
Qed.

End SkipAndReset.

Lemma skip_group_witness :
  isSkipped (Some "G2") (eng Scenarios.skippedG2) = true ∧
  runGroups Scenarios.quietEnv true 1 1 1 1%float false None 60%float
    (planOf Scenarios.registryC Scenarios.configC) [10%float; 20%float]
    [Some "G2"; Some "G3"] 0%float Scenarios.skippedG2
  = runGroups Scenarios.quietEnv true 1 1 1 1%float false None 60%float
      (planOf Scenarios.registryC Scenarios.configC) [10%float; 20%float]
      [Some "G3"] 0%float Scenarios.skippedG2.
Proof.
  split; [reflexivity|].
  exact (proj1 (skip_group Scenarios.quietEnv true 1 1 1 1%float false None 60%float
                  (planOf Scenarios.registryC Scenarios.configC) [10%float; 20%float]
                  (Some "G2") [Some "G3"] [] 10%float None 0%float Scenarios.skippedG2
                  eq_refl)).
Defined.

(** ** Sharing of generated data *)

Section Sharing.
Context {num : Type} {NO : NumOps num} {D : Type}.
Variable o : Oracle num D.

Lemma reports_shape (total cur : num) (evs1 evs2 : list (ProgressEvent num)) units :
  Forall2 reports evs1 units → Forall2 reports evs2 units →
  progressChain total cur evs1 → progressChain total cur evs2 →
  map eventShape evs1 = map eventShape evs2.
Proof.
  intros H1. revert cur evs2.
  induction H1 as [|ev1 unit evs1 units Hr1 _ IH]; intros cur evs2 H2 Hp1 Hp2.
  - by inversion H2.
  - inversion H2 as [|ev2 ? evs2' ? Hr2 H2']; subst. simpl in *.
    destruct Hp1 as [Hp1 Hc1], Hp2 as [Hp2 Hc2].
    destruct Hr1 as (Hpath1 & Htitle1 & Hsize1 & Hkind1).
    destruct Hr2 as (Hpath2 & Htitle2 & Hsize2 & Hkind2).
    rewrite Hsize1 in Hp1, Hc1. rewrite Hsize2 in Hp2, Hc2.
    f_equal; [|by apply (IH (n_add cur unit.2))].
    unfold eventShape. rewrite Hpath1, Hpath2, Htitle1, Htitle2, Hsize1, Hsize2, Hp1, Hp2.
    destruct (ui_body unit.1); destruct Hkind1 as [Ha1 Hb1], Hkind2 as [Ha2 Hb2].
    + by rewrite Hb1, Hb2, (bool_decide_eq_true_2 _ Ha1), (bool_decide_eq_true_2 _ Ha2).
    + by rewrite Ha1, Ha2, (bool_decide_eq_true_2 _ Hb1), (bool_decide_eq_true_2 _ Hb2).
Qed.

Lemma groupGenerations_shared cnt items :
  items ≠ [] → allUseSameGenerator items = true →
  groupGenerations true cnt items = N.to_nat cnt.
Proof. intros Hne Hsame. destruct items; [done|]. simpl in *. by rewrite Hsame. Qed.

Lemma groupGenerations_unshared cnt items :
  groupGenerations false cnt items = (length items * N.to_nat cnt)%nat.
Proof. by destruct items. Qed.


End Sharing.


(** ** Exceptions, stop requests and statistics *)

Section Verdicts.
Context {num : Type} {NO : NumOps num} {D : Type}.
Variable o : Oracle num D.
Implicit Types (s : St num D) (acts : list (Act num D)).

(** The interaction that throws is the last one, and its exception is the
    result. *)
Lemma throwsLast_fatal base acts x i a e :
  throwsLast o base acts x → acts !! i = Some a → thrown o (base + i) a = Some e →
  x = Some e ∧ S i = length acts.
Proof.
  intros Ht Hi He. destruct x as [e'|]; simpl in Ht.
  - destruct Ht as (pre & b & -> & Hpre & Hb).
    destruct (decide (i < length pre)%nat) as [Hlt|Hge].
    + rewrite lookup_app_l in Hi by exact Hlt. rewrite (Hpre i a Hi) in He. discriminate.
    + rewrite lookup_app_r in Hi by lia.
      destruct (i - length pre)%nat as [|k] eqn:Ek; simpl in Hi; [|by rewrite lookup_nil in Hi].
      injection Hi as <-. replace i with (length pre) in * by lia.
      rewrite Hb in He. injection He as <-. rewrite length_app. simpl. split; [reflexivity|lia].
  - rewrite (Ht i a Hi) in He. discriminate.
Qed.

Lemma flaggedEvents_flags s acts :
  stopRequested (eng (replay o s acts)) = false →
  Forall (fun fe : bool * ProgressEvent num => fe.1 = false) (flaggedEvents o s acts).
Proof.
  revert s. induction acts as [|a acts IH]; intros s H; simpl; [constructor|].
  apply Forall_app. split; [|by apply IH].
  destruct a; try constructor; [|constructor]. simpl.
  destruct (stopRequested (eng s)) eqn:E; [|reflexivity].
  simpl in H. rewrite replay_stop in H; [discriminate|]. simpl. by apply applyCmds_stop.
Qed.

(** C7. An exception thrown by a target function or by a data generator
    (or by the observer) is the result of [runMeasurements], and the
    interaction that threw is the last one of the run: nothing is caught,
    retried or delivered after it. A unit of work (leaf, data size) that
    ends with an exception of its function or of its generator has delivered
    no event. In scenario E the third call of the function throws: the run
    ends with that exception after five interactions and without any event. *)
Theorem exception_is_fatal (registry : Registry num) (config : MeasurementConfig num)
    (s0 : St num D) :
  let run := runMeasurements o registry config in
  (∀ i a e, actsOf run s0 !! i = Some a → thrown o (length (trace s0) + i) a = Some e →
            (run s0).1 = Throw e ∧ S i = length (actsOf run s0))
  ∧ ((run s0).1 = Ok tt → noThrowIn o (length (trace s0)) (actsOf run s0))
  ∧ (∀ cnt seriesSizeV seriesCountV (delayV : num) forceGCV memV (totalSteps : num)
       item size (shared : option (list D)) (cur : num) s e,
       let unit := runItem o cnt seriesSizeV seriesCountV delayV forceGCV memV totalSteps
                     item size shared cur in
       (unit s).1 = Throw e →
       (∀ ev, last (actsOf unit s) ≠ Some (AEmit ev)) →
       eventsOf unit s = [])
  ∧ (let runE := runMeasurements Scenarios.throwEnvE Scenarios.registryOne
                   Scenarios.configE in
     (runE Scenarios.idle).1 = Throw "boom" ∧
     last (actsOf runE Scenarios.idle) = Some (AFn 1 (Some 10%float)) ∧
     length (actsOf runE Scenarios.idle) = 5%nat ∧
     eventsOf runE Scenarios.idle = []).
Proof.
  intros run. subst run. unfold runMeasurements.
  destruct (runWith_general o true registry config s0) as (acts & Hs & Ht & _).
  rewrite (actsOf_replay o _ s0 (resetEngine s0) acts eq_refl Hs).
  split; [|split; [|split]].
  - intros i a e Hi He.
    destruct (throwsLast_fatal _ _ _ i a e Ht Hi He) as [Hx Hlen]. split; [|exact Hlen].
    destruct (runWith o true registry config s0).1 as [[]|e']; simpl in Hx; congruence.
  - intros Hok. by rewrite Hok in Ht.
  - intros cnt seriesSizeV seriesCountV delayV forceGCV memV totalSteps item size shared
      cur s e Hthrow Hlast.
    destruct (runItem_unit o cnt seriesSizeV seriesCountV delayV forceGCV memV totalSteps
                item size shared cur s) as (acts' & Hs' & _ & _ & Hev).
    unfold eventsOf. rewrite (actsOf_replay o _ s s acts' eq_refl Hs') in *.
    destruct Hev as [[Hf _]|(flag & ev & _ & Hl & _)]; [|by destruct (Hlast ev)].
    by rewrite <- (flaggedEvents_events o s acts'), Hf.
  - vm_compute. repeat split.
Qed.

End Verdicts.

(** C8, as stated, fails: in scenario A with two series per leaf, a stop
    that arrives during the first series of the first leaf (interaction 6)
    sets the flag; the run still waits for the delay after that series and
    still delivers the event of the leaf, computed from one series. *)
Lemma stop_waits_and_emits :
  let run := runMeasurements Scenarios.stopEnv Scenarios.registryA Scenarios.configStop in
  let acts := actsOf run Scenarios.idle in
  acts !! 6%nat = Some (AFn 1 (Some 10%float)) ∧
  stopRequested (eng (replay Scenarios.stopEnv Scenarios.idle (take 7 acts))) = true ∧
  (∃ ev r, drop 7 acts = [ATime; ADelay 1%float; AEmit ev] ∧
           ev_path ev = Some ["G"; "a"] ∧ ev_result ev = Some r ∧
           length (mr_series r) = 1%nat) ∧
  emitsAfterStop Scenarios.stopEnv Scenarios.idle acts = 1%nat.
Proof.
  vm_compute. split; [reflexivity|]. split; [reflexivity|]. split; [|reflexivity].
  eexists. eexists. repeat split.
Qed.

(** ** Rounding to binary64 *)

Section Rounding.
Import Binary64.
Local Open Scope Q_scope.

Lemma pow2_pos z : 0 < pow2 z.
Proof. apply Qpower_0_lt. reflexivity. Qed.

Lemma pow2_add a b : pow2 (a + b) == pow2 a * pow2 b.
Proof. apply Qpower_plus. discriminate. Qed.

Lemma pow2_le a b : (a <= b)%Z -> pow2 a <= pow2 b.
Proof. intros H. apply Qpower_le_compat_l; [exact H|discriminate]. Qed.

Lemma pow2_lt_inv a b : pow2 a < pow2 b -> (a < b)%Z.
Proof. intros H. eapply Qpower_lt_compat_l_inv; [exact H|reflexivity]. Qed.

Lemma pow2_inject k : (0 <= k)%Z -> pow2 k == inject_Z (2 ^ k).
Proof. intros H. unfold pow2. by rewrite Zpower_Qpower. Qed.

Lemma pow2_cancel a : pow2 a * pow2 (- a) == 1.
Proof. rewrite <- pow2_add, Z.add_opp_diag_r. reflexivity. Qed.

Lemma lg_spec x : 0 < x -> pow2 (lg x) <= x /\ x < pow2 (lg x + 1).
Proof.
  intros Hx. destruct x as [n d]. unfold lg. cbn [Qnum Qden].
  assert (Hn : (0 < n)%Z) by (unfold Qlt in Hx; simpl in Hx; lia).
  pose proof (Z.log2_spec n Hn) as [Hn1 Hn2].
  pose proof (Z.log2_spec (Zpos d) (Pos2Z.is_pos d)) as [Hd1 Hd2].
  pose proof (Z.log2_nonneg n) as Ha. pose proof (Z.log2_nonneg (Zpos d)) as Hb.
  set (a := Z.log2 n) in *. set (b := Z.log2 (Zpos d)) in *.
  assert (Hq : n # d == inject_Z n / inject_Z (Zpos d)) by (rewrite Qmake_Qdiv; reflexivity).
  assert (Hdpos : 0 < inject_Z (Zpos d)) by reflexivity.
  (* 2^(a-b-1) < x < 2^(a-b+1) *)
  assert (Hup : n # d < pow2 (a - b + 1)).
  { rewrite Hq. apply Qlt_shift_div_r; [exact Hdpos|].
    apply Qlt_le_trans with (inject_Z (2 ^ (a + 1))).
    - rewrite <- Zlt_Qlt. lia.
    - rewrite <- pow2_inject by lia.
      replace (a + 1)%Z with ((a - b + 1) + b)%Z by lia. rewrite pow2_add.
      apply Qmult_le_l; [apply pow2_pos|]. rewrite pow2_inject by lia.
      rewrite <- Zle_Qle. lia. }
  assert (Hlow : pow2 (a - b - 1) < n # d).
  { rewrite Hq. apply Qlt_shift_div_l; [exact Hdpos|].
    apply Qlt_le_trans with (inject_Z (2 ^ a)); [|rewrite <- Zle_Qle; lia].
    rewrite <- pow2_inject by lia.
    replace a with ((a - b - 1) + (b + 1))%Z at 2 by lia. rewrite pow2_add.
    apply Qmult_lt_l; [apply pow2_pos|]. rewrite pow2_inject by lia.
    rewrite <- Zlt_Qlt. lia. }
  destruct (Qle_bool (pow2 (a - b)) (n # d)) eqn:E.
  - apply Qle_bool_iff in E. split; [exact E|exact Hup].
  - split; [apply Qlt_le_weak, Hlow|].
    replace (a - b - 1 + 1)%Z with (a - b)%Z by lia.
    apply Qnot_le_lt. intros H. apply Qle_bool_iff in H. congruence.
Qed.

Lemma lg_mono x y : 0 < x -> x <= y -> (lg x <= lg y)%Z.
Proof.
  intros Hx Hxy.
  destruct (lg_spec x Hx) as [H1 _].
  destruct (lg_spec y (Qlt_le_trans _ _ _ Hx Hxy)) as [_ H2].
  assert (H : pow2 (lg x) < pow2 (lg y + 1)).
  { eapply Qle_lt_trans; [exact H1|]. eapply Qle_lt_trans; [exact Hxy|exact H2]. }
  apply pow2_lt_inv in H. lia.
Qed.

Lemma rne_floor x : (Qfloor x <= rne x <= Qfloor x + 1)%Z.
Proof.
  unfold rne. destruct (Qcompare _ _); [destruct (Z.even _)|..]; lia.
Qed.

Lemma rne_int x k : x == inject_Z k -> rne x = k.
Proof.
  intros H. unfold rne.
  assert (Hf : Qfloor x = k) by (rewrite (Qfloor_comp _ _ H); apply Qfloor_Z).
  rewrite Hf.
  destruct (Qcompare_spec (x - inject_Z k) (1 # 2)) as [E|E|E]; [..|reflexivity|];
    rewrite H in E; exfalso; revert E; unfold Qeq, Qlt, Qminus, Qplus, Qopp, inject_Z;
    cbn [Qnum Qden]; lia.
Qed.

Lemma rne_lower x k : inject_Z k <= x -> (k <= rne x)%Z.
Proof.
  intros H. apply Qfloor_resp_le in H. rewrite Qfloor_Z in H.
  pose proof (rne_floor x). lia.
Qed.

Lemma rne_upper x k : x <= inject_Z k -> (rne x <= k)%Z.
Proof.
  intros H. pose proof (Qfloor_resp_le _ _ H) as Hf. rewrite Qfloor_Z in Hf.
  destruct (Z.eq_dec (Qfloor x) k) as [E|E].
  - rewrite (rne_int x k); [lia|].
    apply Qle_antisym; [exact H|]. rewrite <- E. apply Qfloor_le.
  - pose proof (rne_floor x). lia.
Qed.

Lemma rne_mono x y : x <= y -> (rne x <= rne y)%Z.
Proof.
  intros H. pose proof (Qfloor_resp_le _ _ H) as Hf.
  destruct (Z.eq_dec (Qfloor x) (Qfloor y)) as [E|E].
  - unfold rne. rewrite <- E.
    assert (Hd : x - inject_Z (Qfloor x) <= y - inject_Z (Qfloor x)).
    { unfold Qminus. apply Qplus_le_l. exact H. }
    destruct (Qcompare_spec (x - inject_Z (Qfloor x)) (1 # 2)) as [E1|E1|E1];
      destruct (Qcompare_spec (y - inject_Z (Qfloor x)) (1 # 2)) as [E2|E2|E2];
      try (destruct (Z.even (Qfloor x)); lia); try lia; exfalso.
    + rewrite E1 in Hd. exact (Qlt_not_le _ _ E2 Hd).
    + rewrite E2 in Hd. exact (Qlt_not_le _ _ E1 Hd).
    + exact (Qlt_not_le _ _ (Qlt_trans _ _ _ E2 E1) Hd).
  - pose proof (rne_floor x). pose proof (rne_floor y). lia.
Qed.

Lemma scaled_bounds x : 0 < x ->
  pow2 52 <= x * pow2 (52 - lg x) /\ x * pow2 (52 - lg x) <= pow2 53.
Proof.
  intros Hx. destruct (lg_spec x Hx) as [H1 H2]. split.
  - replace 52%Z with (lg x + (52 - lg x))%Z at 1 by lia. rewrite pow2_add.
    apply Qmult_le_compat_r; [exact H1|]. apply Qlt_le_weak, pow2_pos.
  - replace 53%Z with ((lg x + 1) + (52 - lg x))%Z by lia. rewrite pow2_add.
    apply Qmult_le_compat_r; [apply Qlt_le_weak, H2|]. apply Qlt_le_weak, pow2_pos.
Qed.

Lemma rnd_pos_bounds x : 0 < x ->
  pow2 (lg x) <= rnd_pos x /\ rnd_pos x <= pow2 (lg x + 1).
Proof.
  intros Hx. destruct (scaled_bounds x Hx) as [H1 H2]. unfold rnd_pos.
  set (m := rne _).
  assert (Hm1 : (2 ^ 52 <= m)%Z).
  { apply rne_lower. rewrite <- pow2_inject by lia. exact H1. }
  assert (Hm2 : (m <= 2 ^ 53)%Z).
  { apply rne_upper. rewrite <- pow2_inject by lia. exact H2. }
  split.
  - replace (lg x) with (52 + (lg x - 52))%Z at 1 by lia. rewrite pow2_add.
    apply Qmult_le_compat_r; [|apply Qlt_le_weak, pow2_pos].
    rewrite pow2_inject by lia. rewrite <- Zle_Qle. exact Hm1.
  - replace (lg x + 1)%Z with (53 + (lg x - 52))%Z by lia. rewrite pow2_add.
    apply Qmult_le_compat_r; [|apply Qlt_le_weak, pow2_pos].
    rewrite pow2_inject by lia. rewrite <- Zle_Qle. exact Hm2.
Qed.

Lemma rnd_pos_pos x : 0 < x -> 0 < rnd_pos x.
Proof.
  intros Hx. eapply Qlt_le_trans; [apply (pow2_pos (lg x))|].
  apply rnd_pos_bounds, Hx.
Qed.

Lemma rnd_pos_mono x y : 0 < x -> x <= y -> rnd_pos x <= rnd_pos y.
Proof.
  intros Hx Hxy. assert (Hy : 0 < y) by (eapply Qlt_le_trans; eauto).
  pose proof (lg_mono x y Hx Hxy) as Hl.
  destruct (Z.eq_dec (lg x) (lg y)) as [E|E].
  - unfold rnd_pos. rewrite E.
    apply Qmult_le_compat_r; [|apply Qlt_le_weak, pow2_pos].
    rewrite <- Zle_Qle. apply rne_mono.
    apply Qmult_le_compat_r; [exact Hxy|apply Qlt_le_weak, pow2_pos].
  - eapply Qle_trans; [apply (rnd_pos_bounds x Hx)|].
    eapply Qle_trans; [|apply (rnd_pos_bounds y Hy)].
    apply pow2_le. lia.
Qed.

Lemma rnd_pos_exact x k : 0 < x -> x * pow2 (52 - lg x) == inject_Z k -> rnd_pos x == x.
Proof.
  intros Hx H. unfold rnd_pos. rewrite (rne_int _ _ H), <- H, <- Qmult_assoc, <- pow2_add.
  replace (52 - lg x + (lg x - 52))%Z with 0%Z by lia. apply Qmult_1_r.
Qed.

Lemma rnd_pos_Z n : (0 < n <= 2 ^ 53)%Z -> rnd_pos (inject_Z n) == inject_Z n.
Proof.
  intros [Hn1 Hn2].
  assert (Hx : 0 < inject_Z n) by (rewrite (Zlt_Qlt 0 n) in Hn1; exact Hn1).
  destruct (lg_spec _ Hx) as [H1 H2].
  assert (Hl : (lg (inject_Z n) <= 53)%Z).
  { assert (H : pow2 (lg (inject_Z n)) < pow2 54).
    { eapply Qle_lt_trans; [exact H1|]. rewrite (pow2_inject 54) by lia.
      rewrite <- Zlt_Qlt. lia. }
    apply pow2_lt_inv in H. lia. }
  destruct (Z.eq_dec (lg (inject_Z n)) 53%Z) as [E|E].
  - apply (rnd_pos_exact _ (2 ^ 52)); [exact Hx|]. rewrite E in *.
    assert (n = 2 ^ 53)%Z as ->.
    { rewrite pow2_inject in H1 by lia. rewrite <- Zle_Qle in H1. lia. }
    reflexivity.
  - apply (rnd_pos_exact _ (n * 2 ^ (52 - lg (inject_Z n)))); [exact Hx|].
    rewrite pow2_inject by lia. rewrite inject_Z_mult. reflexivity.
Qed.

Lemma rndQ_mono x y : x <= y -> rndQ x <= rndQ y.
Proof.
  intros H. unfold rndQ.
  destruct (Qcompare_spec x 0) as [Ex|Ex|Ex]; destruct (Qcompare_spec y 0) as [Ey|Ey|Ey].
  - apply Qle_refl.
  - exfalso. rewrite Ex in H. exact (Qlt_not_le _ _ Ey H).
  - apply Qlt_le_weak, rnd_pos_pos, Ey.
  - apply Qlt_le_weak. apply (Qopp_lt_compat 0). apply rnd_pos_pos.
    apply (Qopp_lt_compat x 0), Ex.
  - apply Qopp_le_compat, rnd_pos_mono; [apply (Qopp_lt_compat y 0), Ey|].
    apply Qopp_le_compat, H.
  - apply Qlt_le_weak. eapply Qlt_trans; [|apply rnd_pos_pos, Ey].
    apply (Qopp_lt_compat 0). apply rnd_pos_pos. apply (Qopp_lt_compat x 0), Ex.
  - exfalso. rewrite Ey in H. exact (Qlt_not_le _ _ Ex H).
  - exfalso. exact (Qlt_not_le _ _ (Qlt_trans _ _ _ Ey Ex) H).
  - apply rnd_pos_mono; assumption.
Qed.

Lemma rndQ_Z n : (0 <= n <= 2 ^ 53)%Z -> rndQ (inject_Z n) == inject_Z n.
Proof.
  intros [H1 H2]. unfold rndQ.
  destruct (Qcompare_spec (inject_Z n) 0) as [E|E|E].
  - symmetry. exact E.
  - exfalso. change 0 with (inject_Z 0) in E. rewrite <- Zlt_Qlt in E. lia.
  - apply rnd_pos_Z. change 0 with (inject_Z 0) in E. rewrite <- Zlt_Qlt in E. lia.
Qed.

Lemma binary64_rnd_mono (p q : Qc) : (p <= q)%Qc -> (rnd p <= rnd q)%Qc.
Proof.
  intros H. unfold rnd, Qcle. cbn [this Q2Qc]. rewrite !Qred_correct.
  apply rndQ_mono, H.
Qed.

Lemma binary64_rnd_int (n : Z) : (0 <= n <= 2 ^ 53)%Z -> rnd (Qc_of_Z n) = Qc_of_Z n.
Proof.
  intros H. apply Qc_is_canon. unfold rnd, Qc_of_Z. cbn [this Q2Qc]. rewrite Qred_correct.
  apply rndQ_Z, H.
Qed.

End Rounding.

(** ** The laws of arithmetic in the rational numbers *)

Section RationalLaws.
Import Rational.
Variable rnd : Qc -> Qc.
Hypothesis rnd_mono : ∀ p q : Qc, (p ≤ q)%Qc → (rnd p ≤ rnd q)%Qc.
Hypothesis rnd_int : ∀ n : Z, (0 ≤ n ≤ 2 ^ 53)%Z → rnd (Qc_of_Z n) = Qc_of_Z n.

Lemma rnd_N (n : N) : (n ≤ 2 ^ 53)%N → rnd (Qc_of_Z (Z.of_N n)) = Qc_of_Z (Z.of_N n).
Proof. intros H. apply rnd_int. split; [lia|]. change (2 ^ 53)%Z with (Z.of_N (2 ^ 53)). lia. Qed.

Lemma floor_half (n : Z) : Qfloor (Qc_of_Z n + Q2Qc (1 # 2))%Qc = n.
Proof.
  assert (H : ((Qc_of_Z n + Q2Qc (1 # 2))%Qc == (2 * n + 1 # 2)%Q)%Q).
  { unfold Qcplus, Qc_of_Z, Q2Qc. simpl. rewrite !Qred_correct.
    unfold Qeq, inject_Z. simpl. lia. }
  rewrite H. unfold Qfloor. symmetry. apply Z.div_unique with (r := 1%Z); lia.
Qed.

Lemma laws : @NumLaws xnum (ops rnd).
Proof.
  split; unfold ops; cbn [n_of_N n_add n_mul n_div n_leb n_round].
  - intros a b Hab. unfold add, of_N.
    rewrite !rnd_N by lia. rewrite <- Z2Qc_inj_add, <- N2Z.inj_add. by rewrite rnd_N.
  - intros a b Ha Hb Hab. unfold mul, of_N.
    rewrite !rnd_N by lia. rewrite <- Z2Qc_inj_mul, <- N2Z.inj_mul. by rewrite rnd_N.
  - intros t Hpos Ht. unfold div, of_N. rewrite !rnd_N by (try exact Ht; lia).
    unfold isZero. rewrite bool_decide_eq_false_2.
    + unfold Qcdiv. rewrite Qcmult_inv_r.
      * by rewrite <- Z2Qc_inj_1, (rnd_int 1).
      * rewrite <- Z2Qc_inj_0. intros H. apply Z2Qc_inj in H. lia.
    + rewrite <- Z2Qc_inj_0. intros H. apply Z2Qc_inj in H. lia.
  - intros n Hn. unfold round, of_N. rewrite rnd_N by exact Hn. by rewrite floor_half.
  - intros a b t Hab Hb Hpos Ht. unfold div, of_N, leb.
    rewrite (rnd_N a), (rnd_N b), (rnd_N t) by lia. unfold isZero. rewrite bool_decide_eq_false_2.
    + apply bool_decide_eq_true_2, rnd_mono. unfold Qcdiv.
      apply Qcmult_le_mono_nonneg_r.
      * apply Qclt_le_weak, Qcinv_pos. rewrite <- Z2Qc_inj_0.
        apply (proj1 (Z2Qc_inj_lt 0 (Z.of_N t))). lia.
      * apply (proj1 (Z2Qc_inj_le (Z.of_N a) (Z.of_N b))). lia.
    + rewrite <- Z2Qc_inj_0. intros H. apply Z2Qc_inj in H. lia.
  - intros x y Hxy. unfold of_N. rewrite rnd_int by lia.
    assert (H100 : isZero (Qc_of_Z (Z.of_N 100)) = false) by reflexivity.
    assert (Hn100 : isNeg (Qc_of_Z (Z.of_N 100)) = false) by reflexivity.
    destruct x as [p|[]|], y as [q|[]|]; simpl in *; try discriminate; try reflexivity;
      rewrite ?H100, ?Hn100; simpl; try reflexivity.
    apply bool_decide_eq_true in Hxy. apply bool_decide_eq_true_2, rnd_mono.
    apply Qcmult_le_mono_nonneg_r; [|exact Hxy].
    rewrite <- Z2Qc_inj_0. apply (proj1 (Z2Qc_inj_le 0 (Z.of_N 100))). lia.
  - intros x y Hxy.
    destruct x as [p|[]|], y as [q|[]|]; simpl in *; try discriminate; try reflexivity.
    apply bool_decide_eq_true in Hxy. apply bool_decide_eq_true_2.
    apply (proj1 (Z2Qc_inj_le _ _)), Qfloor_resp_le.
    apply (Qcplus_le_mono_r p q (Q2Qc (1 # 2))). exact Hxy.
Qed.

End RationalLaws.

(** The rationals rounded like binary64 satisfy the laws. *)
Lemma binary64_laws : @NumLaws Rational.xnum Rational.binary64.
Proof. apply laws; [exact binary64_rnd_mono|exact binary64_rnd_int]. Qed.

(** ** The events of a run that may be stopped, skipped or fail *)

Section PartialRuns.
Context {num : Type} {NO : NumOps num} {D : Type}.
Variable o : Oracle num D.
Implicit Types (s : St num D) (acts : list (Act num D)).

Lemma subPost_nil expected : subPost expected ([] : list (Act num D)).
Proof. exists []. split; [apply sublist_nil_l|constructor]. Qed.

Lemma subPost_app exp1 exp2 acts1 acts2 :
  subPost exp1 acts1 → subPost exp2 acts2 → subPost (exp1 ++ exp2) (acts1 ++ acts2).
Proof.
  intros (u1 & Hs1 & Hf1) (u2 & Hs2 & Hf2). exists (u1 ++ u2). split.
  - by apply sublist_app.
  - rewrite events_app. by apply Forall2_app.
Qed.

Lemma subPost_noEmit expected acts : events acts = [] → subPost expected acts.
Proof. intros H. exists []. rewrite H. split; [apply sublist_nil_l|constructor]. Qed.

Lemma subPost_weaken exp1 exp2 acts : sublist exp1 exp2 → subPost exp1 acts → subPost exp2 acts.
Proof. intros H (u & Hs & Hf). exists u. split; [by etrans|exact Hf]. Qed.

Section PartialLoops.
Variable sharing : bool.
Variable cnt seriesSizeV seriesCountV : N.
Variable delayV : num.
Variable forceGCV : bool.
Variable memV : option N.
Variable totalSteps : num.

Lemma runItem_sub item size shared cur s :
  post o (runItem o cnt seriesSizeV seriesCountV delayV forceGCV memV totalSteps
            item size shared cur) s (fun _ acts => subPost [(item, size)] acts).
Proof.
  eapply post_mono; [apply runItem_unit|]. intros r acts (_ & _ & H).
  unfold subPost. rewrite <- (flaggedEvents_events o s acts).
  destruct H as [[Hf _]|(flag & ev & Hf & _ & Hrep & _)]; rewrite Hf; simpl.
  - exists []. split; [apply sublist_nil_l|constructor].
  - exists [(item, size)]. split; [reflexivity|]. by constructor.
Qed.

Lemma post_bind_sub {A B} (m : M num D A) (k : A → M num D B) exp1 exp2 s :
  post o m s (fun _ acts => subPost exp1 acts) →
  (∀ a s', post o (k a) s' (fun _ acts => subPost exp2 acts)) →
  post o (bind m k) s (fun _ acts => subPost (exp1 ++ exp2) acts).
Proof.
  intros Hm Hk. apply post_bind. eapply post_mono; [exact Hm|].
  intros [a|e] acts1 H1.
  - eapply post_mono; [apply Hk|]. intros r acts2 H2. by apply subPost_app.
  - rewrite <- (app_nil_r acts1). apply subPost_app; [exact H1|apply subPost_nil].
Qed.

Lemma post_ifState_sub {A} cond (m1 m2 : M num D A) expected s :
  post o m1 s (fun _ acts => subPost expected acts) →
  post o m2 s (fun _ acts => subPost expected acts) →
  post o (ifState cond m1 m2) s (fun _ acts => subPost expected acts).
Proof. intros H1 H2. apply post_ifState. by destruct (cond (eng s)). Qed.

Lemma runItems_sub pathKey size shared items cur s :
  post o (runItems o cnt seriesSizeV seriesCountV delayV forceGCV memV totalSteps
            pathKey size shared items cur) s
    (fun _ acts => subPost (map (fun item => (item, size)) items) acts).
Proof.
  revert cur s. induction items as [|item rest IH]; intros cur s; simpl.
  - apply post_ret, subPost_nil.
  - apply post_ifState_sub; [apply post_ret, subPost_nil|].
    apply post_ifState_sub; [apply post_ret, subPost_nil|].
    apply (post_bind_sub _ _ [(item, size)]); [apply runItem_sub|]. intros c s'. apply IH.
Qed.

Lemma runSizes_sub pathKey items sizes cur s :
  post o (runSizes o sharing cnt seriesSizeV seriesCountV delayV forceGCV memV totalSteps
            pathKey items sizes cur) s
    (fun _ acts =>
       subPost (flat_map (fun size => map (fun item => (item, size)) items) sizes) acts).
Proof.
  revert cur s. induction sizes as [|size rest IH]; intros cur s; simpl.
  - apply post_ret, subPost_nil.
  - apply post_ifState_sub; [apply post_ret, subPost_nil|].
    apply post_ifState_sub; [apply post_ret, subPost_nil|].
    apply (post_bind_sub _ _ []).
    { assert (Hgen : samples o
        (match items with
         | firstItem :: _ =>
             if sharing && allUseSameGenerator items
             then let! shared := generateData o cnt (item_dataGenerator firstItem) size in
                  ret (Some shared)
             else ret None
         | [] => ret None
         end)).
      { destruct items; auto with samples. }
      eapply post_mono; [apply Hgen|]. intros r acts [He _]. by apply subPost_noEmit. }
    intros shared s'. simpl.
    apply post_bind_sub; [apply runItems_sub|]. intros c s''. apply IH.
Qed.

Lemma runGroups_sub plan sizes pathKeys cur s :
  post o (runGroups o sharing cnt seriesSizeV seriesCountV delayV forceGCV memV totalSteps
            plan sizes pathKeys cur) s
    (fun _ acts =>
       subPost (flat_map (fun pathKey =>
                  flat_map (fun size => map (fun item => (item, size)) (itemsOf plan pathKey))
                    sizes) pathKeys) acts).
Proof.
  revert cur s. induction pathKeys as [|pathKey rest IH]; intros cur s; simpl.
  - apply post_ret, subPost_nil.
  - apply post_ifState_sub; [apply post_ret, subPost_nil|].
    assert (Hrest : ∀ c s', post o
      (runGroups o sharing cnt seriesSizeV seriesCountV delayV forceGCV memV totalSteps
         plan sizes rest c) s'
      (fun _ acts => subPost
         (flat_map (fun size => map (fun item => (item, size)) (itemsOf plan pathKey)) sizes ++
          flat_map (fun pathKey =>
            flat_map (fun size => map (fun item => (item, size)) (itemsOf plan pathKey))
              sizes) rest) acts)).
    { intros c s'. eapply post_mono; [apply IH|]. intros r acts.
      apply subPost_weaken. apply sublist_inserts_l. reflexivity. }
    case_bool_decide; [apply Hrest|].
    apply post_ifState_sub; [apply Hrest|].
    apply post_bind_sub; [apply runSizes_sub|]. intros c s'. apply IH.
Qed.

End PartialLoops.

Lemma runWith_sub sharing (registry : Registry num) config s0 :
  subPost (expectedUnits (plan_unifiedItems (planOf registry config)) (sizesOf registry config))
    (actsOf (runWith o sharing registry config) s0).
Proof.
  destruct (runGroups_sub sharing (dataUnitsCountOf registry config)
              (seriesSizeOf registry config) (seriesCountOf registry config)
              (delayOf registry config) (forceGCOf registry config)
              (memoryMeasurementsCountOf registry config)
              (totalStepsOf (planOf registry config) (sizesOf registry config))
              (planOf registry config) (sizesOf registry config)
              (plan_allPathKeys (planOf registry config)) (n_of_N 0) (resetEngine s0))
    as (acts & Hs & Hsub).
  assert (Hacts : actsOf (runWith o sharing registry config) s0 = acts).
  { apply (actsOf_replay o _ s0 (resetEngine s0)); [reflexivity|].
    unfold runWith, bind. destruct (runGroups _ _ _ _ _ _ _ _ _ _ _ _ _) as [[c|e] s1]; exact Hs. }
  rewrite Hacts. unfold planOf in *. rewrite buildPlan_allPathKeys in Hsub.
  unfold expectedUnits. erewrite flat_map_ext'; [exact Hsub|].
  intros k. simpl. by rewrite buildPlan_itemsOf.
Qed.

End PartialRuns.

(** ** Progress values *)

Lemma sumN_app a b : sumN (a ++ b) = (sumN a + sumN b)%N.
Proof. induction a as [|x a IH]; simpl; [reflexivity|]. rewrite IH. lia. Qed.

Lemma sumN_sublist a b : sublist a b → (sumN a ≤ sumN b)%N.
Proof. induction 1; simpl; lia. Qed.

Lemma sublist_fmap_inv {A B} (f : A → B) l k :
  sublist l (map f k) → ∃ k', sublist k' k ∧ l = map f k'.
Proof.
  revert l. induction k as [|x k IH]; intros l H; simpl in H.
  - apply sublist_nil_r in H as ->. exists []. split; [constructor|reflexivity].
  - apply sublist_cons_r in H as [H|(l' & -> & H)].
    + destruct (IH _ H) as (k' & Hk & ->). exists k'. split; [by constructor|reflexivity].
    + destruct (IH _ H) as (k' & Hk & ->). exists (x :: k'). split; [by constructor|reflexivity].
Qed.

Lemma cumulative_lookup c zs i k :
  cumulative c zs !! i = Some k → k = (c + sumN (take (S i) zs))%N.
Proof.
  revert c i. induction zs as [|z zs IH]; intros c i H; [done|].
  destruct i as [|i]; simpl in *.
  - inversion H. lia.
  - apply IH in H. rewrite H. lia.
Qed.

Lemma cumulative_bound c zs i k :
  cumulative c zs !! i = Some k → (k ≤ c + sumN zs)%N.
Proof.
  intros H. apply cumulative_lookup in H as ->.
  pose proof (sumN_sublist _ _ (sublist_take zs (S i))). lia.
Qed.

Lemma cumulative_mono c zs i j x y :
  (i ≤ j)%nat → cumulative c zs !! i = Some x → cumulative c zs !! j = Some y → (x ≤ y)%N.
Proof.
  intros Hij Hx Hy. apply cumulative_lookup in Hx as ->. apply cumulative_lookup in Hy as ->.
  assert (H : sublist (take (S i) zs) (take (S j) zs)).
  { replace (take (S i) zs) with (take (S i) (take (S j) zs)); [apply sublist_take|].
    rewrite take_take. f_equal. lia. }
  apply sumN_sublist in H. lia.
Qed.

Lemma cumulative_last c zs : zs ≠ [] → last (cumulative c zs) = Some (c + sumN zs)%N.
Proof.
  revert c. induction zs as [|z zs IH]; intros c Hne; [done|].
  destruct zs as [|z' zs]; simpl.
  - f_equal. lia.
  - simpl in IH. rewrite IH by done. f_equal. lia.
Qed.

(** Every leaf belongs to exactly one group. *)
Lemma count_key_absent (ks : list (option string)) (k0 : option string) :
  k0 ∉ ks →
  sum_list (map (fun k => if bool_decide (k0 = k) then 1%nat else 0%nat) ks) = 0%nat.
Proof.
  induction ks as [|k ks IH]; intros Hk; [reflexivity|].
  simpl. apply not_elem_of_cons in Hk as [Hne Hk].
  rewrite bool_decide_eq_false_2 by exact Hne. by apply IH.
Qed.

Lemma count_key (ks : list (option string)) (k0 : option string) :
  NoDup ks → k0 ∈ ks →
  sum_list (map (fun k => if bool_decide (k0 = k) then 1%nat else 0%nat) ks) = 1%nat.
Proof.
  induction 1 as [|k ks Hk Hnd IH]; intros Hin; [by apply elem_of_nil in Hin|].
  simpl. destruct (decide (k0 = k)) as [->|Hne].
  - rewrite bool_decide_eq_true_2 by reflexivity. by rewrite count_key_absent.
  - rewrite bool_decide_eq_false_2 by exact Hne.
    apply elem_of_cons in Hin as [?|Hin]; [done|]. by apply IH.
Qed.

Lemma leavesOf_partition (unified : list UnifiedItem) (ks : list (option string)) :
  NoDup ks → (∀ item, item ∈ unified → ui_pathKey item ∈ ks) →
  sum_list (map (fun k => length (leavesOf unified k)) ks) = length unified.
Proof.
  intros Hnd. induction unified as [|item rest IH]; intros Hin.
  - clear. induction ks as [|k ks IHk]; [reflexivity|]. exact IHk.
  - transitivity
      (sum_list (map (fun k => if bool_decide (ui_pathKey item = k) then 1%nat else 0%nat) ks)
       + sum_list (map (fun k => length (leavesOf rest k)) ks))%nat.
    + clear. induction ks as [|k ks IHk]; [reflexivity|].
      cbn [map sum_list_with id]. rewrite IHk. unfold leavesOf at 1. cbn [List.filter].
      destruct (bool_decide _); cbn [length]; unfold leavesOf; lia.
    + rewrite count_key; [|exact Hnd|apply Hin; left]. simpl. f_equal. apply IH.
      intros x Hx. apply Hin. by right.
Qed.

Lemma leaves_count (unified : list UnifiedItem) :
  sum_list (map (fun k => length (leavesOf unified k))
              (firstAppearance (map ui_pathKey unified))) = length unified.
Proof.
  apply leavesOf_partition; [apply firstAppearance_NoDup|].
  intros item Hin. apply firstAppearance_elem. by apply list_elem_of_fmap_2.
Qed.

Lemma expectedUnits_fmap {A B} (f : A → B) (unified : list UnifiedItem) (zs : list A) :
  expectedUnits unified (map f zs)
  = map (fun unit : UnifiedItem * A => (unit.1, f unit.2)) (expectedUnits unified zs).
Proof.
  unfold expectedUnits. induction (firstAppearance _) as [|k ks IH]; [reflexivity|].
  simpl. rewrite map_app, IH. f_equal. clear.
  induction zs as [|z zs IH]; [reflexivity|]. simpl. rewrite map_app, IH. f_equal.
  rewrite map_map. reflexivity.
Qed.

Lemma sumN_const {A} (l : list A) (z : N) :
  sumN (map snd (map (fun x : A => (x, z)) l)) = (N.of_nat (length l) * z)%N.
Proof.
  induction l as [|x l IH]; [reflexivity|].
  cbn [map sumN snd length]. rewrite IH. lia.
Qed.

Lemma expectedUnits_sum (unified : list UnifiedItem) (zs : list N) :
  sumN (map snd (expectedUnits unified zs)) = (N.of_nat (length unified) * sumN zs)%N.
Proof.
  rewrite <- (leaves_count unified). unfold expectedUnits.
  induction (firstAppearance _) as [|k ks IH]; [reflexivity|].
  simpl. rewrite map_app, sumN_app, IH.
  assert (H : sumN (map snd (flat_map (fun dataSize : N =>
                map (fun item => (item, dataSize)) (leavesOf unified k)) zs))
              = (N.of_nat (length (leavesOf unified k)) * sumN zs)%N).
  { clear. induction zs as [|z zs IH]; simpl; [lia|]. rewrite map_app, sumN_app, IH.
    rewrite sumN_const. lia. }
  rewrite H. lia.
Qed.

Section Progress.
Context {num : Type} {NO : NumOps num} {NL : NumLaws num} {D : Type}.

Lemma sumOf_from (a : N) (zs : list N) :
  (a + sumN zs ≤ 2 ^ 53)%N →
  fold_left n_add (map n_of_N zs) (n_of_N a) = n_of_N (a + sumN zs)%N.
Proof.
  revert a. induction zs as [|z zs IH]; intros a H; simpl in *.
  - f_equal. lia.
  - rewrite add_exact by lia. rewrite IH by lia. f_equal. lia.
Qed.

Lemma sumOf_exact (zs : list N) :
  (sumN zs ≤ 2 ^ 53)%N → sumOf (map n_of_N zs) = n_of_N (sumN zs).
Proof. intros H. unfold sumOf. by rewrite sumOf_from. Qed.

Lemma progressOf_mono (a b t : N) :
  (a ≤ b)%N → (b ≤ 2 ^ 53)%N → (0 < t)%N → (t ≤ 2 ^ 53)%N →
  n_leb (progressOf (n_of_N a) (n_of_N t)) (progressOf (n_of_N b) (n_of_N t)) = true.
Proof.
  intros. unfold progressOf. apply round_mono, mul_mono, div_mono; assumption.
Qed.

Lemma progressOf_full (t : N) :
  (0 < t)%N → (t ≤ 2 ^ 53)%N → progressOf (n_of_N t) (n_of_N t) = n_of_N 100.
Proof.
  intros. unfold progressOf. rewrite div_self by assumption.
  rewrite mul_exact by (vm_compute; discriminate). apply round_exact. vm_compute; discriminate.
Qed.

(** The progress values of a chain of events with natural-number sizes. *)
Lemma progressChain_exact total (c : N) (evs : list (ProgressEvent num)) (ws : list N) :
  progressChain total (n_of_N c) evs →
  map ev_dataSize evs = map n_of_N ws →
  (c + sumN ws ≤ 2 ^ 53)%N →
  Forall2 (fun ev k => ev_progress ev = progressOf (n_of_N k) total) evs (cumulative c ws).
Proof.
  revert c ws. induction evs as [|ev evs IH]; intros c ws Hc Hs Hb;
    destruct ws as [|w ws]; try discriminate; simpl in *; [constructor|].
  injection Hs as Hw Hs. destruct Hc as [Hp Hc]. rewrite Hw in Hp, Hc.
  rewrite add_exact in Hp, Hc by lia. constructor; [exact Hp|].
  apply IH; [exact Hc|exact Hs|lia].
Qed.

Lemma totalSteps_from (S a : N) (lens : list nat) :
  (S ≤ 2 ^ 53)%N → (N.of_nat (sum_list lens) ≤ 2 ^ 53)%N →
  (a + S * N.of_nat (sum_list lens) ≤ 2 ^ 53)%N →
  fold_left (fun totalSteps len =>
               n_add totalSteps (n_mul (n_of_N S) (n_of_N (N.of_nat len)))) lens (n_of_N a)
  = n_of_N (a + S * N.of_nat (sum_list lens))%N.
Proof.
  intros HS. revert a. induction lens as [|len lens IH]; intros a Hl Hb; simpl in *.
  - f_equal. lia.
  - rewrite mul_exact by nia. rewrite add_exact by nia. rewrite IH by nia. f_equal. nia.
Qed.

(** The total of the run is the number of leaves times the sum of the data sizes. *)
Lemma totalStepsOf_exact (registry : Registry num) config (zs : list N) :
  sizesOf registry config = map n_of_N zs →
  let leaves := N.of_nat (length (plan_unifiedItems (planOf registry config))) in
  (sumN zs ≤ 2 ^ 53)%N → (leaves ≤ 2 ^ 53)%N → (leaves * sumN zs ≤ 2 ^ 53)%N →
  totalStepsOf (planOf registry config) (sizesOf registry config)
  = n_of_N (leaves * sumN zs)%N.
Proof.
  intros Hsizes leaves HS HL Hb. subst leaves.
  unfold totalStepsOf. rewrite Hsizes, sumOf_exact by exact HS.
  unfold planOf in *. rewrite buildPlan_allPathKeys.
  set (plan := buildPlan _ _ _ _) in *.
  rewrite <- (leaves_count (plan_unifiedItems plan)) in *.
  set (ks := firstAppearance _) in *.
  transitivity (fold_left (fun totalSteps len =>
      n_add totalSteps (n_mul (n_of_N (sumN zs)) (n_of_N (N.of_nat len))))
    (map (fun k => length (leavesOf (plan_unifiedItems plan) k)) ks) (n_of_N 0)).
  - clear. generalize (n_of_N 0). induction ks as [|k ks IH]; intros acc; [reflexivity|].
    simpl. rewrite <- IH. subst plan. by rewrite buildPlan_itemsOf.
  - rewrite totalSteps_from by lia. f_equal. lia.
Qed.

End Progress.

Section ProgressRun.
Context {num : Type} {NO : NumOps num} {NL : NumLaws num} {D : Type}.
Variable o : Oracle num D.

(** The progress values of events that report units of work with
    natural-number sizes of at most [2^53] in sum. *)
Lemma reported_progress total (evs : list (ProgressEvent num))
    (unitsN : list (UnifiedItem * N)) :
  progressChain total (n_of_N 0) evs →
  Forall2 reports evs (map (fun unit : UnifiedItem * N => (unit.1, n_of_N unit.2)) unitsN) →
  (sumN (map snd unitsN) ≤ 2 ^ 53)%N →
  Forall2 (fun ev k => ev_progress ev = progressOf (n_of_N k) total) evs
    (cumulative 0 (map snd unitsN)).
Proof.
  intros Hchain Hrep Hb. apply progressChain_exact; [exact Hchain| |lia].
  clear -Hrep. revert evs Hrep. induction unitsN as [|u us IH]; intros evs Hrep.
  - by inversion Hrep.
  - inversion Hrep as [|ev ? evs' ? Hev Hrest]; subst. simpl. f_equal.
    + by destruct Hev as (_ & _ & ? & _).
    + by apply IH.
Qed.


End ProgressRun.

Lemma quietEnv_rational_quiet : quiet RationalScenarios.quietEnv.
Proof. intros i a. destruct a as [g size|f [d|]| | | | | |ev]; split; reflexivity. Qed.



(** The rationals rounded like binary64 compute, for this run, the progress
    values that binary64 computes. *)
Lemma progress_of_rationals_rounded :
  map (fun ev => (Rational.value (ev_dataSize ev), Rational.value (ev_progress ev)))
    (eventsOf (runMeasurements (NO := Rational.binary64) RationalScenarios.quietEnv
                 RationalScenarios.registryOne RationalScenarios.configProgress)
       RationalScenarios.idle)
  = [(Some 29%Q, Some 14%Q); (Some 171%Q, Some 100%Q)].
Proof. vm_compute. reflexivity. Qed.

(** ** The sampler *)

Section Sampler.
Context {num : Type} {NO : NumOps num} {D : Type}.
Variable o : Oracle num D.

Lemma seriesCalls_S fn (data : list D) i0 n :
  seriesCalls (num := num) fn data i0 (S n)
  = AFn fn (cyclicDatum data (uint32 (N.of_nat (length data))) i0)
    :: seriesCalls fn data (N.succ i0) n.
Proof.
  unfold seriesCalls. simpl. rewrite N.add_0_r. f_equal.
  rewrite <- seq_shift, map_map. apply map_ext. intros i. do 2 f_equal. lia.
Qed.

Lemma post_seriesCalls fn (data : list D) i0 n s :
  post o (forPush (fun i => callFn o fn
                     (cyclicDatum data (uint32 (N.of_nat (length data))) i)) i0 n) s
    (fun r acts => acts `prefix_of` seriesCalls fn data i0 n ∧
                   (∀ xs, r = Ok xs → acts = seriesCalls fn data i0 n)).
Proof.
  revert i0 s. induction n as [|n IH]; intros i0 s.
  - apply post_ret. split; [reflexivity|done].
  - cbn [forPush]. rewrite seriesCalls_S. apply post_bind. unfold callFn.
    apply post_bind, post_call; [reflexivity|].
    destruct (r_throw _) as [e|].
    + split; [|done]. by apply prefix_cons, prefix_nil.
    + apply post_ret. rewrite app_nil_r. apply post_bind.
      eapply post_mono; [apply IH|]. intros [xs|e] acts [Hpre Hall].
      * apply post_ret. rewrite app_nil_r. split; [by apply prefix_cons|].
        intros ? _. f_equal. by apply (Hall xs).
      * split; [by apply prefix_cons|done].
Qed.

Lemma cyclicDatum_nth (data : list D) (i : nat) :
  (N.of_nat (length data) < 2 ^ 32)%N →
  cyclicDatum data (uint32 (N.of_nat (length data))) (N.of_nat i)
  = if (length data =? 0)%nat then None else data !! (i mod length data)%nat.
Proof.
  intros Hlen. unfold cyclicDatum, uint32.
  change 4294967296%N with (2 ^ 32)%N. rewrite N.mod_small by exact Hlen.
  destruct (length data) as [|k] eqn:E; [reflexivity|].
  replace (N.of_nat (S k) =? 0)%N with false by (symmetry; apply N.eqb_neq; lia).
  simpl Nat.eqb. cbv iota. f_equal.
  rewrite <- Nat2N.inj_mod. by rewrite Nat2N.id.
Qed.

Lemma measureSeries_post (seriesSize : N) (data : list D) (fn : FnId) s :
  post o (measureSeries o seriesSize data fn) s
    (fun r acts =>
       acts `prefix_of` seriesTranscript seriesSize data fn ∧
       ∀ d, r = Ok d →
         acts = seriesTranscript seriesSize data fn ∧
         d = n_sub (r_num (o (length (trace s) +
                              S (N.to_nat (seriesSize mod 2 ^ 32)%N))%nat ATime))
               (r_num (o (length (trace s)) ATime))).
Proof.
  unfold measureSeries, seriesTranscript, getTime.
  apply post_bind, post_probe; [reflexivity|]. apply post_bind.
  eapply post_mono; [apply post_seriesCalls|]. intros [xs|e] acts [Hpre Hall].
  - rewrite (Hall xs eq_refl). apply post_bind, post_probe; [reflexivity|].
    apply post_ret. rewrite app_nil_r. split; [reflexivity|]. intros d Hd.
    split; [reflexivity|]. injection Hd as <-. do 2 f_equal.
    rewrite replay_trace, !length_app. unfold seriesCalls.
    rewrite length_map, length_seq. simpl. unfold uint32.
    change 4294967296%N with (2 ^ 32)%N. f_equal. rewrite length_app. simpl. lia.
  - split; [|done]. apply prefix_cons. by apply prefix_app_r.
Qed.

(** X1. [measureSeries] reads the clock, calls the function
    [seriesSize mod 2^32] times, the [i]-th time on [data[i mod length]]
    (on [undefined] when the data array is empty), and reads the clock
    again; it returns the difference of the two readings. When a call throws
    the series ends with that call. The length of a JavaScript array is
    below 2^32. *)
Theorem measureSeries_transcript (seriesSize : N) (data : list D) (fn : FnId)
    (s : St num D) :
  (N.of_nat (length data) < 2 ^ 32)%N →
  let run := measureSeries o seriesSize data fn in
  let n := N.to_nat (seriesSize mod 2 ^ 32)%N in
  let calls : list (Act num D) :=
    map (fun i => AFn fn (if (length data =? 0)%nat then None
                          else data !! (i mod length data)%nat)) (seq 0 n) in
  actsOf run s `prefix_of` (ATime :: calls ++ [ATime]) ∧
  throwsLast o (length (trace s)) (actsOf run s) (outcome (run s).1) ∧
  match (run s).1 with
  | Ok duration =>
      actsOf run s = ATime :: calls ++ [ATime] ∧
      duration = n_sub (r_num (o (length (trace s) + S n)%nat ATime))
                   (r_num (o (length (trace s)) ATime))
  | Throw _ => True
  end.
Proof.
  intros Hlen run n calls.
  assert (H : post o run s (fun r acts =>
            (acts `prefix_of` seriesTranscript seriesSize data fn ∧
             ∀ d, r = Ok d → acts = seriesTranscript seriesSize data fn ∧
                  d = n_sub (r_num (o (length (trace s) + S n)%nat ATime))
                        (r_num (o (length (trace s)) ATime))) ∧
            sampled o s (outcome r) acts)).
  { apply post_and; [apply measureSeries_post|apply samples_measureSeries]. }
  destruct H as (acts & Hs & (Hpre & Hok) & (_ & Hthrow)).
  rewrite (actsOf_replay o run s s acts eq_refl Hs).
  assert (HT : seriesTranscript (num := num) seriesSize data fn = ATime :: calls ++ [ATime]).
  { unfold seriesTranscript, seriesCalls, calls. do 2 f_equal.
    change (N.to_nat (uint32 seriesSize)) with n. apply map_ext. intros i.
    rewrite N.add_0_l. f_equal. by apply cyclicDatum_nth. }
  rewrite <- HT. split; [exact Hpre|]. split; [exact Hthrow|].
  destruct (run s).1 as [d|e]; [by apply Hok|done].
Qed.

End Sampler.

Lemma measureSeries_transcript_witness :
  let data := [1%float; 2%float] in
  let run := measureSeries Scenarios.quietEnv 3 data 7%nat in
  (N.of_nat (length data) < 2 ^ 32)%N ∧
  actsOf run Scenarios.idle
  = [ATime; AFn 7%nat (Some 1%float); AFn 7%nat (Some 2%float); AFn 7%nat (Some 1%float);
     ATime].
Proof.
  intros data run.
  assert (Hlen : (N.of_nat (length data) < 2 ^ 32)%N) by (vm_compute; reflexivity).
  split; [exact Hlen|].
  pose proof (measureSeries_transcript Scenarios.quietEnv 3 data 7%nat Scenarios.idle Hlen)
    as (_ & _ & H).
  fold run in H. destruct (run Scenarios.idle).1 as [d|e] eqn:E.
  - destruct H as [H _]. exact H.
  - vm_compute in E. discriminate E.
Defined.

(** ** The series loop *)

Section SeriesLoop.
Context {num : Type} {NO : NumOps num} {D : Type}.
Variable o : Oracle num D.
Implicit Types (s : St num D) (acts : list (Act num D)).

Lemma series_post seriesSize (func : RegisteredFunction) (dataArray : list D) s :
  post o (if default false (rf_isAsync func)
          then measureSeriesAsync o seriesSize dataArray (rf_fn func)
          else measureSeries o seriesSize dataArray (rf_fn func)) s
    (fun r acts =>
       let t := seriesTranscript seriesSize dataArray (rf_fn func) ++
                (if default false (rf_isAsync func) then [AAwait] else []) in
       acts `prefix_of` t ∧ ∀ d, r = Ok d → acts = t).
Proof.
  destruct (default false (rf_isAsync func)).
  - unfold measureSeriesAsync. apply post_bind.
    eapply post_mono; [apply measureSeries_post|]. intros [d|e] acts [Hpre Hok].
    + destruct (Hok d eq_refl) as [-> _].
      apply post_bind, post_suspend; [reflexivity|]. apply post_ret.
      rewrite app_nil_r. by split.
    + split; [by apply prefix_app_r|done].
  - eapply post_mono; [apply measureSeries_post|]. intros r acts [Hpre Hok].
    rewrite app_nil_r. split; [exact Hpre|]. intros d Hd. by destruct (Hok d Hd).
Qed.

Lemma seriesLoop_blocks seriesSizeV (delayV : num) forceGCV func (dataArray : list D) n ds s :
  post o (seriesLoop o seriesSizeV delayV forceGCV func dataArray n ds) s
    (fun r acts =>
       let block := seriesBlock seriesSizeV delayV forceGCV func dataArray in
       acts `prefix_of` concat (replicate n block) ∧
       ∀ ds', r = Ok ds' →
         ∃ more, ds' = ds ++ more ∧ acts = concat (replicate (length more) block)).
Proof.
  revert ds s. induction n as [|n IH]; intros ds s; simpl.
  - apply post_ret. split; [reflexivity|]. intros ds' [= <-]. exists [].
    by rewrite app_nil_r.
  - apply post_ifState. destruct (stopRequested (eng s)).
    { apply post_ret. split; [apply prefix_nil|]. intros ds' [= <-]. exists [].
      by rewrite app_nil_r. }
    set (block := seriesBlock seriesSizeV delayV forceGCV func dataArray) in *.
    set (g := if forceGCV then [AGC] else [] : list (Act num D)).
    set (t := seriesTranscript (num := num) seriesSizeV dataArray (rf_fn func) ++
              (if default false (rf_isAsync func) then [AAwait] else [])).
    assert (Hb : block = g ++ t ++ [ADelay delayV]).
    { unfold block, seriesBlock, t. by rewrite <- !app_assoc. }
    assert (Hcons : ∀ l, block ++ l = g ++ t ++ [ADelay delayV] ++ l).
    { intros l. by rewrite Hb, <- !app_assoc. }
    clear Hb. apply post_bind.
    assert (Hgc : post o (if forceGCV then runGC o else ret tt) s
                    (fun r acts => r = Ok tt ∧ acts = g)).
    { unfold g. destruct forceGCV; [|by apply post_ret].
      unfold runGC. apply post_bind, post_probe; [reflexivity|]. by apply post_ret. }
    eapply post_mono; [exact Hgc|]. intros r acts1 [-> ->].
    apply post_bind. eapply post_mono; [apply series_post|].
    intros [duration|e] acts2 [Hpre Hok].
    + rewrite (Hok duration eq_refl). fold t.
      apply post_bind, post_suspend; [reflexivity|].
      eapply post_mono; [apply IH|]. intros r acts4 H. cbv zeta in H.
      destruct H as [Hpre4 Hok4]. split.
      * rewrite Hcons. apply prefix_app, prefix_app, prefix_app. exact Hpre4.
      * intros ds' Hr. destruct (Hok4 ds' Hr) as (more & -> & ->).
        exists (duration :: more). rewrite <- app_assoc. split; [reflexivity|].
        change (concat (replicate (length (duration :: more)) block))
          with (block ++ concat (replicate (length more) block)).
        by rewrite Hcons.
    + split; [|done]. fold t in Hpre. rewrite Hcons.
      apply prefix_app. by apply prefix_app_r.
Qed.

(** X19. The series loop of a measure leaf repeats one block of
    interactions: the garbage collection when [forceGC] is set, the clock,
    the calls of the function, the clock, the [await] of an async function
    and the delay, which follows every series, the last one too. Whatever
    the environment does, the interactions of the loop are a prefix of
    [seriesCount] such blocks; when the loop returns, they are one block
    for each duration that it returns, and there are [seriesCount] of them
    unless the run is being stopped. *)
Theorem series_loop_transcript (seriesSizeV seriesCountV : N) (delayV : num) (forceGCV : bool)
    (func : RegisteredFunction) (dataArray : list D) (s : St num D) :
  let run := seriesLoop o seriesSizeV delayV forceGCV func dataArray
               (N.to_nat seriesCountV) [] in
  let block : list (Act num D) :=
    (if forceGCV then [AGC] else []) ++
    (ATime :: map (fun i => AFn (rf_fn func)
                              (cyclicDatum dataArray (uint32 (N.of_nat (length dataArray)))
                                 (N.of_nat i)))
                (seq 0 (N.to_nat (seriesSizeV mod 2 ^ 32)%N)) ++ [ATime]) ++
    (if default false (rf_isAsync func) then [AAwait] else []) ++
    [ADelay delayV] in
  actsOf run s `prefix_of` concat (replicate (N.to_nat seriesCountV) block) ∧
  match (run s).1 with
  | Ok durations =>
      actsOf run s = concat (replicate (length durations) block) ∧
      (length durations ≤ N.to_nat seriesCountV)%nat ∧
      (stopRequested (eng (run s).2) = false → length durations = N.to_nat seriesCountV)
  | Throw _ => True
  end.
Proof.
  intros run block.
  assert (Hb : block = seriesBlock seriesSizeV delayV forceGCV func dataArray) by reflexivity.
  destruct (post_and o run s _ _
              (seriesLoop_blocks seriesSizeV delayV forceGCV func dataArray
                 (N.to_nat seriesCountV) [] s)
              (seriesLoop_length o seriesSizeV delayV forceGCV func dataArray
                 (N.to_nat seriesCountV) [] s))
    as (acts & Hs & [Hpre Hok] & Hlen).
  rewrite (actsOf_replay o run s s acts eq_refl Hs), Hb. split; [exact Hpre|].
  destruct (run s).1 as [durations|e] eqn:E; [|done].
  destruct (Hok durations eq_refl) as (more & Hmore & Hacts). simpl in Hmore. subst more.
  destruct (Hlen durations eq_refl) as (more & Hmore & Hle & Hfull). simpl in Hmore.
  subst more. split; [exact Hacts|]. split; [exact Hle|]. by rewrite Hs.
Qed.

End SeriesLoop.

(** ** Memory samples *)

Section FloatFacts.
Import PrimFloat.

Lemma ltb_leb (x y : float) : (x <? y)%float = true → (x <=? y)%float = true.
Proof.
  rewrite FloatAxioms.ltb_spec, FloatAxioms.leb_spec. unfold SFltb, SFleb.
  by destruct (SFcompare _ _) as [[]|].
Qed.

(** [Math.max(0, x)] is not below zero: it is NaN or it is at least 0. *)
Lemma max2_zero_nonneg (x : float) :
  let m := Float64.max2 0%float x in
  is_nan m = true ∨ (0 <=? m)%float = true.
Proof.
  unfold Float64.max2. destruct (is_nan 0 || is_nan x) eqn:En; [by left|].
  destruct (0 <? x)%float eqn:E1; [right; by apply ltb_leb|].
  destruct (x <? 0)%float eqn:E2; [by right|].
  by right.
Qed.

End FloatFacts.

Section Memory.
Context {num : Type} {NO : NumOps num} {D : Type}.
Variable o : Oracle num D.

Lemma post_forPush_Forall {A} (body : N → M num D A) (P : A → Prop) i0 n s :
  (∀ i s', post o (body i) s' (fun r _ => ∀ x, r = Ok x → P x)) →
  post o (forPush body i0 n) s
    (fun r _ => ∀ xs, r = Ok xs → length xs = n ∧ Forall P xs).
Proof.
  intros Hbody. revert i0 s. induction n as [|n IH]; intros i0 s.
  - apply post_ret. intros xs Hxs. injection Hxs as <-. by split.
  - cbn [forPush]. apply post_bind. eapply post_mono; [apply Hbody|].
    intros [x|e] acts1 Hx; [|done]. apply post_bind.
    eapply post_mono; [apply IH|]. intros [xs|e] acts2 Hxs; [|done].
    apply post_ret. intros ? Heq. injection Heq as <-.
    destruct (Hxs xs eq_refl) as [Hlen Hall]. split; [simpl; by rewrite Hlen|].
    constructor; [by apply Hx|exact Hall].
Qed.

Lemma measureSeriesMemory_values count (data : list D) fn s :
  post o (measureSeriesMemory o count data fn) s
    (fun r _ => ∀ memories, r = Ok memories →
       length memories = N.to_nat (count mod 2 ^ 32)%N ∧
       Forall (fun m => ∃ d, m = n_max2 (n_of_N 0) d) memories).
Proof.
  unfold measureSeriesMemory. apply post_forPush_Forall. intros i s'.
  unfold runGC, getMemoryUsage, callFn.
  apply post_bind, post_bind, post_probe; [reflexivity|].
  apply post_ret, post_bind, post_probe; [reflexivity|].
  apply post_bind, post_bind, post_call; [reflexivity|].
  destruct (r_throw _); [done|].
  apply post_ret, post_bind, post_probe; [reflexivity|].
  apply post_ret. intros x Hx. injection Hx as <-. eauto.
Qed.

End Memory.

(** X2. The memory samples of [measureSeriesMemory] are never negative: there
    are [memoryMeasurementsCount mod 2^32] of them, and each is
    [Math.max(0, endMemory - startMemory)], which is NaN or at least 0. *)
Theorem memory_samples_nonnegative {D} (o : Oracle float D) (count : N) (data : list D)
    (fn : FnId) (s : St float D) :
  match (measureSeriesMemory o count data fn s).1 with
  | Ok memories =>
      length memories = N.to_nat (count mod 2 ^ 32)%N ∧
      Forall (fun m => PrimFloat.is_nan m = true ∨ PrimFloat.leb 0%float m = true) memories
  | Throw _ => True
  end.
Proof.
  destruct (measureSeriesMemory_values o count data fn s) as (acts & _ & H).
  destruct (measureSeriesMemory o count data fn s).1 as [memories|e]; [|done].
  destruct (H memories eq_refl) as [Hlen Hall]. split; [exact Hlen|].
  eapply Forall_impl; [exact Hall|]. intros m [d ->]. apply max2_zero_nonneg.
Qed.

(** ** Runs without work *)

Section NoWork.
Context {num : Type} {NO : NumOps num} {D : Type}.
Variable o : Oracle num D.

Lemma runGroups_no_sizes sharing cnt seriesSizeV seriesCountV (delayV : num) forceGCV memV
    (totalSteps : num) plan pathKeys (cur : num) (s : St num D) :
  runGroups o sharing cnt seriesSizeV seriesCountV delayV forceGCV memV totalSteps
    plan [] pathKeys cur s = (Ok cur, s).
Proof.
  induction pathKeys as [|pathKey rest IH]; simpl; [reflexivity|].
  unfold ifState. destruct (stopRequested (eng s)); [reflexivity|].
  case_bool_decide; [exact IH|].
  destruct (isSkipped pathKey (eng s)); [exact IH|].
  unfold bind. simpl. exact IH.
Qed.

(** X3. A run without work completes at once: when the list of data sizes
    is empty, or when no leaf is left after the selection, [runMeasurements]
    returns normally without a single interaction: no generator or function
    is called, the clock is not read and no event is delivered, so no
    progress value is ever computed from the total 0. *)
Theorem run_without_work (registry : Registry num) (config : MeasurementConfig num)
    (s0 : St num D) :
  sizesOf registry config = [] ∨ plan_unifiedItems (planOf registry config) = [] →
  runMeasurements o registry config s0 = (Ok tt, resetEngine s0) ∧
  actsOf (runMeasurements o registry config) s0 = [].
Proof.
  intros H.
  assert (Hrun : runMeasurements o registry config s0 = (Ok tt, resetEngine s0)).
  { unfold runMeasurements, runWith, bind. destruct H as [H|H].
    - rewrite H. by rewrite runGroups_no_sizes.
    - unfold planOf in *. rewrite buildPlan_allPathKeys, H. reflexivity. }
  split; [exact Hrun|]. unfold actsOf. rewrite Hrun. simpl. apply drop_all.
Qed.

End NoWork.

Lemma run_without_work_witness :
  let config := Scenarios.config [] 5 1 1 in
  (sizesOf Scenarios.registryA config = [] ∨
   plan_unifiedItems (planOf Scenarios.registryA config) = []) ∧
  runMeasurements Scenarios.throwEnvE Scenarios.registryA config Scenarios.idle
  = (Ok tt, resetEngine Scenarios.idle) ∧
  actsOf (runMeasurements Scenarios.throwEnvE Scenarios.registryA config) Scenarios.idle = [].
Proof.
  intros config.
  assert (H : sizesOf Scenarios.registryA config = [] ∨
              plan_unifiedItems (planOf Scenarios.registryA config) = [])
    by (left; reflexivity).
  split; [exact H|].
  exact (run_without_work Scenarios.throwEnvE Scenarios.registryA config Scenarios.idle H).
Defined.

(** ** The legacy skip *)

Lemma append_head_neq (a b : Ascii.ascii) (s t u : string) :
  a ≠ b → (u ++ String a s)%string ≠ (u ++ String b t)%string.
Proof.
  intros Hne. induction u as [|c u IH]; simpl; intros H; injection H; [done|exact IH].
Qed.

(** X5. The legacy [skipSubGroup(group, subGroup)] adds the key
    [group-subGroup] to the skip set, which is not the key that
    [runMeasurements] looks up for the leaves below [group > subGroup]: the
    owner path key of these leaves is as skipped after the call as it was
    before. *)
Theorem skipSubGroup_misses_path_key (group subGroup title : string) (e : EngineState) :
  keyPath [group; subGroup; title] = Some (group ++ " > " ++ subGroup)%string ∧
  isSkipped (keyPath [group; subGroup; title]) (skipSubGroup group subGroup e)
  = isSkipped (keyPath [group; subGroup; title]) e ∧
  isSkipped (Some (group ++ "-" ++ subGroup)%string) (skipSubGroup group subGroup e) = true.
Proof.
  assert (Hk : keyPath [group; subGroup; title] = Some (group ++ " > " ++ subGroup)%string)
    by reflexivity.
  split; [exact Hk|]. rewrite Hk. unfold skipSubGroup, skipPathKey, isSkipped. simpl.
  split.
  - apply bool_decide_ext. rewrite elem_of_union, elem_of_singleton.
    split; [|by right]. intros [H|H]; [|exact H]. exfalso.
    change (group ++ " > " ++ subGroup)%string
      with (group ++ String (Ascii.ascii_of_nat 32) ("> " ++ subGroup))%string in H.
    change (group ++ "-" ++ subGroup)%string
      with (group ++ String (Ascii.ascii_of_nat 45) ("" ++ subGroup))%string in H.
    revert H. apply
      (append_head_neq (Ascii.ascii_of_nat 32) (Ascii.ascii_of_nat 45)).
    done.
  - apply bool_decide_eq_true_2. apply elem_of_union. left. by apply elem_of_singleton.
Qed.

(** ** A series count of zero *)

Section NaN.
Import PrimFloat.

Lemma SFcompare_refl (x : spec_float) : x ≠ S754_nan → SFcompare x x = Some Eq.
Proof.
  destruct x as [s|s| |s m e]; intros H; try done; simpl.
  - by destruct s.
  - destruct s; rewrite Z.compare_refl, Pos.compare_cont_refl; reflexivity.
Qed.

Lemma is_nan_spec (x : float) : is_nan x = true ↔ Prim2SF x = S754_nan.
Proof.
  unfold is_nan. rewrite FloatAxioms.eqb_spec. unfold SFeqb. split.
  - intros H. destruct (Prim2SF x) as [s|s| |s m e] eqn:E; try reflexivity;
      by rewrite SFcompare_refl in H.
  - intros ->. reflexivity.
Qed.

Lemma div_nan_l (x y : float) : is_nan x = true → is_nan (x / y) = true.
Proof.
  rewrite !is_nan_spec, FloatAxioms.div_spec. intros ->. reflexivity.
Qed.

Lemma div_nan_r (x y : float) : is_nan y = true → is_nan (x / y) = true.
Proof.
  rewrite !is_nan_spec, FloatAxioms.div_spec. intros ->. unfold SF64div, SFdiv.
  by destruct (Prim2SF x).
Qed.

End NaN.

Section ZeroSeries.
Context {D : Type}.
Variable o : Oracle float D.

(** X4. A series count of zero does not suppress the events: in a run in
    which nothing is stopped, skipped or thrown every unit of work (leaf,
    data size) still delivers its event, and in every run the result of a
    measure leaf then has an empty list of series and the average duration
    0/0 divided by the series size, which is NaN, as is the throughput
    computed from it. *)
Theorem zero_series_still_reports (registry : Registry float)
    (config : MeasurementConfig float) (s0 : St float D) :
  seriesCountOf registry config = 0%N →
  let evs := eventsOf (runMeasurements o registry config) s0 in
  (quiet o →
   Forall2 reports evs
     (expectedUnits (plan_unifiedItems (planOf registry config)) (sizesOf registry config))) ∧
  Forall (fun ev => ∀ r, ev_result ev = Some r →
            mr_series r = [] ∧
            PrimFloat.is_nan (mr_duration r) = true ∧
            PrimFloat.is_nan (mr_avg r) = true ∧
            PrimFloat.is_nan (mr_opsPerSecond r) = true) evs.
Proof.
  intros Hzero evs. split.
  - intros Hquiet.
    destruct (runWith_quiet o true registry config s0 Hquiet) as (acts & Hrun & Hrep & _).
    subst evs. unfold eventsOf.
    by rewrite (actsOf_ext (runMeasurements o registry config) s0 (resetEngine s0) tt acts
                  eq_refl Hrun).
  - destruct (runWith_general o true registry config s0) as (acts & Hs & _ & _ & Hall & _).
    subst evs. unfold eventsOf.
    rewrite (actsOf_replay o (runMeasurements o registry config) s0 (resetEngine s0) acts
               eq_refl Hs).
    rewrite <- (flaggedEvents_events o (resetEngine s0) acts).
    apply Forall_fmap. eapply Forall_impl; [exact Hall|].
    intros [flag ev] (cur0 & item & size & _ & _ & Hstats) r Hr. simpl in *.
    destruct (Hstats r Hr) as (durations & (Hser & Hdur & _ & _ & Havg & _ & _ & Hops) & Hlen & _).
    rewrite Hzero in Hlen. destruct durations; [|simpl in Hlen; lia].
    assert (Hd : PrimFloat.is_nan (mr_duration r) = true).
    { rewrite Hdur. by apply div_nan_l. }
    assert (Ha : PrimFloat.is_nan (mr_avg r) = true).
    { rewrite Havg. by apply div_nan_r. }
    split; [exact Hser|]. split; [exact Hd|]. split; [exact Ha|]. by rewrite Hops.
Qed.

End ZeroSeries.

Lemma zero_series_still_reports_witness :
  let config := Scenarios.config [10%float] 5 0 1 in
  seriesCountOf Scenarios.registryA config = 0%N ∧
  map eventKey (eventsOf (runMeasurements Scenarios.quietEnv Scenarios.registryA config)
                  Scenarios.idle)
  = [(Some ["G"; "a"], 10%float); (Some ["G"; "b"], 10%float)] ∧
  Forall (fun ev => ∀ r, ev_result ev = Some r →
            mr_series r = [] ∧
            PrimFloat.is_nan (mr_duration r) = true ∧
            PrimFloat.is_nan (mr_avg r) = true ∧
            PrimFloat.is_nan (mr_opsPerSecond r) = true)
    (eventsOf (runMeasurements Scenarios.quietEnv Scenarios.registryA config)
       Scenarios.idle).
Proof.
  intros config. split; [reflexivity|]. split; [vm_compute; reflexivity|].
  exact (proj2 (zero_series_still_reports Scenarios.quietEnv Scenarios.registryA config
                  Scenarios.idle eq_refl)).
Defined.

(** ** The registry *)

Lemma wfNode_describe title path children :
  wfNode (DescribeNode title path children) ↔
  NoDup (map nodeTitle children) ∧
  (existsb isMeasure children && existsb isEvaluate children = false) ∧
  Forall (fun child => nodePath child = path ++ [nodeTitle child] ∧ nodeTitle child ≠ "" ∧
                       wfNode child) children.
Proof.
  simpl. apply and_iff_compat_l, and_iff_compat_l.
  induction children as [|c l IH]; simpl.
  - split; [constructor|done].
  - by rewrite Forall_cons, IH.
Qed.

Lemma subnodes_describe title path children :
  subnodes (DescribeNode title path children)
  = DescribeNode title path children :: flat_map subnodes children.
Proof.
  reflexivity.
Qed.

Lemma traverseNode_describe title path children :
  traverseNode (DescribeNode title path children) = flat_map traverseNode children.
Proof. reflexivity. Qed.

(** Induction on a hierarchy, with the children as a list. *)
Lemma TestNode_rect' (P : TestNode → Prop) :
  (∀ title path children, Forall P children → P (DescribeNode title path children)) →
  (∀ title path fn g isAsync, P (MeasureNode title path fn g isAsync)) →
  (∀ title path chart fn g, P (EvaluateNode title path chart fn g)) →
  ∀ node, P node.
Proof.
  intros Hd Hm He. fix IH 1. intros [title path children| |]; [|apply Hm|apply He].
  apply Hd. induction children as [|c l IHl]; constructor; [apply IH|exact IHl].
Qed.

(** Induction on the calls of a test file, with the blocks as lists. *)
Lemma Decl_rect' (P : Decl → Prop) :
  (∀ title runner, Forall P runner → P (DDescribe title runner)) →
  (∀ title fn g, P (DMeasure title fn g)) →
  (∀ title fn g, P (DMeasureAsync title fn g)) →
  (∀ chart title fn g, P (DEvaluate chart title fn g)) →
  P DCreateCustomChart →
  (∀ title path options, P (DAggregateMeasure title path options)) →
  (∀ chart title path options, P (DAggregateEvaluate chart title path options)) →
  (∀ body, Forall P body → P (DTry body)) →
  (∀ e, P (DThrow e)) →
  ∀ d, P d.
Proof.
  intros Hd Hm Ha He Hc Hgm Hge Ht Hx. fix IH 1.
  intros [title runner| | | | | | |body|];
    [|apply Hm|apply Ha|apply He|apply Hc|apply Hgm|apply Hge| |apply Hx].
  - apply Hd. induction runner as [|c l IHl]; constructor; [apply IH|exact IHl].
  - apply Ht. induction body as [|c l IHl]; constructor; [apply IH|exact IHl].
Qed.

Lemma register_describe title runner r :
  register (DDescribe title runner) r
  = match describeEnter title r with
    | (Ok _, r1) => let (res, r2) := registerAll runner r1 in (res, describeExit r2)
    | (Throw e, r') => (Throw e, r')
    end.
Proof.
  simpl. destruct (describeEnter title r) as [[[]|e] r1]; [|reflexivity].
  assert (H : ∀ l r, (fix block (l : list Decl) (r : RegistryState) :=
                        match l with
                        | [] => (Ok (), r)
                        | d :: l' => match register d r with
                                     | (Ok _, r') => block l' r'
                                     | (Throw e, r') => (Throw e, r')
                                     end
                        end) l r = registerAll l r).
  { clear. induction l as [|d l IH]; intros r; simpl; [reflexivity|].
    destruct (register d r) as [[[]|e] r']; [apply IH|reflexivity]. }
  by rewrite H.
Qed.

Lemma register_try body r :
  register (DTry body) r = let (_, r') := registerAll body r in (Ok tt, r').
Proof.
  simpl.
  assert (H : ∀ l r, (fix block (l : list Decl) (r : RegistryState) :=
                        match l with
                        | [] => (Ok (), r)
                        | d :: l' => match register d r with
                                     | (Ok _, r') => block l' r'
                                     | (Throw e, r') => (Throw e, r')
                                     end
                        end) l r = registerAll l r).
  { clear. induction l as [|d l IH]; intros r; simpl; [reflexivity|].
    destruct (register d r) as [[[]|e] r']; [apply IH|reflexivity]. }
  by rewrite H.
Qed.

Lemma existsb_snoc {A} (p : A → bool) l x : existsb p (l ++ [x]) = existsb p l || p x.
Proof. rewrite existsb_app. simpl. by rewrite orb_false_r. Qed.

Lemma existsb_title_false title (children : list TestNode) :
  existsb (fun child => bool_decide (nodeTitle child = title)) children = false →
  title ∉ map nodeTitle children.
Proof.
  intros H Hin. apply list_elem_of_fmap in Hin as (c & -> & Hc).
  assert (Ht : existsb (fun child => bool_decide (nodeTitle child = nodeTitle c)) children
               = true).
  { apply existsb_exists. exists c. split; [by apply list_elem_of_In|].
    by apply bool_decide_eq_true_2. }
  congruence.
Qed.

Lemma wfChildren_snoc path children child :
  wfChildren path children →
  nodeTitle child ∉ map nodeTitle children →
  (existsb isMeasure children || isMeasure child) &&
    (existsb isEvaluate children || isEvaluate child) = false →
  nodePath child = path ++ [nodeTitle child] → nodeTitle child ≠ "" → wfNode child →
  wfChildren path (children ++ [child]).
Proof.
  intros (Hnd & Hmix & Hall) Hnew Hmix' Hpath Hne Hwf. split; [|split].
  - rewrite map_app. apply NoDup_app. split; [exact Hnd|]. split.
    + intros t Ht Ht'. apply list_elem_of_singleton in Ht'. by subst t.
    + simpl. apply NoDup_singleton.
  - by rewrite !existsb_snoc.
  - apply Forall_app. split; [exact Hall|]. by constructor.
Qed.

Lemma wfNode_plug node below :
  wfNode node → isMeasure node = false → isEvaluate node = false →
  fits (nodeTitle node) (nodePath node) below → wfStack below →
  wfNode (plug node below).
Proof.
  revert node. induction below as [|parent rest IH]; intros node Hwf Hm He Hfit Hst;
    [exact Hwf|].
  simpl. destruct Hst as (Hch & Hfit' & Hst). destruct Hfit as (Hnew & Hne & Hpath).
  apply IH; try reflexivity; try assumption.
  apply wfNode_describe. apply wfChildren_snoc; try assumption.
  rewrite Hm, He, !orb_false_r. apply Hch.
Qed.

Lemma wfStack_hierarchy stack :
  wfStack stack → wfNode (match stack with
                          | [] => frameNode rootFrame
                          | f :: below => plug (frameNode f) below
                          end).
Proof.
  destruct stack as [|f below]; intros H.
  - apply wfNode_describe. split; [constructor|]. split; [reflexivity|constructor].
  - destruct H as (Hch & Hfit & Hst). apply wfNode_plug; try done.
    by apply wfNode_describe.
Qed.

(** ** The calls keep the stack well formed *)

Lemma registerMeasure_wf api isAsync title fn g r :
  wfStack (describeContextStack r) →
  wfStack (describeContextStack (registerMeasure api isAsync title fn g r).2).
Proof.
  intros H. unfold registerMeasure. case_bool_decide as Ht; [exact H|].
  destruct (describeContextStack r) as [|f below] eqn:E; [simpl; by rewrite E|].
  destruct (existsb _ (fr_children f)) eqn:Ed; [simpl; by rewrite E|].
  destruct (existsb isEvaluate (fr_children f)) eqn:Ee; [simpl; by rewrite E|].
  simpl. destruct H as (Hch & Hfit & Hst). split; [|split; [exact Hfit|exact Hst]].
  apply wfChildren_snoc; try done.
  - by apply existsb_title_false.
  - simpl. by rewrite Ee, andb_false_r.
Qed.

Lemma evaluate_wf chart title fn g r :
  wfStack (describeContextStack r) →
  wfStack (describeContextStack (evaluate chart title fn g r).2).
Proof.
  intros H. unfold evaluate. case_bool_decide as Ht; [exact H|].
  destruct (describeContextStack r) as [|f below] eqn:E; [simpl; by rewrite E|].
  destruct (existsb _ (fr_children f)) eqn:Ed; [simpl; by rewrite E|].
  destruct (existsb isMeasure (fr_children f)) eqn:Ee; [simpl; by rewrite E|].
  simpl. destruct H as (Hch & Hfit & Hst). split; [|split; [exact Hfit|exact Hst]].
  apply wfChildren_snoc; try done.
  - by apply existsb_title_false.
  - simpl. by rewrite Ee.
Qed.

Lemma describeEnter_wf title r :
  wfStack (describeContextStack r) →
  wfStack (describeContextStack (describeEnter title r).2).
Proof.
  intros H. unfold describeEnter. case_bool_decide as Ht; [exact H|].
  destruct (describeContextStack r) as [|f below] eqn:E; [simpl; by rewrite E|].
  destruct (existsb _ (fr_children f)) eqn:Ed; [simpl; by rewrite E|].
  destruct (existsb isMeasure (fr_children f) && existsb isEvaluate (fr_children f)) eqn:Ee;
    [simpl; by rewrite E|].
  simpl. split; [|split; [|exact H]].
  - split; [constructor|]. split; [reflexivity|constructor].
  - simpl. split; [by apply existsb_title_false|]. by split.
Qed.

Lemma describeExit_wf r :
  wfStack (describeContextStack r) → wfStack (describeContextStack (describeExit r)).
Proof.
  intros H. unfold describeExit.
  destruct (describeContextStack r) as [|f [|parent below]]; simpl; try done.
  destruct H as (Hch & (Hnew & Hne & Hpath) & Hchp & Hfit & Hst).
  split; [|by split].
  apply wfChildren_snoc; try done.
  - destruct Hchp as (_ & Hmix & _). simpl. by rewrite !orb_false_r.
  - by apply wfNode_describe.
Qed.

Lemma registerAll_Forall (I : RegistryState → Prop) l :
  Forall (fun d => ∀ r, I r → I (register d r).2) l →
  ∀ r, I r → I (registerAll l r).2.
Proof.
  induction 1 as [|d l Hd _ IH]; intros r Hr; simpl; [exact Hr|].
  specialize (Hd r Hr). destruct (register d r) as [[[]|e] r']; simpl in *; [by apply IH|done].
Qed.

Lemma register_wf d r :
  wfStack (describeContextStack r) → wfStack (describeContextStack (register d r).2).
Proof.
  revert r. induction d as [title runner IH|title fn g|title fn g|chart title fn g|
                     |title path options|chart title path options|body IH|e]
    using Decl_rect'; intros r Hr.
  - rewrite register_describe.
    pose proof (describeEnter_wf title r Hr) as H1.
    destruct (describeEnter title r) as [[[]|e] r1]; [|exact H1]. simpl in H1.
    pose proof (registerAll_Forall (fun r => wfStack (describeContextStack r)) runner IH r1 H1)
      as H2.
    destruct (registerAll runner r1) as [res r2]. simpl in *. by apply describeExit_wf.
  - by apply registerMeasure_wf.
  - by apply registerMeasure_wf.
  - by apply evaluate_wf.
  - exact Hr.
  - simpl. unfold aggregateMeasure. by case_bool_decide.
  - simpl. unfold aggregateEvaluate. by case_bool_decide.
  - rewrite register_try.
    pose proof (registerAll_Forall (fun r => wfStack (describeContextStack r)) body IH r Hr)
      as H2.
    by destruct (registerAll body r) as [res r2].
  - exact Hr.
Qed.

Lemma registerAll_wf l r :
  wfStack (describeContextStack r) → wfStack (describeContextStack (registerAll l r).2).
Proof.
  apply (registerAll_Forall (fun r => wfStack (describeContextStack r))).
  apply Forall_forall. intros d _ r'. apply register_wf.
Qed.

Lemma initialRegistry_wf : wfStack (describeContextStack initialRegistry).
Proof.
  simpl. split; [|done]. split; [constructor|]. split; [reflexivity|constructor].
Qed.

(** The hierarchy that a test file leaves is well formed. *)
Lemma hierarchy_wf script :
  wfNode (getTestHierarchy (registerAll script initialRegistry).2).
Proof.
  unfold getTestHierarchy. apply wfStack_hierarchy, registerAll_wf, initialRegistry_wf.
Qed.

Lemma wfNode_subnodes node : wfNode node → ∀ m, m ∈ subnodes node → wfNode m.
Proof.
  induction node as [title path children IH| |] using TestNode_rect'; intros Hwf m Hm.
  - rewrite subnodes_describe in Hm. apply elem_of_cons in Hm as [->|Hm]; [exact Hwf|].
    apply list_elem_of_In, in_flat_map in Hm as (c & Hc & Hm).
    apply list_elem_of_In in Hc. apply list_elem_of_In in Hm.
    apply wfNode_describe in Hwf as (_ & _ & Hall).
    rewrite Forall_forall in IH, Hall. apply (IH c Hc); [apply (Hall c Hc)|exact Hm].
  - simpl in Hm. apply list_elem_of_singleton in Hm. by subst m.
  - simpl in Hm. apply list_elem_of_singleton in Hm. by subst m.
Qed.

(** The paths below a node start with the path of the node. *)
Lemma subnodes_prefix node :
  wfNode node → ∀ m, m ∈ subnodes node → nodePath node `prefix_of` nodePath m.
Proof.
  induction node as [title path children IH| |] using TestNode_rect'; intros Hwf m Hm.
  - rewrite subnodes_describe in Hm. apply elem_of_cons in Hm as [->|Hm]; [reflexivity|].
    apply list_elem_of_In, in_flat_map in Hm as (c & Hc & Hm).
    apply list_elem_of_In in Hc. apply list_elem_of_In in Hm.
    apply wfNode_describe in Hwf as (_ & _ & Hall).
    rewrite Forall_forall in IH, Hall. destruct (Hall c Hc) as (Hp & _ & Hwfc).
    specialize (IH c Hc Hwfc m Hm). rewrite Hp in IH. simpl.
    etrans; [|exact IH]. by apply prefix_app_r.
  - simpl in Hm. apply list_elem_of_singleton in Hm. by subst m.
  - simpl in Hm. apply list_elem_of_singleton in Hm. by subst m.
Qed.

Lemma prefix_snoc_inj {A} (p : list A) x y l :
  (p ++ [x]) `prefix_of` l → (p ++ [y]) `prefix_of` l → x = y.
Proof.
  intros [k1 ->] [k2 H]. rewrite <- !app_assoc in H. apply app_inv_head in H.
  by injection H.
Qed.

(** No two nodes of a well-formed hierarchy have the same path. *)
Lemma wfNode_paths_NoDup node : wfNode node → NoDup (map nodePath (subnodes node)).
Proof.
  induction node as [title path children IH| |] using TestNode_rect'; intros Hwf;
    [|apply NoDup_singleton..].
  rewrite subnodes_describe. simpl.
  pose proof Hwf as Hwf'. apply wfNode_describe in Hwf' as (Hnd & _ & Hall).
  rewrite Forall_forall in IH, Hall. apply NoDup_cons. split.
  - intros Hin. apply list_elem_of_fmap in Hin as (m & Hp & Hm).
    apply list_elem_of_In, in_flat_map in Hm as (c & Hc & Hm).
    apply list_elem_of_In in Hc. apply list_elem_of_In in Hm.
    destruct (Hall c Hc) as (Hpc & _ & Hwfc).
    pose proof (subnodes_prefix c Hwfc m Hm) as Hpre. rewrite Hpc, <- Hp in Hpre.
    apply prefix_length in Hpre. rewrite length_app in Hpre. simpl in Hpre. lia.
  - rewrite map_flat_map. apply NoDup_flat_map.
    + by apply (NoDup_fmap_1 nodeTitle).
    + intros c Hc. apply (IH c Hc), (Hall c Hc).
    + intros c1 c2 p Hc1 Hc2 Hp1 Hp2.
      apply list_elem_of_fmap in Hp1 as (m1 & -> & Hm1).
      apply list_elem_of_fmap in Hp2 as (m2 & Hp & Hm2).
      destruct (Hall c1 Hc1) as (Hpc1 & _ & Hwf1). destruct (Hall c2 Hc2) as (Hpc2 & _ & Hwf2).
      pose proof (subnodes_prefix c1 Hwf1 m1 Hm1) as Hpre1.
      pose proof (subnodes_prefix c2 Hwf2 m2 Hm2) as Hpre2.
      rewrite Hpc1 in Hpre1. rewrite Hpc2, <- Hp in Hpre2.
      apply (NoDup_map_inj_on nodeTitle children); try done.
      by apply (prefix_snoc_inj path _ _ (nodePath m1)).
Qed.

Lemma omap_flat_map {A B C} (g : B → option C) (f : A → list B) (l : list A) :
  omap g (flat_map f l) = flat_map (fun x => omap g (f x)) l.
Proof.
  induction l as [|x l IH]; simpl; [reflexivity|]. by rewrite omap_app, IH.
Qed.

Lemma traverseNode_subnodes node : traverseNode node = omap orderedLeaf (subnodes node).
Proof.
  induction node as [title path children IH| |] using TestNode_rect'; try reflexivity.
  rewrite traverseNode_describe, subnodes_describe. simpl. rewrite omap_flat_map.
  induction IH as [|c l Hc _ IHl]; simpl; [reflexivity|]. by rewrite Hc, IHl.
Qed.

Lemma omap_subnodes_plug {A} (leaf : TestNode → option A) node below :
  (∀ title path children, leaf (DescribeNode title path children) = None) →
  omap leaf (subnodes (plug node below))
  = omap leaf (subnodesBelow below) ++ omap leaf (subnodes node).
Proof.
  intros Hleaf. revert node. induction below as [|f rest IH]; intros node; [reflexivity|].
  simpl plug. rewrite IH, subnodes_describe. simpl omap at 2. rewrite Hleaf.
  simpl subnodesBelow. rewrite flat_map_app, !omap_app. simpl.
  by rewrite app_nil_r, app_assoc.
Qed.

Lemma leaves_hierarchy {A} (leaf : TestNode → option A) r :
  (∀ title path children, leaf (DescribeNode title path children) = None) →
  omap leaf (subnodes (getTestHierarchy r)) = leavesOfStack leaf (describeContextStack r).
Proof.
  intros Hleaf. unfold getTestHierarchy, leavesOfStack.
  destruct (describeContextStack r) as [|f below]; simpl; [by rewrite Hleaf|].
  rewrite omap_subnodes_plug by exact Hleaf. unfold frameNode.
  rewrite subnodes_describe. simpl. by rewrite Hleaf.
Qed.

Lemma leavesOfStack_push {A} (leaf : TestNode → option A) node f below :
  leavesOfStack leaf (pushChild node f :: below)
  = leavesOfStack leaf (f :: below) ++ omap leaf (subnodes node).
Proof.
  unfold leavesOfStack. simpl. rewrite flat_map_app, omap_app. simpl.
  by rewrite app_nil_r, app_assoc.
Qed.

Lemma registerMeasure_inOrder api isAsync title fn g r :
  inOrder r → inOrder (registerMeasure api isAsync title fn g r).2.
Proof.
  intros [Hf He]. unfold registerMeasure. case_bool_decide as Ht; [by split|].
  destruct (describeContextStack r) as [|f below] eqn:E; [split; simpl; by rewrite E|].
  destruct (existsb _ (fr_children f)); [split; simpl; by rewrite E|].
  destruct (existsb isEvaluate (fr_children f)); [split; simpl; by rewrite E|].
  split; cbn [snd describeContextStack registeredFunctions customEvaluations];
    rewrite leavesOfStack_push; simpl.
  - by rewrite Hf.
  - by rewrite app_nil_r.
Qed.

Lemma evaluate_inOrder chart title fn g r :
  inOrder r → inOrder (evaluate chart title fn g r).2.
Proof.
  intros [Hf He]. unfold evaluate. case_bool_decide as Ht; [by split|].
  destruct (describeContextStack r) as [|f below] eqn:E; [split; simpl; by rewrite E|].
  destruct (existsb _ (fr_children f)); [split; simpl; by rewrite E|].
  destruct (existsb isMeasure (fr_children f)); [split; simpl; by rewrite E|].
  split; cbn [snd describeContextStack registeredFunctions customEvaluations];
    rewrite leavesOfStack_push; simpl.
  - by rewrite app_nil_r.
  - by rewrite He.
Qed.

Lemma describeEnter_inOrder title r : inOrder r → inOrder (describeEnter title r).2.
Proof.
  intros [Hf He]. unfold describeEnter. case_bool_decide as Ht; [by split|].
  destruct (describeContextStack r) as [|f below] eqn:E; [split; simpl; by rewrite E|].
  destruct (existsb _ (fr_children f)); [split; simpl; by rewrite E|].
  destruct (_ && _); [split; simpl; by rewrite E|].
  unfold leavesOfStack in Hf, He.
  split; cbn [snd describeContextStack registeredFunctions customEvaluations setStack];
    unfold leavesOfStack; cbn [subnodesBelow fr_children flat_map omap];
    rewrite app_nil_r, omap_app; assumption.
Qed.

Lemma describeExit_inOrder r :
  match describeContextStack r with _ :: _ :: _ => True | _ => False end →
  inOrder r → inOrder (describeExit r).
Proof.
  intros Hst [Hf He]. unfold describeExit.
  destruct (describeContextStack r) as [|f [|parent below]]; try done.
  split; cbn [snd describeContextStack registeredFunctions customEvaluations setStack];
    rewrite leavesOfStack_push; unfold frameNode; rewrite subnodes_describe;
    [rewrite Hf|rewrite He]; simpl; by rewrite omap_app.
Qed.

Lemma extends_refl f : extends f f.
Proof. split; [done|]. split; [done|]. exists []. by rewrite app_nil_r. Qed.

Lemma extends_trans f g h : extends f g → extends g h → extends f h.
Proof.
  intros (Ht1 & Hp1 & m1 & Hc1) (Ht2 & Hp2 & m2 & Hc2).
  split; [congruence|]. split; [congruence|]. exists (m1 ++ m2).
  by rewrite Hc2, Hc1, app_assoc.
Qed.

Lemma extends_push node f : extends f (pushChild node f).
Proof. split; [done|]. split; [done|]. by exists [node]. Qed.

Lemma keepsContext_refl r : keepsContext r r.
Proof. intros f below E. exists f. split; [exact E|apply extends_refl]. Qed.

Lemma keepsContext_same r r' :
  describeContextStack r' = describeContextStack r → keepsContext r r'.
Proof.
  intros H f below E. exists f. split; [by rewrite H|apply extends_refl].
Qed.

Lemma keepsContext_trans r1 r2 r3 :
  keepsContext r1 r2 → keepsContext r2 r3 → keepsContext r1 r3.
Proof.
  intros H1 H2 f below E. destruct (H1 f below E) as (f' & E' & Hx).
  destruct (H2 f' below E') as (f'' & E'' & Hx'). exists f''. split; [exact E''|].
  by apply (extends_trans f f').
Qed.

Lemma registerMeasure_keepsContext api isAsync title fn g r :
  keepsContext r (registerMeasure api isAsync title fn g r).2.
Proof.
  unfold registerMeasure. case_bool_decide; [apply keepsContext_refl|].
  destruct (describeContextStack r) as [|f below] eqn:E; [apply keepsContext_refl|].
  destruct (existsb _ (fr_children f)); [apply keepsContext_refl|].
  destruct (existsb isEvaluate (fr_children f)); [apply keepsContext_refl|].
  intros f0 below0 E0. rewrite E in E0. injection E0 as <- <-.
  eexists. split; [reflexivity|apply extends_push].
Qed.

Lemma evaluate_keepsContext chart title fn g r :
  keepsContext r (evaluate chart title fn g r).2.
Proof.
  unfold evaluate. case_bool_decide; [apply keepsContext_refl|].
  destruct (describeContextStack r) as [|f below] eqn:E; [apply keepsContext_refl|].
  destruct (existsb _ (fr_children f)); [apply keepsContext_refl|].
  destruct (existsb isMeasure (fr_children f)); [apply keepsContext_refl|].
  intros f0 below0 E0. rewrite E in E0. injection E0 as <- <-.
  eexists. split; [reflexivity|apply extends_push].
Qed.

Lemma registerAll_keepsContext l :
  Forall (fun d => ∀ r, keepsContext r (register d r).2) l →
  ∀ r, keepsContext r (registerAll l r).2.
Proof.
  induction 1 as [|d l Hd _ IH]; intros r; simpl; [apply keepsContext_refl|].
  specialize (Hd r). destruct (register d r) as [[[]|e] r']; simpl in *; [|exact Hd].
  by apply (keepsContext_trans r r').
Qed.

Lemma register_keepsContext d r : keepsContext r (register d r).2.
Proof.
  revert r. induction d as [title runner IH|title fn g|title fn g|chart title fn g|
                     |title path options|chart title path options|body IH|e]
    using Decl_rect'; intros r.
  - rewrite register_describe. unfold describeEnter.
    case_bool_decide; [apply keepsContext_refl|].
    destruct (describeContextStack r) as [|f below] eqn:E; [apply keepsContext_refl|].
    destruct (existsb _ (fr_children f)); [apply keepsContext_refl|].
    destruct (_ && _); [apply keepsContext_refl|].
    set (r1 := setStack _ r).
    pose proof (registerAll_keepsContext runner IH r1) as Hrun.
    destruct (registerAll runner r1) as [res r2]. simpl in *.
    destruct (Hrun _ _ eq_refl) as (f' & E' & Hx).
    intros f0 below0 E0. rewrite E in E0. injection E0 as <- <-.
    unfold describeExit. rewrite E'. simpl. eexists. split; [reflexivity|apply extends_push].
  - apply registerMeasure_keepsContext.
  - apply registerMeasure_keepsContext.
  - apply evaluate_keepsContext.
  - by apply keepsContext_same.
  - apply keepsContext_same. simpl. unfold aggregateMeasure. by case_bool_decide.
  - apply keepsContext_same. simpl. unfold aggregateEvaluate. by case_bool_decide.
  - rewrite register_try. pose proof (registerAll_keepsContext body IH r) as H.
    by destruct (registerAll body r) as [res r2].
  - apply keepsContext_refl.
Qed.

Lemma register_inOrder d r : inOrder r → inOrder (register d r).2.
Proof.
  revert r. induction d as [title runner IH|title fn g|title fn g|chart title fn g|
                     |title path options|chart title path options|body IH|e]
    using Decl_rect'; intros r Hr.
  - rewrite register_describe.
    pose proof (describeEnter_inOrder title r Hr) as H1.
    assert (Hst : (describeEnter title r).1 = Ok tt →
                  ∃ f g below, describeContextStack (describeEnter title r).2 = f :: g :: below).
    { unfold describeEnter. case_bool_decide; [done|].
      destruct (describeContextStack r) as [|f below] eqn:E; [done|].
      destruct (existsb _ (fr_children f)); [done|]. destruct (_ && _); [done|].
      intros _. simpl. eauto. }
    destruct (describeEnter title r) as [[[]|e] r1]; [|exact H1]. simpl in H1.
    destruct (Hst eq_refl) as (f & g & below & E1). simpl in E1.
    pose proof (registerAll_Forall inOrder runner IH r1 H1) as H2.
    pose proof (registerAll_keepsContext runner
                  (proj2 (Forall_forall _ _) (fun d _ => register_keepsContext d)) r1
                  _ _ E1) as (f' & E2 & _).
    destruct (registerAll runner r1) as [res r2]. simpl in *.
    apply describeExit_inOrder; [by rewrite E2|exact H2].
  - by apply registerMeasure_inOrder.
  - by apply registerMeasure_inOrder.
  - by apply evaluate_inOrder.
  - exact Hr.
  - simpl. unfold aggregateMeasure. by case_bool_decide.
  - simpl. unfold aggregateEvaluate. by case_bool_decide.
  - rewrite register_try. pose proof (registerAll_Forall inOrder body IH r Hr) as H2.
    by destruct (registerAll body r) as [res r2].
  - exact Hr.
Qed.

Lemma registerAll_inOrder l r : inOrder r → inOrder (registerAll l r).2.
Proof.
  apply (registerAll_Forall inOrder). apply Forall_forall. intros d _ r'.
  apply register_inOrder.
Qed.

Lemma wfNode_describeOk node : wfNode node → describeOk node.
Proof.
  destruct node as [title path children| |]; try done.
  intros H. apply wfNode_describe in H as (Hnd & Hmix & Hall).
  split; [exact Hnd|]. split; [exact Hmix|].
  eapply Forall_impl; [exact Hall|]. by intros c (? & ? & _).
Qed.

(** The root of the hierarchy stays the root node. *)
Lemma hierarchy_root script :
  ∃ children, getTestHierarchy (registerAll script initialRegistry).2
              = DescribeNode "__root__" [] children.
Proof.
  pose proof (registerAll_keepsContext script
                (proj2 (Forall_forall _ _) (fun d _ => register_keepsContext d))
                initialRegistry rootFrame [] eq_refl) as (f & E & Ht & Hp & more & Hc).
  unfold getTestHierarchy. rewrite E. simpl. exists (fr_children f).
  unfold frameNode. by rewrite Ht, Hp.
Qed.

(** X10. The hierarchy that the registration API builds is well formed,
    whatever the test file does and whether or not its calls throw: at
    every describe node the titles of the children are pairwise distinct,
    measure and evaluate children are never mixed, and the path of a child
    is the path of its parent followed by its non-empty title; the root has
    the empty path. *)
Theorem hierarchy_well_formed (script : list Decl) :
  let hierarchy := getTestHierarchy (registerAll script initialRegistry).2 in
  Forall describeOk (subnodes hierarchy) ∧ nodePath hierarchy = [].
Proof.
  intros hierarchy. split.
  - apply Forall_forall. intros node Hnode.
    apply wfNode_describeOk, (wfNode_subnodes hierarchy); [apply hierarchy_wf|exact Hnode].
  - subst hierarchy. by destruct (hierarchy_root script) as (children & ->).
Qed.

Lemma omap_orderedLeaf_paths (l : list TestNode) :
  sublist (map on_path (omap orderedLeaf l)) (map nodePath l).
Proof.
  induction l as [|n l IH]; simpl; [constructor|].
  destruct n; simpl; by constructor.
Qed.

(** X11. No two nodes of the hierarchy have the same path, so a path
    identifies a leaf. *)
Theorem hierarchy_paths_distinct (script : list Decl) :
  let hierarchy := getTestHierarchy (registerAll script initialRegistry).2 in
  NoDup (map nodePath (subnodes hierarchy)) ∧
  NoDup (map on_path (traverseNode hierarchy)).
Proof.
  intros hierarchy.
  assert (H : NoDup (map nodePath (subnodes hierarchy)))
    by apply wfNode_paths_NoDup, hierarchy_wf.
  split; [exact H|]. rewrite traverseNode_subnodes.
  eapply sublist_NoDup; [exact H|apply omap_orderedLeaf_paths].
Qed.


Lemma measureLeaf_traverse (l : list TestNode) :
  map (fun f => (rf_path f, rf_title f)) (omap measureLeaf l)
  = map (fun node => (Some (on_path node), on_title node))
      (List.filter isTMeasure (omap orderedLeaf l)).
Proof.
  induction l as [|n l IH]; simpl; [reflexivity|].
  destruct n; simpl; first [exact IH | f_equal; exact IH].
Qed.

Lemma evaluateLeaf_traverse (l : list TestNode) :
  map (fun e => (ce_path e, ce_title e)) (omap evaluateLeaf l)
  = map (fun node => (Some (on_path node), on_title node))
      (List.filter isTEvaluate (omap orderedLeaf l)).
Proof.
  induction l as [|n l IH]; simpl; [reflexivity|].
  destruct n; simpl; first [exact IH | f_equal; exact IH].
Qed.

Lemma initialRegistry_inOrder : inOrder initialRegistry.
Proof. by split. Qed.

(** X12. The legacy lists are the leaves of the hierarchy in depth-first
    order: the registered functions are the measure leaves and the custom
    evaluations are the evaluate leaves, each with the group and subgroup
    computed from its path; the order of registration is the order in which
    [runMeasurements] traverses the hierarchy. *)
Theorem registration_order (script : list Decl) :
  let r := (registerAll script initialRegistry).2 in
  let hierarchy := getTestHierarchy r in
  getRegisteredFunctions r = omap measureLeaf (subnodes hierarchy) ∧
  getCustomEvaluations r = omap evaluateLeaf (subnodes hierarchy) ∧
  map (fun f => (rf_path f, rf_title f)) (getRegisteredFunctions r)
  = map (fun node => (Some (on_path node), on_title node))
      (List.filter isTMeasure (traverseNode hierarchy)) ∧
  map (fun e => (ce_path e, ce_title e)) (getCustomEvaluations r)
  = map (fun node => (Some (on_path node), on_title node))
      (List.filter isTEvaluate (traverseNode hierarchy)).
Proof.
  intros r hierarchy.
  destruct (registerAll_inOrder script initialRegistry initialRegistry_inOrder) as [Hf He].
  fold r in Hf, He.
  assert (Hf' : getRegisteredFunctions r = omap measureLeaf (subnodes hierarchy)).
  { unfold getRegisteredFunctions, hierarchy. by rewrite leaves_hierarchy. }
  assert (He' : getCustomEvaluations r = omap evaluateLeaf (subnodes hierarchy)).
  { unfold getCustomEvaluations, hierarchy. by rewrite leaves_hierarchy. }
  split; [exact Hf'|]. split; [exact He'|].
  rewrite Hf', He', traverseNode_subnodes. split.
  - apply measureLeaf_traverse.
  - apply evaluateLeaf_traverse.
Qed.

(** X13. A call of the registration API leaves the context stack as it found
    it, whether it returns or throws: the contexts below the current one are
    untouched and the current context has the same title and path, with
    the children that the call added. A [describe] whose runner throws has
    popped its own context. *)
Theorem describe_restores_context (d : Decl) (r : RegistryState) (f : Frame)
    (below : list Frame) :
  describeContextStack r = f :: below →
  ∃ f', describeContextStack (register d r).2 = f' :: below ∧
        fr_title f' = fr_title f ∧ fr_path f' = fr_path f ∧
        ∃ more, fr_children f' = fr_children f ++ more.
Proof. apply register_keepsContext. Qed.

Lemma describe_restores_context_witness :
  describeContextStack initialRegistry = [rootFrame] ∧
  (register (DDescribe "A" [DMeasure "a" 1 7; DThrow "boom"]) initialRegistry).1
  = Throw "boom" ∧
  ∃ f', describeContextStack
          (register (DDescribe "A" [DMeasure "a" 1 7; DThrow "boom"]) initialRegistry).2
        = [f'] ∧
        fr_title f' = fr_title rootFrame ∧ fr_path f' = fr_path rootFrame ∧
        ∃ more, fr_children f' = fr_children rootFrame ++ more.
Proof.
  split; [reflexivity|]. split; [reflexivity|].
  exact (describe_restores_context (DDescribe "A" [DMeasure "a" 1 7; DThrow "boom"])
           initialRegistry rootFrame [] eq_refl).
Defined.

(** ** Chart ids *)

Lemma customChartId_inj : Inj (=) (=) customChartId.
Proof.
  intros a b H. unfold customChartId in H. simpl in H.
  injection H as H. by apply (inj pretty).
Qed.

Lemma aggregateMeasureId_inj : Inj (=) (=) aggregateMeasureId.
Proof.
  intros a b H. unfold aggregateMeasureId in H. simpl in H.
  injection H as H. by apply (inj pretty).
Qed.

Lemma aggregateEvaluateId_inj : Inj (=) (=) aggregateEvaluateId.
Proof.
  intros a b H. unfold aggregateEvaluateId in H. simpl in H.
  injection H as H. by apply (inj pretty).
Qed.

Lemma registerAll_Forall_any (I : RegistryState → Prop) l :
  (∀ d r, I r → I (register d r).2) → ∀ r, I r → I (registerAll l r).2.
Proof.
  intros H. apply registerAll_Forall, Forall_forall. intros d _. apply H.
Qed.

Lemma chartsNumbered_stack stack r : chartsNumbered r → chartsNumbered (setStack stack r).
Proof. done. Qed.

Lemma register_chartsNumbered d r : chartsNumbered r → chartsNumbered (register d r).2.
Proof.
  revert r. induction d as [title runner IH|title fn g|title fn g|chart title fn g|
                     |title path options|chart title path options|body IH|e]
    using Decl_rect'; intros r Hr.
  - rewrite register_describe.
    assert (H1 : chartsNumbered (describeEnter title r).2).
    { unfold describeEnter. case_bool_decide; [exact Hr|].
      destruct (describeContextStack r) as [|f below]; [exact Hr|].
      destruct (existsb _ (fr_children f)); [exact Hr|]. by destruct (_ && _). }
    destruct (describeEnter title r) as [[[]|e] r1]; [|exact H1]. simpl in H1.
    pose proof (registerAll_Forall chartsNumbered runner IH r1 H1) as H2.
    destruct (registerAll runner r1) as [res r2]. simpl in *.
    unfold describeExit. by destruct (describeContextStack r2) as [|f [|parent below]].
  - simpl. unfold measure, registerMeasure. case_bool_decide; [exact Hr|].
    destruct (describeContextStack r) as [|f below]; [exact Hr|].
    destruct (existsb _ (fr_children f)); [exact Hr|]. by destruct (existsb _ _).
  - simpl. unfold measureAsync, registerMeasure. case_bool_decide; [exact Hr|].
    destruct (describeContextStack r) as [|f below]; [exact Hr|].
    destruct (existsb _ (fr_children f)); [exact Hr|]. by destruct (existsb _ _).
  - simpl. unfold evaluate. case_bool_decide; [exact Hr|].
    destruct (describeContextStack r) as [|f below]; [exact Hr|].
    destruct (existsb _ (fr_children f)); [exact Hr|]. by destruct (existsb _ _).
  - destruct Hr as (Hc & Hm & He & Hp). split; [|done].
    cbn [register createCustomChart snd customCharts customChartIdCounter].
    rewrite seq_S, !map_app, Hc. reflexivity.
  - simpl. unfold aggregateMeasure. case_bool_decide; [exact Hr|].
    destruct Hr as (Hc & Hm & He & Hp). split; [exact Hc|].
    cbn [snd aggregateMeasureCharts aggregateEvaluateCharts aggregateChartOrderCounter].
    split; [|split; [exact He|]].
    + apply Forall_app. split; [exact Hm|]. constructor; [|constructor]. simpl.
      by rewrite Nat.sub_0_r.
    + rewrite map_app, seq_S, <- Hp. cbn [map amc_order]. simpl Nat.sub.
      rewrite Nat.sub_0_r, Nat.add_0_l.
      rewrite <- !app_assoc. apply Permutation_app_head. apply Permutation_app_comm.
  - simpl. unfold aggregateEvaluate. case_bool_decide; [exact Hr|].
    destruct Hr as (Hc & Hm & He & Hp). split; [exact Hc|].
    cbn [snd aggregateMeasureCharts aggregateEvaluateCharts aggregateChartOrderCounter].
    split; [exact Hm|split].
    + apply Forall_app. split; [exact He|]. constructor; [|constructor]. simpl.
      by rewrite Nat.sub_0_r.
    + rewrite map_app, seq_S, <- Hp. cbn [map aec_order]. simpl Nat.sub.
      rewrite Nat.sub_0_r, Nat.add_0_l. by rewrite app_assoc.
  - rewrite register_try. pose proof (registerAll_Forall chartsNumbered body IH r Hr) as H2.
    by destruct (registerAll body r) as [res r2].
  - exact Hr.
Qed.

Lemma Forall_map_eq {A B} (f g : A → B) (l : list A) :
  Forall (fun x => f x = g x) l → map f l = map g l.
Proof. induction 1; simpl; congruence. Qed.

(** X14. The ids of the charts are pairwise distinct: those of the custom
    charts, and those of the aggregate charts of both kinds, whose orders
    are pairwise distinct too. *)
Theorem chart_ids_distinct (script : list Decl) :
  let r := (registerAll script initialRegistry).2 in
  NoDup (map chart_id (getCustomCharts r)) ∧
  NoDup (map amc_id (aggregateMeasureCharts r) ++ map aec_id (aggregateEvaluateCharts r)) ∧
  NoDup (map amc_order (aggregateMeasureCharts r) ++
         map aec_order (aggregateEvaluateCharts r)).
Proof.
  intros r.
  assert (H : chartsNumbered r).
  { apply (registerAll_Forall_any chartsNumbered script register_chartsNumbered).
    split; [reflexivity|]. split; [constructor|]. split; [constructor|reflexivity]. }
  destruct H as (Hc & Hm & He & Hp).
  assert (Hord : NoDup (map amc_order (aggregateMeasureCharts r) ++
                        map aec_order (aggregateEvaluateCharts r))).
  { rewrite Hp. apply NoDup_seq. }
  split; [|split; [|exact Hord]].
  - unfold getCustomCharts. rewrite Hc.
    apply (@NoDup_fmap_2 _ _ customChartId customChartId_inj), NoDup_seq.
  - apply NoDup_app in Hord as (Hom & Hdisj & Hoe).
    rewrite (Forall_map_eq amc_id (fun c => aggregateMeasureId (amc_order c)) _ Hm).
    rewrite (Forall_map_eq aec_id (fun c => aggregateEvaluateId (aec_order c)) _ He).
    apply NoDup_app. split; [|split].
    + rewrite <- (map_map amc_order aggregateMeasureId).
      apply (@NoDup_fmap_2 _ _ aggregateMeasureId aggregateMeasureId_inj), Hom.
    + intros id H1 H2.
      apply list_elem_of_fmap in H1 as (c1 & -> & _).
      apply list_elem_of_fmap in H2 as (c2 & H2 & _).
      unfold aggregateMeasureId, aggregateEvaluateId in H2. simpl in H2. discriminate.
    + rewrite <- (map_map aec_order aggregateEvaluateId).
      apply (@NoDup_fmap_2 _ _ aggregateEvaluateId aggregateEvaluateId_inj), Hoe.
Qed.

(** ** The plan of a registry built through the API *)

Lemma byPath_fold_is_Some {A} (get_path : A → option (list string)) (l : list A)
    (m : gmap string A) k :
  (is_Some (m !! k) ∨ ∃ x seg segs, x ∈ l ∧ get_path x = Some (seg :: segs) ∧
                                     k = join pathSep (seg :: segs)) →
  is_Some (fold_left (fun m f =>
    match get_path f with
    | Some (seg :: segs) => <[ join pathSep (seg :: segs) := f ]> m
    | _ => m
    end) l m !! k).
Proof.
  revert m. induction l as [|y l IH]; intros m H; simpl.
  - destruct H as [H|(x & ? & ? & Hx & _)]; [exact H|by apply elem_of_nil in Hx].
  - apply IH. destruct H as [H|(x & seg & segs & Hx & Hp & ->)].
    + left. destruct (get_path y) as [[|s ss]|]; try exact H.
      apply lookup_insert_is_Some'. by right.
    + apply elem_of_cons in Hx as [->|Hx].
      * left. rewrite Hp. apply lookup_insert_is_Some'. by left.
      * right. eauto 6.
Qed.

Lemma byPath_is_Some {A} (get_path : A → option (list string)) (l : list A) x seg segs :
  x ∈ l → get_path x = Some (seg :: segs) →
  is_Some (byPath get_path l !! join pathSep (seg :: segs)).
Proof. intros Hx Hp. apply byPath_fold_is_Some. right. eauto 6. Qed.

(** Every node below the root of a well-formed hierarchy has a path. *)
Lemma wfNode_path_nonempty node :
  wfNode node → ∀ m, m ∈ subnodes node → m = node ∨ nodePath m ≠ [].
Proof.
  induction node as [title path children IH| |] using TestNode_rect'; intros Hwf m Hm.
  - rewrite subnodes_describe in Hm. apply elem_of_cons in Hm as [->|Hm]; [by left|right].
    apply list_elem_of_In, in_flat_map in Hm as (c & Hc & Hm).
    apply list_elem_of_In in Hc. apply list_elem_of_In in Hm.
    apply wfNode_describe in Hwf as (_ & _ & Hall).
    rewrite Forall_forall in IH, Hall. destruct (Hall c Hc) as (Hp & _ & Hwfc).
    destruct (IH c Hc Hwfc m Hm) as [->|Hne]; [|exact Hne].
    rewrite Hp. by destruct path.
  - simpl in Hm. apply list_elem_of_singleton in Hm. by left.
  - simpl in Hm. apply list_elem_of_singleton in Hm. by left.
Qed.

Lemma unify_all fbp ebp (l : list TestNode) idx :
  Forall (fun node => ∀ leaf, orderedLeaf node = Some leaf → is_Some (found fbp ebp leaf)) l →
  map (fun item => (ui_title item, ui_type item, ui_pathKey item))
    (unify fbp ebp (omap orderedLeaf l) idx)
  = map (fun leaf => (on_title leaf, on_type leaf, keyPath (on_path leaf)))
      (omap orderedLeaf l).
Proof.
  intros H. revert idx. induction H as [|node l Hnode _ IH]; intros idx; [reflexivity|].
  simpl. destruct (orderedLeaf node) as [leaf|] eqn:E; [|apply IH]. simpl.
  destruct (Hnode leaf eq_refl) as [body Hb]. rewrite Hb. simpl. f_equal; [|apply IH].
  unfold ui_type. simpl. unfold found in Hb.
  destruct (on_type leaf); [destruct (fbp !! _)|destruct (ebp !! _)]; simpl in Hb;
    by inversion Hb.
Qed.

Lemma unify_bodies fbp ebp (l : list TestNode) idx :
  Forall (fun node => ∀ leaf, orderedLeaf node = Some leaf →
                      found fbp ebp leaf = leafBody node) l →
  map ui_body (unify fbp ebp (omap orderedLeaf l) idx) = omap leafBody l.
Proof.
  intros H. revert idx. induction H as [|node l Hnode _ IH]; intros idx; [reflexivity|].
  simpl. destruct (orderedLeaf node) as [leaf|] eqn:E.
  - simpl. rewrite (Hnode leaf eq_refl).
    destruct node; try discriminate; simpl; by rewrite IH.
  - destruct node; try discriminate. simpl. apply IH.
Qed.

Lemma measureLeaf_keys (l : list TestNode) :
  sublist (omap (fun f => join pathSep <$> rf_path f) (omap measureLeaf l))
    (map (fun leaf => join pathSep (on_path leaf)) (omap orderedLeaf l)).
Proof.
  induction l as [|n l IH]; simpl; [constructor|].
  destruct n; simpl; first [exact IH | by constructor].
Qed.

Lemma evaluateLeaf_keys (l : list TestNode) :
  sublist (omap (fun e => join pathSep <$> ce_path e) (omap evaluateLeaf l))
    (map (fun leaf => join pathSep (on_path leaf)) (omap orderedLeaf l)).
Proof.
  induction l as [|n l IH]; simpl; [constructor|].
  destruct n; simpl; first [exact IH | by constructor].
Qed.



(** ** The hierarchy for the client *)

(** X6. The hierarchy that [getHierarchy] sends to the client lists the
    leaves that [runMeasurements] traverses, in the same order, with the
    same kinds, paths and titles; it carries the chart id of every evaluate
    leaf and it has as many nodes as the registered hierarchy. *)
Theorem getHierarchy_lists_the_leaves (root : TestNode) :
  hierarchicalLeaves (getHierarchy root) = traverseNode root ∧
  hierarchicalChartIds (getHierarchy root) = chartIdsOf root ∧
  hierarchicalCount (getHierarchy root) = nodeCount root.
Proof.
  unfold getHierarchy.
  induction root as [title path children IH| |] using TestNode_rect';
    [|by repeat split..].
  simpl. induction IH as [|c l (H1 & H2 & H3) _ (IH1 & IH2 & IH3)]; [by repeat split|].
  simpl in *. rewrite H1, H2, H3, IH1, IH2. split; [done|]. split; [done|].
  injection IH3 as IH3. by rewrite IH3.
Qed.

(** ** The groups for the client *)

Lemma setAdd_elem x y set : y ∈ setAdd x set ↔ y = x ∨ y ∈ set.
Proof.
  unfold setAdd. case_bool_decide as Hx.
  - split; [by right|]. intros [->|H]; done.
  - rewrite elem_of_app, list_elem_of_singleton. tauto.
Qed.

Lemma setAdd_NoDup x set : NoDup set → NoDup (setAdd x set).
Proof.
  intros H. unfold setAdd. case_bool_decide as Hx; [exact H|].
  apply NoDup_app. split; [exact H|]. split; [|apply NoDup_singleton].
  intros y Hy Hy'. apply list_elem_of_singleton in Hy'. by subst.
Qed.

Lemma mapGet_update {V} key (empty : V) update m key' :
  mapGet key' (mapUpdate key empty update m)
  = if bool_decide (key' = key) then Some (update (default empty (mapGet key m)))
    else mapGet key' m.
Proof.
  induction m as [|[k v] m IH]; simpl.
  - destruct (decide (key = key')) as [->|E1].
    + by rewrite !bool_decide_eq_true_2 by done.
    + by rewrite !bool_decide_eq_false_2 by congruence.
  - destruct (decide (k = key)) as [->|E1].
    + rewrite (bool_decide_eq_true_2 (key = key)) by done. simpl.
      destruct (decide (key = key')) as [->|E2].
      * by rewrite !bool_decide_eq_true_2 by done.
      * by rewrite !bool_decide_eq_false_2 by congruence.
    + rewrite (bool_decide_eq_false_2 (k = key)) by done. simpl. rewrite IH.
      destruct (decide (k = key')) as [->|E2].
      * rewrite (bool_decide_eq_true_2 (key' = key')) by done.
        by rewrite bool_decide_eq_false_2 by congruence.
      * by rewrite (bool_decide_eq_false_2 (k = key')) by done.
Qed.

Lemma mapUpdate_keys {V} key (empty : V) update m :
  map fst (mapUpdate key empty update m)
  = if bool_decide (key ∈ map fst m) then map fst m else map fst m ++ [key].
Proof.
  induction m as [|[k v] m IH]; [reflexivity|]. cbn [mapUpdate map fst].
  destruct (decide (k = key)) as [->|E1].
  - rewrite (bool_decide_eq_true_2 (key = key)) by done. simpl.
    rewrite bool_decide_eq_true_2 by left. reflexivity.
  - rewrite (bool_decide_eq_false_2 (k = key)) by done. simpl. rewrite IH.
    destruct (decide (key ∈ map fst m)) as [E2|E2].
    + rewrite (bool_decide_eq_true_2 _ E2).
      rewrite bool_decide_eq_true_2 by (by right). reflexivity.
    + rewrite (bool_decide_eq_false_2 _ E2). rewrite bool_decide_eq_false_2; [reflexivity|].
      intros H. apply elem_of_cons in H as [H|H]; congruence.
Qed.

Lemma mapUpdate_keys_NoDup {V} key (empty : V) update m :
  NoDup (map fst m) → NoDup (map fst (mapUpdate key empty update m)).
Proof.
  intros H. rewrite mapUpdate_keys. case_bool_decide as E; [exact H|].
  apply NoDup_app. split; [exact H|]. split; [|apply NoDup_singleton].
  intros y Hy Hy'. apply list_elem_of_singleton in Hy'. by subst.
Qed.

Lemma mapGet_elem {V} key (v : V) m :
  NoDup (map fst m) → (mapGet key m = Some v ↔ (key, v) ∈ m).
Proof.
  induction m as [|[k w] m IH]; simpl; intros Hnd.
  - split; [done|]. intros H. by apply elem_of_nil in H.
  - apply NoDup_cons in Hnd as [Hk Hnd]. rewrite elem_of_cons. case_bool_decide as E.
    + subst k. split; [intros [= ->]; by left|]. intros [[= ->]|H]; [done|].
      destruct Hk. apply list_elem_of_fmap. by exists (key, v).
    + rewrite (IH Hnd). split; [by right|]. intros [[= ? ?]|H]; [congruence|exact H].
Qed.

Lemma mapUpdate_Forall {V} (P : V → Prop) key (empty : V) update m :
  P (update empty) → (∀ v, P v → P (update v)) →
  Forall (fun entry => P entry.2) m →
  Forall (fun entry => P entry.2) (mapUpdate key empty update m).
Proof.
  intros He Hu. induction 1 as [|[k v] m Hv Hm IH]; simpl.
  - constructor; [exact He|constructor].
  - case_bool_decide; constructor; simpl in *; auto.
Qed.

Lemma addTitle_ok group subGroup title m :
  groupsMapOk m → groupsMapOk (addTitle group subGroup title m).
Proof.
  intros [Hk Hall]. split; [by apply mapUpdate_keys_NoDup|].
  apply (mapUpdate_Forall
           (fun subs => NoDup (map fst subs) ∧ Forall (fun sub => NoDup sub.2) subs));
    [| |exact Hall].
  - split; [apply NoDup_singleton|]. constructor; [|constructor]. simpl.
    apply setAdd_NoDup. constructor.
  - intros subs [Hs Ht]. split; [by apply mapUpdate_keys_NoDup|].
    apply (mapUpdate_Forall (fun titles => NoDup titles)); [| |exact Ht].
    + apply setAdd_NoDup. constructor.
    + intros titles. apply setAdd_NoDup.
Qed.

Lemma addTitle_in group subGroup title m g sg t :
  inGroupsMap (addTitle group subGroup title m) g sg t ↔
  (g = group ∧ sg = subGroup ∧ t = title) ∨ inGroupsMap m g sg t.
Proof.
  unfold inGroupsMap, addTitle. setoid_rewrite mapGet_update.
  destruct (decide (g = group)) as [->|Eg].
  - rewrite (bool_decide_eq_true_2 (group = group)) by done. split.
    + intros (subs & titles & Hg & Hs & Ht). injection Hg as <-.
      rewrite mapGet_update in Hs. destruct (decide (sg = subGroup)) as [->|Es].
      * rewrite (bool_decide_eq_true_2 (subGroup = subGroup)) in Hs by done.
        injection Hs as <-. apply setAdd_elem in Ht as [->|Ht]; [by left|].
        right. destruct (mapGet group m) as [subs|] eqn:E1; simpl in Ht.
        -- destruct (mapGet subGroup subs) as [titles|] eqn:E2; simpl in Ht.
           ++ eauto.
           ++ by apply elem_of_nil in Ht.
        -- by apply elem_of_nil in Ht.
      * rewrite (bool_decide_eq_false_2 (sg = subGroup)) in Hs by done.
        right. destruct (mapGet group m) as [subs|] eqn:E1; simpl in Hs; [eauto|done].
    + intros [(_ & -> & ->)|(subs & titles & Hg & Hs & Ht)].
      * eexists _, _. split; [reflexivity|]. rewrite mapGet_update.
        rewrite bool_decide_eq_true_2 by done. split; [reflexivity|].
        apply setAdd_elem. by left.
      * rewrite Hg. simpl. destruct (decide (sg = subGroup)) as [->|Es].
        -- eexists _, _. split; [reflexivity|]. rewrite mapGet_update.
           rewrite (bool_decide_eq_true_2 (subGroup = subGroup)) by done.
           rewrite Hs. simpl. split; [reflexivity|]. apply setAdd_elem. by right.
        -- exists (mapUpdate subGroup [] (setAdd title) subs), titles.
           split; [reflexivity|]. rewrite mapGet_update.
           rewrite (bool_decide_eq_false_2 (sg = subGroup)) by done.
           split; [exact Hs|exact Ht].
  - rewrite (bool_decide_eq_false_2 (g = group)) by done.
    split; [by right|]. intros [(? & _)|H]; [done|exact H].
Qed.

Lemma fold_addTitle_ok {X} (a b c : X → string) l m :
  groupsMapOk m → groupsMapOk (fold_left (fun m x => addTitle (a x) (b x) (c x) m) l m).
Proof.
  revert m. induction l as [|x l IH]; intros m Hm; simpl; [exact Hm|].
  apply IH. by apply addTitle_ok.
Qed.

Lemma fold_addTitle_in {X} (a b c : X → string) l m g sg t :
  inGroupsMap (fold_left (fun m x => addTitle (a x) (b x) (c x) m) l m) g sg t ↔
  (∃ x, x ∈ l ∧ a x = g ∧ b x = sg ∧ c x = t) ∨ inGroupsMap m g sg t.
Proof.
  revert m. induction l as [|x l IH]; intros m; simpl.
  - split; [by right|]. intros [(x & Hx & _)|H]; [by apply elem_of_nil in Hx|exact H].
  - rewrite IH, addTitle_in. split.
    + intros [(y & Hy & E)|[(-> & -> & ->)|H]].
      * left. exists y. split; [by right|exact E].
      * left. exists x. split; [by left|done].
      * by right.
    + intros [(y & Hy & E)|H].
      * apply elem_of_cons in Hy as [->|Hy].
        -- right. left. destruct E as (<- & <- & <-). done.
        -- left. by exists y.
      * right. by right.
Qed.

Lemma fillGroupsMap_ok functions customEvals : groupsMapOk (fillGroupsMap functions customEvals).
Proof.
  unfold fillGroupsMap.
  apply (fold_addTitle_ok ce_group ce_subGroup ce_title).
  apply (fold_addTitle_ok rf_group rf_subGroup rf_title).
  split; [constructor|constructor].
Qed.

Lemma fillGroupsMap_in functions customEvals g sg t :
  inGroupsMap (fillGroupsMap functions customEvals) g sg t ↔
  registeredTitle functions customEvals g sg t.
Proof.
  unfold fillGroupsMap, registeredTitle.
  rewrite (fold_addTitle_in ce_group ce_subGroup ce_title).
  rewrite (fold_addTitle_in rf_group rf_subGroup rf_title).
  split.
  - intros [H|[H|(subs & titles & Hg & _)]]; [by right|by left|done].
  - intros [H|H]; [right; by left|by left].
Qed.

Lemma filter_split_perm {A} (p : A → bool) l :
  List.filter p l ++ List.filter (fun x => negb (p x)) l ≡ₚ l.
Proof.
  induction l as [|x l IH]; simpl; [done|].
  destruct (p x); simpl.
  - by constructor.
  - rewrite <- Permutation_middle. by constructor.
Qed.

Lemma map_fst_subGroupInfo (subs : list (string * list string)) :
  map sg_name (map (fun sub : string * list string =>
                      {| sg_name := sub.1; sg_titles := sub.2 |}) subs) = map fst subs.
Proof. rewrite map_map. reflexivity. Qed.

(** The result lists what the map holds. *)
Lemma listed_inGroupsMap functions customEvals group subGroup title :
  listed (getGroups functions customEvals) group subGroup title ↔
  inGroupsMap (fillGroupsMap functions customEvals) group subGroup title.
Proof.
  unfold listed, inGroupsMap, getGroups.
  destruct (fillGroupsMap_ok functions customEvals) as [Hk Hall].
  set (m := fillGroupsMap functions customEvals) in *. split.
  - intros (g & sg & Hg & <- & Hsg & <- & Ht).
    apply list_elem_of_fmap in Hg as ([k subs] & -> & Hin). simpl in *.
    rewrite (elem_of_Permutation_proper _ _ _ (filter_split_perm _ _)) in Hsg.
    apply list_elem_of_fmap in Hsg as ([k' titles] & -> & Hin'). simpl in *.
    exists subs, titles. split; [by apply mapGet_elem|]. split; [|exact Ht].
    apply mapGet_elem; [|exact Hin'].
    rewrite Forall_forall in Hall. exact (proj1 (Hall _ Hin)).
  - intros (subs & titles & Hg & Hs & Ht).
    apply mapGet_elem in Hg; [|exact Hk].
    assert (Hsubs : NoDup (map fst subs)).
    { rewrite Forall_forall in Hall. exact (proj1 (Hall _ Hg)). }
    apply mapGet_elem in Hs; [|exact Hsubs].
    eexists _, {| sg_name := subGroup; sg_titles := titles |}.
    split; [apply list_elem_of_fmap; exists (group, subs); split; [reflexivity|exact Hg]|].
    split; [reflexivity|]. simpl. split; [|done].
    rewrite (elem_of_Permutation_proper _ _ _ (filter_split_perm _ _)).
    apply list_elem_of_fmap. by exists (subGroup, titles).
Qed.

(** X7. [getGroups()] lists a title under a subgroup of a group exactly when
    a registered function or a custom evaluation carries these three names. *)
Theorem getGroups_lists_the_registered functions customEvals group subGroup title :
  listed (getGroups functions customEvals) group subGroup title ↔
  registeredTitle functions customEvals group subGroup title.
Proof. rewrite listed_inGroupsMap. apply fillGroupsMap_in. Qed.

(** X16. For a registry that was built through the registration API,
    [getGroups()] lists a title under a subgroup of a group exactly when the
    hierarchy has a measure or evaluate leaf with that title whose path
    starts with the group and has the subgroup as its last but one segment
    (the group again for a leaf directly below the first level; for a leaf
    at the root the group and the subgroup are both its title). *)
Theorem getGroups_lists_the_hierarchy (script : list Decl) (group subGroup title : string) :
  let r := (registerAll script initialRegistry).2 in
  listed (getGroups (getRegisteredFunctions r) (getCustomEvaluations r)) group subGroup title ↔
  ∃ node, node ∈ subnodes (getTestHierarchy r) ∧ isMeasure node || isEvaluate node = true ∧
          legacyGroup (nodePath node) = group ∧ legacySubGroup (nodePath node) = subGroup ∧
          nodeTitle node = title.
Proof.
  intros r. rewrite listed_inGroupsMap, fillGroupsMap_in.
  destruct (registerAll_inOrder script initialRegistry initialRegistry_inOrder) as [Hf He].
  fold r in Hf, He.
  rewrite <- (leaves_hierarchy measureLeaf r) in Hf by done.
  rewrite <- (leaves_hierarchy evaluateLeaf r) in He by done.
  unfold registeredTitle, getRegisteredFunctions, getCustomEvaluations. rewrite Hf, He.
  split.
  - intros [(f & Hin & Hg & Hs & Ht)|(e & Hin & Hg & Hs & Ht)].
    + apply list_elem_of_omap in Hin as (node & Hnode & Hleaf). exists node.
      split; [exact Hnode|]. destruct node; try discriminate.
      injection Hleaf as <-. by repeat split.
    + apply list_elem_of_omap in Hin as (node & Hnode & Hleaf). exists node.
      split; [exact Hnode|]. destruct node; try discriminate.
      injection Hleaf as <-. by repeat split.
  - intros (node & Hnode & Hleaf & Hg & Hs & Ht).
    destruct node as [|t p fn g isAsync|t p chart fn g]; [discriminate|left|right].
    + exists (legacyFunction t p fn g isAsync). split; [|by repeat split].
      apply (list_elem_of_omap measureLeaf). eexists. split; [exact Hnode|done].
    + exists (legacyEvaluation t p chart fn g). split; [|by repeat split].
      apply (list_elem_of_omap evaluateLeaf). eexists. split; [exact Hnode|done].
Qed.

Lemma setAdd_nonempty x set : setAdd x set ≠ [].
Proof.
  unfold setAdd. case_bool_decide as Hx.
  - intros ->. by apply elem_of_nil in Hx.
  - destruct set; discriminate.
Qed.

Lemma mapUpdate_nonempty {V} key (empty : V) update m : mapUpdate key empty update m ≠ [].
Proof. destruct m as [|[k v] m]; simpl; [discriminate|]. case_bool_decide; discriminate. Qed.

Lemma addTitle_full group subGroup title m :
  groupsMapFull m → groupsMapFull (addTitle group subGroup title m).
Proof.
  intros Hall.
  apply (mapUpdate_Forall (fun subs => subs ≠ [] ∧ Forall (fun sub => sub.2 ≠ []) subs));
    [| |exact Hall].
  - split; [discriminate|]. constructor; [|constructor]. apply setAdd_nonempty.
  - intros subs [_ Ht]. split; [apply mapUpdate_nonempty|].
    apply (mapUpdate_Forall (fun titles => titles ≠ [])); [| |exact Ht].
    + apply setAdd_nonempty.
    + intros titles _. apply setAdd_nonempty.
Qed.

Lemma fold_addTitle_full {X} (a b c : X → string) l m :
  groupsMapFull m → groupsMapFull (fold_left (fun m x => addTitle (a x) (b x) (c x) m) l m).
Proof.
  revert m. induction l as [|x l IH]; intros m Hm; simpl; [exact Hm|].
  apply IH. by apply addTitle_full.
Qed.

Lemma fillGroupsMap_full functions customEvals :
  groupsMapFull (fillGroupsMap functions customEvals).
Proof.
  unfold fillGroupsMap.
  apply (fold_addTitle_full ce_group ce_subGroup ce_title).
  apply (fold_addTitle_full rf_group rf_subGroup rf_title).
  constructor.
Qed.

Lemma hasCustom_spec customEvals group subGroup :
  hasCustom customEvals group subGroup = true ↔
  ∃ e, e ∈ customEvals ∧ ce_group e = group ∧ ce_subGroup e = subGroup.
Proof.
  unfold hasCustom. rewrite existsb_exists. split.
  - intros (e & He & Hb). apply andb_true_iff in Hb as [H1 H2].
    apply bool_decide_eq_true in H1, H2. exists e. by rewrite list_elem_of_In.
  - intros (e & He & H1 & H2). exists e. rewrite <- list_elem_of_In. split; [exact He|].
    apply andb_true_iff. by rewrite !bool_decide_eq_true.
Qed.

(** X8. In the result of [getGroups()] no group name occurs twice, within a
    group no subgroup name occurs twice, within a subgroup no title occurs
    twice, and no group is without subgroups and no subgroup without titles. *)
Theorem getGroups_names_distinct functions customEvals :
  let groups := getGroups functions customEvals in
  NoDup (map gi_name groups) ∧
  Forall (fun g => gi_subGroups g ≠ [] ∧ NoDup (map sg_name (gi_subGroups g)) ∧
                   Forall (fun sg => sg_titles sg ≠ [] ∧ NoDup (sg_titles sg))
                     (gi_subGroups g)) groups.
Proof.
  intros groups. subst groups. unfold getGroups.
  destruct (fillGroupsMap_ok functions customEvals) as [Hk Hall].
  pose proof (fillGroupsMap_full functions customEvals) as Hfull.
  set (m := fillGroupsMap functions customEvals) in *. split.
  - rewrite map_map. exact Hk.
  - apply Forall_map. unfold groupsMapFull in Hfull.
    rewrite Forall_forall in Hall, Hfull. apply Forall_forall.
    intros [k subs] Hin. destruct (Hall _ Hin) as [Hs Ht]. destruct (Hfull _ Hin) as [Hn Hne].
    simpl in *.
    set (infos := map (fun sub : string * list string =>
                         {| sg_name := sub.1; sg_titles := sub.2 |}) subs).
    set (p := fun info => hasCustom customEvals k (sg_name info)).
    pose proof (filter_split_perm p infos) as Hperm.
    split; [|split].
    + intros E. change (List.filter p infos ++ List.filter (fun x => negb (p x)) infos = [])
        in E. rewrite E in Hperm. apply Permutation_nil_l in Hperm.
      subst infos. destruct subs; [done|discriminate].
    + change (NoDup (map sg_name (List.filter p infos ++
                                    List.filter (fun x => negb (p x)) infos))).
      rewrite Hperm. subst infos. by rewrite map_fst_subGroupInfo.
    + change (Forall (fun sg => sg_titles sg ≠ [] ∧ NoDup (sg_titles sg))
                (List.filter p infos ++ List.filter (fun x => negb (p x)) infos)).
      rewrite Hperm. subst infos. apply Forall_map.
      rewrite Forall_forall in Ht, Hne. apply Forall_forall. intros sub Hsub. simpl.
      split; [by apply Hne|by apply Ht].
Qed.

(** X9. In every group of the result of [getGroups()] the subgroups that hold a
    custom evaluation come first: the list of subgroups is a list of
    subgroups with a custom evaluation followed by a list of subgroups
    without one. *)
Theorem getGroups_custom_first functions customEvals :
  Forall (fun g =>
            ∃ customSubGroups standardSubGroups,
              gi_subGroups g = customSubGroups ++ standardSubGroups ∧
              Forall (fun sg => ∃ e, e ∈ customEvals ∧ ce_group e = gi_name g ∧
                                     ce_subGroup e = sg_name sg) customSubGroups ∧
              Forall (fun sg => ∀ e, e ∈ customEvals → ce_group e = gi_name g →
                                     ce_subGroup e ≠ sg_name sg) standardSubGroups)
    (getGroups functions customEvals).
Proof.
  unfold getGroups. apply Forall_map, Forall_forall. intros [k subs] _. simpl.
  eexists _, _. split; [reflexivity|]. split.
  - apply Forall_forall. intros sg Hsg. rewrite list_elem_of_In in Hsg.
    apply filter_In in Hsg as [_ Hsg]. by apply hasCustom_spec.
  - apply Forall_forall. intros sg Hsg e He Hg Hs. rewrite list_elem_of_In in Hsg.
    apply filter_In in Hsg as [_ Hsg]. apply negb_true_iff in Hsg.
    assert (hasCustom customEvals k (sg_name sg) = true) as Hc
      by (apply hasCustom_spec; by exists e).
    congruence.
Qed.

Lemma fold_setAdd {X} (a : X → string) (l : list X) (acc : list string) :
  fold_left (fun acc x => setAdd (a x) acc) l acc = acc ++ firstOccurrences acc (map a l).
Proof.
  revert acc. induction l as [|x l IH]; intros acc; simpl; [by rewrite app_nil_r|].
  rewrite IH. unfold setAdd. case_bool_decide; [reflexivity|]. by rewrite <- app_assoc.
Qed.

Lemma fold_addTitle_keys {X} (a b c : X → string) l m :
  map fst (fold_left (fun m x => addTitle (a x) (b x) (c x) m) l m)
  = fold_left (fun acc x => setAdd (a x) acc) l (map fst m).
Proof.
  revert m. induction l as [|x l IH]; intros m; simpl; [reflexivity|].
  rewrite IH. f_equal. unfold addTitle. apply mapUpdate_keys.
Qed.

Lemma firstOccurrences_app seen l1 l2 :
  firstOccurrences seen (l1 ++ l2)
  = firstOccurrences seen l1 ++ firstOccurrences (seen ++ firstOccurrences seen l1) l2.
Proof.
  revert seen. induction l1 as [|x l1 IH]; intros seen; simpl; [by rewrite app_nil_r|].
  case_bool_decide; [apply IH|]. simpl. rewrite IH. by rewrite <- app_assoc.
Qed.

(** X20. [getGroups()] lists the groups in the order in which their names
    first occur among the registered functions followed by the custom
    evaluations. *)
Theorem getGroups_order functions customEvals :
  map gi_name (getGroups functions customEvals)
  = firstOccurrences [] (map rf_group functions ++ map ce_group customEvals).
Proof.
  unfold getGroups. rewrite map_map. simpl.
  change (map (fun x : string * list (string * list string) => x.1)
            (fillGroupsMap functions customEvals))
    with (map fst (fillGroupsMap functions customEvals)).
  unfold fillGroupsMap.
  rewrite (fold_addTitle_keys ce_group ce_subGroup ce_title).
  rewrite (fold_addTitle_keys rf_group rf_subGroup rf_title). simpl.
  rewrite !fold_setAdd, firstOccurrences_app. reflexivity.
Qed.

(** ** What the events of a run carry *)

Section PayloadRun.
Context {num : Type} {NO : NumOps num} {D : Type}.
Variable o : Oracle num D.
Implicit Types (s : St num D) (acts : list (Act num D)).

Lemma samples_quiet {A} (m : M num D A) s :
  samples o m → post o m s (fun _ acts => events acts = []).
Proof. intros H. eapply post_mono; [apply H|]. by intros r acts [He _]. Qed.

(** Sampling whose result has the property [R], then a computation whose
    events have the property [P]. *)
Lemma post_bind_payload {A B} (m : M num D A) (k : A → M num D B)
    (P : ProgressEvent num → Prop) (R : A → Prop) s :
  post o m s (fun r acts => Forall P (events acts) ∧ ∀ a, r = Ok a → R a) →
  (∀ a s', R a → post o (k a) s' (fun _ acts => Forall P (events acts))) →
  post o (bind m k) s (fun _ acts => Forall P (events acts)).
Proof.
  intros Hm Hk. apply post_bind. eapply post_mono; [exact Hm|].
  intros [a|e] acts1 [H1 HR]; [|exact H1].
  eapply post_mono; [apply Hk, HR; reflexivity|].
  intros r acts2 H2. rewrite events_app. by apply Forall_app.
Qed.

Lemma post_sampling {A} (m : M num D A) (P : ProgressEvent num → Prop) (R : A → Prop) s :
  samples o m → post o m s (fun r _ => ∀ a, r = Ok a → R a) →
  post o m s (fun r acts => Forall P (events acts) ∧ ∀ a, r = Ok a → R a).
Proof.
  intros Hs HR. eapply post_mono; [apply post_and; [apply (samples_quiet m s Hs)|exact HR]|].
  intros r acts [He H]. rewrite He. by split.
Qed.

Lemma post_any {A} (m : M num D A) s (Q : Res A → Prop) :
  (∀ r, Q r) → (∃ acts, (m s).2 = replay o s acts) → post o m s (fun r _ => Q r).
Proof. intros HQ [acts H]. exists acts. auto. Qed.

Lemma post_forEachPush_length {A B} (body : A → M num D B) l s :
  (∀ x, samples o (body x)) →
  post o (forEachPush body l) s (fun r _ => ∀ ys, r = Ok ys → length ys = length l).
Proof.
  intros Hbody. revert s. induction l as [|x l IH]; intros s; simpl.
  - apply post_ret. by intros ys [= <-].
  - apply post_bind. eapply post_mono; [apply Hbody|].
    intros [y|e] acts1 _; [|done]. apply post_bind.
    eapply post_mono; [apply IH|]. intros [ys|e] acts2 Hys; [|done].
    apply post_ret. intros ? [= <-]. simpl. by rewrite (Hys ys eq_refl).
Qed.

Lemma measureSeriesMemoryAsync_values count (data : list D) fn s :
  post o (measureSeriesMemoryAsync o count data fn) s
    (fun r _ => ∀ memories, r = Ok memories →
       length memories = N.to_nat (count mod 2 ^ 32)%N ∧
       Forall (fun m => ∃ d, m = n_max2 (n_of_N 0) d) memories).
Proof.
  unfold measureSeriesMemoryAsync. apply post_bind.
  eapply post_mono; [apply (measureSeriesMemory_values o)|].
  intros [memories|e] acts1 H; [|done].
  apply post_bind, post_suspend; [reflexivity|]. apply post_ret.
  intros ? [= <-]. by apply H.
Qed.

Section PayloadLoops.
Variable sharing : bool.
Variable cnt seriesSizeV seriesCountV : N.
Variable delayV : num.
Variable forceGCV : bool.
Variable memV : option N.
Variable totalSteps : num.

Abbreviation carried := (fun (_ : Res num) acts => Forall (payload cnt memV) (events acts)).

Lemma generateData_length g (size : num) s :
  post o (generateData o cnt g size) s
    (fun r _ => ∀ l, r = Ok l → length l = N.to_nat cnt).
Proof.
  eapply post_mono; [apply (post_forPush_Forall o _ (fun _ => True))|].
  - intros i s'. eapply post_mono; [apply samples_quiet; auto with samples|]. done.
  - intros r acts H l Hl. by destruct (H l Hl).
Qed.

Lemma emit_payload ev (cur : num) s :
  payload cnt memV ev →
  post o (do! onProgress o ev in ret cur) s carried.
Proof.
  intros Hev. unfold onProgress. apply post_bind, post_bind, post_call; [reflexivity|].
  destruct (r_throw _) as [e|].
  - simpl. by constructor.
  - apply post_ret, post_ret. simpl. by constructor.
Qed.

Lemma runEvaluate_payload item customEval (size : num) shared cur s :
  (∀ l, shared = Some l → length l = N.to_nat cnt) →
  post o (runEvaluate o cnt totalSteps item customEval size shared cur) s carried.
Proof.
  intros Hshared. unfold runEvaluate.
  apply (post_bind_payload _ _ _ (fun values => length values = N.to_nat cnt)).
  - destruct shared as [l|].
    + apply post_sampling; [apply samples_forEachPush; intros; auto 10 with samples|].
      eapply post_mono; [apply post_forEachPush_length; intros; auto 10 with samples|].
      intros r acts H ys Hys. rewrite (H ys Hys). by apply Hshared.
    + apply post_sampling; [apply samples_forPush; intros; auto 10 with samples|].
      eapply post_mono; [apply (post_forPush_Forall o _ (fun _ => True))|].
      * intros i s'. eapply post_mono; [apply samples_quiet; auto 10 with samples|]. done.
      * intros r acts H l Hl. by destruct (H l Hl).
  - intros values s' Hlen. apply emit_payload. unfold payload, customStats. simpl.
    by repeat split.
Qed.

Lemma runMeasure_payload item func (size : num) shared cur s :
  post o (runMeasure o cnt seriesSizeV seriesCountV delayV forceGCV memV totalSteps
            item func size shared cur) s carried.
Proof.
  unfold runMeasure.
  apply (post_bind_payload _ _ _ (fun _ => True)).
  { apply post_sampling; [destruct shared; [apply samples_ret|apply samples_generateData]|].
    eapply post_mono; [apply samples_quiet;
                       destruct shared; [apply samples_ret|apply samples_generateData]|].
    done. }
  intros dataArray s1 _.
  apply (post_bind_payload _ _ _ (fun _ => True)).
  { apply post_sampling; [apply samples_seriesLoop|].
    eapply post_mono; [apply samples_quiet, samples_seriesLoop|]. done. }
  intros durations s2 _.
  apply (post_bind_payload _ _ _ (fun memoryUsages =>
    match memoryUsages with
    | Some memories =>
        (∃ count, memV = Some count ∧ (0 < count)%N ∧
                  length memories = N.to_nat (count mod 2 ^ 32)%N) ∧
        Forall (fun m => ∃ d, m = n_max2 (n_of_N 0) d) memories
    | None => memV = None ∨ memV = Some 0%N
    end)).
  { apply post_sampling.
    - destruct memV as [count|]; [|apply samples_ret].
      destruct (0 <? count)%N; [|apply samples_ret].
      destruct (default false (rf_isAsync func)); auto with samples.
    - destruct memV as [count|]; [|apply post_ret; intros ? [= <-]; by left].
      destruct (0 <? count)%N eqn:Hpos.
      + apply N.ltb_lt in Hpos. apply post_bind.
        destruct (default false (rf_isAsync func)).
        * eapply post_mono; [apply measureSeriesMemoryAsync_values|].
          intros [m|e] acts H; [|done]. apply post_ret. intros ? [= <-].
          destruct (H m eq_refl) as [Hlen Hall]. split; [eauto|exact Hall].
        * eapply post_mono; [apply (measureSeriesMemory_values o)|].
          intros [m|e] acts H; [|done]. apply post_ret. intros ? [= <-].
          destruct (H m eq_refl) as [Hlen Hall]. split; [eauto|exact Hall].
      + apply N.ltb_ge in Hpos. apply post_ret. intros ? [= <-]. right. f_equal. lia. }
  intros memoryUsages s3 Hmem.
  apply emit_payload. unfold payload, memoryStats. simpl.
  split; [reflexivity|]. split; [reflexivity|]. split; [reflexivity|].
  destruct memoryUsages as [memories|]; simpl.
  - destruct Hmem as [Hcount Hall]. by repeat split.
  - by repeat split.
Qed.

Lemma runItem_payload item (size : num) shared cur s :
  (∀ l, shared = Some l → length l = N.to_nat cnt) →
  post o (runItem o cnt seriesSizeV seriesCountV delayV forceGCV memV totalSteps
            item size shared cur) s carried.
Proof.
  intros Hshared. unfold runItem. destruct (ui_body item).
  - apply runMeasure_payload.
  - by apply runEvaluate_payload.
Qed.

Lemma post_bind_carried (m : M num D num) (k : num → M num D num) s :
  post o m s carried → (∀ c s', post o (k c) s' carried) → post o (bind m k) s carried.
Proof.
  intros Hm Hk. apply (post_bind_payload _ _ _ (fun _ => True)).
  - eapply post_mono; [exact Hm|]. by intros r acts H.
  - intros c s' _. apply Hk.
Qed.

Lemma runItems_payload pathKey (size : num) shared items cur s :
  (∀ l, shared = Some l → length l = N.to_nat cnt) →
  post o (runItems o cnt seriesSizeV seriesCountV delayV forceGCV memV totalSteps
            pathKey size shared items cur) s carried.
Proof.
  intros Hshared. revert cur s. induction items as [|item rest IH]; intros cur s; simpl.
  - by apply post_ret.
  - apply post_ifState. destruct (stopRequested (eng s)); [by apply post_ret|].
    apply post_ifState. destruct (isSkipped pathKey (eng s)); [by apply post_ret|].
    apply post_bind_carried; [by apply runItem_payload|]. intros c s'. apply IH.
Qed.

Lemma runSizes_payload pathKey items (sizes : list num) cur s :
  post o (runSizes o sharing cnt seriesSizeV seriesCountV delayV forceGCV memV totalSteps
            pathKey items sizes cur) s carried.
Proof.
  revert cur s. induction sizes as [|size rest IH]; intros cur s; simpl.
  - by apply post_ret.
  - apply post_ifState. destruct (stopRequested (eng s)); [by apply post_ret|].
    apply post_ifState. destruct (isSkipped pathKey (eng s)); [by apply post_ret|].
    apply (post_bind_payload _ _ _
             (fun shared => ∀ l, shared = Some l → length l = N.to_nat cnt)).
    + destruct items as [|firstItem more].
      { apply post_ret. split; [constructor|]. by intros ? [= <-]. }
      destruct (sharing && allUseSameGenerator (firstItem :: more)).
      * apply post_sampling; [auto using samples_generateData with samples|].
        apply post_bind. eapply post_mono; [apply generateData_length|].
        intros [l|e] acts H; [|done]. apply post_ret. intros ? [= <-] l' [= <-].
        by apply H.
      * apply post_ret. split; [constructor|]. by intros ? [= <-].
    + intros shared s' Hshared.
      apply post_bind_carried; [by apply runItems_payload|]. intros c s''. apply IH.
Qed.

Lemma runGroups_payload plan (sizes : list num) pathKeys cur s :
  post o (runGroups o sharing cnt seriesSizeV seriesCountV delayV forceGCV memV totalSteps
            plan sizes pathKeys cur) s carried.
Proof.
  revert cur s. induction pathKeys as [|pathKey rest IH]; intros cur s; simpl.
  - by apply post_ret.
  - apply post_ifState. destruct (stopRequested (eng s)); [by apply post_ret|].
    case_bool_decide; [apply IH|].
    apply post_ifState. destruct (isSkipped pathKey (eng s)); [apply IH|].
    apply post_bind_carried; [apply runSizes_payload|]. intros c s'. apply IH.
Qed.

End PayloadLoops.

Lemma runWith_payload sharing (registry : Registry num) config s0 :
  Forall (payload (dataUnitsCountOf registry config)
            (memoryMeasurementsCountOf registry config))
    (eventsOf (runWith o sharing registry config) s0).
Proof.
  destruct (runGroups_payload sharing (dataUnitsCountOf registry config)
              (seriesSizeOf registry config) (seriesCountOf registry config)
              (delayOf registry config) (forceGCOf registry config)
              (memoryMeasurementsCountOf registry config)
              (totalStepsOf (planOf registry config) (sizesOf registry config))
              (planOf registry config) (sizesOf registry config)
              (plan_allPathKeys (planOf registry config)) (n_of_N 0) (resetEngine s0))
    as (acts & Hs & H).
  unfold eventsOf.
  rewrite (actsOf_replay o (runWith o sharing registry config) s0 (resetEngine s0) acts
             eq_refl); [exact H|].
  unfold runWith, bind.
  destruct (runGroups _ _ _ _ _ _ _ _ _ _ _ _ _) as [[c|e] s1]; exact Hs.
Qed.

(** X17. Every event of every run carries either the result of a measure
    leaf or the result of an evaluate leaf, never both and never none. The
    result of an evaluate leaf has the path, the title and the data size of
    its event and one value per data unit ([dataUnitsCount] of them); its
    average is the sum of the values divided by their number, its minimum
    and maximum are [Math.min] and [Math.max] of the values. *)
Theorem evaluate_statistics (registry : Registry num) (config : MeasurementConfig num)
    (s0 : St num D) :
  Forall (fun ev =>
            match ev_result ev, ev_customResult ev with
            | Some _, None => True
            | None, Some c =>
                cr_path c = ev_path ev ∧ cr_title c = ev_title ev ∧
                cr_dataSize c = ev_dataSize ev ∧
                length (cr_values c) = N.to_nat (dataUnitsCountOf registry config) ∧
                cr_avg c = n_div (fold_left n_add (cr_values c) (n_of_N 0))
                             (n_of_N (N.of_nat (length (cr_values c)))) ∧
                cr_min c = fold_left n_min2 (cr_values c) n_pinf ∧
                cr_max c = fold_left n_max2 (cr_values c) n_ninf
            | _, _ => False
            end)
    (eventsOf (runMeasurements o registry config) s0).
Proof.
  eapply Forall_impl; [apply (runWith_payload true)|].
  intros ev H. unfold payload in H.
  destruct (ev_result ev), (ev_customResult ev); try done.
Qed.

End PayloadRun.

(** ** What the events report of what was measured *)

Section MeasuredRun.
Context {num : Type} {NO : NumOps num} {D : Type}.
Variable o : Oracle num D.
Implicit Types (s : St num D) (acts : list (Act num D)).

Lemma measuredUnits_app s acts1 acts2 times mems :
  measuredUnits o s (acts1 ++ acts2) times mems
  = measuredUnits o s acts1 times mems ++
    measuredUnits o (replay o s acts1) acts2
      (pendingReadings o s acts1 times mems).1 (pendingReadings o s acts1 times mems).2.
Proof.
  revert s times mems. induction acts1 as [|a acts1 IH]; intros s times mems; [reflexivity|].
  destruct a; simpl; rewrite IH; reflexivity.
Qed.

Lemma pendingReadings_app s acts1 acts2 times mems :
  pendingReadings o s (acts1 ++ acts2) times mems
  = pendingReadings o (replay o s acts1) acts2
      (pendingReadings o s acts1 times mems).1 (pendingReadings o s acts1 times mems).2.
Proof.
  revert s times mems. induction acts1 as [|a acts1 IH]; intros s times mems; [reflexivity|].
  destruct a; simpl; rewrite IH; reflexivity.
Qed.

Lemma measuredUnits_events s acts times mems :
  map mu_event (measuredUnits o s acts times mems) = events acts.
Proof.
  revert s times mems. induction acts as [|a acts IH]; intros s times mems; [reflexivity|].
  destruct a; simpl; rewrite ?IH; reflexivity.
Qed.

Lemma measuredUnits_flags s acts times mems :
  map (fun u => (mu_flag u, mu_event u)) (measuredUnits o s acts times mems)
  = flaggedEvents o s acts.
Proof.
  revert s times mems. induction acts as [|a acts IH]; intros s times mems; [reflexivity|].
  destruct a; simpl; rewrite ?IH; reflexivity.
Qed.

Lemma silent_measured s acts times mems :
  forallb isSilent acts = true →
  measuredUnits o s acts times mems = [] ∧ pendingReadings o s acts times mems = (times, mems).
Proof.
  revert s. induction acts as [|a acts IH]; intros s H; [done|].
  simpl in H. apply andb_true_iff in H as [Ha H].
  destruct a; try discriminate; simpl; by apply IH.
Qed.

Lemma silently_ret {A} (a : A) : silently o (ret a).
Proof. intros s. by apply post_ret. Qed.

Lemma silently_bind {A B} (m : M num D A) (k : A → M num D B) :
  silently o m → (∀ a, silently o (k a)) → silently o (bind m k).
Proof.
  intros Hm Hk s. apply post_bind. eapply post_mono; [apply Hm|].
  intros [a|e] acts1 H1; [|exact H1].
  eapply post_mono; [apply Hk|]. intros r acts2 H2. rewrite forallb_app.
  by rewrite H1, H2.
Qed.

Lemma silently_call (a : Act num D) :
  affects a = true → isSilent a = true → silently o (call o a).
Proof. intros Ha Hs s. apply post_call; [exact Ha|]. simpl. by rewrite Hs. Qed.

Lemma silently_callFn f (datum : option D) : silently o (callFn o f datum).
Proof.
  apply silently_bind; [by apply silently_call|]. intros r. apply silently_ret.
Qed.

Lemma silently_callGenerator g (size : num) : silently o (callGenerator o g size).
Proof.
  apply silently_bind; [by apply silently_call|]. intros r. apply silently_ret.
Qed.

Lemma silently_suspend (a : Act num D) :
  affects a = true → isSilent a = true → silently o (suspend o a).
Proof. intros Ha Hs s. apply post_suspend; [exact Ha|]. simpl. by rewrite Hs. Qed.

Lemma silently_runGC : silently o (runGC o).
Proof.
  intros s. unfold runGC. apply post_bind, post_probe; [reflexivity|]. by apply post_ret.
Qed.

Lemma silently_forPush {A} (body : N → M num D A) i n :
  (∀ j, silently o (body j)) → silently o (forPush body i n).
Proof.
  intros Hb. revert i. induction n as [|n IH]; intros i; simpl.
  - apply silently_ret.
  - apply silently_bind; [apply Hb|]. intros x.
    apply silently_bind; [apply IH|]. intros xs. apply silently_ret.
Qed.

Lemma silently_forEachPush {A B} (body : A → M num D B) l :
  (∀ x, silently o (body x)) → silently o (forEachPush body l).
Proof.
  intros Hb. induction l as [|x l IH]; simpl.
  - apply silently_ret.
  - apply silently_bind; [apply Hb|]. intros y.
    apply silently_bind; [apply IH|]. intros ys. apply silently_ret.
Qed.

Lemma silently_generateData cnt g (size : num) : silently o (generateData o cnt g size).
Proof. apply silently_forPush. intros j. apply silently_callGenerator. Qed.

Lemma reads_silently {A} (m : M num D A) :
  silently o m → reads o m (fun _ _ T M => T = [] ∧ M = []).
Proof.
  intros Hm s times mems. eapply post_mono; [apply Hm|]. intros r acts H.
  destruct (silent_measured s acts times mems H) as [-> ->]. split; [reflexivity|].
  intros a _. exists [], []. by rewrite !app_nil_r.
Qed.

Lemma reads_mono {A} (m : M num D A) (R R' : St num D → A → list num → list num → Prop) :
  reads o m R → (∀ s a T M, R s a T M → R' s a T M) → reads o m R'.
Proof.
  intros Hm HR s times mems. eapply post_mono; [apply Hm|]. intros r acts [He H].
  split; [exact He|]. intros a Ha. destruct (H a Ha) as (T & M & Hp & HRa). eauto.
Qed.

Lemma reads_bind {A B} (m : M num D A) (k : A → M num D B) R1 R2
    (R : St num D → B → list num → list num → Prop) :
  reads o m R1 → (∀ a, reads o (k a) (R2 a)) →
  (∀ s1 s2 a b T1 M1 T2 M2, R1 s1 a T1 M1 → R2 a s2 b T2 M2 → R s2 b (T1 ++ T2) (M1 ++ M2)) →
  reads o (bind m k) R.
Proof.
  intros Hm Hk HR s times mems. apply post_bind. eapply post_mono; [apply Hm|].
  intros [a|e] acts1 [He1 H1]; [|split; [exact He1|done]].
  destruct (H1 a eq_refl) as (T1 & M1 & Hp1 & HR1).
  eapply post_mono; [apply (Hk a (replay o s acts1) (times ++ T1) (mems ++ M1))|].
  intros r acts2 [He2 H2]. rewrite measuredUnits_app, pendingReadings_app, He1, Hp1. simpl.
  split; [exact He2|]. intros b Hb. destruct (H2 b Hb) as (T2 & M2 & Hp2 & HR2).
  exists (T1 ++ T2), (M1 ++ M2). rewrite Hp2, !app_assoc. split; [reflexivity|].
  rewrite replay_app. eauto.
Qed.

Lemma reads_probe_time :
  reads o (getTime o) (fun _ a T M => T = [a] ∧ M = []).
Proof.
  intros s times mems. apply post_probe; [reflexivity|]. simpl. split; [reflexivity|].
  intros a [= <-]. exists [r_num (o (length (trace s)) ATime)], [].
  by rewrite app_nil_r.
Qed.

Lemma reads_probe_mem :
  reads o (getMemoryUsage o) (fun _ a T M => T = [] ∧ M = [a]).
Proof.
  intros s times mems. apply post_probe; [reflexivity|]. simpl. split; [reflexivity|].
  intros a [= <-]. exists [], [r_num (o (length (trace s)) AMem)].
  by rewrite app_nil_r.
Qed.

Lemma reads_ret {A} (a : A) : reads o (ret a) (fun _ b T M => T = [] ∧ M = [] ∧ b = a).
Proof.
  intros s times mems. apply post_ret. split; [reflexivity|]. intros b [= <-].
  exists [], []. by rewrite !app_nil_r.
Qed.

Lemma reads_measureSeries seriesSize (data : list D) fn :
  reads o (measureSeries o seriesSize data fn)
    (fun _ d T M => ∃ startTime endTime, T = [startTime; endTime] ∧ M = [] ∧
                                          d = n_sub endTime startTime).
Proof.
  unfold measureSeries.
  apply (reads_bind _ _ (fun _ a T M => T = [a] ∧ M = [])
           (fun startTime _ d T M => ∃ endTime, T = [endTime] ∧ M = [] ∧
                                                d = n_sub endTime startTime));
    [apply reads_probe_time| |].
  - intros startTime.
    apply (reads_bind _ _ (fun _ _ T M => T = [] ∧ M = [])
             (fun _ _ d T M => ∃ endTime, T = [endTime] ∧ M = [] ∧
                                          d = n_sub endTime startTime)).
    + apply reads_silently, silently_forPush. intros j. apply silently_callFn.
    + intros xs.
      apply (reads_bind _ _ (fun _ a T M => T = [a] ∧ M = [])
               (fun endTime _ d T M => T = [] ∧ M = [] ∧ d = n_sub endTime startTime));
        [apply reads_probe_time|intros endTime; apply reads_ret|].
      intros s1 s2 a b T1 M1 T2 M2 [-> ->] (-> & -> & ->). eauto.
    + intros s1 s2 a b T1 M1 T2 M2 [-> ->] (e & -> & -> & ->). eauto.
  - intros s1 s2 a b T1 M1 T2 M2 [-> ->] (e & -> & -> & ->). simpl. eauto.
Qed.

Lemma reads_series seriesSize (func : RegisteredFunction) (dataArray : list D) :
  reads o (if default false (rf_isAsync func)
         then measureSeriesAsync o seriesSize dataArray (rf_fn func)
         else measureSeries o seriesSize dataArray (rf_fn func))
    (fun _ d T M => ∃ startTime endTime, T = [startTime; endTime] ∧ M = [] ∧
                                          d = n_sub endTime startTime).
Proof.
  destruct (default false (rf_isAsync func)); [|apply reads_measureSeries].
  unfold measureSeriesAsync.
  apply (reads_bind _ _ (fun _ d T M => ∃ startTime endTime, T = [startTime; endTime] ∧
                                         M = [] ∧ d = n_sub endTime startTime)
           (fun d _ d' T M => T = [] ∧ M = [] ∧ d' = d)); [apply reads_measureSeries| |].
  - intros d.
    apply (reads_bind _ _ (fun _ _ T M => T = [] ∧ M = [])
             (fun _ _ d' T M => T = [] ∧ M = [] ∧ d' = d)).
    + by apply reads_silently, silently_suspend.
    + intros _. apply reads_ret.
    + by intros s1 s2 a b T1 M1 T2 M2 [-> ->] (-> & -> & ->).
  - intros s1 s2 a b T1 M1 T2 M2 (st & en & -> & -> & ->) (-> & -> & ->). simpl. eauto.
Qed.

Lemma reads_seriesLoop seriesSizeV (delayV : num) forceGCV func (dataArray : list D) n ds :
  reads o (seriesLoop o seriesSizeV delayV forceGCV func dataArray n ds)
    (fun _ ds' T M => ∃ more, ds' = ds ++ more ∧ differences T = more ∧ M = []).
Proof.
  revert ds. induction n as [|n IH]; intros ds; simpl.
  - eapply reads_mono; [apply reads_ret|]. intros s a T M (-> & -> & ->). exists [].
    by rewrite app_nil_r.
  - intros s times mems. apply post_ifState. destruct (stopRequested (eng s)).
    { eapply post_mono; [apply (reads_ret ds s times mems)|]. intros r acts [He H].
      split; [exact He|]. intros a Ha. destruct (H a Ha) as (T & M & Hp & -> & -> & ->).
      exists [], []. split; [exact Hp|]. exists []. by rewrite app_nil_r. }
    match goal with
    | |- post o ?m s _ =>
        assert (Hrest : reads o m (fun _ ds' T M =>
                  ∃ more, ds' = ds ++ more ∧ differences T = more ∧ M = []));
          [|apply Hrest]
    end.
    apply (reads_bind _ _ (fun _ _ T M => T = [] ∧ M = [])
             (fun _ _ ds' T M => ∃ more, ds' = ds ++ more ∧ differences T = more ∧ M = [])).
    + apply reads_silently. destruct forceGCV; [apply silently_runGC|apply silently_ret].
    + intros _.
      apply (reads_bind _ _ (fun _ d T M => ∃ startTime endTime, T = [startTime; endTime] ∧
                                             M = [] ∧ d = n_sub endTime startTime)
               (fun d _ ds' T M => ∃ more, ds' = (ds ++ [d]) ++ more ∧ differences T = more ∧
                                           M = [])); [apply reads_series| |].
      * intros d.
        apply (reads_bind _ _ (fun _ _ T M => T = [] ∧ M = [])
                 (fun _ _ ds' T M => ∃ more, ds' = (ds ++ [d]) ++ more ∧
                                             differences T = more ∧ M = [])).
        -- by apply reads_silently, silently_suspend.
        -- intros _. apply IH.
        -- by intros s1 s2 a b T1 M1 T2 M2 [-> ->] H.
      * intros s1 s2 d b T1 M1 T2 M2 (st & en & -> & -> & ->) (more & -> & <- & ->).
        exists (n_sub en st :: differences T2). by rewrite <- app_assoc.
    + by intros s1 s2 a b T1 M1 T2 M2 [-> ->] H.
Qed.

Lemma reads_measureSeriesMemory count (data : list D) fn :
  reads o (measureSeriesMemory o count data fn)
    (fun _ memories T M => T = [] ∧ memories = map (n_max2 (n_of_N 0)) (differences M)).
Proof.
  unfold measureSeriesMemory.
  match goal with
  | |- reads o (forPush ?body _ _) ?R =>
      cut (∀ n i, reads o (forPush body i n) R); [intros H; apply H|]
  end.
  induction n as [|n IH]; intros i; simpl.
  - eapply reads_mono; [apply reads_ret|]. by intros s a T M (-> & -> & ->).
  - apply (reads_bind _ _
             (fun _ x T M => T = [] ∧ ∃ startMemory endMemory, M = [startMemory; endMemory] ∧
                               x = n_max2 (n_of_N 0) (n_sub endMemory startMemory))
             (fun x _ xs T M => T = [] ∧ ∃ rest, xs = x :: rest ∧
                                  rest = map (n_max2 (n_of_N 0)) (differences M))).
    + apply (reads_bind _ _ (fun _ _ T M => T = [] ∧ M = [])
               (fun _ _ x T M => T = [] ∧ ∃ startMemory endMemory,
                                   M = [startMemory; endMemory] ∧
                                   x = n_max2 (n_of_N 0) (n_sub endMemory startMemory))).
      * apply reads_silently, silently_runGC.
      * intros _.
        apply (reads_bind _ _ (fun _ a T M => T = [] ∧ M = [a])
                 (fun startMemory _ x T M =>
                    T = [] ∧ ∃ endMemory, M = [endMemory] ∧
                      x = n_max2 (n_of_N 0) (n_sub endMemory startMemory)));
          [apply reads_probe_mem| |].
        -- intros startMemory.
           apply (reads_bind _ _ (fun _ _ T M => T = [] ∧ M = [])
                    (fun _ _ x T M =>
                       T = [] ∧ ∃ endMemory, M = [endMemory] ∧
                         x = n_max2 (n_of_N 0) (n_sub endMemory startMemory))).
           ++ apply reads_silently, silently_callFn.
           ++ intros _.
              apply (reads_bind _ _ (fun _ a T M => T = [] ∧ M = [a])
                       (fun endMemory _ x T M =>
                          T = [] ∧ M = [] ∧
                          x = n_max2 (n_of_N 0) (n_sub endMemory startMemory)));
                [apply reads_probe_mem|intros endMemory; apply reads_ret|].
              intros s1 s2 a b T1 M1 T2 M2 [-> ->] (-> & -> & ->). eauto.
           ++ by intros s1 s2 a b T1 M1 T2 M2 [-> ->] H.
        -- intros s1 s2 a b T1 M1 T2 M2 [-> ->] (-> & e & -> & ->). eauto.
      * by intros s1 s2 a b T1 M1 T2 M2 [-> ->] H.
    + intros x.
      apply (reads_bind _ _
               (fun _ xs T M => T = [] ∧ xs = map (n_max2 (n_of_N 0)) (differences M))
               (fun xs _ xs' T M => T = [] ∧ M = [] ∧ xs' = x :: xs)); [apply IH| |].
      * intros xs. apply reads_ret.
      * intros s1 s2 a b T1 M1 T2 M2 [-> ->] (-> & -> & ->). rewrite (app_nil_r M1).
        split; [reflexivity|]. eexists. split; reflexivity.
    + intros s1 s2 a b T1 M1 T2 M2 (-> & st & en & -> & ->) (-> & rest & -> & ->). done.
Qed.

Lemma reads_memory count func (dataArray : list D) :
  reads o (if default false (rf_isAsync func)
         then measureSeriesMemoryAsync o count dataArray (rf_fn func)
         else measureSeriesMemory o count dataArray (rf_fn func))
    (fun _ memories T M => T = [] ∧ memories = map (n_max2 (n_of_N 0)) (differences M)).
Proof.
  destruct (default false (rf_isAsync func)); [|apply reads_measureSeriesMemory].
  unfold measureSeriesMemoryAsync.
  apply (reads_bind _ _
           (fun _ ms T M => T = [] ∧ ms = map (n_max2 (n_of_N 0)) (differences M))
           (fun ms _ ms' T M => T = [] ∧ M = [] ∧ ms' = ms));
    [apply reads_measureSeriesMemory| |].
  - intros ms.
    apply (reads_bind _ _ (fun _ _ T M => T = [] ∧ M = [])
             (fun _ _ ms' T M => T = [] ∧ M = [] ∧ ms' = ms)).
    + by apply reads_silently, silently_suspend.
    + intros _. apply reads_ret.
    + by intros s1 s2 a b T1 M1 T2 M2 [-> ->] (-> & -> & ->).
  - intros s1 s2 a b T1 M1 T2 M2 [-> ->] (-> & -> & ->). by rewrite (app_nil_r M1).
Qed.

Section MeasuredLoops.
Variable sharing : bool.
Variable cnt seriesSizeV seriesCountV : N.
Variable delayV : num.
Variable forceGCV : bool.
Variable memV : option N.
Variable totalSteps : num.

(** A part of the sampling, then the rest of the unit. *)
Lemma post_bind_reading {A} (m : M num D A) (k : A → M num D num)
    (R : St num D → A → list num → list num → Prop) s times mems :
  post o m s (fun r acts =>
    measuredUnits o s acts times mems = [] ∧
    ∀ a, r = Ok a →
      ∃ T M, pendingReadings o s acts times mems = (times ++ T, mems ++ M) ∧
             R (replay o s acts) a T M) →
  (∀ a s' T M, R s' a T M →
     post o (k a) s' (measuredPost o seriesSizeV seriesCountV s' (times ++ T) (mems ++ M))) →
  post o (bind m k) s (measuredPost o seriesSizeV seriesCountV s times mems).
Proof.
  intros Hm Hk. apply post_bind. eapply post_mono; [exact Hm|].
  intros [a|e] acts1 [He1 H1].
  - destruct (H1 a eq_refl) as (T & M & Hp & HR).
    eapply post_mono; [apply (Hk a _ T M HR)|]. intros r acts2 [Hall Hpend].
    unfold measuredPost. rewrite measuredUnits_app, pendingReadings_app, He1, Hp. simpl.
    by split.
  - split; [by rewrite He1|done].
Qed.

Lemma emit_measured ev (cur : num) s times mems :
  reportsMeasured seriesSizeV seriesCountV
    {| mu_flag := stopRequested (eng s); mu_event := ev;
       mu_times := times; mu_memory := mems |} →
  post o (do! onProgress o ev in ret cur) s (measuredPost o seriesSizeV seriesCountV s times mems).
Proof.
  intros Hev. unfold onProgress. apply post_bind, post_bind, post_call; [reflexivity|].
  destruct (r_throw _) as [e|].
  - split; [|done]. simpl. constructor; [exact Hev|constructor].
  - apply post_ret, post_ret. split; [|done]. simpl. constructor; [exact Hev|constructor].
Qed.

Lemma runEvaluate_measured item customEval (size : num) shared cur s :
  post o (runEvaluate o cnt totalSteps item customEval size shared cur) s
    (measuredPost o seriesSizeV seriesCountV s [] []).
Proof.
  unfold runEvaluate.
  apply (post_bind_reading _ _ (fun _ _ T M => T = [] ∧ M = [])).
  - apply reads_silently. destruct shared.
    + apply silently_forEachPush. intros d. apply silently_callFn.
    + apply silently_forPush. intros j.
      apply silently_bind; [apply silently_callGenerator|]. intros d. apply silently_callFn.
  - intros values s' T M [-> ->]. apply emit_measured. by intros r.
Qed.

Lemma runMeasure_measured item func (size : num) shared cur s :
  post o (runMeasure o cnt seriesSizeV seriesCountV delayV forceGCV memV totalSteps
            item func size shared cur) s (measuredPost o seriesSizeV seriesCountV s [] []).
Proof.
  unfold runMeasure.
  apply (post_bind_reading _ _ (fun _ _ T M => T = [] ∧ M = [])).
  { apply reads_silently.
    destruct shared; [apply silently_ret|apply silently_generateData]. }
  intros dataArray s1 T1 M1 [-> ->]. simpl.
  apply (post_bind_reading _ _ (fun s' durations T M =>
           differences T = durations ∧ M = [] ∧
           (length durations ≤ N.to_nat seriesCountV)%nat ∧
           (stopRequested (eng s') = false → length durations = N.to_nat seriesCountV))).
  { eapply post_mono;
      [apply post_and;
         [apply (reads_seriesLoop seriesSizeV delayV forceGCV func dataArray
                   (N.to_nat seriesCountV) [] s1 [] [])
         |apply seriesLoop_length]|].
    intros r acts [[He H] Hlen]. split; [exact He|]. intros durations ->.
    destruct (H durations eq_refl) as (T & M & Hp & more & Hmore & Hd & ->).
    destruct (Hlen durations eq_refl) as (more' & Hmore' & Hle & Hfull).
    simpl in Hmore, Hmore'. subst more more'. exists T, []. split; [exact Hp|]. auto. }
  intros durations s2 T2 M2 (Hd & -> & Hle & Hfull). simpl.
  apply (post_bind_reading _ _ (fun s' memoryUsages T M =>
           T = [] ∧
           (stopRequested (eng s') = false → length durations = N.to_nat seriesCountV) ∧
           ∀ memories, memoryUsages = Some memories →
                       memories = map (n_max2 (n_of_N 0)) (differences M))).
  { assert (Hkeep : ∀ acts, stopRequested (eng (replay o s2 acts)) = false →
                            length durations = N.to_nat seriesCountV).
    { intros acts Hstop. apply Hfull. destruct (stopRequested (eng s2)) eqn:E; [|reflexivity].
      by rewrite (replay_stop o s2 acts E) in Hstop. }
    destruct memV as [count|].
    - destruct (0 <? count)%N.
      + apply post_bind.
        eapply post_mono; [apply (reads_memory count func dataArray s2 T2 [])|].
        intros [m|e] acts [He H]; [|split; [exact He|done]].
        apply post_ret. rewrite app_nil_r. split; [exact He|]. intros ? [= <-].
        destruct (H m eq_refl) as (T & M & Hp & -> & Hm). exists [], M.
        split; [exact Hp|]. split; [reflexivity|]. split; [apply Hkeep|].
        intros ? [= <-]. exact Hm.
      + apply post_ret. split; [reflexivity|]. intros ? [= <-]. exists [], [].
        rewrite !app_nil_r. split; [reflexivity|]. split; [reflexivity|].
        split; [apply (Hkeep [])|done].
    - apply post_ret. split; [reflexivity|]. intros ? [= <-]. exists [], [].
      rewrite !app_nil_r. split; [reflexivity|]. split; [reflexivity|].
      split; [apply (Hkeep [])|done]. }
  intros memoryUsages s3 T3 M3 (-> & Hfull3 & Hmem). rewrite app_nil_r. simpl.
  apply emit_measured. intros r [= <-]. unfold mu_durations, mu_samples. simpl.
  rewrite Hd. split; [by repeat split|]. split; [exact Hle|]. split; [exact Hfull3|].
  exact Hmem.
Qed.

Lemma runItem_measured item (size : num) shared cur s :
  post o (runItem o cnt seriesSizeV seriesCountV delayV forceGCV memV totalSteps
            item size shared cur) s (measuredPost o seriesSizeV seriesCountV s [] []).
Proof.
  unfold runItem. destruct (ui_body item).
  - apply runMeasure_measured.
  - apply runEvaluate_measured.
Qed.

(** One part of a loop, then the rest of the loop. *)
Lemma post_bind_measured (m : M num D num) (k : num → M num D num) s :
  post o m s (measuredPost o seriesSizeV seriesCountV s [] []) →
  (∀ c s', post o (k c) s' (measuredPost o seriesSizeV seriesCountV s' [] [])) →
  post o (bind m k) s (measuredPost o seriesSizeV seriesCountV s [] []).
Proof.
  intros Hm Hk. apply post_bind. eapply post_mono; [exact Hm|].
  intros [c|e] acts1 [Hall Hpend]; [|by split].
  eapply post_mono; [apply Hk|]. intros r acts2 [Hall2 Hpend2].
  unfold measuredPost. rewrite measuredUnits_app, pendingReadings_app, (Hpend c eq_refl).
  simpl. split; [by apply Forall_app|exact Hpend2].
Qed.

Lemma measuredPost_ret (c : num) s : post o (ret c) s (measuredPost o seriesSizeV seriesCountV s [] []).
Proof. apply post_ret. split; [constructor|done]. Qed.

Lemma runItems_measured pathKey (size : num) shared items cur s :
  post o (runItems o cnt seriesSizeV seriesCountV delayV forceGCV memV totalSteps
            pathKey size shared items cur) s (measuredPost o seriesSizeV seriesCountV s [] []).
Proof.
  revert cur s. induction items as [|item rest IH]; intros cur s; simpl.
  - apply measuredPost_ret.
  - apply post_ifState. destruct (stopRequested (eng s)); [apply measuredPost_ret|].
    apply post_ifState. destruct (isSkipped pathKey (eng s)); [apply measuredPost_ret|].
    apply post_bind_measured; [apply runItem_measured|]. intros c s'. apply IH.
Qed.

Lemma runSizes_measured pathKey items (sizes : list num) cur s :
  post o (runSizes o sharing cnt seriesSizeV seriesCountV delayV forceGCV memV totalSteps
            pathKey items sizes cur) s (measuredPost o seriesSizeV seriesCountV s [] []).
Proof.
  revert cur s. induction sizes as [|size rest IH]; intros cur s; simpl.
  - apply measuredPost_ret.
  - apply post_ifState. destruct (stopRequested (eng s)); [apply measuredPost_ret|].
    apply post_ifState. destruct (isSkipped pathKey (eng s)); [apply measuredPost_ret|].
    apply (post_bind_reading _ _ (fun _ _ T M => T = [] ∧ M = [])).
    + apply reads_silently. destruct items as [|firstItem more]; [apply silently_ret|].
      destruct (sharing && allUseSameGenerator (firstItem :: more)); [|apply silently_ret].
      apply silently_bind; [apply silently_generateData|]. intros l. apply silently_ret.
    + intros shared s' T M [-> ->].
      apply post_bind_measured; [apply runItems_measured|]. intros c s''. apply IH.
Qed.

Lemma runGroups_measured plan (sizes : list num) pathKeys cur s :
  post o (runGroups o sharing cnt seriesSizeV seriesCountV delayV forceGCV memV totalSteps
            plan sizes pathKeys cur) s (measuredPost o seriesSizeV seriesCountV s [] []).
Proof.
  revert cur s. induction pathKeys as [|pathKey rest IH]; intros cur s; simpl.
  - apply measuredPost_ret.
  - apply post_ifState. destruct (stopRequested (eng s)); [apply measuredPost_ret|].
    case_bool_decide; [apply IH|].
    apply post_ifState. destruct (isSkipped pathKey (eng s)); [apply IH|].
    apply post_bind_measured; [apply runSizes_measured|]. intros c s'. apply IH.
Qed.

End MeasuredLoops.

(** Every event of every run reports what was measured for it. *)
Lemma runWith_measured sharing (registry : Registry num) config s0 :
  Forall (reportsMeasured (seriesSizeOf registry config) (seriesCountOf registry config))
    (measuredUnits o (resetEngine s0) (actsOf (runWith o sharing registry config) s0) [] []).
Proof.
  destruct (runGroups_measured sharing (dataUnitsCountOf registry config)
              (seriesSizeOf registry config) (seriesCountOf registry config)
              (delayOf registry config) (forceGCOf registry config)
              (memoryMeasurementsCountOf registry config)
              (totalStepsOf (planOf registry config) (sizesOf registry config))
              (planOf registry config) (sizesOf registry config)
              (plan_allPathKeys (planOf registry config)) (n_of_N 0) (resetEngine s0))
    as (acts & Hs & H & _).
  rewrite (actsOf_replay o (runWith o sharing registry config) s0 (resetEngine s0) acts
             eq_refl); [exact H|].
  unfold runWith, bind.
  destruct (runGroups _ _ _ _ _ _ _ _ _ _ _ _ _) as [[c|e] s1]; exact Hs.
Qed.

End MeasuredRun.

Section MeasuredTheorems.
Context {num : Type} {NO : NumOps num} {D : Type}.
Variable o : Oracle num D.

(** C2. Every event of a measure leaf reports the statistics of the raw
    durations of its series, and these durations are the differences
    [endTime - startTime] of the replies that the clock gave around each
    series since the event before: the mean, the minimum and the maximum of
    the durations divided by the series size, and the throughput as 1000
    over the duration, with the minimum of the throughput taken from the
    maximum of the duration and the other way round. All [seriesCount]
    durations were collected unless the run was being stopped; in a quiet
    environment the run ends normally with the event of every unit of the
    plan, none of them stopped. With a clock that gives durations of 8 and
    24 milliseconds the event reports 16, 8 and 24 milliseconds and 62.5,
    1000/24 and 125 operations per second. *)
Theorem measure_statistics (registry : Registry num) (config : MeasurementConfig num)
    (s0 : St num D) :
  let run := runMeasurements o registry config in
  let units := measuredUnits o (resetEngine s0) (actsOf run s0) [] [] in
  map mu_event units = eventsOf run s0 ∧
  Forall (fun u => ∀ r, ev_result (mu_event u) = Some r →
            statsOf (seriesSizeOf registry config) (mu_durations u) r ∧
            (length (mu_durations u) ≤ N.to_nat (seriesCountOf registry config))%nat ∧
            (mu_flag u = false →
             length (mu_durations u) = N.to_nat (seriesCountOf registry config))) units ∧
  (quiet o →
   (run s0).1 = Ok tt ∧
   Forall2 reports (eventsOf run s0)
     (expectedUnits (plan_unifiedItems (planOf registry config)) (sizesOf registry config)) ∧
   Forall (fun u => mu_flag u = false) units) ∧
  (let units := measuredUnits Scenarios.unevenEnv (resetEngine Scenarios.idle)
                  (actsOf (runMeasurements Scenarios.unevenEnv Scenarios.registryOne
                             Scenarios.configUneven) Scenarios.idle) [] [] in
   map (fun u => (mu_durations u,
                  (fun r => (mr_duration r, mr_durationMin r, mr_durationMax r,
                             mr_avg r, mr_min r, mr_max r)) <$> ev_result (mu_event u)))
     units
   = [([8%float; 24%float],
       Some (16%float, 8%float, 24%float, 62.5%float, (1000 / 24)%float, 125%float))]).
Proof.
  intros run units. split; [apply measuredUnits_events|]. split; [|split].
  - eapply Forall_impl; [apply (runWith_measured o true)|].
    intros u H r Hr. destruct (H r Hr) as (Hst & Hle & Hfull & _). auto.
  - intros Hquiet.
    destruct (runWith_quiet o true registry config s0 Hquiet) as (acts & Hrun & Hrep & _).
    assert (Hacts : actsOf run s0 = acts)
      by exact (actsOf_ext run s0 (resetEngine s0) tt acts eq_refl Hrun).
    split; [unfold run, runMeasurements; by rewrite Hrun|].
    split; [unfold eventsOf; by rewrite Hacts|].
    subst units. rewrite Hacts.
    assert (Hflags : Forall (fun fe : bool * ProgressEvent num => fe.1 = false)
                       (flaggedEvents o (resetEngine s0) acts)).
    { apply flaggedEvents_flags. by rewrite (replay_quiet o Hquiet). }
    rewrite <- (measuredUnits_flags o (resetEngine s0) acts [] []) in Hflags.
    by apply Forall_map in Hflags.
  - vm_compute. reflexivity.
Qed.

(** X18. The result of a measure leaf has the path, the title and the data
    size of its event. Its memory fields are all there or all missing. They
    are there exactly when [memoryMeasurementsCount] is configured and
    positive; there are then [memoryMeasurementsCount mod 2^32] samples,
    and they are [Math.max(0, endMemory - startMemory)] of the replies that
    [getMemoryUsage] gave around each measured call since the event before;
    the average, minimum and maximum are those of the samples. With a heap
    that reads 36, 14, 0 and 44 the samples are 0 and 44, their average is
    22, their minimum 0 and their maximum 44. *)
Theorem memory_statistics (registry : Registry num) (config : MeasurementConfig num)
    (s0 : St num D) :
  let run := runMeasurements o registry config in
  let units := measuredUnits o (resetEngine s0) (actsOf run s0) [] [] in
  map mu_event units = eventsOf run s0 ∧
  Forall (fun u => ∀ r, ev_result (mu_event u) = Some r →
            mr_path r = ev_path (mu_event u) ∧ mr_title r = ev_title (mu_event u) ∧
            mr_dataSize r = ev_dataSize (mu_event u) ∧
            match mr_memory r with
            | Some memories =>
                (∃ count, memoryMeasurementsCountOf registry config = Some count ∧
                          (0 < count)%N ∧
                          length memories = N.to_nat (count mod 2 ^ 32)%N) ∧
                memories = mu_samples u ∧
                mr_memoryAvg r = Some (n_div (fold_left n_add memories (n_of_N 0))
                                         (n_of_N (N.of_nat (length memories)))) ∧
                mr_memoryMin r = Some (fold_left n_min2 memories n_pinf) ∧
                mr_memoryMax r = Some (fold_left n_max2 memories n_ninf)
            | None =>
                (memoryMeasurementsCountOf registry config = None ∨
                 memoryMeasurementsCountOf registry config = Some 0%N) ∧
                mr_memoryAvg r = None ∧ mr_memoryMin r = None ∧ mr_memoryMax r = None
            end) units ∧
  (let units := measuredUnits Scenarios.memoryEnv (resetEngine Scenarios.idle)
                  (actsOf (runMeasurements Scenarios.memoryEnv Scenarios.registryOne
                             Scenarios.configMemory) Scenarios.idle) [] [] in
   map (fun u => (mu_memory u,
                  (fun r => (mr_memory r, mr_memoryAvg r, mr_memoryMin r, mr_memoryMax r))
                    <$> ev_result (mu_event u))) units
   = [([36%float; 14%float; 0%float; 44%float],
       Some (Some [0%float; 44%float], Some 22%float, Some 0%float, Some 44%float))]).
Proof.
  intros run units. split; [apply measuredUnits_events|]. split.
  - pose proof (runWith_payload o true registry config s0) as Hp.
    change (runWith o true) with (runMeasurements o) in Hp. fold run in Hp.
    unfold eventsOf in Hp.
    rewrite <- (measuredUnits_events o (resetEngine s0) (actsOf run s0) [] []) in Hp.
    rewrite Forall_map in Hp.
    pose proof (runWith_measured o true registry config s0) as Hm.
    change (runWith o true) with (runMeasurements o) in Hm. fold run units in Hm, Hp.
    eapply Forall_impl; [apply Forall_and; split; [exact Hp|exact Hm]|].
    intros u [Hpay Hrep] r Hr. simpl in Hpay. unfold payload in Hpay. rewrite Hr in Hpay.
    destruct (ev_customResult (mu_event u)); [done|].
    destruct Hpay as (Hpath & Htitle & Hsize & Hmem).
    split; [exact Hpath|]. split; [exact Htitle|]. split; [exact Hsize|].
    unfold memoryStats in Hmem. destruct (Hrep r Hr) as (_ & _ & _ & Hsamples).
    destruct (mr_memory r) as [memories|]; [|exact Hmem].
    destruct Hmem as (Hcount & _ & Havg & Hmin & Hmax).
    split; [exact Hcount|]. split; [by apply Hsamples|]. auto.
  - vm_compute. reflexivity.
Qed.

End MeasuredTheorems.

(** ** The interactions of a unit, and a stop request *)

Section UnitTranscript.
Context {num : Type} {NO : NumOps num} {D : Type}.
Variable o : Oracle num D.
Implicit Types (s : St num D) (acts : list (Act num D)).

Lemma performs_ret {A} (a : A) : performs o (ret a) (fun _ b l => b = a ∧ l = []).
Proof. intros s. apply post_ret. by intros b [= <-]. Qed.

Lemma performs_mono {A} (m : M num D A) (P P' : St num D → A → list (Act num D) → Prop) :
  performs o m P → (∀ s a l, P s a l → P' s a l) → performs o m P'.
Proof. intros Hm HP s. eapply post_mono; [apply Hm|]. intros r acts H a Ha. auto. Qed.

Lemma performs_bind {A B} (m : M num D A) (k : A → M num D B) P1 P2
    (P : St num D → B → list (Act num D) → Prop) :
  performs o m P1 → (∀ a, performs o (k a) (P2 a)) →
  (∀ s a b l1 l2, P1 s a l1 → P2 a (replay o s l1) b l2 → P s b (l1 ++ l2)) →
  performs o (bind m k) P.
Proof.
  intros Hm Hk HP s. apply post_bind. eapply post_mono; [apply Hm|].
  intros [a|e] acts1 H1; [|done].
  eapply post_mono; [apply Hk|]. intros r acts2 H2 b Hb. eauto.
Qed.

Lemma performs_call (a : Act num D) :
  affects a = true → performs o (call o a) (fun s r l => l = [a] ∧ r = o (length (trace s)) a).
Proof.
  intros Ha s. apply post_call; [exact Ha|]. intros r Hr.
  destruct (r_throw _); [discriminate|]. by injection Hr as <-.
Qed.

Lemma performs_callGenerator g (size : num) :
  performs o (callGenerator o g size) (fun _ _ l => l = [AGen g size]).
Proof.
  eapply performs_bind; [by apply performs_call|intros r; apply performs_ret|].
  intros s a b l1 l2 [-> _] [_ ->]. reflexivity.
Qed.

Lemma performs_callFn f (datum : option D) :
  performs o (callFn o f datum) (fun _ _ l => l = [AFn f datum]).
Proof.
  eapply performs_bind; [by apply performs_call|intros r; apply performs_ret|].
  intros s a b l1 l2 [-> _] [_ ->]. reflexivity.
Qed.

Lemma performs_suspend (a : Act num D) :
  affects a = true → performs o (suspend o a) (fun _ _ l => l = [a]).
Proof. intros Ha s. apply post_suspend; [exact Ha|]. by intros _ _. Qed.

Lemma performs_probe (a : Act num D) :
  affects a = false → performs o (probe o a) (fun _ _ l => l = [a]).
Proof. intros Ha s. apply post_probe; [exact Ha|]. by intros _ _. Qed.

Lemma performs_runGC : performs o (runGC o) (fun _ _ l => l = [AGC]).
Proof.
  eapply performs_bind; [by apply performs_probe|intros r; apply performs_ret|].
  intros s a b l1 l2 -> [_ ->]. reflexivity.
Qed.

(** A loop that pushes: the interactions of its turns, one after the other. *)
Lemma performs_forPush {A} (body : N → M num D A) (Pb : N → A → list (Act num D) → Prop) i n :
  (∀ j, performs o (body j) (fun _ x l => Pb j x l)) →
  performs o (forPush body i n)
    (fun _ xs l => ∃ ls, l = concat ls ∧ length ls = n ∧ length xs = n ∧
       ∀ k x lk, xs !! k = Some x → ls !! k = Some lk → Pb (i + N.of_nat k)%N x lk).
Proof.
  intros Hb. revert i. induction n as [|n IH]; intros i; simpl.
  - eapply performs_mono; [apply performs_ret|]. intros s a l [-> ->]. exists [].
    repeat split. intros k x lk Hx. by rewrite lookup_nil in Hx.
  - eapply performs_bind; [apply Hb| |].
    + intros x. eapply performs_bind; [apply IH|intros xs; apply performs_ret|].
      intros s a b l1 l2 H [-> ->]. rewrite app_nil_r.
      instantiate (1 := fun x _ xs' l => ∃ ls, l = concat ls ∧ length ls = n ∧
                          length xs' = S n ∧ ∃ xs, xs' = x :: xs ∧
                          ∀ k x lk, xs !! k = Some x → ls !! k = Some lk →
                                    Pb (N.succ i + N.of_nat k)%N x lk).
      simpl. destruct H as (ls & -> & Hl & Hx & Hall). exists ls.
      split; [reflexivity|]. split; [exact Hl|]. split; [simpl; by rewrite Hx|]. eauto.
    + intros s x xs' l1 l2 H1 (ls & -> & Hl & Hx & xs & -> & Hall). exists (l1 :: ls).
      split; [reflexivity|]. split; [simpl; by rewrite Hl|]. split; [exact Hx|].
      intros [|k] y lk Hy Hlk; simpl in *.
      * injection Hy as <-. injection Hlk as <-. by rewrite N.add_0_r.
      * replace (i + N.of_nat (S k))%N with (N.succ i + N.of_nat k)%N by lia.
        by apply Hall.
Qed.

Lemma performs_forEachPush {A B} (body : A → M num D B) (block : A → list (Act num D)) l :
  (∀ x, performs o (body x) (fun _ _ acts => acts = block x)) →
  performs o (forEachPush body l) (fun _ ys acts => acts = flat_map block l).
Proof.
  intros Hb. induction l as [|x l IH]; simpl.
  - eapply performs_mono; [apply performs_ret|]. by intros s a acts [-> ->].
  - eapply performs_bind; [apply Hb| |].
    + intros y. eapply performs_bind; [apply IH|intros ys; apply performs_ret|].
      intros s a b l1 l2 -> [-> ->]. rewrite app_nil_r.
      instantiate (1 := fun _ _ _ acts => acts = flat_map block l). reflexivity.
    + intros s a b l1 l2 -> ->. reflexivity.
Qed.

(** The turns of a loop whose interactions depend on the index only. *)
Lemma concat_blocks (block : N → list (Act num D)) (ls : list (list (Act num D))) n :
  length ls = n →
  (∀ k lk, ls !! k = Some lk → lk = block (N.of_nat k)) →
  concat ls = flat_map block (map N.of_nat (seq 0 n)).
Proof.
  intros Hlen Hall. rewrite flat_map_concat_map. f_equal.
  apply list_eq. intros k. rewrite !list_lookup_fmap.
  destruct (ls !! k) as [lk|] eqn:E.
  - rewrite (Hall k lk E). rewrite lookup_seq_lt; [reflexivity|].
    apply lookup_lt_Some in E. lia.
  - apply lookup_ge_None in E. rewrite lookup_seq_ge; [reflexivity|lia].
Qed.

Lemma concat_const {A} (x : list A) (ls : list (list A)) :
  (∀ k lk, ls !! k = Some lk → lk = x) → concat ls = concat (replicate (length ls) x).
Proof.
  induction ls as [|l ls IH]; intros H; [reflexivity|]. simpl.
  rewrite (H 0%nat l eq_refl). f_equal. apply IH. intros k lk Hk. exact (H (S k) lk Hk).
Qed.

Lemma concat_replicate_singleton {A} (x : A) n : concat (replicate n [x]) = replicate n x.
Proof. induction n as [|n IH]; simpl; [reflexivity|by rewrite IH]. Qed.

Lemma performs_generateData cnt g (size : num) :
  performs o (generateData o cnt g size)
    (fun _ dataArray l => length dataArray = N.to_nat cnt ∧
                          l = replicate (N.to_nat cnt) (AGen g size)).
Proof.
  unfold generateData.
  eapply performs_mono;
    [apply (performs_forPush _ (fun _ _ l => l = [AGen g size]));
     intros j; apply performs_callGenerator|].
  intros s xs l (ls & -> & Hl & Hx & Hall). split; [exact Hx|].
  rewrite (concat_const [AGen g size] ls), Hl; [apply concat_replicate_singleton|].
  intros k lk Hk. destruct (xs !! k) as [x|] eqn:E; [by apply (Hall k x lk)|].
  apply lookup_ge_None in E. apply lookup_lt_Some in Hk. lia.
Qed.

Lemma performs_measureSeriesMemory count (data : list D) fn :
  performs o (measureSeriesMemory o count data fn)
    (fun _ _ l => l = flat_map (fun i => memoryBlock fn data (N.of_nat i))
                        (seq 0 (N.to_nat (uint32 count)))).
Proof.
  unfold measureSeriesMemory.
  eapply performs_mono;
    [apply (performs_forPush _ (fun j _ l => l = memoryBlock fn data j))|].
  - intros j.
    eapply performs_bind; [apply performs_runGC| |].
    + intros ?. eapply performs_bind; [by apply performs_probe| |].
      * intros startMemory. eapply performs_bind; [apply performs_callFn| |].
        -- intros ?. eapply performs_bind;
             [by apply performs_probe|intros endMemory; apply performs_ret|].
           instantiate (1 := fun _ _ _ l => l = [AMem]).
           intros s' a' b' l1 l2 -> [_ ->]. reflexivity.
        -- instantiate (1 := fun _ _ _ l =>
             l = [AFn fn (cyclicDatum data (uint32 (N.of_nat (length data))) j); AMem]).
           intros s' a' b' l1 l2 -> ->. reflexivity.
      * instantiate (1 := fun _ _ _ l =>
          l = [AMem; AFn fn (cyclicDatum data (uint32 (N.of_nat (length data))) j); AMem]).
        intros s' a' b' l1 l2 -> ->. reflexivity.
    + intros s' a' b' l1 l2 -> ->. reflexivity.
  - intros s xs l (ls & -> & Hl & Hx & Hall).
    rewrite (concat_blocks (fun j => memoryBlock fn data j) ls _ Hl).
    + by rewrite flat_map_concat_map, map_map, <- flat_map_concat_map.
    + intros k lk Hk. destruct (xs !! k) as [x|] eqn:E.
      * by rewrite (Hall k x lk E Hk).
      * apply lookup_ge_None in E. apply lookup_lt_Some in Hk. lia.
Qed.

Lemma performs_post {A} (m : M num D A) (P : St num D → A → list (Act num D) → Prop) :
  (∀ s, post o m s (fun r acts => ∀ a, r = Ok a → P s a acts)) → performs o m P.
Proof. done. Qed.

Lemma performs_series seriesSize (func : RegisteredFunction) (dataArray : list D) :
  performs o (if default false (rf_isAsync func)
            then measureSeriesAsync o seriesSize dataArray (rf_fn func)
            else measureSeries o seriesSize dataArray (rf_fn func))
    (fun _ _ l => l = seriesTranscript seriesSize dataArray (rf_fn func) ++
                      (if default false (rf_isAsync func) then [AAwait] else [])).
Proof.
  intros s. eapply post_mono; [apply series_post|]. intros r acts [_ H] d Hd.
  by apply (H d).
Qed.

Lemma performs_seriesLoop seriesSizeV (delayV : num) forceGCV func (dataArray : list D) n ds :
  performs o (seriesLoop o seriesSizeV delayV forceGCV func dataArray n ds)
    (loopTranscript o seriesSizeV delayV forceGCV func dataArray n ds).
Proof.
  revert ds. induction n as [|n IH]; intros ds s; simpl.
  - apply post_ret. intros ds' [= <-]. exists []. rewrite app_nil_r.
    repeat split; simpl; intros; lia.
  - apply post_ifState. destruct (stopRequested (eng s)) eqn:Hstop.
    { apply post_ret. intros ds' [= <-]. exists []. rewrite app_nil_r.
      repeat split; simpl; [lia|intros; lia|done]. }
    set (block := seriesBlock seriesSizeV delayV forceGCV func dataArray).
    match goal with
    | |- post o ?m s _ =>
        assert (Hrest : performs o m (fun s ds' acts =>
                  ∃ d rest, acts = block ++ rest ∧
                    loopTranscript o seriesSizeV delayV forceGCV func dataArray n (ds ++ [d])
                      (replay o s block) ds' rest))
    end.
    { eapply performs_bind.
      - instantiate (1 := fun _ _ l => l = if forceGCV then [AGC] else []).
        destruct forceGCV; [apply performs_runGC|].
        eapply performs_mono; [apply performs_ret|]. by intros s' a l [_ ->].
      - intros ?. eapply performs_bind; [apply performs_series| |].
        + intros d. eapply performs_bind; [by apply performs_suspend| |].
          * intros ?. apply IH.
          * instantiate (1 := fun d s' ds' l =>
              ∃ rest, l = [ADelay delayV] ++ rest ∧
                loopTranscript o seriesSizeV delayV forceGCV func dataArray n (ds ++ [d])
                  (replay o s' [ADelay delayV]) ds' rest).
            intros s' a' b' l1 l2 -> H. by exists l2.
        + instantiate (1 := fun _ s' ds' l =>
            ∃ d rest, l = (seriesTranscript seriesSizeV dataArray (rf_fn func) ++
                           (if default false (rf_isAsync func) then [AAwait] else [])) ++
                          [ADelay delayV] ++ rest ∧
              loopTranscript o seriesSizeV delayV forceGCV func dataArray n (ds ++ [d])
                (replay o s' ((seriesTranscript seriesSizeV dataArray (rf_fn func) ++
                               (if default false (rf_isAsync func) then [AAwait] else [])) ++
                              [ADelay delayV])) ds' rest).
          intros s' d b' l1 l2 -> (rest & -> & H). exists d, rest.
          split; [reflexivity|]. by rewrite replay_app.
      - intros s' a' b' l1 l2 -> (d & rest & -> & H). exists d, rest.
        unfold block, seriesBlock. rewrite <- !app_assoc. split; [reflexivity|].
        rewrite <- replay_app in H. by rewrite <- !app_assoc in H. }
    eapply post_mono; [apply Hrest|]. intros r acts H ds' Hr.
    destruct (H ds' Hr) as (d & rest & -> & more & -> & -> & Hle & Hstart & Hend).
    exists (d :: more). rewrite <- app_assoc. split; [reflexivity|].
    split; [reflexivity|]. split; [simpl; lia|]. split.
    + intros [|j] Hj; [exact Hstop|]. simpl. rewrite replay_app. apply Hstart.
      simpl in Hj. lia.
    + intros Hlt. rewrite replay_app. apply Hend. simpl in Hlt. lia.
Qed.

Lemma performs_memory memV func (dataArray : list D) :
  performs o
    match memV with
    | Some count =>
        if (0 <? count)%N
        then let! m := (if default false (rf_isAsync func)
                        then measureSeriesMemoryAsync o count dataArray (rf_fn func)
                        else measureSeriesMemory o count dataArray (rf_fn func)) in
             ret (Some m)
        else ret None
    | None => ret None
    end
    (fun _ _ l => l = memorySampling memV func dataArray).
Proof.
  unfold memorySampling. destruct memV as [count|].
  - destruct (0 <? count)%N.
    + eapply performs_bind.
      * instantiate (1 := fun _ _ l =>
          l = flat_map (fun i => memoryBlock (rf_fn func) dataArray (N.of_nat i))
                (seq 0 (N.to_nat (uint32 count))) ++
              (if default false (rf_isAsync func) then [AAwait] else [])).
        destruct (default false (rf_isAsync func)).
        -- unfold measureSeriesMemoryAsync.
           eapply performs_bind; [apply performs_measureSeriesMemory| |].
           ++ intros m. eapply performs_bind;
                [by apply performs_suspend|intros ?; apply performs_ret|].
              instantiate (1 := fun _ _ _ l => l = [AAwait]).
              intros s' a' b' l1 l2 -> [_ ->]. reflexivity.
           ++ intros s' a' b' l1 l2 -> ->. reflexivity.
        -- eapply performs_mono; [apply performs_measureSeriesMemory|].
           intros s' a' l ->. by rewrite app_nil_r.
      * intros m. apply performs_ret.
      * intros s' a' b' l1 l2 -> [_ ->]. by rewrite app_nil_r.
    + eapply performs_mono; [apply performs_ret|]. by intros s' a' l [_ ->].
  - eapply performs_mono; [apply performs_ret|]. by intros s' a' l [_ ->].
Qed.

(** The interactions of a measure leaf at one data size that returns. *)
Lemma performs_runMeasure cnt seriesSizeV seriesCountV (delayV : num) forceGCV memV
    (totalSteps : num) item func (size : num) (shared : option (list D)) (cur : num) :
  performs o (runMeasure o cnt seriesSizeV seriesCountV delayV forceGCV memV totalSteps
              item func size shared cur)
    (fun s _ acts =>
       ∃ (dataArray : list D) (durations : list num) (ev : ProgressEvent num),
         let generation := ownGeneration cnt (rf_dataGenerator func) size shared in
         let block := seriesBlock seriesSizeV delayV forceGCV func dataArray in
         acts = generation ++ concat (replicate (length durations) block) ++
                memorySampling memV func dataArray ++ [AEmit ev] ∧
         (∀ l, shared = Some l → dataArray = l) ∧
         (length durations ≤ N.to_nat seriesCountV)%nat ∧
         (∀ j, (j < length durations)%nat →
               stopRequested (eng (replay o s (generation ++ concat (replicate j block))))
               = false) ∧
         ((length durations < N.to_nat seriesCountV)%nat →
          stopRequested
            (eng (replay o s (generation ++ concat (replicate (length durations) block))))
          = true) ∧
         ev_path ev = rf_path func ∧
         ∃ r, ev_result ev = Some r ∧ length (mr_series r) = length durations).
Proof.
  unfold runMeasure. eapply performs_bind.
  - instantiate (1 := fun _ dataArray l =>
      l = ownGeneration cnt (rf_dataGenerator func) size shared ∧
      ∀ l', shared = Some l' → dataArray = l').
    destruct shared as [l'|]; simpl.
    + eapply performs_mono; [apply performs_ret|]. intros s a l [-> ->].
      split; [reflexivity|]. by intros ? [= <-].
    + eapply performs_mono; [apply performs_generateData|]. by intros s a l [_ ->].
  - intros dataArray. eapply performs_bind; [apply performs_seriesLoop| |].
    + intros durations. eapply performs_bind; [apply performs_memory| |].
      * intros memoryUsages. eapply performs_bind.
        -- instantiate (1 := fun _ _ l =>
             l = [AEmit {| ev_path := rf_path func; ev_title := ui_title item;
                           ev_dataSize := size;
                           ev_progress := progressOf (n_add cur size) totalSteps;
                           ev_result := Some (measureResult func (ui_title item) size
                                                seriesSizeV durations memoryUsages);
                           ev_customResult := None |}]).
           unfold onProgress.
           eapply performs_bind; [by apply performs_call|intros ?; apply performs_ret|].
           intros s' a' b' l1 l2 [-> _] [_ ->]. reflexivity.
        -- intros ?. apply performs_ret.
        -- instantiate (1 := fun memoryUsages _ _ l =>
             l = [AEmit {| ev_path := rf_path func; ev_title := ui_title item;
                           ev_dataSize := size;
                           ev_progress := progressOf (n_add cur size) totalSteps;
                           ev_result := Some (measureResult func (ui_title item) size
                                                seriesSizeV durations memoryUsages);
                           ev_customResult := None |}]).
           intros s' a' b' l1 l2 -> [_ ->]. reflexivity.
      * instantiate (1 := fun durations _ _ l =>
          ∃ ev, l = memorySampling memV func dataArray ++ [AEmit ev] ∧
                ev_path ev = rf_path func ∧
                ∃ r, ev_result ev = Some r ∧ length (mr_series r) = length durations).
        intros s' a' b' l1 l2 -> ->. eexists. split; [reflexivity|]. split; [reflexivity|].
        eexists. split; [reflexivity|]. simpl. by rewrite length_map.
    + instantiate (1 := fun dataArray s' _ l =>
        ∃ (durations : list num) (ev : ProgressEvent num),
          l = concat (replicate (length durations)
                        (seriesBlock seriesSizeV delayV forceGCV func dataArray)) ++
              memorySampling memV func dataArray ++ [AEmit ev] ∧
          (length durations ≤ N.to_nat seriesCountV)%nat ∧
          (∀ j, (j < length durations)%nat →
                stopRequested
                  (eng (replay o s' (concat (replicate j
                          (seriesBlock seriesSizeV delayV forceGCV func dataArray)))))
                = false) ∧
          ((length durations < N.to_nat seriesCountV)%nat →
           stopRequested
             (eng (replay o s' (concat (replicate (length durations)
                     (seriesBlock seriesSizeV delayV forceGCV func dataArray)))))
           = true) ∧
          ev_path ev = rf_path func ∧
          ∃ r, ev_result ev = Some r ∧ length (mr_series r) = length durations).
      intros s' durations b' l1 l2 (more & Hmore & -> & Hle & Hstart & Hend)
        (ev & -> & Hpath & Hres).
      simpl in Hmore. subst more. exists durations, ev. auto 10.
  - intros s dataArray b' l1 l2 [-> Hshared]
      (durations & ev & -> & Hle & Hstart & Hend & Hpath & Hres).
    exists dataArray, durations, ev. cbv zeta.
    split; [reflexivity|]. split; [exact Hshared|]. split; [exact Hle|].
    split; [intros j Hj; rewrite replay_app; by apply Hstart|].
    split; [intros Hlt; rewrite replay_app; by apply Hend|]. auto.
Qed.

(** The interactions of an evaluate leaf at one data size that returns. *)
Lemma performs_runEvaluate cnt (totalSteps : num) item customEval (size : num)
    (shared : option (list D)) (cur : num) :
  performs o (runEvaluate o cnt totalSteps item customEval size shared cur)
    (fun _ _ acts =>
       ∃ dataArray ev,
         acts = match shared with
                | Some _ => map (fun d => AFn (ce_fn customEval) (Some d)) dataArray
                | None => flat_map (fun d => [AGen (ce_dataGenerator customEval) size;
                                              AFn (ce_fn customEval) (Some d)]) dataArray
                end ++ [AEmit ev] ∧
         match shared with
         | Some l => dataArray = l
         | None => length dataArray = N.to_nat cnt
         end ∧
         ev_path ev = ce_path customEval ∧
         ∃ c, ev_customResult ev = Some c ∧ length (cr_values c) = length dataArray).
Proof.
  unfold runEvaluate. eapply performs_bind.
  - instantiate (1 := fun _ values l =>
      ∃ dataArray,
        l = match shared with
            | Some _ => map (fun d => AFn (ce_fn customEval) (Some d)) dataArray
            | None => flat_map (fun d => [AGen (ce_dataGenerator customEval) size;
                                          AFn (ce_fn customEval) (Some d)]) dataArray
            end ∧
        match shared with
        | Some l => dataArray = l
        | None => length dataArray = N.to_nat cnt
        end ∧ length values = length dataArray).
    destruct shared as [l|].
    + intros s. eapply post_mono;
        [apply post_and;
           [apply (performs_forEachPush _ (fun d => [AFn (ce_fn customEval) (Some d)]));
            intros d; apply performs_callFn
           |apply (post_forEachPush_length o); intros; auto 10 with samples]|].
      intros r acts [H1 H2] values Hr. exists l. rewrite (H1 values Hr).
      split; [|split; [reflexivity|by apply H2]].
      clear. induction l as [|d l IH]; simpl; [reflexivity|by rewrite IH].
    + eapply performs_mono;
        [apply (performs_forPush _ (fun _ _ l =>
                  ∃ d, l = [AGen (ce_dataGenerator customEval) size;
                            AFn (ce_fn customEval) (Some d)]))|].
      * intros j. eapply performs_bind; [apply performs_callGenerator| |].
        -- intros r. apply performs_callFn.
        -- intros s' a' b' l1 l2 -> ->. by eexists.
      * intros s values l (ls & -> & Hl & Hx & Hall).
        assert (Hd : ∃ dataArray, length dataArray = length ls ∧
                  concat ls = flat_map (fun d => [AGen (ce_dataGenerator customEval) size;
                                                  AFn (ce_fn customEval) (Some d)])
                                dataArray).
        { assert (Hls : Forall (fun lk => ∃ d, lk = [AGen (ce_dataGenerator customEval) size;
                                                     AFn (ce_fn customEval) (Some d)]) ls).
          { apply Forall_lookup. intros k lk Hk.
            destruct (values !! k) as [x|] eqn:E; [by apply (Hall k x lk)|].
            apply lookup_ge_None in E. apply lookup_lt_Some in Hk. lia. }
          clear -Hls. induction Hls as [|lk ls [d ->] _ (dataArray & Hlen & IH)].
          - by exists [].
          - exists (d :: dataArray). simpl. by rewrite Hlen, IH. }
        destruct Hd as (dataArray & Hlen & ->). exists dataArray.
        split; [reflexivity|]. split; [lia|lia].
  - intros values. eapply performs_bind.
    + unfold onProgress.
      eapply performs_bind; [by apply performs_call|intros ?; apply performs_ret|].
      instantiate (1 := fun _ _ l =>
        l = [AEmit {| ev_path := ce_path customEval; ev_title := ui_title item;
                      ev_dataSize := size;
                      ev_progress := progressOf (n_add cur size) totalSteps;
                      ev_result := None;
                      ev_customResult :=
                        Some (customResult customEval (ui_title item) size values) |}]).
      intros s' a' b' l1 l2 [-> _] [_ ->]. reflexivity.
    + intros ?. apply performs_ret.
    + instantiate (1 := fun values _ _ l =>
        ∃ ev, l = [AEmit ev] ∧ ev_path ev = ce_path customEval ∧
              ∃ c, ev_customResult ev = Some c ∧ cr_values c = values).
      intros s' a' b' l1 l2 -> [_ ->]. eexists. split; [by rewrite app_nil_r|].
      split; [reflexivity|]. by eexists.
  - intros s values b' l1 l2 (dataArray & -> & Hd & Hlen) (ev & -> & Hpath & c & Hc & Hv).
    exists dataArray, ev. split; [reflexivity|]. split; [exact Hd|]. split; [exact Hpath|].
    exists c. split; [exact Hc|]. by rewrite Hv.
Qed.

End UnitTranscript.

Section StopLast.
Context {num : Type} {NO : NumOps num} {D : Type}.
Variable o : Oracle num D.
Implicit Types (s : St num D) (acts : list (Act num D)).

Lemma emitsLast_nil s : emitsLast o s [].
Proof. intros pre ev rest H. by destruct pre. Qed.

Lemma emitsLast_noEmit s acts : events acts = [] → emitsLast o s acts.
Proof.
  intros He pre ev rest ->. rewrite events_app in He. simpl in He.
  by apply app_eq_nil in He as [_ He].
Qed.

Lemma last_emit_events acts (ev : ProgressEvent num) :
  last acts = Some (AEmit ev) → ∃ evs, events acts = evs ++ [ev].
Proof.
  intros H. destruct (last_Some acts (AEmit ev)) as [[l' ->] _]; [exact H|].
  exists (events l'). by rewrite events_app.
Qed.

Lemma emitsLast_unit s acts :
  (events acts = [] ∨ ∃ ev, events acts = [ev] ∧ last acts = Some (AEmit ev)) →
  emitsLast o s acts.
Proof.
  intros [He|(ev & He & Hl)]; [by apply emitsLast_noEmit|].
  intros pre ev' rest -> _.
  destruct rest as [|a rest] using rev_ind; [reflexivity|]. exfalso. clear IHrest.
  rewrite app_comm_cons, app_assoc, last_snoc in Hl. injection Hl as ->.
  rewrite app_comm_cons, app_assoc, !events_app in He. simpl in He.
  apply (f_equal length) in He. rewrite !length_app in He. simpl in He. lia.
Qed.

Lemma emitsLast_seq s acts1 acts2 :
  emitsLast o s acts1 →
  endsPost o (replay o s acts1) acts2 →
  emitsLast o s (acts1 ++ acts2).
Proof.
  intros H1 [H2 Hstop] pre ev rest Heq Hflag.
  apply app_eq_inv in Heq as [(k & -> & Hk)|(k & -> & Hk)].
  - destruct k as [|a k]; simpl in Hk.
    + subst acts2. rewrite app_nil_r in *.
      apply (H2 [] ev rest eq_refl). simpl.
      by rewrite replay_app in Hflag.
    + injection Hk as <- ->.
      assert (Hk : k = []) by by apply (H1 pre ev k).
      subst k. simpl.
      assert (Ha2 : acts2 = []) by by apply Hstop.
      by subst acts2.
  - apply (H2 k ev rest Hk). by rewrite <- replay_app, app_assoc.
Qed.

Lemma endsPost_nil s : endsPost o s [].
Proof. split; [apply emitsLast_nil|done]. Qed.

Section StopLoops.
Variable sharing : bool.
Variable cnt seriesSizeV seriesCountV : N.
Variable delayV : num.
Variable forceGCV : bool.
Variable memV : option N.
Variable totalSteps : num.

Lemma post_stop_ends {A} (m : M num D A) (a : A) s :
  (stopRequested (eng s) = false → post o m s (fun _ acts => emitsLast o s acts)) →
  post o (ifState stopRequested (ret a) m) s (fun _ acts => endsPost o s acts).
Proof.
  intros H. apply post_ifState. destruct (stopRequested (eng s)) eqn:E.
  - apply post_ret, endsPost_nil.
  - eapply post_mono; [by apply H|]. intros r acts Hl. split; [exact Hl|congruence].
Qed.

Lemma post_bind_ends {A B} (m : M num D A) (k : A → M num D B) s :
  post o m s (fun _ acts => emitsLast o s acts) →
  (∀ c s', post o (k c) s' (fun _ acts => endsPost o s' acts)) →
  post o (bind m k) s (fun _ acts => emitsLast o s acts).
Proof.
  intros Hm Hk. apply post_bind. eapply post_mono; [exact Hm|].
  intros [c|e] acts1 Hl; [|exact Hl].
  eapply post_mono; [apply Hk|]. intros r acts2 Hends.
  by apply emitsLast_seq.
Qed.

Lemma post_weaken_ends {A} (m : M num D A) s :
  post o m s (fun _ acts => endsPost o s acts) →
  post o m s (fun _ acts => emitsLast o s acts).
Proof. intros H. eapply post_mono; [exact H|]. by intros r acts [Hl _]. Qed.

Lemma runItem_ends item size shared cur s :
  post o (runItem o cnt seriesSizeV seriesCountV delayV forceGCV memV totalSteps
            item size shared cur) s (fun _ acts => emitsLast o s acts).
Proof.
  eapply post_mono; [apply runItem_unit|]. intros r acts (_ & _ & H).
  apply emitsLast_unit. rewrite <- (flaggedEvents_events o s acts).
  destruct H as [[-> _]|(flag & ev & -> & Hl & _)]; [by left|right].
  by exists ev.
Qed.

Lemma runItems_ends pathKey size shared items cur s :
  post o (runItems o cnt seriesSizeV seriesCountV delayV forceGCV memV totalSteps
            pathKey size shared items cur) s (fun _ acts => endsPost o s acts).
Proof.
  revert cur s. induction items as [|item rest IH]; intros cur s; simpl.
  - apply post_ret, endsPost_nil.
  - apply post_stop_ends. intros _.
    apply post_ifState.
    match goal with |- if ?c then _ else _ => destruct c end;
      [apply post_ret, emitsLast_nil|].
    apply post_bind_ends; [apply runItem_ends|apply IH].
Qed.

Lemma runSizes_ends pathKey items sizes cur s :
  post o (runSizes o sharing cnt seriesSizeV seriesCountV delayV forceGCV memV totalSteps
            pathKey items sizes cur) s (fun _ acts => endsPost o s acts).
Proof.
  revert cur s. induction sizes as [|size rest IH]; intros cur s; simpl.
  - apply post_ret, endsPost_nil.
  - apply post_stop_ends. intros _.
    apply post_ifState.
    match goal with |- if ?c then _ else _ => destruct c end;
      [apply post_ret, emitsLast_nil|].
    apply post_bind.
    assert (Hgen : samples o
      (match items with
       | firstItem :: _ =>
           if sharing && allUseSameGenerator items
           then let! shared := generateData o cnt (item_dataGenerator firstItem) size in
                ret (Some shared)
           else ret None
       | [] => ret None
       end)).
    { destruct items; auto with samples. }
    eapply post_mono; [apply Hgen|]. clear Hgen.
    intros [shared|e] acts1 [He _]; [|by apply emitsLast_noEmit].
    eapply post_mono; [|intros r acts2 H; apply emitsLast_seq;
                        [by apply emitsLast_noEmit|exact H]].
    eapply post_mono.
    + apply post_and; [apply post_bind_ends; [apply post_weaken_ends, runItems_ends|apply IH]|].
      apply post_bind. eapply post_mono; [apply runItems_ends|].
      intros [c|e] acts2 [_ Hstop].
      * eapply post_mono; [apply IH|]. intros r acts3 [_ Hstop3].
        instantiate (1 := fun _ acts => stopRequested (eng (replay o s acts1)) = true →
                                        acts = []).
        simpl. intros Hflag. rewrite (Hstop Hflag) in *. simpl. by apply Hstop3.
      * exact Hstop.
    + by intros r acts2 [H1 H2].
Qed.

Lemma runGroups_ends plan sizes pathKeys cur s :
  post o (runGroups o sharing cnt seriesSizeV seriesCountV delayV forceGCV memV totalSteps
            plan sizes pathKeys cur) s (fun _ acts => endsPost o s acts).
Proof.
  revert cur s. induction pathKeys as [|pathKey rest IH]; intros cur s; simpl.
  - apply post_ret, endsPost_nil.
  - apply post_stop_ends. intros _.
    case_bool_decide; [apply post_weaken_ends, IH|].
    apply post_ifState.
    match goal with |- if ?c then _ else _ => destruct c end;
      [apply post_weaken_ends, IH|].
    apply post_bind_ends; [apply post_weaken_ends, runSizes_ends|apply IH].
Qed.

End StopLoops.

Lemma runWith_ends sharing (registry : Registry num) config s0 :
  emitsLast o (resetEngine s0) (actsOf (runWith o sharing registry config) s0).
Proof.
  destruct (runGroups_ends sharing (dataUnitsCountOf registry config)
              (seriesSizeOf registry config) (seriesCountOf registry config)
              (delayOf registry config) (forceGCOf registry config)
              (memoryMeasurementsCountOf registry config)
              (totalStepsOf (planOf registry config) (sizesOf registry config))
              (planOf registry config) (sizesOf registry config)
              (plan_allPathKeys (planOf registry config)) (n_of_N 0) (resetEngine s0))
    as (acts & Hs & [Hl _]).
  assert (Hrun : (runWith o sharing registry config s0).2 = replay o (resetEngine s0) acts).
  { unfold runWith, bind in *.
    destruct (runGroups _ _ _ _ _ _ _ _ _ _ _ _ _) as [[c|e] s1]; simpl in *; auto. }
  by rewrite (actsOf_replay o _ s0 (resetEngine s0) acts eq_refl Hrun).
Qed.

End StopLast.

Section Stop.
Context {num : Type} {NO : NumOps num} {D : Type}.
Variable o : Oracle num D.

Lemma performs_actsOf {A} (m : M num D A) (P : St num D → A → list (Act num D) → Prop) s a :
  performs o m P → (m s).1 = Ok a → P s a (actsOf m s).
Proof.
  intros Hm Ha. destruct (Hm s) as (acts & Hs & H).
  rewrite (actsOf_replay o m s s acts eq_refl Hs). by apply H.
Qed.

(** C8, as amended. Once the stop flag is set it stays set. The flag is
    read at the start of a group, at the start of a data size, before a leaf
    and before a series, and a check that finds it set ends its loop at once,
    without any interaction. Nothing that is in flight is cancelled: a
    measure leaf that returns has performed its own data generation, then
    whole series blocks (each with its delay), each of them started while
    the flag was not set and fewer than [seriesCount] of them only when the
    flag was set, then the whole memory sampling, which has no check of the
    flag, and then its event, computed from the series collected so far; an
    evaluate leaf that returns has evaluated every datum and delivered its
    event. No interaction follows an event after whose delivery the flag is
    set, so that at most one event is delivered while the flag is set. In
    scenario A with two series and two memory samples per leaf, a stop
    during the first series is followed by the end of that series, its
    delay, both memory samples and the event of the leaf, and by nothing
    else. *)
Theorem stop_aborts_plan (registry : Registry num) (config : MeasurementConfig num)
    (s0 : St num D) :
  (emitsAfterStop o (resetEngine s0) (actsOf (runMeasurements o registry config) s0) ≤ 1)%nat
  ∧ (∀ s acts, stopRequested (eng s) = true → stopRequested (eng (replay o s acts)) = true)
  ∧ (∀ pre ev rest,
       actsOf (runMeasurements o registry config) s0 = pre ++ AEmit ev :: rest →
       stopRequested (eng (replay o (resetEngine s0) (pre ++ [AEmit ev]))) = true →
       rest = [])
  ∧ (∀ sharing cnt seriesSizeV seriesCountV (delayV : num) forceGCV memV (totalSteps : num)
       plan sizes pathKeys pathKey items size (shared : option (list D)) func
       (dataArray : list D) n durations (cur : num) s,
       stopRequested (eng s) = true →
       runGroups o sharing cnt seriesSizeV seriesCountV delayV forceGCV memV totalSteps
         plan sizes pathKeys cur s = (Ok cur, s)
       ∧ runSizes o sharing cnt seriesSizeV seriesCountV delayV forceGCV memV totalSteps
           pathKey items sizes cur s = (Ok cur, s)
       ∧ runItems o cnt seriesSizeV seriesCountV delayV forceGCV memV totalSteps
           pathKey size shared items cur s = (Ok cur, s)
       ∧ seriesLoop o seriesSizeV delayV forceGCV func dataArray n durations s
         = (Ok durations, s))
  ∧ (∀ cnt seriesSizeV seriesCountV (delayV : num) forceGCV memV (totalSteps : num)
       item func size (shared : option (list D)) (cur : num) s c,
       let unit := runMeasure o cnt seriesSizeV seriesCountV delayV forceGCV memV totalSteps
                     item func size shared cur in
       (unit s).1 = Ok c →
       ∃ (dataArray : list D) (durations : list num) (ev : ProgressEvent num),
         let generation := ownGeneration cnt (rf_dataGenerator func) size shared in
         let block := seriesBlock seriesSizeV delayV forceGCV func dataArray in
         actsOf unit s = generation ++ concat (replicate (length durations) block) ++
                         memorySampling memV func dataArray ++ [AEmit ev] ∧
         (length durations ≤ N.to_nat seriesCountV)%nat ∧
         (∀ j, (j < length durations)%nat →
               stopRequested (eng (replay o s (generation ++ concat (replicate j block))))
               = false) ∧
         ((length durations < N.to_nat seriesCountV)%nat →
          stopRequested
            (eng (replay o s (generation ++ concat (replicate (length durations) block))))
          = true) ∧
         ev_path ev = rf_path func ∧
         ∃ r, ev_result ev = Some r ∧ length (mr_series r) = length durations)
  ∧ (∀ cnt (totalSteps : num) item customEval size (shared : option (list D)) (cur : num)
       s c,
       let unit := runEvaluate o cnt totalSteps item customEval size shared cur in
       (unit s).1 = Ok c →
       ∃ (dataArray : list D) (ev : ProgressEvent num),
         actsOf unit s =
           match shared with
           | Some _ => map (fun d => AFn (ce_fn customEval) (Some d)) dataArray
           | None => flat_map (fun d => [AGen (ce_dataGenerator customEval) size;
                                         AFn (ce_fn customEval) (Some d)]) dataArray
           end ++ [AEmit ev] ∧
         match shared with
         | Some l => dataArray = l
         | None => length dataArray = N.to_nat cnt
         end ∧
         ev_path ev = ce_path customEval ∧
         ∃ c', ev_customResult ev = Some c' ∧ length (cr_values c') = length dataArray)
  ∧ (let run := runMeasurements Scenarios.stopEnv Scenarios.registryA
                  Scenarios.configStopMemory in
     let acts := actsOf run Scenarios.idle in
     (run Scenarios.idle).1 = Ok tt ∧
     stopRequested (eng (replay Scenarios.stopEnv Scenarios.idle (take 6 acts))) = false ∧
     stopRequested (eng (replay Scenarios.stopEnv Scenarios.idle (take 7 acts))) = true ∧
     ∃ ev r,
       drop 6 acts = [AFn 1 (Some 10%float); ATime; ADelay 1%float] ++
                     memorySampling (Some 2%N) (Scenarios.measureFn 1 7 ["G"; "a"])
                       (replicate 5 10%float) ++ [AEmit ev] ∧
       ev_path ev = Some ["G"; "a"] ∧ ev_result ev = Some r ∧
       length (mr_series r) = 1%nat ∧ (length <$> mr_memory r) = Some 2%nat).
Proof.
  split; [|split; [|split; [|split; [|split; [|split]]]]].
  - unfold runMeasurements.
    destruct (runWith_general o true registry config s0) as (acts & Hs & _ & _ & _ & He).
    by rewrite (actsOf_replay o _ s0 (resetEngine s0) acts eq_refl Hs).
  - intros s acts. apply replay_stop.
  - apply (runWith_ends o true).
  - intros sharing cnt seriesSizeV seriesCountV delayV forceGCV memV totalSteps plan sizes
      pathKeys pathKey items size shared func dataArray n durations cur s Hstop.
    split; [|split; [|split]].
    + destruct pathKeys; simpl; [reflexivity|]. unfold ifState. by rewrite Hstop.
    + destruct sizes; simpl; [reflexivity|]. unfold ifState. by rewrite Hstop.
    + destruct items; simpl; [reflexivity|]. unfold ifState. by rewrite Hstop.
    + destruct n; simpl; [reflexivity|]. unfold ifState. by rewrite Hstop.
  - intros cnt seriesSizeV seriesCountV delayV forceGCV memV totalSteps item func size shared
      cur s c unit Hok.
    destruct (performs_actsOf _ _ s c
                (performs_runMeasure o cnt seriesSizeV seriesCountV delayV forceGCV memV
                   totalSteps item func size shared cur) Hok)
      as (dataArray & durations & ev & Hacts & _ & Hrest).
    by exists dataArray, durations, ev.
  - intros cnt totalSteps item customEval size shared cur s c unit Hok.
    exact (performs_actsOf _ _ s c
             (performs_runEvaluate o cnt totalSteps item customEval size shared cur) Hok).
  - vm_compute. split; [reflexivity|]. split; [reflexivity|]. split; [reflexivity|].
    eexists. eexists. repeat split.
Qed.

End Stop.
